(** * Rate-limited concurrent batch dispatcher ([rpmControlledBatch])

    A shallow embedding of [rpmControlledBatch] from
    [AINaming/geminiCaller.mjs] (the sliding-window dispatcher) and of its
    fixed-bucket predecessor, together with the properties of the
    dispatcher that the specification states.

    Modelling conventions.
    - Time is an integer number of milliseconds ([Date.now()]); the clock
      never runs backwards.  A callback of the JavaScript event loop runs
      at a single instant: time passes only between callbacks.  What
      follows an [await] on an already settled promise runs in the
      microtasks of the same turn, before any other timer or settlement,
      and belongs to the same step.
    - JavaScript numbers are modelled by [Z]; [NaN] is kept separate.
      Integers are exact in JavaScript up to [2 ^ 53]: the model is one
      of timestamps, delays and counts below that.
    - The event loop is a pool of pending continuations (timers, sleeping
      waiters, in-flight calls of [asyncFn]); one action fires one of
      them.  Timers may fire late, never early.
    - [asyncFn] is opaque: the environment settles an in-flight call with
      an arbitrary outcome (a resolved value or a thrown value). *)

From Stdlib Require Import ZArith String Ascii Sorted Permutation.
From stdpp Require Import base tactics option list sets gmap sorting numbers strings.

Open Scope Z_scope.
Set Warnings "-register-all".

(** ** JavaScript values *)

Inductive jsval : Type :=
| JUndefined
| JNull
| JBool (b : bool)
| JNum (n : Z)
| JNaN
| JStr (s : string)
| JArr (xs : list jsval)
| JObj (fields : list (string * jsval)).

(** ToBoolean. *)
Definition truthy (v : jsval) : bool :=
  match v with
  | JUndefined | JNull | JNaN => false
  | JBool b => b
  | JNum n => negb (n =? 0)
  | JStr s => negb (String.eqb s EmptyString)
  | JArr _ | JObj _ => true
  end.

(** Lookup in the own properties of an object literal. *)
Fixpoint assoc (k : string) (fields : list (string * jsval)) : option jsval :=
  match fields with
  | [] => None
  | (k', v) :: rest => if String.eqb k k' then Some v else assoc k rest
  end.

(** [v[k]] for a property name [k] that is not a built-in of arrays,
    strings or numbers ([status], [errorDetails], [@type], [retryDelay],
    [error]): [None] is the [TypeError] raised on [undefined] and [null]. *)
Definition get_prop (v : jsval) (k : string) : option jsval :=
  match v with
  | JUndefined | JNull => None
  | JObj fields => Some (default JUndefined (assoc k fields))
  | _ => Some JUndefined
  end.

Definition isArray (v : jsval) : bool :=
  match v with JArr _ => true | _ => false end.

(** Whether the conversion to a string that a template literal applies to
    a value that is not an array raises a [TypeError].  An object that
    holds data only has no [toString] of its own that could be called:
    with a property of that name the conversion finds nothing to call
    ([valueOf] gives back the object), without one it gives
    ["[object Object]"]; every other value has a string. *)
Definition conversion_throws (v : jsval) : bool :=
  match v with
  | JObj fields =>
      match assoc "toString" fields with
      | Some _ => true
      | None => false
      end
  | _ => false
  end.

(** ** Strings: [includes], [replace], [parseInt] *)

(** [s.includes(sub)]. *)
Fixpoint str_includes (sub s : string) : bool :=
  String.prefix sub s ||
  match s with
  | EmptyString => false
  | String _ s' => str_includes sub s'
  end.

Fixpoint str_drop (n : nat) (s : string) : string :=
  match n, s with
  | O, _ => s
  | S n', String _ s' => str_drop n' s'
  | S _, EmptyString => EmptyString
  end.

(** [s.replace(pat, rep)] with a string pattern: the first occurrence only. *)
Fixpoint str_replace (pat rep s : string) : string :=
  if String.prefix pat s then String.append rep (str_drop (String.length pat) s)
  else match s with
       | EmptyString => EmptyString
       | String c s' => String c (str_replace pat rep s')
       end.

(** The white space of one byte: TAB, LF, VT, FF, CR and the space. *)
Definition is_space (c : ascii) : bool :=
  let n := nat_of_ascii c in
  ((9 <=? n) && (n <=? 13))%nat || (n =? 32)%nat.

(** The white space that takes three bytes in UTF-8: U+1680, U+2000 to
    U+200A, U+2028, U+2029, U+202F, U+205F, U+3000 and U+FEFF. *)
Definition is_space3 (b1 b2 b3 : nat) : bool :=
  ((b1 =? 225) && (b2 =? 154) && (b3 =? 128)
   || (b1 =? 226) && (b2 =? 128)
      && ((128 <=? b3) && (b3 <=? 138) || (b3 =? 168) || (b3 =? 169) || (b3 =? 175))
   || (b1 =? 226) && (b2 =? 129) && (b3 =? 159)
   || (b1 =? 227) && (b2 =? 128) && (b3 =? 128)
   || (b1 =? 239) && (b2 =? 187) && (b3 =? 191))%nat.

(** A white-space character or line terminator of JavaScript at the head
    of a string: what follows it.  Strings are held in UTF-8; U+00A0
    takes two bytes. *)
Definition white_space (s : string) : option string :=
  match s with
  | EmptyString => None
  | String c r =>
      let b1 := nat_of_ascii c in
      if is_space c then Some r
      else if (b1 =? 194)%nat then
        match r with
        | String d r2 => if (nat_of_ascii d =? 160)%nat then Some r2 else None
        | EmptyString => None
        end
      else if ((b1 =? 225) || (b1 =? 226) || (b1 =? 227) || (b1 =? 239))%nat then
        match r with
        | String d (String e r3) =>
            if is_space3 b1 (nat_of_ascii d) (nat_of_ascii e) then Some r3 else None
        | _ => None
        end
      else None
  end.

Fixpoint skip_spaces_within (fuel : nat) (s : string) : string :=
  match fuel with
  | O => s
  | S fuel' =>
      match white_space s with
      | Some r => skip_spaces_within fuel' r
      | None => s
      end
  end.

(** The string without its leading white space: a string has no more
    white-space characters than bytes. *)
Definition skip_spaces (s : string) : string :=
  skip_spaces_within (String.length s) s.

(** Value of a character as a digit in the given radix (10 or 16). *)
Definition digit_val (radix : Z) (c : ascii) : option Z :=
  let n := Z.of_nat (nat_of_ascii c) in
  let d :=
    if (48 <=? n) && (n <=? 57) then Some (n - 48)
    else if (97 <=? n) && (n <=? 102) then Some (n - 87)
    else if (65 <=? n) && (n <=? 70) then Some (n - 55)
    else None in
  match d with
  | Some x => if x <? radix then Some x else None
  | None => None
  end.

(** The longest prefix of digits, accumulated from the left; the flag says
    whether a digit was seen. *)
Fixpoint parse_digits (radix : Z) (s : string) (acc : Z) (seen : bool) : option Z :=
  match s with
  | String c s' =>
      match digit_val radix c with
      | Some d => parse_digits radix s' (acc * radix + d) true
      | None => if seen then Some acc else None
      end
  | EmptyString => if seen then Some acc else None
  end.

(** [parseInt(s)] without a radix argument; [None] is [NaN].  The value
    is the integer the digits denote.  JavaScript returns it as a
    double: the two agree up to [2 ^ 53], beyond which JavaScript rounds
    (and gives [Infinity] from [2 ^ 1024] on). *)
Definition parseInt (s : string) : option Z :=
  let s1 := skip_spaces s in
  let '(sign, s2) :=
    match s1 with
    | String "-"%char r => (-1, r)
    | String "+"%char r => (1, r)
    | _ => (1, s1)
    end in
  let '(radix, s3) :=
    match s2 with
    | String "0"%char (String "x"%char r) => (16, r)
    | String "0"%char (String "X"%char r) => (16, r)
    | _ => (10, s2)
    end in
  match parse_digits radix s3 0 false with
  | Some m => Some (sign * m)
  | None => None
  end.

(** ** The rate window *)

Definition windowDuration : Z := 60 * 1000.

(** [requestTimestamps.sort((a, b) => a - b)]. *)
Definition sort_asc (ts : list Z) : list Z := merge_sort Z.le ts.

(** [requestTimestamps.filter(ts => now - ts < windowDuration)]. *)
Definition prune (now : Z) (ts : list Z) : list Z :=
  filter (λ t, now - t < windowDuration) ts.

(** A wait time is a JavaScript number; [None] stands for [NaN]
    (arithmetic on [requestTimestamps[0]] when the array is empty). *)
Definition wait := option Z.

(** [waitTime > 0]: false for [NaN]. *)
Definition positive_wait (w : wait) : bool :=
  match w with
  | Some z => 0 <? z
  | None => false
  end.

(** [getTimeUntilNextSlot]: the pruned window and the wait time. *)
Definition getTimeUntilNextSlot (rpm now : Z) (ts : list Z) : list Z * wait :=
  let ts' := prune now ts in
  if Z.of_nat (length ts') <? rpm then (ts', Some 0)
  else match ts' with
       | [] => (ts', None)
       | oldestRequest :: _ =>
           let waitTime := (oldestRequest + windowDuration) - now in
           (ts', Some (Z.max 0 (waitTime + 100)))
       end.

(** ** Outcomes of [asyncFn] and the throttle signal *)

Inductive outcome : Type :=
| Resolved (v : jsval)
| Rejected (e : jsval).

(** What is stored in [results[taskIndex]]: the resolved value as it is,
    or [{ error }] around the thrown value. *)
Definition stored (o : outcome) : jsval :=
  match o with
  | Resolved v => v
  | Rejected e => JObj [("error"%string, e)]
  end.

(** [t.includes('RetryInfo')] for a truthy [t]; [None] is the [TypeError]
    of calling a method the value does not have. *)
Definition includes_RetryInfo (t : jsval) : option bool :=
  match t with
  | JStr s => Some (str_includes "RetryInfo" s)
  | JArr xs =>
      Some (existsb (λ x, match x with
                          | JStr s => String.eqb s "RetryInfo"
                          | _ => false
                          end) xs)
  | _ => None
  end.

(** The callback [d => d['@type'] && d['@type'].includes('RetryInfo')],
    reduced to the truthiness [find] looks at. *)
Definition is_retry_info (d : jsval) : option bool :=
  match get_prop d "@type" with
  | None => None
  | Some t => if truthy t then includes_RetryInfo t else Some false
  end.

(** [ds.find(...)]: the outer [None] is an exception raised by the
    callback, the inner one is [undefined]. *)
Fixpoint find_retry_info (ds : list jsval) : option (option jsval) :=
  match ds with
  | [] => Some None
  | d :: rest =>
      match is_retry_info d with
      | None => None
      | Some true => Some (Some d)
      | Some false => find_retry_info rest
      end
  end.

(** The body of the inner [try]: [None] is an exception (caught by the
    inner [catch]); [Some None] means that no blocking timestamp is
    pushed; [Some (Some ms)] is a [retryDelayMs > 0]. *)
Definition parse_retry_delay (errorDetails : jsval) : option (option Z) :=
  match errorDetails with
  | JArr ds =>
      match find_retry_info ds with
      | None => None
      | Some None => Some None
      | Some (Some retryInfo) =>
          match get_prop retryInfo "retryDelay" with
          | None => None
          | Some rd =>
              if truthy rd then
                match rd with
                | JStr s =>
                    let retryDelaySec := str_replace "s" "" s in
                    match parseInt retryDelaySec with
                    | Some n =>
                        let retryDelayMs := n * 1000 in
                        if 0 <? retryDelayMs then Some (Some retryDelayMs)
                        else Some None
                    | None => Some None
                    end
                | _ => None
                end
              else Some None
          end
      end
  | _ => None
  end.

(** The decision taken by the [catch] block of [executeTask]. *)
Inductive throttle : Type :=
| CatchThrows          (* [error.status] itself raised: [error] is nullish *)
| NotThrottle          (* not a 429 with [errorDetails] *)
| NoCooldown           (* a 429 from which no positive delay was read *)
| Cooldown (ms : Z)    (* [retryDelayMs] *)
| DefaultCooldown.     (* the inner [catch]: 30000 *)

Definition throttle_of (error : jsval) : throttle :=
  match get_prop error "status", get_prop error "errorDetails" with
  | Some (JNum 429), Some details =>
      if truthy details then
        match parse_retry_delay details with
        | None => DefaultCooldown
        | Some None => NoCooldown
        | Some (Some ms) => Cooldown ms
        end
      else NotThrottle
  | Some _, _ => NotThrottle
  | None, _ => CatchThrows
  end.

(** A thrown value whose [status] cannot even be read: the [TypeError]
    raised inside the [catch] block leaves [executeTask]. *)
Definition catch_throws (o : outcome) : bool :=
  match o with
  | Rejected error =>
      match throttle_of error with
      | CatchThrows => true
      | _ => false
      end
  | Resolved _ => false
  end.

(** The cooldown a [throttle] decision applies, if any. *)
Definition cooldown_ms (th : throttle) : option Z :=
  match th with
  | Cooldown ms => Some ms
  | DefaultCooldown => Some 30000
  | _ => None
  end.

(** ** Configuration *)

(** The [options] argument; [None] is a field that is missing, or that
    holds [NaN] (what the caller's [parseInt] makes of a malformed
    environment variable). *)
Record options : Type := { opt_rpm : option Z; opt_maxConcurrent : option Z }.

Record config : Type := { rpm : Z; maxConcurrent : Z; fnArgs : list jsval }.

(** [x || d] on an optional number: [undefined], [NaN] and [0] are falsy. *)
Definition or_default (x : option Z) (d : Z) : Z :=
  match x with
  | None | Some 0 => d
  | Some v => v
  end.

Definition configure (opts : options) (args : list jsval) : config :=
  let r := or_default (opt_rpm opts) 10 in
  {| rpm := r; maxConcurrent := or_default (opt_maxConcurrent opts) r; fnArgs := args |}.

(** *** The [options] argument as it is passed *)







(** ** Dispatcher state *)

(** Continuations waiting in the event loop; and, with [PDead], an
    [executeTask] that an exception has left before [completeTask]: it
    holds its slot and never gives it back. *)
Inductive pending : Type :=
| PProcessQueue (due : Z)
| PExecute (taskIndex : nat)
| PWaiting (taskIndex : nat) (args : list jsval) (due : Z)
| PRunning (taskIndex : nat) (args : list jsval)
| PDead (taskIndex : nat).

(** The body of [rpmControlledBatch] itself: asleep in its polling loop,
    or returned; or the process has ended.  [executeTask] is started by
    a timer and nothing awaits the promise it returns: an exception that
    leaves it is an unhandled rejection, and Node's default for those is
    to end the process, with everything that was still pending. *)
Inductive main_state : Type :=
| Polling (due : Z)
| Returned (res : list (option jsval))
| Crashed.

Record state : Type := {
  clock : Z;
  requestTimestamps : list Z;
  taskQueue : list nat;
  results : list (option jsval);
  activeTaskCount : Z;
  processingQueue : bool;
  pool : list pending;
  main : main_state }.

Inductive event : Type :=
| EvAdmit (taskIndex : nat) (t : Z)
| EvStart (taskIndex : nat) (args : list jsval) (t : Z)
| EvSettle (taskIndex : nat) (args : list jsval) (o : outcome) (t : Z)
| EvBadArgs (taskIndex : nat) (t : Z)
| EvThrottle (t : Z) (ms : Z)
| EvUnhandled (taskIndex : nat) (t : Z)
| EvReturn (t : Z).

Definition set_requestTimestamps (ts : list Z) (s : state) : state :=
  {| clock := clock s; requestTimestamps := ts; taskQueue := taskQueue s;
     results := results s; activeTaskCount := activeTaskCount s;
     processingQueue := processingQueue s; pool := pool s; main := main s |}.

Definition set_taskQueue (q : list nat) (s : state) : state :=
  {| clock := clock s; requestTimestamps := requestTimestamps s; taskQueue := q;
     results := results s; activeTaskCount := activeTaskCount s;
     processingQueue := processingQueue s; pool := pool s; main := main s |}.

Definition set_results (r : list (option jsval)) (s : state) : state :=
  {| clock := clock s; requestTimestamps := requestTimestamps s;
     taskQueue := taskQueue s; results := r;
     activeTaskCount := activeTaskCount s;
     processingQueue := processingQueue s; pool := pool s; main := main s |}.

Definition set_activeTaskCount (n : Z) (s : state) : state :=
  {| clock := clock s; requestTimestamps := requestTimestamps s;
     taskQueue := taskQueue s; results := results s; activeTaskCount := n;
     processingQueue := processingQueue s; pool := pool s; main := main s |}.

Definition set_processingQueue (b : bool) (s : state) : state :=
  {| clock := clock s; requestTimestamps := requestTimestamps s;
     taskQueue := taskQueue s; results := results s;
     activeTaskCount := activeTaskCount s;
     processingQueue := b; pool := pool s; main := main s |}.

Definition set_pool (p : list pending) (s : state) : state :=
  {| clock := clock s; requestTimestamps := requestTimestamps s;
     taskQueue := taskQueue s; results := results s;
     activeTaskCount := activeTaskCount s;
     processingQueue := processingQueue s; pool := p; main := main s |}.

Definition set_main (m : main_state) (s : state) : state :=
  {| clock := clock s; requestTimestamps := requestTimestamps s;
     taskQueue := taskQueue s; results := results s;
     activeTaskCount := activeTaskCount s;
     processingQueue := processingQueue s; pool := pool s; main := m |}.

Definition set_clock (t : Z) (s : state) : state :=
  {| clock := t; requestTimestamps := requestTimestamps s;
     taskQueue := taskQueue s; results := results s;
     activeTaskCount := activeTaskCount s;
     processingQueue := processingQueue s; pool := pool s; main := main s |}.

(** [setTimeout] and the other ways a continuation enters the loop. *)
Definition spawn (p : pending) (s : state) : state :=
  set_pool (pool s ++ [p]) s.

(** ** The dispatcher's functions *)

Section Dispatcher.

Variable cfg : config.

(** [completeTask]. *)
Definition completeTask (s : state) : state :=
  spawn (PProcessQueue (clock s + 50))
        (set_activeTaskCount (activeTaskCount s - 1) s).

(** The [while] loop of [processQueue].  Every iteration that goes on
    shifts one index off [taskQueue], so [length taskQueue] iterations are
    all the loop can make: with that [fuel], running out of it coincides
    with the loop condition being false. *)
Fixpoint processQueue_loop (fuel : nat) (s : state) : state * list event :=
  match fuel with
  | O => (s, [])
  | S fuel' =>
      if (activeTaskCount s <? maxConcurrent cfg)
         && (0 <? Z.of_nat (length (taskQueue s))) then
        let '(ts, waitTime) :=
          getTimeUntilNextSlot (rpm cfg) (clock s) (requestTimestamps s) in
        let s1 := set_requestTimestamps ts s in
        if positive_wait waitTime then
          (spawn (PProcessQueue (clock s1 + default 0 waitTime)) s1, [])
        else
          match taskQueue s1 with
          | taskIndex :: q =>
              let s2 := set_taskQueue q s1 in
              let s3 := set_activeTaskCount (activeTaskCount s2 + 1) s2 in
              let '(s4, evs) := processQueue_loop fuel' (spawn (PExecute taskIndex) s3) in
              (s4, EvAdmit taskIndex (clock s) :: evs)
          | [] => processQueue_loop fuel' s1
          end
      else (s, [])
  end.

(** [processQueue]. *)
Definition processQueue (s : state) : state * list event :=
  if processingQueue s then (s, [])
  else
    let '(s1, evs) :=
      processQueue_loop (length (taskQueue s)) (set_processingQueue true s) in
    (set_processingQueue false s1, evs).

(** [acquireRateLimitSlot] up to its first suspension: either the slot is
    recorded ([None]) or the caller has to sleep ([Some waitTime]) and
    try again. *)
Definition acquireRateLimitSlot (s : state) : state * option Z :=
  let '(ts, waitTime) :=
    getTimeUntilNextSlot (rpm cfg) (clock s) (requestTimestamps s) in
  if positive_wait waitTime then
    (set_requestTimestamps ts s, Some (default 0 waitTime))
  else
    let now := clock s in
    (set_requestTimestamps (sort_asc (ts ++ [now])) s, None).

(** [executeTask] from [await acquireRateLimitSlot()] to the call of
    [asyncFn]: entered when the task starts and again whenever it wakes
    up from the sleep inside [acquireRateLimitSlot]. *)
Definition executeTask_acquire (taskIndex : nat) (args : list jsval) (s : state)
  : state * list event :=
  match acquireRateLimitSlot s with
  | (s1, Some waitTime) => (spawn (PWaiting taskIndex args (clock s1 + waitTime)) s1, [])
  | (s1, None) => (spawn (PRunning taskIndex args) s1, [EvStart taskIndex args (clock s1)])
  end.

Definition bad_args_error : jsval :=
  JObj [("message"%string, JStr "任务参数必须是数组")].

(** [executeTask], from its entry.  Arguments that are not an array are
    first printed in a template literal: when their conversion to a
    string raises, the exception leaves [executeTask] before anything is
    stored and before [completeTask], and the process ends. *)
Definition executeTask (taskIndex : nat) (s : state) : state * list event :=
  if (length (fnArgs cfg) <=? taskIndex)%nat then (s, [])
  else
    match fnArgs cfg !! taskIndex with
    | Some (JArr args) => executeTask_acquire taskIndex args s
    | Some args =>
        if conversion_throws args then
          (set_main Crashed (spawn (PDead taskIndex) s),
           [EvUnhandled taskIndex (clock s)])
        else
          let s1 :=
            set_results (<[taskIndex := Some (JObj [("error"%string, bad_args_error)])]> (results s)) s in
          (completeTask s1, [EvBadArgs taskIndex (clock s)])
    | None => (s, [])
    end.

(** The blocking timestamps of the [catch] block. *)
Definition push_blocking (retryDelayMs : Z) (s : state) : state :=
  let blockingTimestamp := clock s - windowDuration + retryDelayMs in
  set_requestTimestamps
    (sort_asc (requestTimestamps s ++ replicate (Z.to_nat (rpm cfg)) blockingTimestamp)) s.

(** [executeTask] after [asyncFn] has settled: the assignment to
    [results], the [catch] block and the [finally] block.  When the
    thrown value is [undefined] or [null], reading [error.status] raises
    a [TypeError] inside the [catch] block: the [finally] block still
    runs, then the exception leaves [executeTask] and the process
    ends. *)
Definition executeTask_settle (taskIndex : nat) (args : list jsval) (o : outcome)
    (s : state) : state * list event :=
  let now := clock s in
  let s1 := set_results (<[taskIndex := Some (stored o)]> (results s)) s in
  match o with
  | Resolved _ => (completeTask s1, [EvSettle taskIndex args o now])
  | Rejected error =>
      match throttle_of error with
      | CatchThrows =>
          (set_main Crashed (completeTask s1),
           [EvSettle taskIndex args o now; EvUnhandled taskIndex now])
      | NotThrottle | NoCooldown => (completeTask s1, [EvSettle taskIndex args o now])
      | Cooldown ms =>
          (completeTask (push_blocking ms s1),
           [EvSettle taskIndex args o now; EvThrottle now ms])
      | DefaultCooldown =>
          (completeTask (push_blocking 30000 s1),
           [EvSettle taskIndex args o now; EvThrottle now 30000])
      end
  end.

(** One evaluation of [while (activeTaskCount > 0 || taskQueue.length > 0)]
    in the body of [rpmControlledBatch]: sleep 100 ms or return. *)
Definition poll (s : state) : state * list event :=
  if (0 <? activeTaskCount s) || (0 <? Z.of_nat (length (taskQueue s))) then
    (set_main (Polling (clock s + 100)) s, [])
  else (set_main (Returned (results s)) s, [EvReturn (clock s)]).

(** The state the call sets up before its first [processQueue]: the queue
    of all indices, the array of holes, nothing pending. *)
Definition blank (now : Z) : state :=
  let n := length (fnArgs cfg) in
  {| clock := now; requestTimestamps := []; taskQueue := seq 0 n;
     results := replicate n None; activeTaskCount := 0;
     processingQueue := false; pool := []; main := Polling now |}.

(** The call itself, up to its first suspension (or its return). *)
Definition rpmControlledBatch (now : Z) : state * list event :=
  let '(s1, evs1) := processQueue (blank now) in
  let '(s2, evs2) := poll s1 in
  (s2, evs1 ++ evs2).

(** ** The event loop *)

Inductive action : Type :=
| Tick (d : Z)
| Fire (k : nat)
| Settle (k : nat) (o : outcome)
| Poll.

Definition take_pending (k : nat) (s : state) : state :=
  set_pool (delete k (pool s)) s.

(** One turn of the event loop of a live process. *)
Definition turn (a : action) (s : state) : option (state * list event) :=
  match a with
  | Tick d => if 0 <? d then Some (set_clock (clock s + d) s, []) else None
  | Fire k =>
      match pool s !! k with
      | Some (PProcessQueue due) =>
          if due <=? clock s then Some (processQueue (take_pending k s)) else None
      | Some (PExecute taskIndex) => Some (executeTask taskIndex (take_pending k s))
      | Some (PWaiting taskIndex args due) =>
          if due <=? clock s then Some (executeTask_acquire taskIndex args (take_pending k s))
          else None
      | _ => None
      end
  | Settle k o =>
      match pool s !! k with
      | Some (PRunning taskIndex args) =>
          Some (executeTask_settle taskIndex args o (take_pending k s))
      | _ => None
      end
  | Poll =>
      match main s with
      | Polling due => if due <=? clock s then Some (poll s) else None
      | Returned _ | Crashed => None
      end
  end.

(** Once the process has ended nothing happens any more. *)
Definition step (a : action) (s : state) : option (state * list event) :=
  match main s with
  | Crashed => None
  | _ => turn a s
  end.

Fixpoint run (acts : list action) (s : state) : option (state * list event) :=
  match acts with
  | [] => Some (s, [])
  | a :: rest =>
      match step a s with
      | Some (s1, evs1) =>
          match run rest s1 with
          | Some (s2, evs2) => Some (s2, evs1 ++ evs2)
          | None => None
          end
      | None => None
      end
  end.

(** An execution of the call made at time [now]: the state it reaches and
    the events so far, oldest first. *)
Definition execution (now : Z) (acts : list action) : option (state * list event) :=
  let '(s0, evs0) := rpmControlledBatch now in
  match run acts s0 with
  | Some (s, evs) => Some (s, evs0 ++ evs)
  | None => None
  end.

End Dispatcher.

(** ** Reachable states and what holds in them *)

(** The states an execution can reach, with the events so far. *)
Inductive reach (cfg : config) : state → list event → Prop :=
| reach_call now s evs :
    rpmControlledBatch cfg now = (s, evs) → reach cfg s evs
| reach_step s evs a s' evs' :
    reach cfg s evs → step cfg a s = Some (s', evs') → reach cfg s' (evs ++ evs').

(** The task a pending continuation belongs to: a task is in flight from
    its admission by [processQueue] to its [completeTask]. *)
Definition inflight_task (p : pending) : option nat :=
  match p with
  | PProcessQueue _ => None
  | PExecute i | PWaiting i _ _ | PRunning i _ | PDead i => Some i
  end.

Definition inflight (pl : list pending) : list nat := omap inflight_task pl.

(** The assignment to [results] an event stands for. *)
Definition written (ev : event) : option (nat * jsval) :=
  match ev with
  | EvSettle i _ o _ => Some (i, stored o)
  | EvBadArgs i _ => Some (i, JObj [("error"%string, bad_args_error)])
  | _ => None
  end.

Definition writes (evs : list event) : list (nat * jsval) := omap written evs.

(** The time of a slot recording. *)
Definition start_time (ev : event) : option Z :=
  match ev with
  | EvStart _ _ t => Some t
  | _ => None
  end.

Definition start_times (evs : list event) : list Z := omap start_time evs.

(** The starts inside the trailing window that ends at [t]: later than
    [t - 60000], not later than [t]. *)
Definition starts_in_window (t : Z) (starts : list Z) : list Z :=
  filter (λ u, t - windowDuration < u ∧ u ≤ t) starts.

(** A suspended [executeTask] holds the argument array of its task. *)
Definition args_ok (cfg : config) (p : pending) : Prop :=
  match p with
  | PWaiting i args _ | PRunning i args => fnArgs cfg !! i = Some (JArr args)
  | _ => True
  end.

(** Structure of the dispatcher's state. *)
Record wf (cfg : config) (s : state) : Prop := {
  wf_results : length (results s) = length (fnArgs cfg);
  wf_flag : processingQueue s = false;
  wf_active : activeTaskCount s = Z.of_nat (length (inflight (pool s)));
  wf_nodup : NoDup (taskQueue s ++ inflight (pool s));
  wf_unsettled :
    ∀ i, i ∈ taskQueue s ++ inflight (pool s) ↔ results s !! i = Some None;
  wf_args : ∀ p, p ∈ pool s → args_ok cfg p;
  wf_main :
    ∀ res, main s = Returned res →
           res = results s ∧ taskQueue s = [] ∧ inflight (pool s) = [] }.

(** How the events account for [results]. *)
Record accounted (cfg : config) (s : state) (evs : list event) : Prop := {
  acc_nodup : NoDup (writes evs).*1;
  acc_results :
    ∀ i v, (i, v) ∈ writes evs ↔ results s !! i = Some (Some v);
  acc_settle :
    ∀ i args o t, EvSettle i args o t ∈ evs →
                  fnArgs cfg !! i = Some (JArr args) ∧ ∃ t0, EvStart i args t0 ∈ evs;
  acc_running :
    ∀ i args, PRunning i args ∈ pool s → ∃ t0, EvStart i args t0 ∈ evs;
  acc_bad :
    ∀ i t, EvBadArgs i t ∈ evs →
           ∃ v, fnArgs cfg !! i = Some v ∧ isArray v = false }.

(** In a live process no task has died. *)
Definition undead (s : state) : Prop :=
  main s ≠ Crashed → ∀ i, PDead i ∉ pool s.

(** The dispatcher cannot stall: work left in the queue has something
    pending that will look at it. *)
Definition attended (s : state) : Prop :=
  taskQueue s ≠ [] →
  inflight (pool s) ≠ [] ∨ ∃ due, PProcessQueue due ∈ pool s.

(** The rate window against the real starts. *)
Record rated (cfg : config) (s : state) (evs : list event) : Prop := {
  rated_window : prune (clock s) (start_times evs) ⊆+ requestTimestamps s;
  rated_bound :
    ∀ t, Z.of_nat (length (starts_in_window t (start_times evs))) ≤ rpm cfg }.

(** The active-task counter replayed from the events: an admission adds
    one, a settlement (or the refusal of malformed arguments) takes one
    away. *)
Definition counter_step (c : Z) (ev : event) : Z :=
  match ev with
  | EvAdmit _ _ => c + 1
  | EvSettle _ _ _ _ | EvBadArgs _ _ => c - 1
  | _ => c
  end.

Definition counter_after (c : Z) (evs : list event) : Z := foldl counter_step c evs.

(** Every admission in [evs] found the counter, replayed from [c], below
    [limit]. *)
Fixpoint admitted_below (limit c : Z) (evs : list event) : Prop :=
  match evs with
  | [] => True
  | ev :: rest =>
      match ev with
      | EvAdmit _ _ => c < limit
      | _ => True
      end ∧ admitted_below limit (counter_step c ev) rest
  end.

(** After a throttle signal at [T] with delay [D], no slot is recorded
    before [T + D]. *)
Definition cooldown_respected (evs : list event) : Prop :=
  ∀ j k T D i args t,
    evs !! j = Some (EvThrottle T D) →
    evs !! k = Some (EvStart i args t) →
    (j < k)%nat →
    T + D ≤ t.

(** While a cooldown lasts, its [rpm] blocking timestamps sit in the
    window. *)
Definition cooldowns_pending (cfg : config) (s : state) (evs : list event) : Prop :=
  ∀ T D, EvThrottle T D ∈ evs → clock s < T + D →
         replicate (Z.to_nat (rpm cfg)) (T - windowDuration + D)
           ⊆+ requestTimestamps s.

Definition blocked (cfg : config) (s : state) (evs : list event) : Prop :=
  cooldowns_pending cfg s evs ∧ cooldown_respected evs.

(** The counter agrees with the events, and admissions respect
    [maxConcurrent]. *)
Definition counted (cfg : config) (s : state) (evs : list event) : Prop :=
  counter_after 0 evs = activeTaskCount s ∧
  admitted_below (maxConcurrent cfg) 0 evs.

(** The throttle signals among the events. *)
Definition throttles (evs : list event) : list (Z * Z) :=
  omap (λ ev, match ev with EvThrottle t ms => Some (t, ms) | _ => None end) evs.

(** The timestamps of the window that count as active at the current
    time. *)
Definition active_timestamps (s : state) : list Z :=
  prune (clock s) (requestTimestamps s).

(** The window holds at most [rpm] active timestamps for the real starts
    and [rpm] more for every cooldown raised so far. *)
Definition crowded (cfg : config) (s : state) (evs : list event) : Prop :=
  Z.of_nat (length (active_timestamps s))
    ≤ rpm cfg * (1 + Z.of_nat (length (throttles evs))).

(** The cooldowns still running at time [now]: raised at [T] for [D]
    milliseconds, with [now] before [T + D]. *)
Definition pending_cooldowns (now : Z) (evs : list event) : list (Z * Z) :=
  filter (λ c, now < c.1 + c.2) (throttles evs).

(** The blocking timestamps the [catch] block has pushed: [rpm] copies of
    [T - windowDuration + D] for a cooldown of [D] raised at [T]. *)
Definition blocking_timestamps (cfg : config) (cooldowns : list (Z * Z)) : list Z :=
  c ← cooldowns; replicate (Z.to_nat (rpm cfg)) (c.1 - windowDuration + c.2).

(** Where the timestamps of the window come from: each is a recorded
    start or a blocking timestamp, and no start lies in the future. *)
Definition sourced (cfg : config) (s : state) (evs : list event) : Prop :=
  requestTimestamps s
    ⊆+ start_times evs ++ blocking_timestamps cfg (throttles evs) ∧
  ∀ t, t ∈ start_times evs → t ≤ clock s.

(** The time a pending timer is due. *)
Definition due_time (p : pending) : option Z :=
  match p with
  | PProcessQueue due | PWaiting _ _ due => Some due
  | PExecute _ | PRunning _ _ | PDead _ => None
  end.

(** An instant by which every timer is due and every timestamp of the
    window has left it. *)
Definition horizon (s : state) : Z :=
  foldr Z.max (clock s)
    (((λ t, t + windowDuration) <$> requestTimestamps s)
       ++ omap due_time (pool s)
       ++ match main s with Polling due => [due] | _ => [] end).

(** Work left to do: a queued task still has to be admitted and to
    settle, a task in flight only to settle. *)
Definition remaining_work (s : state) : nat :=
  2 * length (taskQueue s) + length (inflight (pool s)).

(** The settlements among [evs] are those the oracle [f] prescribes. *)
Definition settles_follow (f : nat → outcome) (evs : list event) : Prop :=
  ∀ i args o t, EvSettle i args o t ∈ evs → o = f i.

(** ** Sample runs *)

(** A run of three tasks under [rpm = 2], [maxConcurrent = 2]: two start at
    once, the third finds the window full and has to wait for a minute. *)
(** An object whose own [toString] is not a function, passed where an
    argument array is expected. *)
Definition unprintable : jsval := JObj [("toString"%string, JNull)].

Definition unprintable_cfg : config :=
  configure {| opt_rpm := Some 2; opt_maxConcurrent := Some 2 |}
            [unprintable; JArr [JStr "b"]].

Definition demo_cfg : config :=
  configure {| opt_rpm := Some 2; opt_maxConcurrent := Some 2 |}
            [JArr [JStr "a"]; JArr [JStr "b"]; JArr [JStr "c"]].

Definition demo_acts : list action :=
  [Fire 0; Fire 0; Tick 10; Settle 0 (Resolved (JNum 1));
   Settle 0 (Rejected (JStr "boom")); Tick 50; Fire 0; Fire 0;
   Tick 60050; Fire 0; Fire 0; Fire 0; Settle 0 (Resolved (JNum 3));
   Tick 100; Poll].


(** The run of [demo_acts] up to the moment the call made for the second
    task is about to fail. *)
Definition demo_prefix : list action :=
  [Fire 0; Fire 0; Tick 10; Settle 0 (Resolved (JNum 1))].

(** A 429 of the Gemini API that advises to retry in 38 seconds. *)
Definition retry_info_error : jsval :=
  JObj [("status"%string, JNum 429);
        ("errorDetails"%string,
         JArr [JObj [("@type"%string, JStr "type.googleapis.com/google.rpc.RetryInfo");
                     ("retryDelay"%string, JStr "38s")]])].

(** A 429 whose details carry a quota failure and no [RetryInfo]. *)
Definition quota_error : jsval :=
  JObj [("status"%string, JNum 429);
        ("errorDetails"%string,
         JArr [JObj [("@type"%string, JStr "type.googleapis.com/google.rpc.QuotaFailure")]])].

(** A 429 whose [RetryInfo] has a delay that [parseInt] cannot read. *)
Definition garbled_error : jsval :=
  JObj [("status"%string, JNum 429);
        ("errorDetails"%string,
         JArr [JObj [("@type"%string, JStr "type.googleapis.com/google.rpc.RetryInfo");
                     ("retryDelay"%string, JStr "soon")]])].

(** One task under [rpm = 1] that is throttled ten milliseconds after its
    start. *)
Definition crowd_cfg : config :=
  configure {| opt_rpm := Some 1; opt_maxConcurrent := Some 1 |} [JArr [JStr "a"]].

Definition crowd_acts : list action :=
  [Fire 0; Tick 10; Settle 0 (Rejected retry_info_error)].

(** Two tasks, one at a time; the first fails with a 429 that has no
    [RetryInfo], the second starts fifty milliseconds later. *)
Definition quota_cfg : config :=
  configure {| opt_rpm := Some 2; opt_maxConcurrent := Some 1 |}
            [JArr [JStr "a"]; JArr [JStr "b"]].

Definition quota_acts : list action :=
  [Fire 0; Tick 10; Settle 0 (Rejected quota_error); Tick 50; Fire 0; Fire 0].

(** The same two tasks when the first is throttled for 38 seconds. *)
Definition cooldown_acts : list action :=
  [Fire 0; Tick 10; Settle 0 (Rejected retry_info_error); Tick 50; Fire 0;
   Tick 38050; Fire 0; Fire 0].

(** Two tasks under [rpm = 1], one at a time: the first settles just in
    time for [processQueue] to run at 60000 ms sharp. *)
Definition boundary_cfg : config :=
  configure {| opt_rpm := Some 1; opt_maxConcurrent := Some 1 |}
            [JArr [JStr "a"]; JArr [JStr "b"]].

Definition boundary_acts : list action :=
  [Fire 0; Tick 59950; Settle 0 (Resolved JNull); Tick 50; Fire 0; Fire 0].





(** What [exampleRpmControlled] does with an entry of the returned array:
    [if (result.error)] reports a failure.  [None] is the [TypeError] of
    reading a property of [undefined] or [null]. *)
Definition reported_as_failure (result : jsval) : option bool :=
  match get_prop result "error" with
  | Some e => Some (truthy e)
  | None => None
  end.

(** * The fixed-bucket variant

    The earlier [rpmControlledBatch]: a counter of the requests of the
    current one-minute bucket, reset when a task finds the bucket over,
    and again by every task that wakes up from waiting for it to end. *)

Module FixedBucket.

(** Continuations waiting in the event loop; and, with [PDead], an
    [executeTask] that an exception has left before [executing.delete]:
    it holds its slot and never gives it back. *)
Inductive pending : Type :=
| PWaiting (taskIndex : nat) (args : list jsval) (due : Z)
| PRunning (taskIndex : nat) (args : list jsval)
| PDead (taskIndex : nat).

Record state : Type := {
  clock : Z;
  requestsInWindow : Z;
  windowStartTime : Z;
  taskQueue : list nat;
  results : list (option jsval);
  executing : gset nat;
  pool : list pending;
  main : main_state }.

Inductive event : Type :=
| EvStart (taskIndex : nat) (args : list jsval) (t : Z)
| EvSettle (taskIndex : nat) (args : list jsval) (o : outcome) (t : Z)
| EvBadArgs (taskIndex : nat) (t : Z)
| EvReturn (t : Z).

Definition set_window (start count : Z) (s : state) : state :=
  {| clock := clock s; requestsInWindow := count; windowStartTime := start;
     taskQueue := taskQueue s; results := results s; executing := executing s;
     pool := pool s; main := main s |}.

Definition set_tasks (q : list nat) (e : gset nat) (s : state) : state :=
  {| clock := clock s; requestsInWindow := requestsInWindow s;
     windowStartTime := windowStartTime s;
     taskQueue := q; results := results s; executing := e;
     pool := pool s; main := main s |}.

Definition set_results (r : list (option jsval)) (s : state) : state :=
  {| clock := clock s; requestsInWindow := requestsInWindow s;
     windowStartTime := windowStartTime s;
     taskQueue := taskQueue s; results := r; executing := executing s;
     pool := pool s; main := main s |}.

Definition set_pool (p : list pending) (s : state) : state :=
  {| clock := clock s; requestsInWindow := requestsInWindow s;
     windowStartTime := windowStartTime s;
     taskQueue := taskQueue s; results := results s; executing := executing s;
     pool := p; main := main s |}.

Definition set_main (m : main_state) (s : state) : state :=
  {| clock := clock s; requestsInWindow := requestsInWindow s;
     windowStartTime := windowStartTime s;
     taskQueue := taskQueue s; results := results s; executing := executing s;
     pool := pool s; main := m |}.

Definition set_clock (t : Z) (s : state) : state :=
  {| clock := t; requestsInWindow := requestsInWindow s;
     windowStartTime := windowStartTime s;
     taskQueue := taskQueue s; results := results s; executing := executing s;
     pool := pool s; main := main s |}.

Definition spawn (p : pending) (s : state) : state := set_pool (pool s ++ [p]) s.

Section Bucket.

Variable cfg : config.

(** [requestsInWindow++] and the call of [asyncFn]. *)
Definition invoke (taskIndex : nat) (args : list jsval) (s : state)
  : state * list event :=
  (spawn (PRunning taskIndex args)
         (set_window (windowStartTime s) (requestsInWindow s + 1) s),
   [EvStart taskIndex args (clock s)]).

(** [executeTask] up to its first suspension.  It calls itself on the
    next queued task when the arguments are not an array, once per index
    shifted off the queue: [fuel] is one more than the length of the
    queue.  Arguments that are not an array are first printed in a
    template literal: when their conversion to a string raises, the
    exception leaves [executeTask] before anything is stored, nothing
    handles the rejected promise and the process ends once the code that
    is running has come to its next suspension. *)
Fixpoint executeTask (fuel : nat) (taskIndex : nat) (s : state)
  : state * list event :=
  match fuel with
  | O => (s, [])
  | S fuel' =>
      if (length (fnArgs cfg) <=? taskIndex)%nat then (s, [])
      else
        match fnArgs cfg !! taskIndex with
        | Some (JArr args) =>
            let now := clock s in
            let timeElapsed := now - windowStartTime s in
            if windowDuration <=? timeElapsed then
              invoke taskIndex args (set_window now 0 s)
            else if rpm cfg <=? requestsInWindow s then
              let waitTime := windowDuration - timeElapsed in
              (spawn (PWaiting taskIndex args (now + waitTime)) s, [])
            else invoke taskIndex args s
        | Some args =>
            if conversion_throws args then
              (set_main Crashed (spawn (PDead taskIndex) s), [])
            else
              let s1 :=
                set_results
                  (<[taskIndex := Some (JObj [("error"%string, bad_args_error)])]> (results s)) s in
              let s2 := set_tasks (taskQueue s1) (executing s1 ∖ {[taskIndex]}) s1 in
              match taskQueue s2 with
              | nextIndex :: q =>
                  let '(s3, evs) :=
                    executeTask fuel' nextIndex
                      (set_tasks q ({[nextIndex]} ∪ executing s2) s2) in
                  (s3, EvBadArgs taskIndex (clock s) :: evs)
              | [] => (s2, [EvBadArgs taskIndex (clock s)])
              end
        | None => (s, [])
        end
  end.

(** [executeTask] after its sleep: the bucket is reset, whatever has
    happened to it meanwhile. *)
Definition executeTask_wake (taskIndex : nat) (args : list jsval) (s : state)
  : state * list event :=
  invoke taskIndex args (set_window (clock s) 0 s).

(** [executeTask] after [asyncFn] has settled, with its [finally] block. *)
Definition executeTask_settle (taskIndex : nat) (args : list jsval) (o : outcome)
    (s : state) : state * list event :=
  let s1 := set_results (<[taskIndex := Some (stored o)]> (results s)) s in
  let s2 := set_tasks (taskQueue s1) (executing s1 ∖ {[taskIndex]}) s1 in
  match taskQueue s2 with
  | nextIndex :: q =>
      let '(s3, evs) :=
        executeTask (S (length q)) nextIndex
          (set_tasks q ({[nextIndex]} ∪ executing s2) s2) in
      (s3, EvSettle taskIndex args o (clock s) :: evs)
  | [] => (s2, [EvSettle taskIndex args o (clock s)])
  end.

(** The loop that launches the initial batch. *)
Fixpoint launch (n : nat) (s : state) : state * list event :=
  match n with
  | O => (s, [])
  | S n' =>
      match taskQueue s with
      | taskIndex :: q =>
          let '(s1, evs1) :=
            executeTask (S (length q)) taskIndex
              (set_tasks q ({[taskIndex]} ∪ executing s) s) in
          let '(s2, evs2) := launch n' s1 in
          (s2, evs1 ++ evs2)
      | [] => launch n' s
      end
  end.

(** One evaluation of [while (executing.size > 0)].  A task that has
    died is still in [executing]: the loop then goes to sleep, and the
    process ends. *)
Definition poll (s : state) : state * list event :=
  match main s with
  | Crashed => (s, [])
  | _ =>
      if (0 <? size (executing s))%nat then (set_main (Polling (clock s + 100)) s, [])
      else (set_main (Returned (results s)) s, [EvReturn (clock s)])
  end.

Definition rpmControlledBatch (now : Z) : state * list event :=
  let n := length (fnArgs cfg) in
  let s0 :=
    {| clock := now; requestsInWindow := 0; windowStartTime := now;
       taskQueue := seq 0 n; results := replicate n None; executing := ∅;
       pool := []; main := Polling now |} in
  let initialBatchSize := Z.min (maxConcurrent cfg) (Z.of_nat (length (taskQueue s0))) in
  let '(s1, evs1) := launch (Z.to_nat initialBatchSize) s0 in
  let '(s2, evs2) := poll s1 in
  (s2, evs1 ++ evs2).

Inductive action : Type :=
| Tick (d : Z)
| Wake (k : nat)
| Settle (k : nat) (o : outcome)
| Poll.

Definition take_pending (k : nat) (s : state) : state :=
  set_pool (delete k (pool s)) s.

(** One turn of the event loop of a live process. *)
Definition turn (a : action) (s : state) : option (state * list event) :=
  match a with
  | Tick d => if 0 <? d then Some (set_clock (clock s + d) s, []) else None
  | Wake k =>
      match pool s !! k with
      | Some (PWaiting taskIndex args due) =>
          if due <=? clock s then Some (executeTask_wake taskIndex args (take_pending k s))
          else None
      | _ => None
      end
  | Settle k o =>
      match pool s !! k with
      | Some (PRunning taskIndex args) =>
          Some (executeTask_settle taskIndex args o (take_pending k s))
      | _ => None
      end
  | Poll =>
      match main s with
      | Polling due => if due <=? clock s then Some (poll s) else None
      | Returned _ | Crashed => None
      end
  end.

(** Once the process has ended nothing happens any more. *)
Definition step (a : action) (s : state) : option (state * list event) :=
  match main s with
  | Crashed => None
  | _ => turn a s
  end.

Fixpoint run (acts : list action) (s : state) : option (state * list event) :=
  match acts with
  | [] => Some (s, [])
  | a :: rest =>
      match step a s with
      | Some (s1, evs1) =>
          match run rest s1 with
          | Some (s2, evs2) => Some (s2, evs1 ++ evs2)
          | None => None
          end
      | None => None
      end
  end.

Definition execution (now : Z) (acts : list action) : option (state * list event) :=
  let '(s0, evs0) := rpmControlledBatch now in
  match run acts s0 with
  | Some (s, evs) => Some (s, evs0 ++ evs)
  | None => None
  end.

End Bucket.

Definition start_time (ev : event) : option Z :=
  match ev with
  | EvStart _ _ t => Some t
  | _ => None
  end.

Definition start_times (evs : list event) : list Z := omap start_time evs.

(** Seven tasks under [rpm = 2], two at a time: the
    first two calls take more than a minute, so that the next bucket
    opens late, at 100 s; one start falls at its very end and three more
    follow within a millisecond of the bucket after it. *)
Definition burst_cfg : config :=
  configure {| opt_rpm := Some 2; opt_maxConcurrent := Some 2 |}
            (replicate 7 (JArr [JStr "p"])).

Definition burst_acts : list action :=
  [Tick 100000; Settle 0 (Resolved JNull);
   Tick 59000; Settle 0 (Resolved JNull);
   Tick 1; Settle 0 (Resolved JNull);
   Tick 1; Settle 0 (Resolved JNull);
   Tick 998; Wake 0; Wake 0;
   Tick 1; Settle 0 (Resolved JNull)].

(** Four tasks under [rpm = 1], all at once: three wait for the minute to
    end and then start together. *)
Definition herd_cfg : config :=
  configure {| opt_rpm := Some 1; opt_maxConcurrent := Some 4 |}
            (replicate 4 (JArr [JStr "p"])).

Definition herd_acts : list action := [Tick 60000; Wake 1; Wake 1; Wake 1].

End FixedBucket.

From Stdlib Require Import DecimalString DecimalPos.
(** * Further properties of the dispatcher: definitions *)

(** ** The life of a task *)

(** The index an admission takes off the queue. *)
Definition admitted_index (ev : event) : option nat :=
  match ev with
  | EvAdmit i _ => Some i
  | _ => None
  end.

(** The indices admitted so far, oldest first. *)
Definition admissions (evs : list event) : list nat := omap admitted_index evs.

(** The task a call of [asyncFn] is made for. *)
Definition called_index (ev : event) : option nat :=
  match ev with
  | EvStart i _ _ => Some i
  | _ => None
  end.

(** The tasks [asyncFn] was called for so far, oldest first. *)
Definition calls (evs : list event) : list nat := omap called_index evs.

(** A settlement is never followed by a call for the same task. *)
Definition never_called_again (evs : list event) : Prop :=
  ∀ j k i args o t args' t',
    evs !! j = Some (EvSettle i args o t) →
    evs !! k = Some (EvStart i args' t') →
    (k < j)%nat.

(** From admission to settlement: the queue is consumed from its front,
    a task is called at most once, with its own arguments, and a task
    that was called is either still running or settled. *)
Record lifecycle (cfg : config) (s : state) (evs : list event) : Prop := {
  lc_fifo : admissions evs ++ taskQueue s = seq 0 (length (fnArgs cfg));
  lc_once : NoDup (calls evs);
  lc_args :
    ∀ i args t, EvStart i args t ∈ evs → fnArgs cfg !! i = Some (JArr args);
  lc_progress :
    ∀ i, i ∈ calls evs →
         (∃ args, PRunning i args ∈ pool s) ∨
         (∃ v, results s !! i = Some (Some v));
  lc_final : never_called_again evs }.

(** A failure from which the [catch] block reads a cooldown is followed
    at once by the throttle signal it raises. *)
Definition throttle_announced (evs : list event) : Prop :=
  ∀ j i args e T D,
    evs !! j = Some (EvSettle i args (Rejected e) T) →
    cooldown_ms (throttle_of e) = Some D →
    evs !! S j = Some (EvThrottle T D).

(** The dispatcher with no room at all: nothing admitted, nothing pending
    but [processQueue] timers, the call still polling. *)
Record idle (cfg : config) (s : state) (evs : list event) : Prop := {
  idle_queue : taskQueue s = seq 0 (length (fnArgs cfg));
  idle_active : activeTaskCount s = 0;
  idle_flag : processingQueue s = false;
  idle_pool : ∀ p, p ∈ pool s → ∃ due, p = PProcessQueue due;
  idle_results : results s = replicate (length (fnArgs cfg)) None;
  idle_events : evs = [];
  idle_main : ∃ due, main s = Polling due }.

(** The limit the window enforces whatever [rpm] is: a [rpm] below one
    still lets a call through when the window is empty. *)
Definition effective_rpm (cfg : config) : config :=
  {| rpm := Z.max 1 (rpm cfg); maxConcurrent := maxConcurrent cfg;
     fnArgs := fnArgs cfg |}.

(** A call with [maxConcurrent = -1]. *)
Definition no_room_options : options :=
  {| opt_rpm := Some 5; opt_maxConcurrent := Some (-1) |}.

Definition no_room_acts : list action :=
  [Tick 100; Poll; Tick 100; Poll; Tick 100000; Poll].

(** Three tasks under [rpm = -1], all admitted at once: the second call
    has to wait for the first to leave the window. *)
Definition negative_rpm_cfg : config :=
  configure {| opt_rpm := Some (-1); opt_maxConcurrent := Some 3 |}
            [JArr [JStr "a"]; JArr [JStr "b"]; JArr [JStr "c"]].

Definition negative_rpm_acts : list action :=
  [Fire 0; Fire 0; Fire 0; Tick 60100; Fire 1; Fire 1].

(** * The batch generator ([batchNameGenerator.mjs])

    The caller of [rpmControlledBatch]: it reads its configuration from
    the environment, selects a range of poems, runs
    [generateNameForPoem] on each of them through the dispatcher and
    counts the outcomes.

    Strings are sequences of bytes, the UTF-8 encoding of the JavaScript
    string; the characters the code looks for are ASCII, so that a
    search or a replacement of them is the same on both. *)

(** ** Conversions to string *)

Definition newline : string := String (ascii_of_nat 10) EmptyString.

(** [xs.join(sep)] for the conversion [str] of an element: [undefined]
    and [null] give the empty string; [None] is a [TypeError] raised by
    the conversion of an element. *)
Definition join_with (str : jsval → option string) (sep : string)
  : list jsval → option string :=
  fix join (xs : list jsval) : option string :=
    match xs with
    | [] => Some EmptyString
    | x :: rest =>
        let first :=
          match x with
          | JUndefined | JNull => Some EmptyString
          | _ => str x
          end in
        match first, rest with
        | None, _ => None
        | Some s, [] => Some s
        | Some s, _ :: _ =>
            match join rest with
            | Some r => Some (String.append s (String.append sep r))
            | None => None
            end
        end
    end.

(** An integer in decimal, as JavaScript prints it below 10^21. *)
Definition decimal (n : Z) : string := NilZero.string_of_int (Z.to_int n).

(** [String(v)], as a template literal applies it.  An integer is printed
    in decimal.  An object that holds
    data only has no [toString] of its own that could be called: with a
    property of that name the conversion raises a [TypeError] ([None]),
    without one it gives ["[object Object]"]. *)
Fixpoint to_string (v : jsval) : option string :=
  match v with
  | JUndefined => Some "undefined"%string
  | JNull => Some "null"%string
  | JBool b => Some (if b then "true" else "false")%string
  | JNum n => Some (decimal n)
  | JNaN => Some "NaN"%string
  | JStr s => Some s
  | JArr xs => join_with to_string "," xs
  | JObj fields =>
      match assoc "toString" fields with
      | Some _ => None
      | None => Some "[object Object]"%string
      end
  end.

(** [v.join(sep)]: only an array has the method. *)
Definition js_join (v : jsval) (sep : string) : option string :=
  match v with
  | JArr xs => join_with to_string sep xs
  | _ => None
  end.

(** A [TypeError]; its message depends on the engine and is left out. *)
Definition TypeError : jsval := JObj [("name"%string, JStr "TypeError")].

(** ** The configuration read from the environment *)

(** [process.env.NAME || d]: an unset or empty variable gives [d]. *)
Definition env_or (v : option string) (d : string) : string :=
  match v with
  | Some s => if String.eqb s EmptyString then d else s
  | None => d
  end.

Record environment : Type := {
  BATCH_RPM : option string;
  BATCH_MAX_CONCURRENT : option string;
  START_INDEX : option string;
  END_INDEX : option string }.

(** [config.batchProcess]; [None] is [NaN]. *)
Record batchProcess : Type := {
  bp_rpm : option Z;
  bp_maxConcurrent : option Z;
  bp_startIndex : option Z;
  bp_endIndex : option Z }.

Definition batch_config (env : environment) : batchProcess :=
  {| bp_rpm := parseInt (env_or (BATCH_RPM env) "10");
     bp_maxConcurrent := parseInt (env_or (BATCH_MAX_CONCURRENT env) "3");
     bp_startIndex := parseInt (env_or (START_INDEX env) "0");
     bp_endIndex := parseInt (env_or (END_INDEX env) "-1") |}.

(** The options handed to [rpmControlledBatch]. *)
Definition batch_options (c : batchProcess) : options :=
  {| opt_rpm := bp_rpm c; opt_maxConcurrent := bp_maxConcurrent c |}.

(** ** The selection of poems *)

(** An argument of [slice] as an offset into an array of [len] elements:
    [NaN] is 0, a negative index counts from the end, everything is
    clamped to the array. *)
Definition relative_index (len : Z) (x : option Z) : Z :=
  match x with
  | None => 0
  | Some r => if r <? 0 then Z.max (len + r) 0 else Z.min r len
  end.

(** [l.slice(start, stop)]. *)
Definition js_slice {A} (l : list A) (start stop : option Z) : list A :=
  let len := Z.of_nat (length l) in
  let k := relative_index len start in
  let final := relative_index len stop in
  take (Z.to_nat (Z.max (final - k) 0)) (drop (Z.to_nat k) l).

(** [config.batchProcess.startIndex || 0]. *)
Definition startIndex (c : batchProcess) : Z := or_default (bp_startIndex c) 0.

(** [endIndex < 0 ? poems.length : Math.min(endIndex, poems.length)];
    a comparison with [NaN] is false and [Math.min] of [NaN] is [NaN]. *)
Definition endIndex (c : batchProcess) (poems_length : Z) : option Z :=
  match bp_endIndex c with
  | Some e => if e <? 0 then Some poems_length else Some (Z.min e poems_length)
  | None => None
  end.

Definition selectedPoems (c : batchProcess) (poems : list jsval) : list jsval :=
  js_slice poems (Some (startIndex c)) (endIndex c (Z.of_nat (length poems))).

(** ** File names *)

(** The characters the regular expression replaces: backslash, slash,
    colon, asterisk, question mark, double quote, angle brackets and
    vertical bar. *)
Definition forbidden_in_file_name (c : ascii) : bool :=
  existsb (Nat.eqb (nat_of_ascii c)) [92; 47; 58; 42; 63; 34; 60; 62; 124]%nat.

(** [name.replace(re, '_')], where the global regular expression [re]
    matches any one of these characters. *)
Fixpoint sanitize (name : string) : string :=
  match name with
  | EmptyString => EmptyString
  | String c rest =>
      String (if forbidden_in_file_name c then "_"%char else c) (sanitize rest)
  end.

(** [`${title}_${author}.json`], sanitized. *)
Definition outputFileName (title author : string) : string :=
  sanitize (String.append title (String.append "_" (String.append author ".json"))).

(** ** One poem *)

Section Generator.

(** The text of [nameGeneratorPrompt.md]. *)
Variable promptTemplate : string.

(** What the call of [callGeminiApi] made for a model name and a prompt
    settles with. *)
Variable callGeminiApi : jsval → string → outcome.

(** [mkdirSync], [JSON.stringify] and [writeFileSync] for a file name and
    a result: [None] when the file is written, the thrown value
    otherwise. *)
Variable writeSuggestion : string → jsval → option jsval.

(** The [try] block of [generateNameForPoem]: the returned object, or the
    thrown value. *)
Definition generateNameForPoem_try (modelName poem : jsval) : jsval + jsval :=
  match get_prop poem "title", get_prop poem "author", get_prop poem "paragraphs" with
  | Some title, Some author, Some paragraphs =>
      match js_join paragraphs newline with
      | None => inr TypeError
      | Some poemText =>
          let prompt := String.append promptTemplate poemText in
          match to_string title, to_string author with
          | Some t, Some a =>
              match callGeminiApi modelName prompt with
              | Rejected e => inr e
              | Resolved result =>
                  match writeSuggestion (outputFileName t a) result with
                  | Some e => inr e
                  | None =>
                      inl (JObj [("title"%string, title); ("author"%string, author);
                                 ("result"%string, result);
                                 ("success"%string, JBool true)])
                  end
              end
          | _, _ => inr TypeError
          end
      end
  | _, _, _ => inr TypeError
  end.

(** The [catch] block: it logs the title and the author, then returns
    an object that holds the message of the error.  Reading a property
    of a poem or of an error that is [undefined] or [null] raises, and
    so does the conversion of a title that cannot be converted. *)
Definition generateNameForPoem_catch (poem error : jsval) : outcome :=
  match get_prop poem "title", get_prop poem "author" with
  | Some title, Some author =>
      match to_string title, to_string author, get_prop error "message" with
      | Some _, Some _, Some message =>
          Resolved (JObj [("title"%string, title); ("author"%string, author);
                          ("error"%string, message);
                          ("success"%string, JBool false)])
      | _, _, _ => Rejected TypeError
      end
  | _, _ => Rejected TypeError
  end.

(** [generateNameForPoem(modelName, poem)], called as
    [asyncFn(...args)]. *)
Definition generateNameForPoem (args : list jsval) : outcome :=
  let modelName := default JUndefined (args !! 0%nat) in
  let poem := default JUndefined (args !! 1%nat) in
  match generateNameForPoem_try modelName poem with
  | inl returned => Resolved returned
  | inr error => generateNameForPoem_catch poem error
  end.

End Generator.

(** [poems.map(poem => [config.gemini.model, poem])]. *)
Definition batchArgs (model : string) (poems : list jsval) : list jsval :=
  (λ poem, JArr [JStr model; poem]) <$> poems.

(** ** Counting the outcomes *)

(** [r && r.success] as [filter] reads it; a hole of the array is
    skipped. *)
Definition counts_as_success (r : option jsval) : bool :=
  match r with
  | Some v =>
      truthy v &&
      match get_prop v "success" with
      | Some b => truthy b
      | None => false
      end
  | None => false
  end.

(** [results.filter(r => r && r.success).length]. *)
Definition successCount (results : list (option jsval)) : Z :=
  Z.of_nat (length (filter (λ r, counts_as_success r = true) results)).

(** [results.length - successCount]. *)
Definition failCount (results : list (option jsval)) : Z :=
  Z.of_nat (length results) - successCount results.

(** Every settlement among the events is what [asyncFn], a function of
    its arguments, gives. *)
Definition settled_by (asyncFn : list jsval → outcome) (evs : list event) : Prop :=
  ∀ i args o t, EvSettle i args o t ∈ evs → o = asyncFn args.

(** Every throttle signal among the events comes right after a failure
    from which the [catch] block read its delay. *)
Definition throttle_caused (evs : list event) : Prop :=
  ∀ k T D,
    evs !! k = Some (EvThrottle T D) →
    ∃ j i args e,
      k = S j ∧ evs !! j = Some (EvSettle i args (Rejected e) T) ∧
      cooldown_ms (throttle_of e) = Some D.

(** A run of the generator over a batch of two poems: the call of
    [callGeminiApi] made for the first fails with a 429 that asks for 38
    seconds, the one made for the second succeeds. *)
Definition sample_poem (line : string) : jsval :=
  JObj [("title"%string, JStr "无题"); ("author"%string, JStr "佚名");
        ("paragraphs"%string, JArr [JStr line; JStr "一行"])].

Definition sample_api (modelName : jsval) (prompt : string) : outcome :=
  if str_includes "床前" prompt then Rejected retry_info_error
  else Resolved (JArr []).

Definition sample_disk (fileName : string) (result : jsval) : option jsval := None.

Definition sample_generator : list jsval → outcome :=
  generateNameForPoem "prompt: " sample_api sample_disk.

Definition generator_cfg : config :=
  configure (batch_options (batch_config {| BATCH_RPM := None;
                                            BATCH_MAX_CONCURRENT := None;
                                            START_INDEX := None;
                                            END_INDEX := None |}))
            (batchArgs "gemini" [sample_poem "床前明月光"; sample_poem "白日依山尽"]).

Definition generator_acts : list action :=
  [Fire 0; Fire 0; Tick 10;
   Settle 0 (sample_generator [JStr "gemini"; sample_poem "床前明月光"]);
   Settle 0 (sample_generator [JStr "gemini"; sample_poem "白日依山尽"]);
   Tick 100; Poll].

(** ** Retry delays *)

(** A 429 of the Gemini API whose [RetryInfo] advises the given delay. *)
Definition retry_error (retryDelay : string) : jsval :=
  JObj [("status"%string, JNum 429);
        ("errorDetails"%string,
         JArr [JObj [("@type"%string, JStr "type.googleapis.com/google.rpc.RetryInfo");
                     ("retryDelay"%string, JStr retryDelay)]])].

(** [Number.MAX_SAFE_INTEGER]: up to it every integer is a JavaScript
    number, and sums and products that stay below it are exact. *)
Definition MAX_SAFE_INTEGER : Z := 2 ^ 53 - 1.

(** A string that neither goes on a decimal number nor turns a leading
    zero into a hexadecimal prefix. *)
Definition ends_number (rest : string) : Prop :=
  match rest with
  | EmptyString => True
  | String c _ => digit_val 10 c = None ∧ c ≠ "x"%char ∧ c ≠ "X"%char
  end.

(** * The folder processor ([geminiNaming.mjs]) *)

(** [typeof v === 'object']. *)
Definition typeof_object (v : jsval) : bool :=
  match v with
  | JNull | JArr _ | JObj _ => true
  | _ => false
  end.

(** The callback of [map] in [processJsonContent]: the formatted line or
    [null]; [None] is a [TypeError] raised by a conversion to string. *)
Definition processItem (item : jsval) : option jsval :=
  if negb (truthy item) || negb (typeof_object item) then Some JNull
  else
    match get_prop item "title", get_prop item "content", get_prop item "paragraphs" with
    | Some t, Some content, Some paragraphs =>
        let title := if truthy t then t else JStr EmptyString in
        let contentText :=
          if isArray content then js_join content EmptyString
          else if isArray paragraphs then js_join paragraphs EmptyString
          else Some EmptyString in
        match contentText with
        | None => None
        | Some text =>
            if truthy title && negb (String.eqb text EmptyString) then
              match to_string title with
              | Some ts =>
                  Some (JStr (String.append "《"
                                (String.append ts (String.append "》" text))))
              | None => None
              end
            else Some JNull
        end
    | _, _, _ => None
    end.

(** [processJsonContent]: the lines of the items that have a title and a
    content, one per line; the empty string for what is not an array. *)
Definition processJsonContent (jsonContent : jsval) : option string :=
  match jsonContent with
  | JArr items =>
      match mapM processItem items with
      | Some processedLines =>
          join_with to_string newline (filter (λ v, truthy v = true) processedLines)
      | None => None
      end
  | _ => Some EmptyString
  end.

(** [file.endsWith('.json')]. *)
Definition ends_with_json (file : string) : bool :=
  (5 <=? String.length file)%nat &&
  String.eqb (str_drop (String.length file - 5) file) ".json".

(** What [processFolder] does, file by file. *)
Inductive folder_event : Type :=
| FSkipped (file : string)
| FCalled (file : string) (fullPrompt : string)
| FSaved (file : string) (result : jsval)
| FFailed (file : string).

Section Folder.

(** The text of [nameGeneratorPromptMega.md]. *)
Variable promptTemplate : string.

(** [JSON.parse(fs.readFileSync(filePath))]; [None] when it throws. *)
Variable readJson : string → option jsval.

(** What the call of [callGeminiApi] made with a prompt settles with. *)
Variable callGeminiApi : string → outcome.

(** [fs.writeFileSync] of the result for a file; [false] when it
    throws. *)
Variable writeFileSync : string → jsval → bool.

(** The loop of [processFolder]; an exception leaves it, and the
    function, through the [catch] block. *)
Fixpoint processFiles (files : list string) : list folder_event :=
  match files with
  | [] => []
  | file :: rest =>
      match readJson file with
      | None => [FFailed file]
      | Some jsonContent =>
          match processJsonContent jsonContent with
          | None => [FFailed file]
          | Some processedContent =>
              if String.eqb processedContent EmptyString then
                FSkipped file :: processFiles rest
              else
                let fullPrompt := String.append promptTemplate processedContent in
                FCalled file fullPrompt ::
                match callGeminiApi fullPrompt with
                | Rejected _ => [FFailed file]
                | Resolved result =>
                    if writeFileSync file result then
                      FSaved file result :: processFiles rest
                    else [FFailed file]
                end
          end
      end
  end.

(** [processFolder], for the entries of the folder. *)
Definition processFolder (entries : list string) : list folder_event :=
  processFiles (filter (λ file, ends_with_json file = true) entries).

End Folder.

(** The files [processFolder] has finished with. *)
Definition finished_file (ev : folder_event) : option string :=
  match ev with
  | FSkipped file | FSaved file _ => Some file
  | _ => None
  end.

Definition failed_file (ev : folder_event) : option string :=
  match ev with
  | FFailed file => Some file
  | _ => None
  end.

(** A folder of three files: the second holds no poem, the call made for
    the third fails. *)
Definition sample_folder (file : string) : option jsval :=
  if String.eqb file "a.json" then
    Some (JArr [JObj [("title"%string, JStr "静夜思");
                      ("paragraphs"%string, JArr [JStr "床前明月光"])]])
  else if String.eqb file "b.json" then Some (JArr [JObj []])
  else if String.eqb file "c.json" then
    Some (JArr [JObj [("title"%string, JStr "登鹳雀楼");
                      ("content"%string, JArr [JStr "白日依山尽"])]])
  else None.

Definition sample_folder_api (prompt : string) : outcome :=
  if str_includes "床前" prompt then Resolved (JStr "names") else Rejected JNull.

(** * Pinyin scores ([pinyin.mjs])

    The tables are object literals, looked up with [table[key]]: a key
    the table does not hold is still found when it names a member of
    [Object.prototype], and what is found then is a function (or the
    prototype itself), not a number and not a record of the table. *)

Definition inherited (key : string) : bool :=
  existsb (String.eqb key)
    ["constructor"; "__defineGetter__"; "__defineSetter__"; "hasOwnProperty";
     "__lookupGetter__"; "__lookupSetter__"; "isPrototypeOf";
     "propertyIsEnumerable"; "toString"; "valueOf"; "__proto__";
     "toLocaleString"]%string.

Inductive entry (A : Type) : Type :=
| Own (a : A)
| Inherited
| Missing.

Arguments Own {A} a.
Arguments Inherited {A}.
Arguments Missing {A}.

Fixpoint own_entry {A} (table : list (string * A)) (key : string) : option A :=
  match table with
  | [] => None
  | (k, a) :: rest => if String.eqb key k then Some a else own_entry rest key
  end.

(** [table[key]]. *)
Definition table_get {A} (table : list (string * A)) (key : string) : entry A :=
  match own_entry table key with
  | Some a => Own a
  | None => if inherited key then Inherited else Missing
  end.

Definition initialGroupMap : list (string * Z) :=
  [(""%string, 0); ("b"%string, 1); ("p"%string, 1); ("m"%string, 1);
   ("f"%string, 2);
   ("z"%string, 3); ("c"%string, 3); ("s"%string, 3);
   ("d"%string, 4); ("t"%string, 4); ("n"%string, 4); ("l"%string, 4);
   ("zh"%string, 5); ("ch"%string, 5); ("sh"%string, 5); ("r"%string, 5);
   ("j"%string, 6); ("q"%string, 6); ("x"%string, 6);
   ("g"%string, 7); ("k"%string, 7); ("h"%string, 7)].

Record final_parts : Type := {
  medial : string;
  main_vowel : string;
  ending : string }.

#[export] Instance final_parts_eq_dec : EqDecision final_parts.
Proof. solve_decision. Defined.

Definition parts (m v e : string) : final_parts :=
  {| medial := m; main_vowel := v; ending := e |}.

Definition finalStructure : list (string * final_parts) :=
  [("a", parts "" "a" ""); ("o", parts "" "o" ""); ("e", parts "" "e" "");
   ("ai", parts "" "a" "i"); ("ei", parts "" "e" "i"); ("er", parts "" "e" "r");
   ("ao", parts "" "a" "o"); ("ou", parts "" "o" "u"); ("an", parts "" "a" "n");
   ("en", parts "" "e" "n"); ("ang", parts "" "a" "ng");
   ("eng", parts "" "e" "ng"); ("ong", parts "" "o" "ng");
   ("i", parts "i" "i" ""); ("ia", parts "i" "a" ""); ("ie", parts "i" "e" "");
   ("iao", parts "i" "a" "o"); ("iu", parts "i" "o" "u");
   ("ian", parts "i" "a" "n"); ("in", parts "i" "i" "n");
   ("iang", parts "i" "a" "ng"); ("ing", parts "i" "i" "ng");
   ("iong", parts "i" "o" "ng"); ("io", parts "i" "o" "");
   ("u", parts "u" "u" ""); ("ua", parts "u" "a" ""); ("uo", parts "u" "o" "");
   ("uai", parts "u" "a" "i"); ("ui", parts "u" "e" "i");
   ("uan", parts "u" "a" "n"); ("un", parts "u" "e" "n");
   ("uang", parts "u" "a" "ng");
   ("v", parts "v" "v" ""); ("ve", parts "v" "e" ""); ("van", parts "v" "a" "n");
   ("vn", parts "v" "v" "n")]%string.

Definition vowelSimilarityMap : list (string * list (string * Z)) :=
  [("i", [("i", 100); ("v", 30); ("u", 20)]);
   ("v", [("i", 30); ("v", 100); ("u", 70)]);
   ("u", [("i", 20); ("v", 70); ("u", 100)])]%string.

(** [Math.round(a / b)] for a positive [b]: the nearest integer, a half
    going up. *)
Definition round_div (a b : Z) : Z := (2 * a + b) / (2 * b).

(** [getInitialScore]; [None] is [NaN].  The quotient
    [positionDifference * 80 / 7] is kept exact: its fractional part is a
    multiple of 1/7, far enough from one half for the rounding of the
    floating-point value to be the same. *)
Definition getInitialScore (sm1 sm2 : string) : option Z :=
  if String.eqb sm1 sm2 then Some 100
  else if String.eqb sm1 EmptyString || String.eqb sm2 EmptyString then Some 0
  else
    match table_get initialGroupMap sm1, table_get initialGroupMap sm2 with
    | Missing, _ | _, Missing => Some 0
    | Own group1, Own group2 =>
        let positionDifference := Z.abs (group1 - group2) in
        if group1 =? group2 then Some 90
        else Some (round_div (Z.max 0 (80 * 7 - positionDifference * 80)) 7)
    | _, _ => None
    end.

(** A field of what [finalStructure[ym]] finds; [None] is [undefined],
    the field of an inherited member. *)
Definition field {A} (f : final_parts → A) (e : entry final_parts) : option A :=
  match e with
  | Own p => Some (f p)
  | _ => None
  end.

(** [vowelSimilarityMap[a] && vowelSimilarityMap[a][b]], as the condition
    reads it: the number found, or nothing when either lookup gives
    [undefined].  The keys are main vowels or [undefined], none of which
    names an inherited member. *)
Definition vowelSimilarity (a b : option string) : option Z :=
  match a, b with
  | Some x, Some y =>
      match own_entry vowelSimilarityMap x with
      | Some row => own_entry row y
      | None => None
      end
  | _, _ => None
  end.

(** [getFinalScore]; the similarities are even, so that half of one is an
    integer. *)
Definition getFinalScore (ym1 ym2 : string) : Z :=
  if String.eqb ym1 ym2 then 100
  else
    match table_get finalStructure ym1, table_get finalStructure ym2 with
    | Missing, _ | _, Missing => 0
    | parts1, parts2 =>
        (if decide (field medial parts1 = field medial parts2) then 30 else 0)
        + (if decide (field ending parts1 = field ending parts2) then 20 else 0)
        + (if decide (field main_vowel parts1 = field main_vowel parts2) then 50
           else match vowelSimilarity (field main_vowel parts1)
                                      (field main_vowel parts2) with
                | Some similarity => similarity / 2
                | None => 0
                end)
    end.

(** [getToneScore], for tones that are integers. *)
Definition getToneScore (t1 t2 : Z) : Z :=
  let diff := Z.abs (t1 - t2) in
  if diff =? 0 then 100 else Z.max 0 (100 - diff * 25).

(** [[1, 2, 3, 4].includes(tone)]: the tone itself when it is one of these
    numbers. *)
Definition valid_tone (tone : jsval) : option Z :=
  match tone with
  | JNum n => if (1 <=? n) && (n <=? 4) then Some n else None
  | _ => None
  end.

Definition isPing (tone : Z) : bool := (tone =? 1) || (tone =? 2).

(** [evaluateToneFluency2]; [None] is the error it throws. *)
Definition evaluateToneFluency2 (a b : jsval) : option Z :=
  match valid_tone a, valid_tone b with
  | Some a, Some b =>
      if a =? b then Some 50
      else if negb (Bool.eqb (isPing a) (isPing b)) then Some 90
      else Some 70
  | _, _ => None
  end.

(** The pattern of level and oblique tones, [P] and [Z]. *)
Definition tone_pattern (a b c : Z) : string :=
  String.append (if isPing a then "P" else "Z")
    (String.append (if isPing b then "P" else "Z") (if isPing c then "P" else "Z")).

(** [evaluateToneFluency3]; [None] is the error it throws. *)
Definition evaluateToneFluency3 (a b c : jsval) : option Z :=
  match valid_tone a, valid_tone b, valid_tone c with
  | Some a, Some b, Some c =>
      if (a =? b) && (b =? c) then Some 40
      else
        let pattern := tone_pattern a b c in
        if existsb (String.eqb pattern) ["PPZ"; "ZPP"; "PZP"; "ZPZ"]%string then Some 100
        else if existsb (String.eqb pattern) ["PZZ"; "ZZP"]%string then Some 85
        else
          let sameConsecutive :=
            (if a =? b then 1 else 0) + (if b =? c then 1 else 0) in
          if sameConsecutive =? 1 then Some 70 else Some 60
  | _, _, _ => None
  end.

(** [evaluateToneFluency]: three tones when the third argument is not
    [undefined]. *)
Definition evaluateToneFluency (a b c : jsval) : option Z :=
  match c with
  | JUndefined => evaluateToneFluency2 a b
  | _ => evaluateToneFluency3 a b c
  end.

(** * [callGeminiApi]

    The request itself is the environment's: what [generateContent]
    settles with is given.  An [Error] is the object that carries its
    message. *)

Definition Error (message : string) : jsval := JObj [("message"%string, JStr message)].

(** [v.length === 0]. *)
Definition length_is_zero (v : jsval) : bool :=
  match v with
  | JArr [] => true
  | JStr EmptyString => true
  | JObj fields =>
      match assoc "length" fields with
      | Some (JNum 0) => true
      | _ => false
      end
  | _ => false
  end.

Section Gemini.

(** [JSON.parse]; [None] is the [SyntaxError] it throws. *)
Variable JSON_parse : string → option jsval.

(** [JSON.stringify], as a template literal prints what it returns. *)
Variable JSON_stringify : jsval → string.

(** [s.substring(0, 200)]. *)
Variable substring_200 : string → string.

(** [s[0]] for a string that is not empty. *)
Variable first_character : string → string.

(** [v[0]]: [None] is the [TypeError] raised on [undefined] and
    [null]. *)
Definition first_element (v : jsval) : option jsval :=
  match v with
  | JUndefined | JNull => None
  | JArr xs => Some (default JUndefined (head xs))
  | JStr EmptyString => Some JUndefined
  | JStr s => Some (JStr (first_character s))
  | JObj fields => Some (default JUndefined (assoc "0" fields))
  | _ => Some JUndefined
  end.

(** [a && a.k]: the value the condition looks at. *)
Definition and_then (a : jsval) (k : string) : jsval :=
  if truthy a then default JUndefined (get_prop a k) else a.

(** The text of the first part of the first candidate, when the checks
    of [callGeminiApi] find one; otherwise the error thrown, by a
    [throw] or by reading a property of [undefined] or [null]. *)
Definition response_text (result : jsval) : jsval + jsval :=
  match get_prop result "response" with
  | None => inr TypeError
  | Some response =>
      if negb (truthy response) then
        let promptFeedback := default JUndefined (get_prop result "promptFeedback") in
        let blockReason := and_then promptFeedback "blockReason" in
        if truthy blockReason then
          match to_string blockReason with
          | Some reason =>
              inr (Error
                     (String.append "请求因安全原因被阻止: "
                        (String.append reason
                           (String.append "。详情: "
                              (JSON_stringify
                                 (default JUndefined
                                    (get_prop promptFeedback "safetyRatings")))))))
          | None => inr TypeError
          end
        else inr (Error "从 Gemini API 接收到无效或空的响应。")
      else
        let candidates := default JUndefined (get_prop response "candidates") in
        if negb (truthy candidates) || length_is_zero candidates then
          let promptFeedback := default JUndefined (get_prop response "promptFeedback") in
          let blockReason := and_then promptFeedback "blockReason" in
          if truthy blockReason then
            match to_string blockReason with
            | Some reason =>
                let message := default JUndefined (get_prop promptFeedback "blockReasonMessage") in
                let details :=
                  if truthy message then message
                  else default JUndefined (get_prop promptFeedback "safetyRatings") in
                inr (Error
                       (String.append "请求可能因以下原因被阻止: "
                          (String.append reason
                             (String.append "。详细信息: " (JSON_stringify details)))))
            | None => inr TypeError
            end
          else inr (Error "Gemini API 响应中没有有效的候选内容。")
        else
          match first_element candidates with
          | None => inr TypeError
          | Some candidate =>
              match get_prop candidate "content" with
              | None => inr TypeError
              | Some content =>
                  let parts := and_then content "parts" in
                  let found :=
                    if negb (truthy content) || negb (truthy parts)
                       || length_is_zero parts
                    then Some None
                    else
                      match first_element parts with
                      | None => None
                      | Some part =>
                          match get_prop part "text" with
                          | None => None
                          | Some text => Some (if truthy text then Some text else None)
                          end
                      end in
                  match found with
                  | None => inr TypeError
                  | Some (Some text) => inl text
                  | Some None =>
                      let finishReason :=
                        default JUndefined (get_prop candidate "finishReason") in
                      if truthy finishReason
                         && negb (match finishReason with
                                  | JStr s => String.eqb s "STOP"
                                  | _ => false
                                  end) then
                        match to_string finishReason with
                        | Some reason =>
                            inr (Error
                                   (String.append "内容生成因 "
                                      (String.append reason
                                         (String.append " 而结束。安全评级: "
                                            (JSON_stringify
                                               (default JUndefined
                                                  (get_prop candidate "safetyRatings")))))))
                        | None => inr TypeError
                        end
                      else inr (Error "在 Gemini API 响应候选内容中未找到文本。")
                  end
              end
          end
  end.

(** [JSON.parse(responseText)] and the inner [catch]: a text that does
    not parse is reported with its first 200 characters, which only a
    string has; a text that cannot even be converted to a string has no
    [substring] either. *)
Definition parse_response (responseText : jsval) : outcome :=
  match to_string responseText with
  | Some s =>
      match JSON_parse s with
      | Some jsonResult => Resolved jsonResult
      | None =>
          match responseText with
          | JStr text =>
              Rejected (Error (String.append "解析 Gemini 响应为 JSON 失败。原始文本: "
                                 (String.append (substring_200 text) "...")))
          | _ => Rejected TypeError
          end
      end
  | None => Rejected TypeError
  end.

(** The outer [catch]: it reads [error.message] and throws the error
    again. *)
Definition rethrow (error : jsval) : outcome :=
  match get_prop error "message" with
  | Some _ => Rejected error
  | None => Rejected TypeError
  end.

(** [callGeminiApi] for the value of [GEMINI_API_KEY] and for what the
    request settles with. *)
Definition callGeminiApi (apiKey : option string) (request : outcome) : outcome :=
  if match apiKey with
     | Some key => String.eqb key EmptyString
     | None => true
     end
  then Rejected (Error "GEMINI_API_KEY 未设置。")
  else
    match request with
    | Rejected error => rethrow error
    | Resolved result =>
        match response_text result with
        | inr error => rethrow error
        | inl responseText =>
            match parse_response responseText with
            | Rejected error => rethrow error
            | Resolved jsonResult => Resolved jsonResult
            end
        end
    end.

End Gemini.

(** A response of the API with one candidate that holds [text]. *)
Definition response_with_text (text : string) : jsval :=
  JObj [("response"%string,
         JObj [("candidates"%string,
                JArr [JObj [("content"%string,
                            JObj [("parts"%string,
                                   JArr [JObj [("text"%string, JStr text)]])]);
                            ("finishReason"%string, JStr "STOP")]])])].

(** A parser that knows one text. *)
Definition sample_parse (s : string) : option jsval :=
  if String.eqb s "[]" then Some (JArr []) else None.

(** * The report of [exampleRpmControlled] *)

Inductive report_line : Type :=
| ReportFailure (index : nat) (error : jsval)
| ReportSuccess (index : nat) (result : jsval).

(** [results.forEach((result, index) => ...)] from the entry at [index]
    on: the lines printed, and whether the loop was left by the
    [TypeError] of reading [result.error] on [undefined] or [null].
    [forEach] passes over a hole. *)
Fixpoint report_from (index : nat) (results : list (option jsval))
  : list report_line * bool :=
  match results with
  | [] => ([], false)
  | None :: rest => report_from (S index) rest
  | Some result :: rest =>
      match get_prop result "error" with
      | None => ([], true)
      | Some error =>
          let '(lines, thrown) := report_from (S index) rest in
          ((if truthy error then ReportFailure index error
            else ReportSuccess index result) :: lines, thrown)
      end
  end.

Definition report (results : list (option jsval)) : list report_line * bool :=
  report_from 0 results.

(** A call that resolves without a value. *)
Definition silent_acts : list action :=
  [Fire 0; Settle 0 (Resolved JUndefined); Tick 100; Poll].

(** ** The fixed bucket: what a run keeps true *)

(** The task a pending continuation of the fixed-bucket dispatcher
    belongs to, and the arguments it carries. *)
Definition bucket_task (p : FixedBucket.pending) : nat :=
  match p with
  | FixedBucket.PWaiting taskIndex _ _ | FixedBucket.PRunning taskIndex _
  | FixedBucket.PDead taskIndex => taskIndex
  end.

(** A suspended [executeTask] holds the argument array of its task; one
    that has died had arguments that are not an array. *)
Definition bucket_args_ok (cfg : config) (p : FixedBucket.pending) : Prop :=
  match p with
  | FixedBucket.PWaiting i args _ | FixedBucket.PRunning i args =>
      fnArgs cfg !! i = Some (JArr args)
  | FixedBucket.PDead i =>
      ∃ v, fnArgs cfg !! i = Some v ∧ isArray v = false ∧ conversion_throws v = true
  end.

Definition bucket_inflight (pl : list FixedBucket.pending) : list nat :=
  bucket_task <$> pl.

(** Where the entry [v] of task [i] comes from: the settlement of its
    call, the value itself when it resolved and [{ error }] around the
    value it threw or rejected with; or the refusal of arguments that
    are not an array. *)
Definition bucket_settled (cfg : config) (evs : list FixedBucket.event)
    (i : nat) (v : jsval) : Prop :=
  (∃ args o t, FixedBucket.EvSettle i args o t ∈ evs ∧
               fnArgs cfg !! i = Some (JArr args) ∧
               match o with
               | Resolved w => v = w
               | Rejected e => v = JObj [("error"%string, e)]
               end) ∨
  (∃ t, FixedBucket.EvBadArgs i t ∈ evs ∧
        (∀ args, fnArgs cfg !! i ≠ Some (JArr args)) ∧
        v = JObj [("error"%string, bad_args_error)]).

(** The bookkeeping of the fixed-bucket dispatcher.  [extra] lists the
    tasks that have been shifted off the queue and added to [executing]
    but whose [executeTask] has not yet reached its first suspension. *)
Record bucket_wf (cfg : config) (extra : list nat) (s : FixedBucket.state)
    (evs : list FixedBucket.event) : Prop := {
  bw_length : length (FixedBucket.results s) = length (fnArgs cfg);
  bw_nodup :
    NoDup (extra ++ FixedBucket.taskQueue s ++ bucket_inflight (FixedBucket.pool s));
  bw_executing :
    FixedBucket.executing s
      = list_to_set (extra ++ bucket_inflight (FixedBucket.pool s));
  bw_open : ∀ i,
    i ∈ extra ++ FixedBucket.taskQueue s ++ bucket_inflight (FixedBucket.pool s)
    ↔ FixedBucket.results s !! i = Some None;
  bw_args : ∀ p, p ∈ FixedBucket.pool s → bucket_args_ok cfg p;
  bw_settled : ∀ i v,
    FixedBucket.results s !! i = Some (Some v) → bucket_settled cfg evs i v }.

(** The size of the initial batch: the number of slots. *)
Definition initialBatchSize (cfg : config) : nat :=
  Z.to_nat (Z.min (maxConcurrent cfg) (Z.of_nat (length (fnArgs cfg)))).

Record bucket_inv (cfg : config) (s : FixedBucket.state)
    (evs : list FixedBucket.event) : Prop := {
  bi_wf : bucket_wf cfg [] s evs;
  bi_slots : (length (FixedBucket.pool s) ≤ initialBatchSize cfg)%nat;
  bi_full :
    FixedBucket.taskQueue s ≠ [] →
    length (FixedBucket.pool s) = initialBatchSize cfg;
  bi_returned : ∀ res,
    FixedBucket.main s = Returned res →
    res = FixedBucket.results s ∧ FixedBucket.pool s = [] }.

(** Three tasks, the second with arguments that are not an array, two at
    a time under [rpm = 1]: the third waits for the next bucket. *)
Definition bucket_cfg : config :=
  configure {| opt_rpm := Some 1; opt_maxConcurrent := Some 2 |}
            [JArr [JStr "a"]; JStr "b"; JArr [JStr "c"]].

Definition bucket_acts : list FixedBucket.action :=
  [FixedBucket.Settle 0 (Resolved (JStr "A"));
   FixedBucket.Tick 60000; FixedBucket.Wake 0;
   FixedBucket.Settle 0 (Rejected (JStr "no"));
   FixedBucket.Tick 100; FixedBucket.Poll].

(** * Properties *)

(** ** Sorting and pruning *)

Set Warnings "-clear-no-such-hyp".

Arguments prune : simpl never.
Arguments sort_asc : simpl never.
Arguments getTimeUntilNextSlot : simpl never.

Lemma sort_asc_perm (l : list Z) : sort_asc l ≡ₚ l.
Proof. apply merge_sort_Permutation. Qed.

Lemma sort_asc_sorted (l : list Z) : Sorted Z.le (sort_asc l).
Proof. apply (Sorted_merge_sort Z.le). Qed.

Lemma sort_asc_length (l : list Z) : length (sort_asc l) = length l.
Proof. by rewrite sort_asc_perm. Qed.

Lemma elem_of_prune (now t : Z) (ts : list Z) :
  t ∈ prune now ts ↔ now - t < windowDuration ∧ t ∈ ts.
Proof. unfold prune. by rewrite list_elem_of_filter. Qed.

Lemma prune_idemp (now : Z) (ts : list Z) : prune now (prune now ts) = prune now ts.
Proof.
  unfold prune. induction ts as [|t ts IH]; [done|].
  rewrite filter_cons. case_decide as Ht; [|done].
  by rewrite filter_cons_True, IH.
Qed.

Lemma prune_sorted (now : Z) (ts : list Z) :
  Sorted Z.le ts → Sorted Z.le (prune now ts).
Proof.
  intros Hs. apply Sorted_StronglySorted in Hs; [|apply _].
  apply StronglySorted_Sorted. unfold prune.
  induction Hs as [|t ts Hs IH Hall]; [constructor|].
  rewrite filter_cons. case_decide; [|done].
  constructor; [done|].
  apply Forall_forall. intros u Hu%list_elem_of_filter.
  rewrite Forall_forall in Hall. apply Hall. by destruct Hu.
Qed.

Lemma sorted_head_le (t : Z) (ts : list Z) :
  Sorted Z.le (t :: ts) → ∀ u, u ∈ t :: ts → t ≤ u.
Proof.
  intros Hs%Sorted_StronglySorted u Hu; [|apply _].
  apply StronglySorted_inv in Hs as [_ Hall].
  apply elem_of_cons in Hu as [->|Hu]; [lia|].
  rewrite Forall_forall in Hall. by apply Hall.
Qed.

Lemma filter_submseteq {A} (P : A → Prop) `{!∀ x, Decision (P x)} (l k : list A) :
  l ⊆+ k → filter P l ⊆+ filter P k.
Proof.
  induction 1 as [|x l k _ IH|x y l|x l k _ IH|l1 l2 l3 _ IH1 _ IH2].
  - done.
  - rewrite !filter_cons. case_decide; [by constructor|done].
  - rewrite !filter_cons. repeat case_decide; try done. by constructor.
  - rewrite filter_cons. case_decide; [by constructor|done].
  - by etrans.
Qed.

(** A window that is not below [rpm] makes the caller wait, for a
    positive [rpm]. *)
Lemma no_wait_below_rpm (rpm now : Z) (ts ts' : list Z) (w : wait) :
  0 < rpm →
  getTimeUntilNextSlot rpm now ts = (ts', w) →
  positive_wait w = false →
  ts' = prune now ts ∧ Z.of_nat (length ts') < rpm.
Proof.
  intros Hrpm Hget Hw. unfold getTimeUntilNextSlot in Hget.
  destruct (Z.ltb_spec (Z.of_nat (length (prune now ts))) rpm) as [Hlt|Hge].
  { by inversion Hget; subst. }
  destruct (prune now ts) as [|t l] eqn:Hp.
  { simpl in Hge. lia. }
  inversion Hget; subst. exfalso.
  assert (Ht : t ∈ prune now ts) by (rewrite Hp; left).
  apply elem_of_prune in Ht as [Ht _].
  simpl in Hw. apply Z.ltb_ge in Hw. lia.
Qed.

(** C7.  For a time-ordered window and a positive [rpm],
    [getTimeUntilNextSlot] keeps exactly the timestamps less than 60 s old
    (so every timestamp older than 60 s is gone); it answers [0] when
    fewer than [rpm] remain, and otherwise [(oldest + 60000) - now + 100],
    clamped at [0], where [oldest] is the first and smallest timestamp
    that remains. *)
Theorem getTimeUntilNextSlot_contract (rpm now : Z) (ts : list Z) :
  Sorted Z.le ts →
  0 < rpm →
  ∃ remaining w,
    getTimeUntilNextSlot rpm now ts = (remaining, w) ∧
    remaining = filter (λ t, now - t < 60000) ts ∧
    (∀ t, t ∈ ts → 60000 < now - t → t ∉ remaining) ∧
    ((Z.of_nat (length remaining) < rpm ∧ w = Some 0) ∨
     (rpm ≤ Z.of_nat (length remaining) ∧
      ∃ oldest, head remaining = Some oldest ∧
                (∀ t, t ∈ remaining → oldest ≤ t) ∧
                w = Some (Z.max 0 ((oldest + 60000) - now + 100)))).
Proof.
  intros Hsorted Hrpm.
  destruct (getTimeUntilNextSlot rpm now ts) as [remaining w] eqn:Hget.
  exists remaining, w. split; [done|].
  assert (Hrem : remaining = prune now ts).
  { unfold getTimeUntilNextSlot in Hget.
    destruct (_ <? _); [by inversion Hget|].
    destruct (prune now ts); by inversion Hget. }
  split; [done|]. split.
  { intros t _ Hold. rewrite Hrem, elem_of_prune. unfold windowDuration. lia. }
  unfold getTimeUntilNextSlot in Hget. rewrite <- Hrem in Hget.
  destruct (Z.ltb_spec (Z.of_nat (length remaining)) rpm) as [Hlt|Hge].
  { left. by inversion Hget. }
  right. split; [done|].
  destruct remaining as [|oldest rest]; [simpl in Hge; lia|].
  exists oldest. split; [done|]. split.
  - apply sorted_head_le. rewrite Hrem. by apply prune_sorted.
  - by inversion Hget.
Qed.

Lemma getTimeUntilNextSlot_contract_witness :
  ∃ remaining w,
    getTimeUntilNextSlot 2 61000 [500; 20000; 30000] = (remaining, w) ∧
    remaining = filter (λ t, 61000 - t < 60000) [500; 20000; 30000] ∧
    (∀ t, t ∈ [500; 20000; 30000] → 60000 < 61000 - t → t ∉ remaining) ∧
    ((Z.of_nat (length remaining) < 2 ∧ w = Some 0) ∨
     (2 ≤ Z.of_nat (length remaining) ∧
      ∃ oldest, head remaining = Some oldest ∧
                (∀ t, t ∈ remaining → oldest ≤ t) ∧
                w = Some (Z.max 0 ((oldest + 60000) - 61000 + 100)))).
Proof.
  apply (getTimeUntilNextSlot_contract 2 61000 [500; 20000; 30000]).
  - repeat constructor; lia.
  - lia.
Defined.
Example parseInt_38 : parseInt (str_replace "s" "" "38s") = Some 38.
Proof. reflexivity. Qed.

Example parseInt_frac : parseInt (str_replace "s" "" "1.5s") = Some 1.
Proof. reflexivity. Qed.

(** White space in front of the digits is skipped, also the no-break
    space U+00A0 and the ideographic space U+3000. *)
Example parseInt_spaces :
  parseInt (String " " (String "194" (String "160"
              (String "227" (String "128" (String "128" "38s"))))))
  = Some 38.
Proof. reflexivity. Qed.

Example parseInt_nan : parseInt (str_replace "s" "" "soon") = None.
Proof. reflexivity. Qed.

Example wait_full : getTimeUntilNextSlot 2 1000 [500; 900] = ([500; 900], Some 59600).
Proof. reflexivity. Qed.

Example wait_free : getTimeUntilNextSlot 2 70000 [500; 20000] = ([20000], Some 0).
Proof. reflexivity. Qed.


(** ** What each function of the dispatcher does to the state *)

Section Effects.

Variable cfg : config.

Local Ltac close_spec :=
  split_and!; cbn; rewrite ?app_nil_r, ?Z.add_0_r; try done; auto with lia.

Lemma getTimeUntilNextSlot_pruned (r now : Z) (ts ts' : list Z) (w : wait) :
  getTimeUntilNextSlot r now ts = (ts', w) → ts' = prune now ts.
Proof.
  unfold getTimeUntilNextSlot. destruct (_ <? _); [by inversion 1|].
  destruct (prune now ts); by inversion 1.
Qed.

Lemma getTimeUntilNextSlot_wait_positive (r now : Z) (ts ts' : list Z) (w : wait) :
  getTimeUntilNextSlot r now ts = (ts', w) →
  positive_wait w = true →
  ∃ z, w = Some z ∧ 0 < z ∧ r ≤ Z.of_nat (length (prune now ts)).
Proof.
  intros Hget Hw. destruct w as [z|]; [|done].
  exists z. split; [done|]. split; [by apply Z.ltb_lt|].
  unfold getTimeUntilNextSlot in Hget.
  destruct (Z.ltb_spec (Z.of_nat (length (prune now ts))) r); [|done].
  by inversion Hget; subst.
Qed.

(** The loop of [processQueue]: it admits a prefix of the queue, in
    order, and may leave one timer. *)
Lemma processQueue_loop_spec (fuel : nat) (s s' : state) (evs : list event) :
  processQueue_loop cfg fuel s = (s', evs) →
  (length (taskQueue s) ≤ fuel)%nat →
  ∃ admitted timer,
    taskQueue s = admitted ++ taskQueue s' ∧
    pool s' = pool s ++ (PExecute <$> admitted) ++ timer ∧
    activeTaskCount s' = activeTaskCount s + Z.of_nat (length admitted) ∧
    evs = (λ i, EvAdmit i (clock s)) <$> admitted ∧
    clock s' = clock s ∧ results s' = results s ∧ main s' = main s ∧
    processingQueue s' = processingQueue s ∧
    (requestTimestamps s' = requestTimestamps s ∨
     requestTimestamps s' = prune (clock s) (requestTimestamps s)) ∧
    (timer = [] ∨
     ∃ due, timer = [PProcessQueue due] ∧
            (clock s < due ∧
             rpm cfg ≤ Z.of_nat (length (prune (clock s) (requestTimestamps s))))) ∧
    (admitted ≠ [] → activeTaskCount s' ≤ maxConcurrent cfg) ∧
    (timer ≠ [] ∨ taskQueue s' = [] ∨ maxConcurrent cfg ≤ activeTaskCount s').
Proof.
  revert s s' evs. induction fuel as [|fuel IH]; intros s s' evs Hloop Hfuel.
  { simpl in Hloop. inversion Hloop; subst. exists [], [].
    destruct (taskQueue s') eqn:Hq; [|simpl in Hfuel; lia].
    close_spec. }
  cbn [processQueue_loop] in Hloop.
  destruct (Z.ltb_spec (activeTaskCount s) (maxConcurrent cfg)) as [Hact|Hact];
    cbn [andb] in Hloop; cycle 1.
  { inversion Hloop; subst. exists [], []. close_spec. }
  destruct (Z.ltb_spec 0 (Z.of_nat (length (taskQueue s)))) as [Hne|He]; cycle 1.
  { inversion Hloop; subst. exists [], [].
    destruct (taskQueue s'); [|simpl in He; lia]. close_spec. }
  destruct (getTimeUntilNextSlot (rpm cfg) (clock s) (requestTimestamps s))
    as [ts w] eqn:Hget.
  pose proof (getTimeUntilNextSlot_pruned _ _ _ _ _ Hget) as ->.
  destruct (positive_wait w) eqn:Hw.
  { destruct (getTimeUntilNextSlot_wait_positive _ _ _ _ _ Hget Hw) as (z & -> & Hz & Hfull).
    inversion Hloop; subst; cbn. exists [], [PProcessQueue (clock s + z)].
    close_spec. right. eexists. split; [done|]. split; [lia|done]. }
  cbn in Hloop. destruct (taskQueue s) as [|i q] eqn:Hq; [simpl in Hne; lia|].
  destruct (processQueue_loop cfg fuel _) as [s4 evs4] eqn:Hrec.
  inversion Hloop; subst. clear Hloop.
  apply IH in Hrec as (admitted & timer & Hq' & Hpool & Hactive & Hevs & Hclock
                        & Hres & Hmain & Hflag & Hts & Htimer & Hbound & Hexit);
    [|cbn; simpl in Hfuel; lia].
  cbn in *. exists (i :: admitted), timer.
  rewrite Hpool, Hactive, Hclock, Hres, Hmain, Hflag, Hevs. cbn.
  rewrite <- !app_assoc. cbn. rewrite Hq'.
  close_spec.
  - rewrite prune_idemp in Hts. destruct Hts as [->| ->]; by right.
  - destruct Htimer as [->|(due & -> & Hdue & Hfull)]; [by left|right].
    rewrite prune_idemp in Hfull. by eexists.
  - intros _. destruct admitted as [|j l]; [cbn; lia|].
    rewrite Hactive in Hbound. cbn in *. apply Hbound. done.
  - rewrite Hactive in Hexit. destruct Hexit as [?|[?|?]]; auto with lia.
Qed.

Lemma processQueue_spec (s s' : state) (evs : list event) :
  processQueue cfg s = (s', evs) →
  processingQueue s = false →
  ∃ admitted timer,
    taskQueue s = admitted ++ taskQueue s' ∧
    pool s' = pool s ++ (PExecute <$> admitted) ++ timer ∧
    activeTaskCount s' = activeTaskCount s + Z.of_nat (length admitted) ∧
    evs = (λ i, EvAdmit i (clock s)) <$> admitted ∧
    clock s' = clock s ∧ results s' = results s ∧ main s' = main s ∧
    processingQueue s' = false ∧
    (requestTimestamps s' = requestTimestamps s ∨
     requestTimestamps s' = prune (clock s) (requestTimestamps s)) ∧
    (timer = [] ∨
     ∃ due, timer = [PProcessQueue due] ∧
            (clock s < due ∧
             rpm cfg ≤ Z.of_nat (length (prune (clock s) (requestTimestamps s))))) ∧
    (admitted ≠ [] → activeTaskCount s' ≤ maxConcurrent cfg) ∧
    (timer ≠ [] ∨ taskQueue s' = [] ∨ maxConcurrent cfg ≤ activeTaskCount s').
Proof.
  intros Hpq Hflag. unfold processQueue in Hpq. rewrite Hflag in Hpq.
  destruct (processQueue_loop cfg _ _) as [s1 evs1] eqn:Hloop.
  inversion Hpq; subst; clear Hpq.
  apply processQueue_loop_spec in Hloop; [|done].
  destruct Hloop as (admitted & timer & H). exists admitted, timer.
  cbn in *. destruct_and!. split_and!; done.
Qed.

(** [executeTask] between [await acquireRateLimitSlot()] and the call of
    [asyncFn]: the task either goes to sleep on a full window or records
    its start in a window that had room. *)
Lemma executeTask_acquire_spec (i : nat) (args : list jsval) (s s' : state)
    (evs : list event) :
  executeTask_acquire cfg i args s = (s', evs) →
  clock s' = clock s ∧ taskQueue s' = taskQueue s ∧ results s' = results s ∧
  activeTaskCount s' = activeTaskCount s ∧
  processingQueue s' = processingQueue s ∧ main s' = main s ∧
  ((∃ z, (0 < z ∧
          rpm cfg ≤ Z.of_nat (length (prune (clock s) (requestTimestamps s)))) ∧
         requestTimestamps s' = prune (clock s) (requestTimestamps s) ∧
         pool s' = pool s ++ [PWaiting i args (clock s + z)] ∧ evs = []) ∨
   (requestTimestamps s'
      = sort_asc (prune (clock s) (requestTimestamps s) ++ [clock s]) ∧
    pool s' = pool s ++ [PRunning i args] ∧
    evs = [EvStart i args (clock s)] ∧
    (0 < rpm cfg →
     Z.of_nat (length (prune (clock s) (requestTimestamps s))) < rpm cfg))).
Proof.
  unfold executeTask_acquire, acquireRateLimitSlot.
  destruct (getTimeUntilNextSlot _ _ _) as [ts w] eqn:Hget.
  pose proof (getTimeUntilNextSlot_pruned _ _ _ _ _ Hget) as ->.
  destruct (positive_wait w) eqn:Hw; intros Heq; inversion Heq; subst; cbn.
  - destruct (getTimeUntilNextSlot_wait_positive _ _ _ _ _ Hget Hw) as (z & -> & Hz & Hfull).
    split_and!; try done. left. by exists z.
  - split_and!; try done. right. split_and!; try done.
    intros Hrpm. by destruct (no_wait_below_rpm _ _ _ _ _ Hrpm Hget Hw).
Qed.

Lemma executeTask_spec (i : nat) (s s' : state) (evs : list event) :
  executeTask cfg i s = (s', evs) →
  (i < length (fnArgs cfg))%nat →
  (∃ args, fnArgs cfg !! i = Some (JArr args) ∧
           executeTask_acquire cfg i args s = (s', evs)) ∨
  (∃ v, fnArgs cfg !! i = Some v ∧
        (isArray v = false ∧ conversion_throws v = false) ∧
        s' = completeTask
               (set_results (<[i := Some (JObj [("error"%string, bad_args_error)])]> (results s)) s) ∧
        evs = [EvBadArgs i (clock s)]) ∨
  (∃ v, fnArgs cfg !! i = Some v ∧
        (isArray v = false ∧ conversion_throws v = true) ∧
        s' = set_main Crashed (spawn (PDead i) s) ∧
        evs = [EvUnhandled i (clock s)]).
Proof.
  intros Hex Hi. unfold executeTask in Hex.
  destruct (Nat.leb_spec (length (fnArgs cfg)) i) as [?|_]; [lia|].
  destruct (fnArgs cfg !! i) as [v|] eqn:Hv; cycle 1.
  { apply lookup_ge_None in Hv. lia. }
  destruct (isArray v) eqn:Harr.
  { destruct v; try done. left. by eexists. }
  right. destruct (conversion_throws v) eqn:Hthrows; [right|left];
    exists v; by destruct v; try done; injection Hex as <- <-.
Qed.

(** What a dying [executeTask] leaves: the state it found, with the task
    still holding its slot. *)
Lemma executeTask_dead_spec (i : nat) (s : state) :
  let s' := set_main Crashed (spawn (PDead i) s) in
  clock s' = clock s ∧ taskQueue s' = taskQueue s ∧ results s' = results s ∧
  activeTaskCount s' = activeTaskCount s ∧
  processingQueue s' = processingQueue s ∧ main s' = Crashed ∧
  requestTimestamps s' = requestTimestamps s ∧
  pool s' = pool s ++ [PDead i] ∧
  writes [EvUnhandled i (clock s)] = [] ∧
  start_times [EvUnhandled i (clock s)] = [].
Proof. done. Qed.

(** The blocking timestamps: [rpm] copies of one instant, merged into the
    window. *)
Lemma push_blocking_spec (ms : Z) (s : state) :
  requestTimestamps (push_blocking cfg ms s)
    ≡ₚ requestTimestamps s
       ++ replicate (Z.to_nat (rpm cfg)) (clock s - windowDuration + ms).
Proof. unfold push_blocking. cbn. apply sort_asc_perm. Qed.

(** [executeTask] after [asyncFn] has settled. *)
Lemma executeTask_settle_spec (i : nat) (args : list jsval) (o : outcome)
    (s s' : state) (evs : list event) :
  executeTask_settle cfg i args o s = (s', evs) →
  clock s' = clock s ∧ taskQueue s' = taskQueue s ∧
  results s' = <[i := Some (stored o)]> (results s) ∧
  activeTaskCount s' = activeTaskCount s - 1 ∧
  processingQueue s' = processingQueue s ∧
  main s' = (if catch_throws o then Crashed else main s) ∧
  pool s' = pool s ++ [PProcessQueue (clock s + 50)] ∧
  writes evs = [(i, stored o)] ∧ start_times evs = [] ∧
  (∀ ev, ev ∈ evs →
         ev = EvSettle i args o (clock s) ∨ ev = EvUnhandled i (clock s) ∨
         ∃ ms, ev = EvThrottle (clock s) ms) ∧
  EvSettle i args o (clock s) ∈ evs ∧
  ((requestTimestamps s' = requestTimestamps s ∧
    ∀ t ms, EvThrottle t ms ∉ evs) ∨
   (∃ e ms, o = Rejected e ∧ cooldown_ms (throttle_of e) = Some ms ∧
            requestTimestamps s' = requestTimestamps (push_blocking cfg ms s) ∧
            evs = [EvSettle i args o (clock s); EvThrottle (clock s) ms])).
Proof.
  unfold executeTask_settle. intros Heq.
  destruct o as [v|e].
  { inversion Heq; subst; cbn. split_and!; try done.
    - intros ev ->%list_elem_of_singleton. by left.
    - by left.
    - left. split; [done|]. intros t ms Hin%list_elem_of_singleton. done. }
  unfold catch_throws.
  destruct (throttle_of e) eqn:Hth; inversion Heq; subst; cbn;
    (split_and!; try done;
     [ set_solver
     | set_solver
     | first [ left; split; [done|]; set_solver
             | right; eexists _, _; rewrite Hth; split_and!; done ] ]).
Qed.

Lemma poll_spec (s s' : state) (evs : list event) :
  poll s = (s', evs) →
  clock s' = clock s ∧ taskQueue s' = taskQueue s ∧ results s' = results s ∧
  activeTaskCount s' = activeTaskCount s ∧
  processingQueue s' = processingQueue s ∧ pool s' = pool s ∧
  requestTimestamps s' = requestTimestamps s ∧
  writes evs = [] ∧ start_times evs = [] ∧
  ((∃ due, main s' = Polling due ∧ evs = []) ∨
   (main s' = Returned (results s) ∧ evs = [EvReturn (clock s)] ∧
    activeTaskCount s ≤ 0 ∧ taskQueue s = [])).
Proof.
  unfold poll.
  destruct (Z.ltb_spec 0 (activeTaskCount s)) as [?|Ha]; cbn;
    [intros Heq; inversion Heq; subst; cbn; split_and!; try done; left; by eexists|].
  destruct (Z.ltb_spec 0 (Z.of_nat (length (taskQueue s)))) as [?|Hq]; cbn;
    intros Heq; inversion Heq; subst; cbn; split_and!; try done.
  - left; by eexists.
  - right. split_and!; try done. destruct (taskQueue s); [done|simpl in Hq; lia].
Qed.

End Effects.

(** ** The structure of the state is invariant *)

Section Structure.

Variable cfg : config.

Lemma inflight_app (l1 l2 : list pending) :
  inflight (l1 ++ l2) = inflight l1 ++ inflight l2.
Proof. apply omap_app. Qed.

Lemma inflight_execute (l : list nat) : inflight (PExecute <$> l) = l.
Proof. induction l as [|i l IH]; [done|]. cbn. by f_equal. Qed.

Lemma inflight_take_timer (pl : list pending) (k : nat) (due : Z) :
  pl !! k = Some (PProcessQueue due) → inflight (delete k pl) = inflight pl.
Proof.
  revert k. induction pl as [|p pl IH]; intros [|k] Hk; try done.
  - by inversion Hk.
  - cbn in *. unfold inflight in *. cbn. destruct (inflight_task p); by rewrite IH.
Qed.

Lemma inflight_take_task (pl : list pending) (k : nat) (p : pending) (i : nat) :
  pl !! k = Some p → inflight_task p = Some i →
  inflight pl ≡ₚ i :: inflight (delete k pl).
Proof.
  intros Hk Hp. unfold inflight.
  etrans; [apply omap_Permutation, (delete_Permutation pl k p Hk)|].
  cbn. by rewrite Hp.
Qed.

Lemma inflight_timer (due : Z) : inflight [PProcessQueue due] = [].
Proof. done. Qed.

Lemma inflight_item (p : pending) (i : nat) :
  inflight_task p = Some i → inflight [p] = [i].
Proof. intros Hp. unfold inflight. cbn. by rewrite Hp. Qed.

Arguments inflight : simpl never.

Lemma elem_of_delete_pool (pl : list pending) (k : nat) (p : pending) :
  p ∈ delete k pl → p ∈ pl.
Proof. intros Hp. eapply elem_of_submseteq; [done|apply submseteq_delete]. Qed.

Lemma wf_blank (now : Z) : wf cfg (blank cfg now).
Proof.
  split; cbn.
  - apply length_replicate.
  - done.
  - done.
  - rewrite app_nil_r. apply NoDup_seq.
  - intros i. rewrite app_nil_r, elem_of_seq, lookup_replicate. naive_solver lia.
  - intros p Hp. by apply elem_of_nil in Hp.
  - done.
Qed.

(** A transition that neither settles nor invents a task. *)
Lemma wf_transfer (s s' : state) :
  wf cfg s →
  results s' = results s →
  processingQueue s' = false →
  taskQueue s' ++ inflight (pool s') ≡ₚ taskQueue s ++ inflight (pool s) →
  activeTaskCount s' - Z.of_nat (length (inflight (pool s')))
    = activeTaskCount s - Z.of_nat (length (inflight (pool s))) →
  (∀ p, p ∈ pool s' → p ∈ pool s ∨ args_ok cfg p) →
  (main s' = main s ∨ (∃ due, main s' = Polling due) ∨
   (main s' = Returned (results s) ∧ taskQueue s = [] ∧ activeTaskCount s ≤ 0) ∨
   main s' = Crashed) →
  wf cfg s'.
Proof.
  intros [Hres Hflag Hact Hnd Huns Hargs Hmain] Hres' Hflag' Hperm Hact' Hargs' Hmain'.
  split.
  - by rewrite Hres'.
  - done.
  - lia.
  - by rewrite Hperm.
  - intros i. by rewrite Hperm, Hres'.
  - intros p [Hp|Hp]%Hargs'; [by apply Hargs|done].
  - intros res Hret. rewrite Hres'.
    assert (res = results s ∧ taskQueue s = [] ∧ inflight (pool s) = []) as (-> & Hq & Hi).
    { destruct Hmain' as [Heq|[[due Heq]|[(Heq & Hq & Ha)|Heq]]].
      - rewrite Heq in Hret. by apply Hmain.
      - by rewrite Heq in Hret.
      - rewrite Heq in Hret. inversion Hret; subst. split_and!; [done..|].
        destruct (inflight (pool s)); [done|]. cbn in Hact. lia.
      - by rewrite Heq in Hret. }
    rewrite Hq, Hi in Hperm. apply Permutation_nil_r in Hperm.
    by apply app_eq_nil in Hperm as [-> ->].
Qed.

(** A transition that settles task [i] and stores [v] for it. *)
Lemma wf_complete (s s' : state) (i : nat) (v : jsval) :
  wf cfg s →
  results s' = <[i := Some v]> (results s) →
  processingQueue s' = false →
  taskQueue s' = taskQueue s →
  inflight (pool s) ≡ₚ i :: inflight (pool s') →
  activeTaskCount s' = activeTaskCount s - 1 →
  (∀ p, p ∈ pool s' → p ∈ pool s ∨ args_ok cfg p) →
  main s' = main s ∨ main s' = Crashed →
  wf cfg s'.
Proof.
  intros [Hres Hflag Hact Hnd Huns Hargs Hmain] Hres' Hflag' Hq Hperm Hact' Hargs' Hmain'.
  rewrite Hperm in Hnd. setoid_rewrite Hperm in Huns.
  apply Permutation_length in Hperm as Hlen. rewrite Hlen in Hact.
  assert (Hi : (i < length (results s))%nat).
  { eapply lookup_lt_Some, Huns. rewrite elem_of_app, elem_of_cons. auto. }
  apply NoDup_app in Hnd as (Hnd1 & Hnd2 & Hnd3).
  apply NoDup_cons in Hnd3 as [Hnd3 Hnd4].
  split.
  - by rewrite Hres', length_insert.
  - done.
  - cbn in Hact. lia.
  - rewrite Hq. apply NoDup_app. split_and!; [done| |done].
    intros j Hj1 Hj2. apply (Hnd2 j Hj1). by right.
  - intros j. rewrite Hres', Hq. destruct (decide (i = j)) as [<-|Hne].
    + rewrite list_lookup_insert_eq by done. split; [|done].
      intros [Hj|Hj]%elem_of_app; [|done].
      exfalso. apply (Hnd2 i Hj). by left.
    + rewrite list_lookup_insert_ne by done. rewrite <- Huns.
      rewrite !elem_of_app, elem_of_cons. naive_solver.
  - intros p [Hp|Hp]%Hargs'; [by apply Hargs|done].
  - intros res Hret. destruct Hmain' as [Hmain'|Hmain']; rewrite Hmain' in Hret; [|done].
    apply Hmain in Hret as (_ & _ & Hnil).
    rewrite Hnil in Hperm. by apply Permutation_nil_cons in Hperm.
Qed.

Lemma wf_in_range (s : state) (i : nat) :
  wf cfg s → i ∈ inflight (pool s) → (i < length (fnArgs cfg))%nat.
Proof.
  intros Hwf Hi. rewrite <- (wf_results _ _ Hwf).
  eapply lookup_lt_Some, (wf_unsettled _ _ Hwf), elem_of_app. by right.
Qed.

Lemma pending_inflight (s : state) (k : nat) (p : pending) (i : nat) :
  pool s !! k = Some p → inflight_task p = Some i → i ∈ inflight (pool s).
Proof.
  intros Hk Hp. apply list_elem_of_omap. exists p. split; [|done].
  by eapply list_elem_of_lookup_2.
Qed.

Lemma wf_processQueue (s s' : state) (evs : list event) :
  wf cfg s → processQueue cfg s = (s', evs) → wf cfg s'.
Proof.
  intros Hwf Hpq.
  apply processQueue_spec in Hpq; [|by apply (wf_flag _ _ Hwf)].
  destruct Hpq as (adm & timer & Hq & Hpool & Hact & _ & _ & Hres & Hmain & Hflag
                   & _ & Htimer & _).
  assert (Hinf : inflight (pool s') = inflight (pool s) ++ adm).
  { rewrite Hpool, !inflight_app, inflight_execute.
    destruct Htimer as [->|(due & -> & _)]; by rewrite app_nil_r. }
  apply (wf_transfer s s'); try done.
  - rewrite Hinf, Hq. solve_Permutation.
  - rewrite Hinf, length_app. lia.
  - intros p. rewrite Hpool, !elem_of_app. intros [?|[Hp|Hp]]; [by left|right..].
    + apply list_elem_of_fmap in Hp as (i & -> & _). done.
    + destruct Htimer as [->|(due & -> & _)]; [by apply elem_of_nil in Hp|].
      by apply list_elem_of_singleton in Hp as ->.
  - by left.
Qed.

Lemma wf_acquire (s s' : state) (k : nat) (p : pending) (i : nat)
    (args : list jsval) (evs : list event) :
  wf cfg s →
  pool s !! k = Some p → inflight_task p = Some i →
  fnArgs cfg !! i = Some (JArr args) →
  executeTask_acquire cfg i args (take_pending k s) = (s', evs) →
  wf cfg s'.
Proof.
  intros Hwf Hk Hp Hargs Hacq.
  apply executeTask_acquire_spec in Hacq
    as (_ & Hq & Hres & Hact & Hflag & Hmain & Hcases). cbn in *.
  pose proof (inflight_take_task _ _ _ _ Hk Hp) as Hperm.
  assert (∃ item, pool s' = delete k (pool s) ++ [item] ∧
                  inflight_task item = Some i ∧ args_ok cfg item)
    as (item & Hpool & Hitem & Hok).
  { destruct Hcases as [(z & _ & _ & -> & _)|(_ & -> & _)]; by eexists. }
  assert (Hinf : inflight (pool s') ≡ₚ inflight (pool s)).
  { rewrite Hpool, inflight_app, Hperm, (inflight_item _ _ Hitem).
    by rewrite <- Permutation_cons_append. }
  apply (wf_transfer s s'); try done.
  - by rewrite Hflag, (wf_flag _ _ Hwf).
  - by rewrite Hq, Hinf.
  - rewrite Hact. by rewrite (Permutation_length Hinf).
  - intros q. rewrite Hpool, elem_of_app. intros [Hq'|Hq'].
    + left. by eapply elem_of_delete_pool.
    + right. by apply list_elem_of_singleton in Hq' as ->.
  - by left.
Qed.

Lemma wf_settle (s s' : state) (k : nat) (i : nat) (args : list jsval)
    (o : outcome) (evs : list event) :
  wf cfg s →
  pool s !! k = Some (PRunning i args) →
  executeTask_settle cfg i args o (take_pending k s) = (s', evs) →
  wf cfg s'.
Proof.
  intros Hwf Hk Hset.
  apply executeTask_settle_spec in Hset
    as (_ & Hq & Hres & Hact & Hflag & Hmain & Hpool & _). cbn in *.
  apply (wf_complete s s' i (stored o)); try done.
  - by rewrite Hflag, (wf_flag _ _ Hwf).
  - rewrite Hpool, inflight_app, inflight_timer, app_nil_r.
    by apply (inflight_take_task _ _ (PRunning i args)).
  - intros q. rewrite Hpool, elem_of_app. intros [Hq'|Hq'].
    + left. by eapply elem_of_delete_pool.
    + right. by apply list_elem_of_singleton in Hq' as ->.
  - rewrite Hmain. destruct (catch_throws o); [by right|by left].
Qed.

Lemma wf_dead (s : state) (k i : nat) :
  wf cfg s →
  pool s !! k = Some (PExecute i) →
  wf cfg (set_main Crashed (spawn (PDead i) (take_pending k s))).
Proof.
  intros Hwf Hk.
  pose proof (inflight_take_task _ _ _ _ Hk eq_refl) as Hperm.
  assert (Hinf : inflight (delete k (pool s) ++ [PDead i]) ≡ₚ inflight (pool s)).
  { rewrite inflight_app, Hperm, (inflight_item _ i) by done.
    by rewrite <- Permutation_cons_append. }
  apply (wf_transfer s _); cbn; try done.
  - apply Hwf.
  - by rewrite Hinf.
  - by rewrite (Permutation_length Hinf).
  - intros q. rewrite elem_of_app. intros [Hq'|Hq'].
    + left. by eapply elem_of_delete_pool.
    + right. by apply list_elem_of_singleton in Hq' as ->.
  - by right; right; right.
Qed.

Lemma wf_poll (s s' : state) (evs : list event) :
  wf cfg s → poll s = (s', evs) → wf cfg s'.
Proof.
  intros Hwf Hpoll.
  apply poll_spec in Hpoll
    as (_ & Hq & Hres & Hact & Hflag & Hpool & _ & _ & _ & Hmain).
  apply (wf_transfer s s'); try done.
  - by rewrite Hflag, (wf_flag _ _ Hwf).
  - by rewrite Hq, Hpool.
  - by rewrite Hact, Hpool.
  - intros p. rewrite Hpool. by left.
  - destruct Hmain as [(due & -> & _)|(-> & _ & ? & ?)]; [right; left; by eexists|].
    right; right; left. done.
Qed.

Lemma step_turn (a : action) (s s' : state) (evs : list event) :
  step cfg a s = Some (s', evs) → main s ≠ Crashed ∧ turn cfg a s = Some (s', evs).
Proof. unfold step. by destruct (main s). Qed.

Lemma turn_step (a : action) (s : state) :
  main s ≠ Crashed → step cfg a s = turn cfg a s.
Proof. unfold step. by destruct (main s). Qed.

Lemma wf_step (a : action) (s s' : state) (evs : list event) :
  wf cfg s → step cfg a s = Some (s', evs) → wf cfg s'.
Proof.
  intros Hwf Hstep. apply step_turn in Hstep as [_ Hstep].
  destruct a as [d|k|k o|]; cbn in Hstep.
  - destruct (0 <? d); [|done]. inversion Hstep; subst.
    apply (wf_transfer s _); cbn; try done; [apply Hwf|by left|by left].
  - destruct (pool s !! k) as [[due|i|i args due|i args|i]|] eqn:Hk; try done.
    + destruct (due <=? clock s); [|done]. inversion Hstep as [Hpq]. clear Hstep.
      eapply wf_processQueue; [|done].
      apply (wf_transfer s _); cbn; try done; [apply Hwf|..].
      * by rewrite (inflight_take_timer _ _ _ Hk).
      * by rewrite (inflight_take_timer _ _ _ Hk).
      * intros p Hp. left. by eapply elem_of_delete_pool.
      * by left.
    + inversion Hstep as [Hex]. clear Hstep.
      assert (Hi : (i < length (fnArgs cfg))%nat).
      { eapply wf_in_range; [done|]. by eapply (pending_inflight _ _ (PExecute i)). }
      apply executeTask_spec in Hex
        as [(args & Hargs & Hacq)|[(v & Hv & _ & -> & _)|(v & Hv & _ & -> & ->)]];
        [| | |done].
      * by eapply (wf_acquire s s' k (PExecute i)).
      * eapply (wf_complete s _ i); cbn; try done; [apply Hwf|..].
        -- rewrite inflight_app, inflight_timer, app_nil_r.
           by apply (inflight_take_task _ _ (PExecute i)).
        -- intros q. rewrite elem_of_app. intros [Hq'|Hq'].
           ++ left. by eapply elem_of_delete_pool.
           ++ right. by apply list_elem_of_singleton in Hq' as ->.
        -- by left.
      * by apply wf_dead.
    + destruct (due <=? clock s); [|done]. inversion Hstep as [Hacq]. clear Hstep.
      eapply (wf_acquire s s' k (PWaiting i args due)); try done.
      apply (wf_args _ _ Hwf (PWaiting i args due)). by eapply list_elem_of_lookup_2.
  - destruct (pool s !! k) as [[due|i|i args due|i args|i]|] eqn:Hk; try done.
    inversion Hstep as [Hset]. by eapply wf_settle.
  - destruct (main s) as [due|res|]; [|done..].
    destruct (due <=? clock s); [|done]. inversion Hstep as [Hpoll].
    by eapply wf_poll.
Qed.

Lemma wf_call (now : Z) (s : state) (evs : list event) :
  rpmControlledBatch cfg now = (s, evs) → wf cfg s.
Proof.
  unfold rpmControlledBatch.
  destruct (processQueue cfg (blank cfg now)) as [s1 evs1] eqn:Hpq.
  destruct (poll s1) as [s2 evs2] eqn:Hpoll. intros Heq; inversion Heq; subst.
  eapply wf_poll; [|done]. eapply wf_processQueue; [|done]. apply wf_blank.
Qed.

Lemma reach_wf (s : state) (evs : list event) : reach cfg s evs → wf cfg s.
Proof.
  induction 1 as [now s evs Hcall|s evs a s' evs' _ IH Hstep].
  - by eapply wf_call.
  - by eapply wf_step.
Qed.

End Structure.

(** ** The active-task counter *)

Section Counter.

Variable cfg : config.

Lemma counter_after_app (c : Z) (evs1 evs2 : list event) :
  counter_after c (evs1 ++ evs2) = counter_after (counter_after c evs1) evs2.
Proof. apply foldl_app. Qed.

Lemma admitted_below_app (limit c : Z) (evs1 evs2 : list event) :
  admitted_below limit c (evs1 ++ evs2) ↔
  admitted_below limit c evs1 ∧
  admitted_below limit (counter_after c evs1) evs2.
Proof.
  revert c. induction evs1 as [|ev evs1 IH]; intros c; cbn; [naive_solver|].
  rewrite IH. naive_solver.
Qed.

Lemma counter_after_admits (c t : Z) (l : list nat) :
  counter_after c ((λ i, EvAdmit i t) <$> l) = c + Z.of_nat (length l).
Proof.
  revert c. induction l as [|i l IH]; intros c; cbn; [lia|].
  unfold counter_after in IH. rewrite IH. lia.
Qed.

Lemma admitted_below_admits (limit c t : Z) (l : list nat) :
  (l ≠ [] → c + Z.of_nat (length l) ≤ limit) →
  admitted_below limit c ((λ i, EvAdmit i t) <$> l).
Proof.
  revert c. induction l as [|i l IH]; intros c Hle; cbn; [done|].
  assert (c + Z.of_nat (S (length l)) ≤ limit) by by apply Hle.
  split; [lia|]. apply IH. intros _. lia.
Qed.

(** Events that write one result and admit nothing. *)
Lemma counter_after_written (c : Z) (evs : list event) (w : nat * jsval) :
  writes evs = [w] → (∀ i t, EvAdmit i t ∉ evs) →
  counter_after c evs = c - 1 ∧ ∀ limit, admitted_below limit c evs.
Proof.
  revert c. induction evs as [|ev evs IH]; intros c Hw Hadm; [done|].
  assert (Hadm' : ∀ i t, EvAdmit i t ∉ evs) by set_solver.
  assert (Hflat : writes evs = [] → ∀ c', counter_after c' evs = c'
                                     ∧ ∀ limit, admitted_below limit c' evs).
  { clear -Hadm'. induction evs as [|ev evs IH]; intros Hw c'; [done|].
    assert (∀ i t, EvAdmit i t ∉ evs) by set_solver.
    destruct ev; cbn in *; try done;
      try (destruct (IH ltac:(done) ltac:(done) c') as [IH1 IH2]; by split);
      set_solver. }
  destruct ev; cbn in *;
    try (destruct (IH c ltac:(done) ltac:(done)) as [IH1 IH2]; by split);
    try (inversion Hw as [[Hw1 Hw2]];
         destruct (Hflat Hw2 (c - 1)) as [H1 H2]; by split).
  set_solver.
Qed.


Lemma counted_extend (s s' : state) (evs evs' : list event) :
  counted cfg s evs →
  counter_after (activeTaskCount s) evs' = activeTaskCount s' →
  admitted_below (maxConcurrent cfg) (activeTaskCount s) evs' →
  counted cfg s' (evs ++ evs').
Proof.
  intros [Hc Hb] Hc' Hb'. split.
  - by rewrite counter_after_app, Hc.
  - apply admitted_below_app. by rewrite Hc.
Qed.

Lemma counted_processQueue (s s' : state) (evs evs' : list event) :
  processingQueue s = false →
  counted cfg s evs → processQueue cfg s = (s', evs') → counted cfg s' (evs ++ evs').
Proof.
  intros Hflag Hc Hpq. apply processQueue_spec in Hpq; [|done].
  destruct Hpq as (adm & timer & _ & _ & Hact & -> & _ & _ & _ & _ & _ & _ & Hle & _).
  apply (counted_extend s); [done|..].
  - by rewrite counter_after_admits.
  - apply admitted_below_admits. intros Hne. rewrite <- Hact. by apply Hle.
Qed.

Lemma counted_acquire (s s' : state) (i : nat) (args : list jsval)
    (evs evs' : list event) :
  counted cfg s evs → executeTask_acquire cfg i args s = (s', evs') →
  counted cfg s' (evs ++ evs').
Proof.
  intros Hc Hacq.
  apply executeTask_acquire_spec in Hacq as (_ & _ & _ & Hact & _ & _ & Hcases).
  apply (counted_extend s); [done|..];
    destruct Hcases as [(z & _ & _ & _ & ->)|(_ & _ & -> & _)]; by cbn.
Qed.

Lemma counted_step (a : action) (s s' : state) (evs evs' : list event) :
  wf cfg s → counted cfg s evs → step cfg a s = Some (s', evs') →
  counted cfg s' (evs ++ evs').
Proof.
  intros Hwf Hc Hstep. apply step_turn in Hstep as [_ Hstep].
  destruct a as [d|k|k o|]; cbn in Hstep.
  - destruct (0 <? d); [|done]. inversion Hstep; subst.
    rewrite app_nil_r. apply Hc.
  - destruct (pool s !! k) as [[due|i|i args due|i args|i]|] eqn:Hk; try done.
    + destruct (due <=? clock s); [|done]. inversion Hstep as [Hpq]. clear Hstep.
      apply (counted_processQueue (take_pending k s)); [apply Hwf|apply Hc|done].
    + inversion Hstep as [Hex]. clear Hstep.
      assert (Hi : (i < length (fnArgs cfg))%nat).
      { eapply wf_in_range; [done|]. by eapply (pending_inflight _ _ (PExecute i)). }
      apply executeTask_spec in Hex
        as [(args & Hargs & Hacq)|[(v & Hv & _ & -> & ->)|(v & Hv & _ & -> & ->)]];
        [| | |done].
      * by apply (counted_acquire (take_pending k s) _ i args).
      * by apply (counted_extend s).
      * by apply (counted_extend s).
    + destruct (due <=? clock s); [|done]. inversion Hstep as [Hacq]. clear Hstep.
      by apply (counted_acquire (take_pending k s) _ i args).
  - destruct (pool s !! k) as [[due|i|i args due|i args|i]|] eqn:Hk; try done.
    inversion Hstep as [Hset]. clear Hstep.
    apply executeTask_settle_spec in Hset
      as (_ & _ & _ & Hact & _ & _ & _ & Hw & _ & Hevs & _).
    cbn in Hact.
    destruct (counter_after_written (activeTaskCount s) evs' _ Hw) as [H1 H2].
    { intros j t Hin. apply Hevs in Hin. naive_solver. }
    apply (counted_extend s); [done|..]; [by rewrite H1|apply H2].
  - destruct (main s) as [due|res|]; [|done..].
    destruct (due <=? clock s); [|done]. inversion Hstep as [Hpoll].
    apply poll_spec in Hpoll
      as (_ & _ & _ & Hact & _ & _ & _ & _ & _ & Hmain).
    apply (counted_extend s); [done|..];
      destruct Hmain as [(due' & _ & ->)|(_ & -> & _)]; by cbn.
Qed.

Lemma reach_counted (s : state) (evs : list event) :
  reach cfg s evs → counted cfg s evs.
Proof.
  induction 1 as [now s evs Hcall|s evs a s' evs' Hreach IH Hstep].
  - unfold rpmControlledBatch in Hcall.
    destruct (processQueue cfg (blank cfg now)) as [s1 evs1] eqn:Hpq.
    destruct (poll s1) as [s2 evs2] eqn:Hpoll. inversion Hcall; subst.
    assert (Hc1 : counted cfg s1 ([] ++ evs1)).
    { eapply (counted_processQueue (blank cfg now)); [done| |done]. by split. }
    apply poll_spec in Hpoll
      as (_ & _ & _ & Hact & _ & _ & _ & _ & _ & Hmain).
    apply (counted_extend s1); [done|..];
      destruct Hmain as [(due' & _ & ->)|(_ & -> & _)]; by cbn.
  - eapply counted_step; [|done..]. by eapply reach_wf.
Qed.

Lemma admitted_below_bound (limit c : Z) (evs : list event) :
  c ≤ limit → admitted_below limit c evs → counter_after c evs ≤ limit.
Proof.
  revert c. induction evs as [|ev evs IH]; intros c Hc Hb; [done|].
  destruct Hb as [Hev Hb]. cbn. apply IH; [|done].
  destruct ev; cbn in *; lia.
Qed.

End Counter.

(** ** The events account for the results *)

Section Accounting.

Variable cfg : config.

Lemma writes_app (evs1 evs2 : list event) :
  writes (evs1 ++ evs2) = writes evs1 ++ writes evs2.
Proof. apply omap_app. Qed.

Lemma writes_admits (t : Z) (l : list nat) :
  writes ((λ i, EvAdmit i t) <$> l) = [].
Proof. induction l; [done|]. by cbn. Qed.

(** A transition that writes no result. *)
Lemma accounted_transfer (s s' : state) (evs evs' : list event) :
  accounted cfg s evs →
  results s' = results s →
  writes evs' = [] →
  (∀ i args, PRunning i args ∈ pool s' →
             PRunning i args ∈ pool s ∨ ∃ t0, EvStart i args t0 ∈ evs') →
  accounted cfg s' (evs ++ evs').
Proof.
  intros [Hnd Hres Hset Hrun Hbad] Hres' Hw Hpool.
  assert (Hnone : ∀ ev, ev ∈ evs' → written ev = None).
  { intros ev Hev. destruct (written ev) as [w|] eqn:Hwr; [|done].
    assert (w ∈ writes evs') as Hin by (apply list_elem_of_omap; eauto).
    rewrite Hw in Hin. by apply elem_of_nil in Hin. }
  split.
  - by rewrite writes_app, Hw, app_nil_r.
  - intros i v. by rewrite writes_app, Hw, app_nil_r, Hres'.
  - intros i args o t [Hin|Hin]%elem_of_app.
    + destruct (Hset _ _ _ _ Hin) as [? [t0 ?]]. split; [done|].
      exists t0. apply elem_of_app. by left.
    + by apply Hnone in Hin.
  - intros i args [Hin|[t0 Hin]]%Hpool.
    + destruct (Hrun _ _ Hin) as [t0 ?]. exists t0. apply elem_of_app. by left.
    + exists t0. apply elem_of_app. by right.
  - intros i t [Hin|Hin]%elem_of_app; [by eapply Hbad|].
    by apply Hnone in Hin.
Qed.

(** A transition that writes the result of task [i], which had none. *)
Lemma accounted_complete (s s' : state) (evs evs' : list event) (i : nat) (v : jsval) :
  accounted cfg s evs →
  results s !! i = Some None →
  results s' = <[i := Some v]> (results s) →
  writes evs' = [(i, v)] →
  (∀ j args o t, EvSettle j args o t ∈ evs' →
                 fnArgs cfg !! j = Some (JArr args) ∧ PRunning j args ∈ pool s) →
  (∀ j t, EvBadArgs j t ∈ evs' → ∃ u, fnArgs cfg !! j = Some u ∧ isArray u = false) →
  (∀ ev, ev ∈ evs' → start_time ev = None) →
  (∀ j args, PRunning j args ∈ pool s' → PRunning j args ∈ pool s) →
  accounted cfg s' (evs ++ evs').
Proof.
  intros [Hnd Hres Hset Hrun Hbad] Hnone Hres' Hw Hset' Hbad' Hstart Hpool.
  assert (Hi : (i < length (results s))%nat) by by eapply lookup_lt_Some.
  assert (Hfresh : i ∉ (writes evs).*1).
  { intros Hin. apply list_elem_of_fmap in Hin as ([j w] & Hj & Hin).
    cbn in Hj. subst j. apply Hres in Hin. congruence. }
  split.
  - rewrite writes_app, Hw, fmap_app. cbn. apply NoDup_app. split_and!; [done| |].
    + intros j Hj ->%list_elem_of_singleton. done.
    + apply NoDup_singleton.
  - intros j w. rewrite writes_app, Hw, elem_of_app, list_elem_of_singleton, Hres'.
    destruct (decide (i = j)) as [<-|Hne].
    + rewrite list_lookup_insert_eq by done. split.
      * intros [Hin|[= <-]]; [|done]. exfalso. apply Hfresh.
        apply list_elem_of_fmap. by exists (i, w).
      * intros [= <-]. by right.
    + rewrite list_lookup_insert_ne by done. rewrite <- Hres.
      split; [|by left]. intros [?|[= ? ?]]; [done|congruence].
  - intros j args o t [Hin|Hin]%elem_of_app.
    + destruct (Hset _ _ _ _ Hin) as [? [t0 ?]]. split; [done|].
      exists t0. apply elem_of_app. by left.
    + destruct (Hset' _ _ _ _ Hin) as [? Hp]. split; [done|].
      destruct (Hrun _ _ Hp) as [t0 ?]. exists t0. apply elem_of_app. by left.
  - intros j args Hin%Hpool.
    destruct (Hrun _ _ Hin) as [t0 ?]. exists t0. apply elem_of_app. by left.
  - intros j t [Hin|Hin]%elem_of_app; [by eapply Hbad|by eapply Hbad'].
Qed.

Lemma accounted_blank (now : Z) : accounted cfg (blank cfg now) [].
Proof.
  split; cbn.
  - apply NoDup_nil_2.
  - intros i v. rewrite lookup_replicate. split; [by intros ?%elem_of_nil|].
    by intros [[=] _].
  - by intros i args o t ?%elem_of_nil.
  - by intros i args ?%elem_of_nil.
  - by intros i t ?%elem_of_nil.
Qed.

Lemma accounted_processQueue (s s' : state) (evs evs' : list event) :
  processingQueue s = false →
  accounted cfg s evs → processQueue cfg s = (s', evs') →
  accounted cfg s' (evs ++ evs').
Proof.
  intros Hflag Hacc Hpq. apply processQueue_spec in Hpq; [|done].
  destruct Hpq as (adm & timer & _ & Hpool & _ & -> & _ & Hres & _ & _ & _ & Htimer & _).
  apply (accounted_transfer s); [done|done|apply writes_admits|].
  intros i args. rewrite Hpool, !elem_of_app. intros [?|[Hin|Hin]]; [by left|exfalso..].
  - by apply list_elem_of_fmap in Hin as (j & [=] & _).
  - destruct Htimer as [->|(due & -> & _)]; [by apply elem_of_nil in Hin|].
    by apply list_elem_of_singleton in Hin.
Qed.

Lemma accounted_acquire (s s' : state) (i : nat) (args : list jsval)
    (evs evs' : list event) :
  accounted cfg s evs → executeTask_acquire cfg i args s = (s', evs') →
  accounted cfg s' (evs ++ evs').
Proof.
  intros Hacc Hacq.
  apply executeTask_acquire_spec in Hacq as (_ & _ & Hres & _ & _ & _ & Hcases).
  apply (accounted_transfer s); [done|done|..];
    destruct Hcases as [(z & _ & _ & Hpool & ->)|(_ & Hpool & -> & _)]; try done;
    intros j args'; rewrite Hpool, elem_of_app, list_elem_of_singleton;
    (intros [?|Heq]; [by left|]); [done|].
  inversion Heq; subst. right. eexists. by apply list_elem_of_singleton.
Qed.

Lemma accounted_take (s : state) (k : nat) (evs : list event) :
  accounted cfg s evs → accounted cfg (take_pending k s) evs.
Proof.
  intros [Hnd Hres Hset Hrun Hbad]. split; try done.
  intros i args Hin. cbn in Hin. apply Hrun. by eapply elem_of_delete_pool.
Qed.

Lemma accounted_step (a : action) (s s' : state) (evs evs' : list event) :
  wf cfg s → accounted cfg s evs → step cfg a s = Some (s', evs') →
  accounted cfg s' (evs ++ evs').
Proof.
  intros Hwf Hacc Hstep. apply step_turn in Hstep as [_ Hstep].
  destruct a as [d|k|k o|]; cbn in Hstep.
  - destruct (0 <? d); [|done]. inversion Hstep; subst.
    apply (accounted_transfer s); try done. intros i args ?. by left.
  - destruct (pool s !! k) as [[due|i|i args due|i args|i]|] eqn:Hk; try done.
    + destruct (due <=? clock s); [|done]. inversion Hstep as [Hpq]. clear Hstep.
      apply (accounted_processQueue (take_pending k s)); [apply Hwf| |done].
      by apply accounted_take.
    + inversion Hstep as [Hex]. clear Hstep.
      pose proof (pending_inflight _ _ (PExecute i) i Hk eq_refl) as Hinf.
      assert (Hi : (i < length (fnArgs cfg))%nat) by by eapply wf_in_range.
      apply executeTask_spec in Hex
        as [(args & Hargs & Hacq)|[(v & Hv & [Hnot _] & -> & ->)|(v & Hv & _ & -> & ->)]];
        [| | |done].
      * apply (accounted_acquire (take_pending k s) _ i args); [|done].
        by apply accounted_take.
      * eapply (accounted_complete s _ _ _ i); cbn; try done.
        -- apply (wf_unsettled _ _ Hwf), elem_of_app. by right.
        -- intros j args o t Hin%list_elem_of_singleton. done.
        -- intros j t Hin%list_elem_of_singleton. inversion Hin; subst. by exists v.
        -- intros ev ->%list_elem_of_singleton. done.
        -- intros j args. rewrite elem_of_app, list_elem_of_singleton.
           intros [?|?]; [by eapply elem_of_delete_pool|done].
      * apply (accounted_transfer s); cbn; try done.
        intros j args. rewrite elem_of_app, list_elem_of_singleton.
        intros [?|?]; [left; by eapply elem_of_delete_pool|done].
    + destruct (due <=? clock s); [|done]. inversion Hstep as [Hacq]. clear Hstep.
      apply (accounted_acquire (take_pending k s) _ i args); [|done].
      by apply accounted_take.
  - destruct (pool s !! k) as [[due|i|i args due|i args|i]|] eqn:Hk; try done.
    inversion Hstep as [Hset]. clear Hstep.
    pose proof (pending_inflight _ _ (PRunning i args) i Hk eq_refl) as Hinf.
    assert (Hin : PRunning i args ∈ pool s) by by eapply list_elem_of_lookup_2.
    apply executeTask_settle_spec in Hset
      as (_ & _ & Hres & _ & _ & _ & Hpool & Hw & Hst & Hevs & _).
    cbn in *.
    eapply (accounted_complete s _ _ _ i); try done.
    + apply (wf_unsettled _ _ Hwf), elem_of_app. by right.
    + intros j args' o' t Hev. apply Hevs in Hev as [Heq|[?|[? ?]]]; try done.
      inversion Heq; subst. split; [|done]. by apply (wf_args _ _ Hwf _ Hin).
    + intros j t Hev. apply Hevs in Hev as [?|[?|[? ?]]]; done.
    + intros ev Hev. apply Hevs in Hev as [->|[->|[? ->]]]; done.
    + intros j args'. rewrite Hpool, elem_of_app, list_elem_of_singleton.
      intros [?|?]; [by eapply elem_of_delete_pool|done].
  - destruct (main s) as [due|res|]; [|done..].
    destruct (due <=? clock s); [|done]. inversion Hstep as [Hpoll].
    apply poll_spec in Hpoll
      as (_ & _ & Hres & _ & _ & Hpool & _ & Hw & _).
    apply (accounted_transfer s); try done. intros i args. rewrite Hpool. by left.
Qed.

Lemma reach_accounted (s : state) (evs : list event) :
  reach cfg s evs → accounted cfg s evs.
Proof.
  induction 1 as [now s evs Hcall|s evs a s' evs' Hreach IH Hstep].
  - unfold rpmControlledBatch in Hcall.
    destruct (processQueue cfg (blank cfg now)) as [s1 evs1] eqn:Hpq.
    destruct (poll s1) as [s2 evs2] eqn:Hpoll. inversion Hcall; subst.
    assert (Hacc1 : accounted cfg s1 ([] ++ evs1)).
    { eapply (accounted_processQueue (blank cfg now)); [done| |done].
      apply accounted_blank. }
    apply poll_spec in Hpoll
      as (_ & _ & Hres & _ & _ & Hpool & _ & Hw & _).
    apply (accounted_transfer s1); try done. intros i args. rewrite Hpool. by left.
  - eapply accounted_step; [|done..]. by eapply reach_wf.
Qed.

End Accounting.

(** ** The counter, its bounds and the settlements *)

(** C3.  In every reachable state the active-task counter lies between
    [0] and [maxConcurrent]; it is the number of tasks in flight, and it
    is what the events add up to: every admission found the counter
    below [maxConcurrent] and added one, every settlement took one away,
    and no task settled twice. *)
Theorem activeTaskCount_bounded (cfg : config) (s : state) (evs : list event) :
  0 < maxConcurrent cfg →
  reach cfg s evs →
  0 ≤ activeTaskCount s ≤ maxConcurrent cfg ∧
  activeTaskCount s = Z.of_nat (length (inflight (pool s))) ∧
  activeTaskCount s = counter_after 0 evs ∧
  admitted_below (maxConcurrent cfg) 0 evs ∧
  NoDup (writes evs).*1.
Proof.
  intros Hmax Hreach.
  pose proof (reach_wf _ _ _ Hreach) as Hwf.
  destruct (reach_counted _ _ _ Hreach) as [Hc Hb].
  pose proof (wf_active _ _ Hwf) as Hact.
  pose proof (admitted_below_bound (maxConcurrent cfg) 0 evs ltac:(lia) Hb) as Hle.
  split_and!; [lia|lia|done|done|done|].
  apply (acc_nodup _ _ _ (reach_accounted _ _ _ Hreach)).
Qed.

(** ** The returned array *)

Section Returned.

Variable cfg : config.

Lemma elem_of_writes (evs : list event) (i : nat) (v : jsval) :
  (i, v) ∈ writes evs ↔
  (∃ args o t, EvSettle i args o t ∈ evs ∧ v = stored o) ∨
  (∃ t, EvBadArgs i t ∈ evs ∧ v = JObj [("error"%string, bad_args_error)]).
Proof.
  unfold writes. rewrite list_elem_of_omap. split.
  - intros (ev & Hev & Hw). destruct ev; try done; inversion Hw; subst.
    + left. by eexists _, _, _.
    + right. by eexists.
  - intros [(args & o & t & Hev & ->)|(t & Hev & ->)]; by eexists.
Qed.

(** When the call has returned, every index holds a value. *)
Lemma returned_all_settled (s : state) (res : list (option jsval)) (i : nat) :
  wf cfg s → main s = Returned res → (i < length (fnArgs cfg))%nat →
  ∃ v, res !! i = Some (Some v).
Proof.
  intros Hwf Hret Hi.
  destruct (wf_main _ _ Hwf _ Hret) as (-> & Hq & Hinf).
  rewrite <- (wf_results _ _ Hwf) in Hi.
  apply lookup_lt_is_Some in Hi as [[v|] Hv]; [by exists v|].
  apply (wf_unsettled _ _ Hwf) in Hv. rewrite Hq, Hinf in Hv.
  by apply elem_of_nil in Hv.
Qed.

Lemma returned_results (s : state) (evs : list event) (res : list (option jsval)) :
  reach cfg s evs → main s = Returned res →
  length res = length (fnArgs cfg) ∧
  NoDup (writes evs).*1 ∧
  ∀ i a, fnArgs cfg !! i = Some a →
    match a with
    | JArr args =>
        ∃ o t t0, EvStart i args t0 ∈ evs ∧ EvSettle i args o t ∈ evs ∧
                  match o with
                  | Resolved v => res !! i = Some (Some v)
                  | Rejected e => res !! i = Some (Some (JObj [("error"%string, e)]))
                  end
    | _ => res !! i = Some (Some (JObj [("error"%string, bad_args_error)]))
    end.
Proof.
  intros Hreach Hret.
  pose proof (reach_wf _ _ _ Hreach) as Hwf.
  pose proof (reach_accounted _ _ _ Hreach) as Hacc.
  destruct (wf_main _ _ Hwf _ Hret) as (Hres & _ & _).
  split; [rewrite Hres; apply Hwf|]. split; [apply Hacc|].
  intros i a Ha.
  destruct (returned_all_settled s res i Hwf Hret) as [v Hv];
    [by eapply lookup_lt_Some|].
  rewrite Hv. rewrite Hres in Hv.
  apply (acc_results _ _ _ Hacc), elem_of_writes in Hv
    as [(args & o & t & Hev & ->)|(t & Hev & ->)].
  - destruct (acc_settle _ _ _ Hacc _ _ _ _ Hev) as [Hargs [t0 Hstart]].
    rewrite Ha in Hargs. inversion Hargs; subst.
    exists o, t, t0. by destruct o.
  - destruct (acc_bad _ _ _ Hacc _ _ Hev) as (u & Hu & Hnot).
    rewrite Ha in Hu. inversion Hu; subst. by destruct u.
Qed.

Lemma call_empty (now : Z) :
  fnArgs cfg = [] →
  ∃ s, rpmControlledBatch cfg now = (s, [EvReturn now]) ∧ main s = Returned [].
Proof.
  intros Hnil. unfold rpmControlledBatch, processQueue, blank, poll.
  rewrite Hnil. cbn. by eexists.
Qed.

Example empty_batch_returns_at_once :
  main (rpmControlledBatch (configure {| opt_rpm := None; opt_maxConcurrent := None |} []) 0).1
  = Returned [].
Proof. reflexivity. Qed.

(** C1.  When the call returns, the array it returns is as long as
    [fnArgs]; no index was written twice; the entry at [i] is what the
    call [asyncFn(...fnArgs[i])] made for task [i] settled with: the
    value [v] itself when the call resolved with [v], and [{ error: e }]
    when it threw or rejected with [e], whatever the order of
    settlement; it is the argument error when [fnArgs[i]] is not an
    array.  An empty [fnArgs] returns the empty array at once. *)
Theorem results_index_aligned (s : state) (evs : list event)
    (res : list (option jsval)) :
  reach cfg s evs →
  main s = Returned res →
  length res = length (fnArgs cfg) ∧
  NoDup (writes evs).*1 ∧
  (∀ i a, fnArgs cfg !! i = Some a →
     match a with
     | JArr args =>
         ∃ o t t0, EvStart i args t0 ∈ evs ∧ EvSettle i args o t ∈ evs ∧
                   match o with
                   | Resolved v => res !! i = Some (Some v)
                   | Rejected e =>
                       res !! i = Some (Some (JObj [("error"%string, e)]))
                   end
     | _ => res !! i = Some (Some (JObj [("error"%string, bad_args_error)]))
     end) ∧
  (fnArgs cfg = [] →
   ∀ now, ∃ s0, rpmControlledBatch cfg now = (s0, [EvReturn now]) ∧
                main s0 = Returned []).
Proof.
  intros Hreach Hret.
  destruct (returned_results s evs res Hreach Hret) as (Hlen & Hnd & Hall).
  split_and!; [done..|]. intros Hnil now. by apply call_empty.
Qed.

End Returned.

(** ** The rate bound *)

Section Rate.

Variable cfg : config.
Hypothesis rpm_positive : 0 < rpm cfg.

Lemma start_times_app (evs1 evs2 : list event) :
  start_times (evs1 ++ evs2) = start_times evs1 ++ start_times evs2.
Proof. apply omap_app. Qed.

Lemma start_times_admits (t : Z) (l : list nat) :
  start_times ((λ i, EvAdmit i t) <$> l) = [].
Proof. induction l; [done|]. by cbn. Qed.

Lemma prune_submseteq (now : Z) (ts : list Z) : prune now ts ⊆+ ts.
Proof. apply sublist_submseteq, sublist_filter. Qed.

Lemma prune_later (now now' : Z) (ts : list Z) :
  now ≤ now' → prune now' (prune now ts) = prune now' ts.
Proof.
  intros Hle. unfold prune. induction ts as [|t ts IH]; [done|].
  rewrite !filter_cons. repeat case_decide; rewrite ?filter_cons; repeat case_decide;
    try lia; by rewrite IH.
Qed.

Lemma length_filter_impl {A} (P Q : A → Prop) `{!∀ x, Decision (P x)}
    `{!∀ x, Decision (Q x)} (l : list A) :
  (∀ x, P x → Q x) → (length (filter P l) ≤ length (filter Q l))%nat.
Proof.
  intros HPQ. induction l as [|x l IH]; [done|].
  rewrite !filter_cons. repeat case_decide; cbn; try lia. naive_solver.
Qed.

Lemma prune_mono (now : Z) (l k : list Z) : l ⊆+ k → prune now l ⊆+ prune now k.
Proof. apply filter_submseteq. Qed.

Lemma prune_app (now : Z) (l k : list Z) :
  prune now (l ++ k) = prune now l ++ prune now k.
Proof. apply filter_app. Qed.

(** A transition without a start: time may pass, and the window keeps at
    least what pruning at the new time would keep. *)
Lemma rated_transfer (s s' : state) (evs evs' : list event) :
  rated cfg s evs →
  clock s ≤ clock s' →
  start_times evs' = [] →
  prune (clock s') (requestTimestamps s) ⊆+ requestTimestamps s' →
  rated cfg s' (evs ++ evs').
Proof.
  intros [Hwin Hbound] Hclock Hst Hts.
  split; rewrite start_times_app, Hst, app_nil_r; [|done].
  etrans; [|exact Hts].
  apply (prune_mono (clock s')) in Hwin. by rewrite prune_later in Hwin.
Qed.

(** The transition that records a start. *)
Lemma rated_start (s s' : state) (evs : list event) (i : nat) (args : list jsval) :
  rated cfg s evs →
  clock s' = clock s →
  requestTimestamps s'
    = sort_asc (prune (clock s) (requestTimestamps s) ++ [clock s]) →
  Z.of_nat (length (prune (clock s) (requestTimestamps s))) < rpm cfg →
  rated cfg s' (evs ++ [EvStart i args (clock s)]).
Proof.
  intros [Hwin Hbound] Hclock Hts Hroom.
  assert (Hrecent : prune (clock s) (start_times evs)
                    ⊆+ prune (clock s) (requestTimestamps s)).
  { apply (prune_mono (clock s)) in Hwin. by rewrite prune_idemp in Hwin. }
  split; rewrite start_times_app; cbn.
  - rewrite Hclock, Hts, sort_asc_perm, prune_app.
    assert (prune (clock s) [clock s] = [clock s]) as ->.
    { unfold prune. rewrite filter_cons, filter_nil.
      case_decide; [done|unfold windowDuration in *; lia]. }
    by apply submseteq_skips_r.
  - intros t. unfold starts_in_window. rewrite filter_app, length_app.
    rewrite filter_cons, filter_nil. case_decide as Hin; cbn; cycle 1.
    { specialize (Hbound t). unfold starts_in_window in Hbound. lia. }
    apply submseteq_length in Hrecent.
    pose proof (length_filter_impl
                  (λ u, t - windowDuration < u ∧ u ≤ t)
                  (λ u, clock s - u < windowDuration) (start_times evs)) as Hle.
    unfold prune in Hrecent at 1.
    assert (∀ u, t - windowDuration < u ∧ u ≤ t → clock s - u < windowDuration)
      as Himp by (intros u; lia).
    specialize (Hle Himp). lia.
Qed.

Lemma rated_blank (now : Z) : rated cfg (blank cfg now) [].
Proof. split; cbn; [done|]. intros t. cbn. lia. Qed.

Lemma rated_processQueue (s s' : state) (evs evs' : list event) :
  processingQueue s = false →
  rated cfg s evs → processQueue cfg s = (s', evs') → rated cfg s' (evs ++ evs').
Proof.
  intros Hflag Hr Hpq. apply processQueue_spec in Hpq; [|done].
  destruct Hpq as (adm & timer & _ & _ & _ & -> & Hclock & _ & _ & _ & Hts & _).
  apply (rated_transfer s); [done|lia|apply start_times_admits|].
  rewrite Hclock. destruct Hts as [-> | ->]; [apply prune_submseteq|done].
Qed.

Lemma rated_acquire (s s' : state) (i : nat) (args : list jsval)
    (evs evs' : list event) :
  rated cfg s evs → executeTask_acquire cfg i args s = (s', evs') →
  rated cfg s' (evs ++ evs').
Proof.
  intros Hr Hacq.
  apply executeTask_acquire_spec in Hacq as (Hclock & _ & _ & _ & _ & _ & Hcases).
  destruct Hcases as [(z & _ & Hts & _ & ->)|(Hts & _ & -> & Hroom)].
  - apply (rated_transfer s); [done|lia|done|]. by rewrite Hclock, Hts.
  - by apply rated_start; [..|apply Hroom].
Qed.

Lemma rated_settle (s s' : state) (i : nat) (args : list jsval) (o : outcome)
    (evs evs' : list event) :
  rated cfg s evs → executeTask_settle cfg i args o s = (s', evs') →
  rated cfg s' (evs ++ evs').
Proof.
  intros Hr Hset.
  apply executeTask_settle_spec in Hset
    as (Hclock & _ & _ & _ & _ & _ & _ & _ & Hst & _ & _ & Hts).
  apply (rated_transfer s); [done|lia|done|]. rewrite Hclock.
  destruct Hts as [[-> _]|(e & ms & _ & _ & -> & _)]; [apply prune_submseteq|].
  rewrite push_blocking_spec. etrans; [apply prune_submseteq|].
  by apply submseteq_inserts_r.
Qed.

Lemma rated_take (s : state) (k : nat) (evs : list event) :
  rated cfg s evs → rated cfg (take_pending k s) evs.
Proof. intros [Hwin Hbound]. by split. Qed.

Lemma rated_step (a : action) (s s' : state) (evs evs' : list event) :
  wf cfg s → rated cfg s evs → step cfg a s = Some (s', evs') →
  rated cfg s' (evs ++ evs').
Proof.
  intros Hwf Hr Hstep. apply step_turn in Hstep as [_ Hstep].
  destruct a as [d|k|k o|]; cbn in Hstep.
  - destruct (Z.ltb_spec 0 d); [|done]. inversion Hstep; subst.
    apply (rated_transfer s); cbn; [done|lia|done|apply prune_submseteq].
  - destruct (pool s !! k) as [[due|i|i args due|i args|i]|] eqn:Hk; try done.
    + destruct (due <=? clock s); [|done]. inversion Hstep as [Hpq]. clear Hstep.
      apply (rated_processQueue (take_pending k s)); [apply Hwf|by apply rated_take|done].
    + inversion Hstep as [Hex]. clear Hstep.
      pose proof (pending_inflight _ _ (PExecute i) i Hk eq_refl) as Hinf.
      assert (Hi : (i < length (fnArgs cfg))%nat) by by eapply wf_in_range.
      apply executeTask_spec in Hex
        as [(args & Hargs & Hacq)|[(v & Hv & [Hnot _] & -> & ->)|(v & Hv & _ & -> & ->)]];
        [| | |done].
      * apply (rated_acquire (take_pending k s) _ i args); [by apply rated_take|done].
      * apply (rated_transfer s); cbn; [done|lia|done|apply prune_submseteq].
      * apply (rated_transfer s); cbn; [done|lia|done|apply prune_submseteq].
    + destruct (due <=? clock s); [|done]. inversion Hstep as [Hacq]. clear Hstep.
      apply (rated_acquire (take_pending k s) _ i args); [by apply rated_take|done].
  - destruct (pool s !! k) as [[due|i|i args due|i args|i]|] eqn:Hk; try done.
    inversion Hstep as [Hset]. clear Hstep.
    apply (rated_settle (take_pending k s) _ i args o); [by apply rated_take|done].
  - destruct (main s) as [due|res|]; [|done..].
    destruct (due <=? clock s); [|done]. inversion Hstep as [Hpoll].
    apply poll_spec in Hpoll
      as (Hclock & _ & _ & _ & _ & _ & Hts & _ & Hst & _).
    apply (rated_transfer s); [done|lia|done|]. rewrite Hts. apply prune_submseteq.
Qed.

Lemma reach_rated (s : state) (evs : list event) :
  reach cfg s evs → rated cfg s evs.
Proof.
  induction 1 as [now s evs Hcall|s evs a s' evs' Hreach IH Hstep].
  - unfold rpmControlledBatch in Hcall.
    destruct (processQueue cfg (blank cfg now)) as [s1 evs1] eqn:Hpq.
    destruct (poll s1) as [s2 evs2] eqn:Hpoll. inversion Hcall; subst.
    assert (Hr1 : rated cfg s1 ([] ++ evs1)).
    { eapply (rated_processQueue (blank cfg now)); [done| |done]. apply rated_blank. }
    apply poll_spec in Hpoll
      as (Hclock & _ & _ & _ & _ & _ & Hts & _ & Hst & _).
    apply (rated_transfer s1); [done|lia|done|]. rewrite Hts. apply prune_submseteq.
  - eapply rated_step; [|done..]. by eapply reach_wf.
Qed.

End Rate.

(** ** Executions *)

Lemma run_reach (cfg : config) (acts : list action) (s0 s : state)
    (evs0 evs : list event) :
  reach cfg s0 evs0 → run cfg acts s0 = Some (s, evs) → reach cfg s (evs0 ++ evs).
Proof.
  revert s0 evs0 evs. induction acts as [|a acts IH]; intros s0 evs0 evs Hreach Hrun.
  { inversion Hrun; subst. by rewrite app_nil_r. }
  cbn in Hrun. destruct (step cfg a s0) as [[s1 evs1]|] eqn:Hstep; [|done].
  destruct (run cfg acts s1) as [[s2 evs2]|] eqn:Hrest; [|done].
  inversion Hrun; subst. rewrite app_assoc. apply (IH s1); [|done].
  by eapply reach_step.
Qed.

Lemma execution_reach (cfg : config) (now : Z) (acts : list action) (s : state)
    (evs : list event) :
  execution cfg now acts = Some (s, evs) → reach cfg s evs.
Proof.
  unfold execution. destruct (rpmControlledBatch cfg now) as [s0 evs0] eqn:Hcall.
  destruct (run cfg acts s0) as [[s1 evs1]|] eqn:Hrun; [|done].
  intros Heq; inversion Heq; subst. eapply run_reach; [|done]. by eapply reach_call.
Qed.

Lemma reach_execution (cfg : config) (s : state) (evs : list event) :
  reach cfg s evs → ∃ now acts, execution cfg now acts = Some (s, evs).
Proof.
  induction 1 as [now s evs Hcall|s evs a s' evs' _ (now & acts & IH) Hstep].
  - exists now, []. unfold execution. rewrite Hcall. cbn. by rewrite app_nil_r.
  - exists now, (acts ++ [a]). unfold execution in *.
    destruct (rpmControlledBatch cfg now) as [s0 evs0].
    destruct (run cfg acts s0) as [[s1 evs1]|] eqn:Hrun; [|done].
    inversion IH; subst. clear IH.
    assert (Happ : ∀ l sa sb ea eb, run cfg l sa = Some (sb, ea) →
                     step cfg a sb = Some (s', eb) →
                     run cfg (l ++ [a]) sa = Some (s', ea ++ eb)).
    { clear. induction l as [|x l IHl]; intros sa sb ea eb Hl Ha; cbn in *.
      - inversion Hl; subst. rewrite Ha. cbn. by rewrite app_nil_r.
      - destruct (step cfg x sa) as [[sx ex]|]; [|done].
        destruct (run cfg l sx) as [[sy ey]|] eqn:Hy; [|done].
        inversion Hl; subst. rewrite (IHl _ _ _ _ Hy Ha). by rewrite app_assoc. }
    rewrite (Happ _ _ _ _ _ Hrun Hstep). by rewrite app_assoc.
Qed.

(** C2.  For a positive [rpm], in every reachable state and for every
    instant [t], the slot recordings that fall in the trailing window
    [(t - 60000, t]] number at most [rpm]. *)
Theorem sliding_window_rate_bound (cfg : config) (s : state) (evs : list event)
    (t : Z) :
  0 < rpm cfg →
  reach cfg s evs →
  Z.of_nat (length (starts_in_window t (start_times evs))) ≤ rpm cfg.
Proof.
  intros Hrpm Hreach.
  pose proof (reach_rated cfg Hrpm s evs Hreach) as [_ Hbound].
  apply Hbound.
Qed.

(** ** Cooldowns *)

Section Cooldown.

Variable cfg : config.
Hypothesis rpm_positive : 0 < rpm cfg.

Lemma prune_replicate (now b : Z) (n : nat) :
  now - b < windowDuration → prune now (replicate n b) = replicate n b.
Proof.
  intros Hb. unfold prune. induction n as [|n IH]; [done|].
  change (replicate (S n) b) with (b :: replicate n b).
  rewrite filter_cons_True by done. by rewrite IH.
Qed.

(** A transition that neither records a start nor raises a cooldown. *)
Lemma blocked_transfer (s s' : state) (evs evs' : list event) :
  blocked cfg s evs →
  clock s ≤ clock s' →
  prune (clock s') (requestTimestamps s) ⊆+ requestTimestamps s' →
  (∀ ev, ev ∈ evs' → start_time ev = None ∧ ∀ T D, ev ≠ EvThrottle T D) →
  blocked cfg s' (evs ++ evs').
Proof.
  intros [Hpend Hresp] Hclock Hts Hquiet. split.
  - intros T D [Hin|Hin]%elem_of_app Hlt;
      [|destruct (Hquiet _ Hin) as [_ Hne]; by destruct (Hne T D)].
    etrans; [|exact Hts].
    rewrite <- (prune_replicate (clock s') _ (Z.to_nat (rpm cfg)))
      by (unfold windowDuration; lia).
    apply prune_mono, Hpend; [done|lia].
  - intros j k T D i args t Hj Hk Hjk.
    apply lookup_app_Some in Hk as [Hk|[_ Hk]]; cycle 1.
    { apply list_elem_of_lookup_2, Hquiet in Hk as [Hk _]. done. }
    apply lookup_lt_Some in Hk as Hklen.
    rewrite lookup_app_l in Hj by lia. by eapply Hresp.
Qed.

(** The transition that records a start: no cooldown is pending. *)
Lemma blocked_start (s s' : state) (evs : list event) (i : nat) (args : list jsval) :
  blocked cfg s evs →
  clock s' = clock s →
  requestTimestamps s'
    = sort_asc (prune (clock s) (requestTimestamps s) ++ [clock s]) →
  Z.of_nat (length (prune (clock s) (requestTimestamps s))) < rpm cfg →
  blocked cfg s' (evs ++ [EvStart i args (clock s)]).
Proof.
  intros [Hpend Hresp] Hclock Hts Hroom.
  assert (Hover : ∀ T D, EvThrottle T D ∈ evs → T + D ≤ clock s).
  { intros T D Hin. destruct (Z.le_gt_cases (T + D) (clock s)) as [|Hlt]; [done|].
    exfalso. specialize (Hpend T D Hin Hlt).
    apply (prune_mono (clock s)) in Hpend.
    rewrite prune_replicate in Hpend by (unfold windowDuration; lia).
    apply submseteq_length in Hpend. rewrite length_replicate in Hpend. lia. }
  split.
  - intros T D [Hin|Hin]%elem_of_app Hlt; [|by apply list_elem_of_singleton in Hin].
    specialize (Hover T D Hin). lia.
  - intros j k T D i' args' t Hj Hk Hjk.
    apply lookup_app_Some in Hk as [Hk|[Hlen Hk]].
    + apply lookup_lt_Some in Hk as Hklen.
      rewrite lookup_app_l in Hj by lia. by eapply Hresp.
    + apply list_lookup_singleton_Some in Hk as [Hk0 Heq]. inversion Heq; subst.
      rewrite lookup_app_l in Hj by lia.
      apply Hover. by eapply list_elem_of_lookup_2.
Qed.

(** The transition that raises a cooldown. *)
Lemma blocked_throttle (s s' : state) (evs : list event) (ev : event) (ms : Z) :
  blocked cfg s evs →
  clock s' = clock s →
  requestTimestamps s' = requestTimestamps (push_blocking cfg ms s) →
  start_time ev = None → (∀ T D, ev ≠ EvThrottle T D) →
  blocked cfg s' (evs ++ [ev; EvThrottle (clock s) ms]).
Proof.
  intros [Hpend Hresp] Hclock Hts Hev1 Hev2.
  assert (Hkeep : requestTimestamps s ⊆+ requestTimestamps s').
  { rewrite Hts, push_blocking_spec. by apply submseteq_inserts_r. }
  split.
  - intros T D [Hin|Hin]%elem_of_app Hlt.
    + etrans; [|exact Hkeep]. apply Hpend; [done|lia].
    + apply elem_of_cons in Hin as [Heq|Hin]; [by destruct (Hev2 T D)|].
      apply list_elem_of_singleton in Hin. inversion Hin; subst.
      rewrite Hts, push_blocking_spec. by apply submseteq_inserts_l.
  - intros j k T D i args t Hj Hk Hjk.
    apply lookup_app_Some in Hk as [Hk|[Hlen Hk]].
    + apply lookup_lt_Some in Hk as Hklen.
      rewrite lookup_app_l in Hj by lia. by eapply Hresp.
    + exfalso. destruct (k - length evs)%nat as [|[|n]]; cbn in Hk.
      * inversion Hk; subst. done.
      * done.
      * done.
Qed.

Lemma blocked_blank (now : Z) : blocked cfg (blank cfg now) [].
Proof.
  split.
  - by intros T D ?%elem_of_nil.
  - intros j k T D i args t Hj. done.
Qed.

Lemma quiet_admits (t : Z) (l : list nat) (ev : event) :
  ev ∈ (λ i, EvAdmit i t) <$> l →
  start_time ev = None ∧ ∀ T D, ev ≠ EvThrottle T D.
Proof. intros (i & -> & _)%list_elem_of_fmap. done. Qed.

Lemma blocked_processQueue (s s' : state) (evs evs' : list event) :
  processingQueue s = false →
  blocked cfg s evs → processQueue cfg s = (s', evs') → blocked cfg s' (evs ++ evs').
Proof.
  intros Hflag Hb Hpq. apply processQueue_spec in Hpq; [|done].
  destruct Hpq as (adm & timer & _ & _ & _ & -> & Hclock & _ & _ & _ & Hts & _).
  apply (blocked_transfer s); [done|lia| |apply quiet_admits].
  rewrite Hclock. destruct Hts as [-> | ->]; [apply prune_submseteq|done].
Qed.

Lemma blocked_acquire (s s' : state) (i : nat) (args : list jsval)
    (evs evs' : list event) :
  blocked cfg s evs → executeTask_acquire cfg i args s = (s', evs') →
  blocked cfg s' (evs ++ evs').
Proof.
  intros Hb Hacq.
  apply executeTask_acquire_spec in Hacq as (Hclock & _ & _ & _ & _ & _ & Hcases).
  destruct Hcases as [(z & _ & Hts & _ & ->)|(Hts & _ & -> & Hroom)].
  - apply (blocked_transfer s); [done|lia|by rewrite Hclock, Hts|].
    by intros ev ?%elem_of_nil.
  - by apply blocked_start; [..|apply Hroom].
Qed.

Lemma blocked_settle (s s' : state) (i : nat) (args : list jsval) (o : outcome)
    (evs evs' : list event) :
  blocked cfg s evs → executeTask_settle cfg i args o s = (s', evs') →
  blocked cfg s' (evs ++ evs').
Proof.
  intros Hb Hset.
  apply executeTask_settle_spec in Hset
    as (Hclock & _ & _ & _ & _ & _ & _ & _ & _ & Hevs & _ & Hts).
  destruct Hts as [[Hts Hno]|(e & ms & _ & _ & Hts & ->)].
  - apply (blocked_transfer s); [done|lia|rewrite Hclock, Hts; apply prune_submseteq|].
    intros ev Hev. split.
    + apply Hevs in Hev as [->|[->|[? ->]]]; done.
    + intros T D ->. by apply (Hno T D).
  - by apply blocked_throttle.
Qed.

Lemma blocked_step (a : action) (s s' : state) (evs evs' : list event) :
  wf cfg s → blocked cfg s evs → step cfg a s = Some (s', evs') →
  blocked cfg s' (evs ++ evs').
Proof.
  intros Hwf Hb Hstep. apply step_turn in Hstep as [_ Hstep].
  destruct a as [d|k|k o|]; cbn in Hstep.
  - destruct (Z.ltb_spec 0 d); [|done]. inversion Hstep; subst.
    apply (blocked_transfer s); cbn; [done|lia|apply prune_submseteq|].
    by intros ev ?%elem_of_nil.
  - destruct (pool s !! k) as [[due|i|i args due|i args|i]|] eqn:Hk; try done.
    + destruct (due <=? clock s); [|done]. inversion Hstep as [Hpq]. clear Hstep.
      apply (blocked_processQueue (take_pending k s)); [apply Hwf|apply Hb|done].
    + inversion Hstep as [Hex]. clear Hstep.
      pose proof (pending_inflight _ _ (PExecute i) i Hk eq_refl) as Hinf.
      assert (Hi : (i < length (fnArgs cfg))%nat) by by eapply wf_in_range.
      apply executeTask_spec in Hex
        as [(args & Hargs & Hacq)|[(v & Hv & [Hnot _] & -> & ->)|(v & Hv & _ & -> & ->)]];
        [| | |done].
      * apply (blocked_acquire (take_pending k s) _ i args); [apply Hb|done].
      * apply (blocked_transfer s); cbn; [done|lia|apply prune_submseteq|].
        by intros ev ->%list_elem_of_singleton.
      * apply (blocked_transfer s); cbn; [done|lia|apply prune_submseteq|].
        by intros ev ->%list_elem_of_singleton.
    + destruct (due <=? clock s); [|done]. inversion Hstep as [Hacq]. clear Hstep.
      apply (blocked_acquire (take_pending k s) _ i args); [apply Hb|done].
  - destruct (pool s !! k) as [[due|i|i args due|i args|i]|] eqn:Hk; try done.
    inversion Hstep as [Hset]. clear Hstep.
    apply (blocked_settle (take_pending k s) _ i args o); [apply Hb|done].
  - destruct (main s) as [due|res|]; [|done..].
    destruct (due <=? clock s); [|done]. inversion Hstep as [Hpoll].
    apply poll_spec in Hpoll
      as (Hclock & _ & _ & _ & _ & _ & Hts & _ & _ & Hmain).
    apply (blocked_transfer s); [done|lia|rewrite Hts; apply prune_submseteq|].
    intros ev Hev. destruct Hmain as [(due' & _ & ->)|(_ & -> & _)];
      [by apply elem_of_nil in Hev|by apply list_elem_of_singleton in Hev as ->].
Qed.

Lemma reach_blocked (s : state) (evs : list event) :
  reach cfg s evs → blocked cfg s evs.
Proof.
  induction 1 as [now s evs Hcall|s evs a s' evs' Hreach IH Hstep].
  - unfold rpmControlledBatch in Hcall.
    destruct (processQueue cfg (blank cfg now)) as [s1 evs1] eqn:Hpq.
    destruct (poll s1) as [s2 evs2] eqn:Hpoll. inversion Hcall; subst.
    assert (Hb1 : blocked cfg s1 ([] ++ evs1)).
    { eapply (blocked_processQueue (blank cfg now)); [done| |done]. apply blocked_blank. }
    apply poll_spec in Hpoll
      as (Hclock & _ & _ & _ & _ & _ & Hts & _ & _ & Hmain).
    apply (blocked_transfer s1); [done|lia|rewrite Hts; apply prune_submseteq|].
    intros ev Hev. destruct Hmain as [(due' & _ & ->)|(_ & -> & _)];
      [by apply elem_of_nil in Hev|by apply list_elem_of_singleton in Hev as ->].
  - eapply blocked_step; [|done..]. by eapply reach_wf.
Qed.

(** A cooldown, once raised, holds back every later slot recording until
    it is over. *)
Lemma cooldown_blocks_starts (s : state) (evs : list event) :
  reach cfg s evs → cooldown_respected evs.
Proof. intros Hreach. by destruct (reach_blocked s evs Hreach). Qed.

End Cooldown.

(** ** How full the window can get *)

Section Crowding.

Variable cfg : config.
Hypothesis rpm_positive : 0 < rpm cfg.

Lemma throttles_app (evs1 evs2 : list event) :
  throttles (evs1 ++ evs2) = throttles evs1 ++ throttles evs2.
Proof. apply omap_app. Qed.

Lemma throttles_admits (t : Z) (l : list nat) :
  throttles ((λ i, EvAdmit i t) <$> l) = [].
Proof. induction l; [done|]. by cbn. Qed.

Lemma prune_perm (now : Z) (l k : list Z) : l ≡ₚ k → prune now l ≡ₚ prune now k.
Proof.
  intros Hperm. apply (anti_symm submseteq); apply prune_mono; by rewrite Hperm.
Qed.

Lemma prune_length_later (now now' : Z) (ts ts' : list Z) :
  now ≤ now' → ts' ⊆+ ts →
  (length (prune now' ts') ≤ length (prune now ts))%nat.
Proof.
  intros Hle Hsub. apply (prune_mono now') in Hsub.
  apply submseteq_length in Hsub. etrans; [exact Hsub|].
  rewrite <- (prune_later now now') by done.
  apply submseteq_length, prune_submseteq.
Qed.

(** A transition that adds nothing to the window. *)
Lemma crowded_transfer (s s' : state) (evs evs' : list event) :
  crowded cfg s evs →
  clock s ≤ clock s' →
  requestTimestamps s' ⊆+ requestTimestamps s →
  crowded cfg s' (evs ++ evs').
Proof.
  unfold crowded, active_timestamps. intros Hc Hclock Hts.
  pose proof (prune_length_later _ _ _ _ Hclock Hts) as Hlen.
  rewrite throttles_app, length_app. nia.
Qed.

Lemma window_after_start (now : Z) (ts : list Z) :
  Z.of_nat (length (prune now ts)) < rpm cfg →
  Z.of_nat (length (sort_asc (prune now ts ++ [now]))) ≤ rpm cfg.
Proof. rewrite sort_asc_length, length_app. cbn. lia. Qed.

Lemma crowded_acquire (s s' : state) (i : nat) (args : list jsval)
    (evs evs' : list event) :
  crowded cfg s evs → executeTask_acquire cfg i args s = (s', evs') →
  crowded cfg s' (evs ++ evs').
Proof.
  intros Hc Hacq.
  apply executeTask_acquire_spec in Hacq as (Hclock & _ & _ & _ & _ & _ & Hcases).
  destruct Hcases as [(z & _ & Hts & _ & ->)|(Hts & _ & -> & Hroom)].
  - apply (crowded_transfer s); [done|lia|]. rewrite Hts. apply prune_submseteq.
  - unfold crowded, active_timestamps in *.
    pose proof (window_after_start _ _ (Hroom rpm_positive)) as Hlen.
    rewrite <- Hts in Hlen.
    pose proof (submseteq_length _ _ (prune_submseteq (clock s') (requestTimestamps s'))).
    rewrite throttles_app, length_app. nia.
Qed.

Lemma crowded_processQueue (s s' : state) (evs evs' : list event) :
  processingQueue s = false →
  crowded cfg s evs → processQueue cfg s = (s', evs') → crowded cfg s' (evs ++ evs').
Proof.
  intros Hflag Hc Hpq. apply processQueue_spec in Hpq; [|done].
  destruct Hpq as (adm & timer & _ & _ & _ & -> & Hclock & _ & _ & _ & Hts & _).
  apply (crowded_transfer s); [done|lia|].
  destruct Hts as [-> | ->]; [done|apply prune_submseteq].
Qed.

Lemma crowded_settle (s s' : state) (i : nat) (args : list jsval) (o : outcome)
    (evs evs' : list event) :
  crowded cfg s evs → executeTask_settle cfg i args o s = (s', evs') →
  crowded cfg s' (evs ++ evs').
Proof.
  intros Hc Hset.
  apply executeTask_settle_spec in Hset
    as (Hclock & _ & _ & _ & _ & _ & _ & _ & _ & _ & _ & Hts).
  destruct Hts as [[Hts _]|(e & ms & _ & _ & Hts & ->)].
  - apply (crowded_transfer s); [done|lia|by rewrite Hts].
  - unfold crowded, active_timestamps in *.
    rewrite Hclock, Hts, (prune_perm _ _ _ (push_blocking_spec cfg ms s)).
    rewrite prune_app, length_app.
    pose proof (submseteq_length _ _
      (prune_submseteq (clock s)
         (replicate (Z.to_nat (rpm cfg)) (clock s - windowDuration + ms)))) as Hrep.
    rewrite length_replicate in Hrep.
    rewrite throttles_app, length_app. cbn. nia.
Qed.

Lemma crowded_step (a : action) (s s' : state) (evs evs' : list event) :
  wf cfg s → crowded cfg s evs → step cfg a s = Some (s', evs') →
  crowded cfg s' (evs ++ evs').
Proof.
  intros Hwf Hc Hstep. apply step_turn in Hstep as [_ Hstep].
  destruct a as [d|k|k o|]; cbn in Hstep.
  - destruct (Z.ltb_spec 0 d); [|done]. inversion Hstep; subst.
    apply (crowded_transfer s); cbn; [done|lia|done].
  - destruct (pool s !! k) as [[due|i|i args due|i args|i]|] eqn:Hk; try done.
    + destruct (due <=? clock s); [|done]. inversion Hstep as [Hpq]. clear Hstep.
      apply (crowded_processQueue (take_pending k s)); [apply Hwf|apply Hc|done].
    + inversion Hstep as [Hex]. clear Hstep.
      pose proof (pending_inflight _ _ (PExecute i) i Hk eq_refl) as Hinf.
      assert (Hi : (i < length (fnArgs cfg))%nat) by by eapply wf_in_range.
      apply executeTask_spec in Hex
        as [(args & Hargs & Hacq)|[(v & Hv & [Hnot _] & -> & ->)|(v & Hv & _ & -> & ->)]];
        [| | |done].
      * apply (crowded_acquire (take_pending k s) _ i args); [apply Hc|done].
      * apply (crowded_transfer s); cbn; [done|lia|done].
      * apply (crowded_transfer s); cbn; [done|lia|done].
    + destruct (due <=? clock s); [|done]. inversion Hstep as [Hacq]. clear Hstep.
      apply (crowded_acquire (take_pending k s) _ i args); [apply Hc|done].
  - destruct (pool s !! k) as [[due|i|i args due|i args|i]|] eqn:Hk; try done.
    inversion Hstep as [Hset]. clear Hstep.
    apply (crowded_settle (take_pending k s) _ i args o); [apply Hc|done].
  - destruct (main s) as [due|res|]; [|done..].
    destruct (due <=? clock s); [|done]. inversion Hstep as [Hpoll].
    apply poll_spec in Hpoll as (Hclock & _ & _ & _ & _ & _ & Hts & _).
    apply (crowded_transfer s); [done|lia|by rewrite Hts].
Qed.

Lemma reach_crowded (s : state) (evs : list event) :
  reach cfg s evs → crowded cfg s evs.
Proof.
  induction 1 as [now s evs Hcall|s evs a s' evs' Hreach IH Hstep].
  - unfold rpmControlledBatch in Hcall.
    destruct (processQueue cfg (blank cfg now)) as [s1 evs1] eqn:Hpq.
    destruct (poll s1) as [s2 evs2] eqn:Hpoll. inversion Hcall; subst.
    assert (Hc1 : crowded cfg s1 ([] ++ evs1)).
    { eapply (crowded_processQueue (blank cfg now)); [done| |done].
      unfold crowded, active_timestamps, blank, prune. cbn. lia. }
    apply poll_spec in Hpoll as (Hclock & _ & _ & _ & _ & _ & Hts & _).
    apply (crowded_transfer s1); [done|lia|by rewrite Hts].
  - eapply crowded_step; [|done..]. by eapply reach_wf.
Qed.

End Crowding.

(** ** Where the timestamps of the window come from *)

Section Sources.

Variable cfg : config.

Lemma blocking_timestamps_app (l k : list (Z * Z)) :
  blocking_timestamps cfg (l ++ k)
  = blocking_timestamps cfg l ++ blocking_timestamps cfg k.
Proof. unfold blocking_timestamps. apply bind_app. Qed.

Lemma prune_replicate_past (now b : Z) (n : nat) :
  windowDuration ≤ now - b → prune now (replicate n b) = [].
Proof.
  intros Hb. unfold prune. induction n as [|n IH]; [done|].
  change (replicate (S n) b) with (b :: replicate n b).
  rewrite filter_cons_False by lia. by rewrite IH.
Qed.

(** The blocking timestamps that are still active are those of the
    cooldowns that are still running. *)
Lemma prune_blocking_timestamps (now : Z) (l : list (Z * Z)) :
  prune now (blocking_timestamps cfg l)
  = blocking_timestamps cfg (filter (λ c, now < c.1 + c.2) l).
Proof.
  induction l as [|[T D] l IH]; [done|].
  change (blocking_timestamps cfg ((T, D) :: l))
    with (replicate (Z.to_nat (rpm cfg)) (T - windowDuration + D)
            ++ blocking_timestamps cfg l).
  rewrite prune_app, IH, filter_cons. cbn [fst snd]. case_decide as Hlt.
  - rewrite prune_replicate by lia. done.
  - rewrite prune_replicate_past by lia. done.
Qed.

Lemma length_blocking_timestamps (l : list (Z * Z)) :
  0 ≤ rpm cfg →
  Z.of_nat (length (blocking_timestamps cfg l)) = rpm cfg * Z.of_nat (length l).
Proof.
  intros Hrpm. induction l as [|c l IH]; [cbn; lia|].
  change (blocking_timestamps cfg (c :: l))
    with (replicate (Z.to_nat (rpm cfg)) (c.1 - windowDuration + c.2)
            ++ blocking_timestamps cfg l).
  rewrite length_app, length_replicate. cbn [length]. lia.
Qed.

(** A transition that adds nothing to the window and records no start. *)
Lemma sourced_transfer (s s' : state) (evs evs' : list event) :
  sourced cfg s evs →
  clock s ≤ clock s' →
  requestTimestamps s' ⊆+ requestTimestamps s →
  start_times evs' = [] →
  sourced cfg s' (evs ++ evs').
Proof.
  intros [Hsrc Hpast] Hclock Hts Hnone.
  split; rewrite start_times_app, Hnone, app_nil_r.
  - rewrite Hts, Hsrc, throttles_app, blocking_timestamps_app.
    apply submseteq_app; [done|]. by apply submseteq_inserts_r.
  - intros t Ht. specialize (Hpast t Ht). lia.
Qed.

Lemma sourced_acquire (s s' : state) (i : nat) (args : list jsval)
    (evs evs' : list event) :
  sourced cfg s evs → executeTask_acquire cfg i args s = (s', evs') →
  sourced cfg s' (evs ++ evs').
Proof.
  intros Hs Hacq.
  apply executeTask_acquire_spec in Hacq as (Hclock & _ & _ & _ & _ & _ & Hcases).
  destruct Hcases as [(z & _ & Hts & _ & ->)|(Hts & _ & -> & _)].
  - apply (sourced_transfer s); [done|lia| |done]. rewrite Hts. apply prune_submseteq.
  - destruct Hs as [Hsrc Hpast]. split; rewrite start_times_app; cbn.
    + rewrite Hts, sort_asc_perm, throttles_app. cbn. rewrite app_nil_r.
      trans ((start_times evs ++ blocking_timestamps cfg (throttles evs))
               ++ [clock s]).
      * apply submseteq_app; [|done].
        trans (requestTimestamps s); [apply prune_submseteq|done].
      * apply Permutation_submseteq. solve_Permutation.
    + intros t [Ht|Ht%list_elem_of_singleton]%elem_of_app.
      * specialize (Hpast t Ht). lia.
      * lia.
Qed.

Lemma sourced_processQueue (s s' : state) (evs evs' : list event) :
  processingQueue s = false →
  sourced cfg s evs → processQueue cfg s = (s', evs') → sourced cfg s' (evs ++ evs').
Proof.
  intros Hflag Hs Hpq. apply processQueue_spec in Hpq; [|done].
  destruct Hpq as (adm & timer & _ & _ & _ & -> & Hclock & _ & _ & _ & Hts & _).
  apply (sourced_transfer s); [done|lia| |apply start_times_admits].
  destruct Hts as [-> | ->]; [done|apply prune_submseteq].
Qed.

Lemma sourced_settle (s s' : state) (i : nat) (args : list jsval) (o : outcome)
    (evs evs' : list event) :
  sourced cfg s evs → executeTask_settle cfg i args o s = (s', evs') →
  sourced cfg s' (evs ++ evs').
Proof.
  intros Hs Hset.
  apply executeTask_settle_spec in Hset
    as (Hclock & _ & _ & _ & _ & _ & _ & _ & Hnone & _ & _ & Hts).
  destruct Hts as [[Hts _]|(e & ms & _ & _ & Hts & ->)].
  - apply (sourced_transfer s); [done|lia|by rewrite Hts|done].
  - destruct Hs as [Hsrc Hpast]. split; rewrite start_times_app; cbn.
    + rewrite Hts, (push_blocking_spec cfg ms s), app_nil_r.
      rewrite throttles_app, blocking_timestamps_app. cbn. rewrite app_nil_r.
      rewrite app_assoc. by apply submseteq_app.
    + rewrite app_nil_r. intros t Ht. specialize (Hpast t Ht). lia.
Qed.

Lemma sourced_step (a : action) (s s' : state) (evs evs' : list event) :
  wf cfg s → sourced cfg s evs → step cfg a s = Some (s', evs') →
  sourced cfg s' (evs ++ evs').
Proof.
  intros Hwf Hs Hstep. apply step_turn in Hstep as [_ Hstep].
  destruct a as [d|k|k o|]; cbn in Hstep.
  - destruct (Z.ltb_spec 0 d); [|done]. inversion Hstep; subst.
    apply (sourced_transfer s); cbn; [done|lia|done|done].
  - destruct (pool s !! k) as [[due|i|i args due|i args|i]|] eqn:Hk; try done.
    + destruct (due <=? clock s); [|done]. inversion Hstep as [Hpq]. clear Hstep.
      apply (sourced_processQueue (take_pending k s)); [apply Hwf|apply Hs|done].
    + inversion Hstep as [Hex]. clear Hstep.
      pose proof (pending_inflight _ _ (PExecute i) i Hk eq_refl) as Hinf.
      assert (Hi : (i < length (fnArgs cfg))%nat) by by eapply wf_in_range.
      apply executeTask_spec in Hex
        as [(args & Hargs & Hacq)|[(v & Hv & [Hnot _] & -> & ->)|(v & Hv & _ & -> & ->)]];
        [| | |done].
      * apply (sourced_acquire (take_pending k s) _ i args); [apply Hs|done].
      * apply (sourced_transfer s); cbn; [done|lia|done|done].
      * apply (sourced_transfer s); cbn; [done|lia|done|done].
    + destruct (due <=? clock s); [|done]. inversion Hstep as [Hacq]. clear Hstep.
      apply (sourced_acquire (take_pending k s) _ i args); [apply Hs|done].
  - destruct (pool s !! k) as [[due|i|i args due|i args|i]|] eqn:Hk; try done.
    inversion Hstep as [Hset]. clear Hstep.
    apply (sourced_settle (take_pending k s) _ i args o); [apply Hs|done].
  - destruct (main s) as [due|res|]; [|done..].
    destruct (due <=? clock s); [|done]. inversion Hstep as [Hpoll].
    apply poll_spec in Hpoll as (Hclock & _ & _ & _ & _ & _ & Hts & _ & Hnone & _).
    apply (sourced_transfer s); [done|lia|by rewrite Hts|done].
Qed.

Lemma reach_sourced (s : state) (evs : list event) :
  reach cfg s evs → sourced cfg s evs.
Proof.
  induction 1 as [now s evs Hcall|s evs a s' evs' Hreach IH Hstep].
  - unfold rpmControlledBatch in Hcall.
    destruct (processQueue cfg (blank cfg now)) as [s1 evs1] eqn:Hpq.
    destruct (poll s1) as [s2 evs2] eqn:Hpoll. inversion Hcall; subst.
    assert (Hs1 : sourced cfg s1 ([] ++ evs1)).
    { eapply (sourced_processQueue (blank cfg now)); [done| |done].
      split; cbn; [done|]. by intros t Ht%elem_of_nil. }
    apply poll_spec in Hpoll as (Hclock & _ & _ & _ & _ & _ & Hts & _ & Hnone & _).
    apply (sourced_transfer s1); [done|lia|by rewrite Hts|done].
  - eapply sourced_step; [|done..]. by eapply reach_wf.
Qed.

(** The active timestamps: at most [rpm] real starts and [rpm] blocking
    timestamps for every cooldown that is still running. *)
Lemma active_timestamps_bound (s : state) (evs : list event) :
  0 < rpm cfg → reach cfg s evs →
  Z.of_nat (length (active_timestamps s))
    ≤ rpm cfg * (1 + Z.of_nat (length (pending_cooldowns (clock s) evs))).
Proof.
  intros Hrpm Hreach.
  destruct (reach_sourced s evs Hreach) as [Hsrc Hpast].
  pose proof (rated_bound _ _ _ (reach_rated cfg Hrpm s evs Hreach) (clock s)) as Hrate.
  unfold active_timestamps, pending_cooldowns.
  apply (prune_mono (clock s)), submseteq_length in Hsrc.
  rewrite prune_app, length_app, prune_blocking_timestamps in Hsrc.
  assert (prune (clock s) (start_times evs)
          = starts_in_window (clock s) (start_times evs)) as Hsame.
  { unfold prune, starts_in_window. clear Hsrc Hrate.
    induction (start_times evs) as [|t l IH]; [done|].
    rewrite !filter_cons, IH by (intros u Hu; apply Hpast; by right).
    specialize (Hpast t ltac:(by left)). unfold windowDuration.
    repeat case_decide; done || lia. }
  rewrite Hsame in Hsrc.
  pose proof (length_blocking_timestamps
                (filter (λ c, clock s < c.1 + c.2) (throttles evs)) ltac:(lia)) as Hblock.
  lia.
Qed.

End Sources.

(** ** The batch completes *)

Section Progress.

Variable cfg : config.
Hypothesis rpm_positive : 0 < rpm cfg.
Hypothesis maxConcurrent_positive : 0 < maxConcurrent cfg.
Variable f : nat → outcome.
Hypothesis f_handled : ∀ i, catch_throws (f i) = false.
Hypothesis args_printed : ∀ i v, fnArgs cfg !! i = Some v → conversion_throws v = false.

Lemma attended_processQueue (s s' : state) (evs : list event) :
  processingQueue s = false → wf cfg s' →
  processQueue cfg s = (s', evs) → attended s'.
Proof.
  intros Hflag Hwf Hpq Hq. apply processQueue_spec in Hpq; [|done].
  destruct Hpq as (adm & timer & _ & Hpool & _ & _ & _ & _ & _ & _ & _ & Htimer & _ & Hexit).
  destruct Hexit as [Hne|[?|Hfull]]; [|done|].
  - right. destruct Htimer as [->|(due & -> & _)]; [done|].
    exists due. rewrite Hpool, !elem_of_app. right; right. by left.
  - left. intros Hnil. pose proof (wf_active _ _ Hwf) as Hact.
    rewrite Hnil in Hact. cbn in Hact. lia.
Qed.

Lemma inflight_snoc_ne (pl : list pending) (p : pending) (i : nat) :
  inflight_task p = Some i → inflight (pl ++ [p]) ≠ [].
Proof.
  intros Hp. rewrite inflight_app, (inflight_item _ _ Hp).
  by destruct (inflight pl).
Qed.

Lemma attended_step (a : action) (s s' : state) (evs : list event) :
  wf cfg s → attended s → step cfg a s = Some (s', evs) → attended s'.
Proof.
  intros Hwf Hatt Hstep.
  pose proof (wf_step cfg a s s' evs Hwf Hstep) as Hwf'.
  apply step_turn in Hstep as [_ Hstep].
  destruct a as [d|k|k o|]; cbn in Hstep.
  - destruct (0 <? d); [|done]. by inversion Hstep; subst.
  - destruct (pool s !! k) as [[due|i|i args due|i args|i]|] eqn:Hk; try done.
    + destruct (due <=? clock s); [|done]. inversion Hstep as [Hpq]. clear Hstep.
      eapply (attended_processQueue (take_pending k s)); [apply Hwf|done..].
    + inversion Hstep as [Hex]. clear Hstep.
      pose proof (pending_inflight _ _ (PExecute i) i Hk eq_refl) as Hinf.
      assert (Hi : (i < length (fnArgs cfg))%nat) by by apply (wf_in_range cfg s).
      apply executeTask_spec in Hex
        as [(args & Hargs & Hacq)|[(v & Hv & [Hnot _] & -> & ->)|(v & Hv & _ & -> & ->)]];
        [| | |done].
      * apply executeTask_acquire_spec in Hacq as (_ & _ & _ & _ & _ & _ & Hcases).
        intros _. left.
        destruct Hcases as [(z & _ & _ & -> & _)|(_ & -> & _)];
          by apply (inflight_snoc_ne _ _ i).
      * intros _. right. eexists. cbn. apply elem_of_app. right. by left.
      * intros _. left. cbn. by apply (inflight_snoc_ne _ _ i).
    + destruct (due <=? clock s); [|done]. inversion Hstep as [Hacq]. clear Hstep.
      apply executeTask_acquire_spec in Hacq as (_ & _ & _ & _ & _ & _ & Hcases).
      intros _. left.
      destruct Hcases as [(z & _ & _ & -> & _)|(_ & -> & _)];
        by apply (inflight_snoc_ne _ _ i).
  - destruct (pool s !! k) as [[due|i|i args due|i args|i]|] eqn:Hk; try done.
    inversion Hstep as [Hset]. clear Hstep.
    apply executeTask_settle_spec in Hset as (_ & _ & _ & _ & _ & _ & Hpool & _).
    intros _. right. eexists. rewrite Hpool. apply elem_of_app. right. by left.
  - destruct (main s) as [due|res|]; [|done..].
    destruct (due <=? clock s); [|done]. inversion Hstep as [Hpoll].
    apply poll_spec in Hpoll as (_ & Hq & _ & _ & _ & Hpool & _).
    unfold attended. by rewrite Hq, Hpool.
Qed.

Lemma reach_attended (s : state) (evs : list event) :
  reach cfg s evs → attended s.
Proof.
  induction 1 as [now s evs Hcall|s evs a s' evs' Hreach IH Hstep].
  - pose proof (wf_call cfg now s evs Hcall) as Hwf.
    unfold rpmControlledBatch in Hcall.
    destruct (processQueue cfg (blank cfg now)) as [s1 evs1] eqn:Hpq.
    destruct (poll s1) as [s2 evs2] eqn:Hpoll. inversion Hcall; subst.
    assert (Hatt : attended s1).
    { eapply (attended_processQueue (blank cfg now)); [done| |done].
      eapply wf_processQueue; [|done]. apply wf_blank. }
    apply poll_spec in Hpoll as (_ & Hq & _ & _ & _ & Hpool & _).
    unfold attended. by rewrite Hq, Hpool.
  - eapply attended_step; [|done..]. by eapply reach_wf.
Qed.

Lemma undead_step (a : action) (s s' : state) (evs : list event) :
  wf cfg s → undead s → step cfg a s = Some (s', evs) → undead s'.
Proof.
  intros Hwf Hu Hstep Halive'. apply step_turn in Hstep as [Halive Hstep].
  specialize (Hu Halive).
  assert (Htake : ∀ k i, PDead i ∉ delete k (pool s)).
  { intros k i Hin. apply (Hu i). by eapply elem_of_delete_pool. }
  destruct a as [d|k|k o|]; cbn in Hstep.
  - destruct (0 <? d); [|done]. by inversion Hstep; subst.
  - destruct (pool s !! k) as [[due|i|i args due|i args|i]|] eqn:Hk; try done.
    + destruct (due <=? clock s); [|done]. inversion Hstep as [Hpq]. clear Hstep.
      apply processQueue_spec in Hpq; [|apply Hwf].
      destruct Hpq as (adm & timer & _ & Hpool & _ & _ & _ & _ & _ & _ & _ & Htimer & _).
      intros j. rewrite Hpool, !elem_of_app. intros [Hin|[Hin|Hin]].
      * by apply (Htake k j).
      * by apply list_elem_of_fmap in Hin as (? & ? & _).
      * destruct Htimer as [->|(due' & -> & _)]; [by apply elem_of_nil in Hin|].
        by apply list_elem_of_singleton in Hin.
    + inversion Hstep as [Hex]. clear Hstep.
      pose proof (pending_inflight _ _ (PExecute i) i Hk eq_refl) as Hinf.
      assert (Hi : (i < length (fnArgs cfg))%nat) by by eapply wf_in_range.
      apply executeTask_spec in Hex
        as [(args & Hargs & Hacq)|[(v & Hv & _ & -> & ->)|(v & Hv & _ & -> & ->)]];
        [| | |done].
      * apply executeTask_acquire_spec in Hacq as (_ & _ & _ & _ & _ & _ & Hcases).
        intros j.
        destruct Hcases as [(z & _ & _ & -> & _)|(_ & -> & _)];
          rewrite elem_of_app, list_elem_of_singleton;
          (intros [Hin|Hin]; [by apply (Htake k j)|done]).
      * intros j. cbn. rewrite elem_of_app, list_elem_of_singleton.
        intros [Hin|Hin]; [by apply (Htake k j)|done].
      * done.
    + destruct (due <=? clock s); [|done]. inversion Hstep as [Hacq]. clear Hstep.
      apply executeTask_acquire_spec in Hacq as (_ & _ & _ & _ & _ & _ & Hcases).
      intros j.
      destruct Hcases as [(z & _ & _ & -> & _)|(_ & -> & _)];
        rewrite elem_of_app, list_elem_of_singleton;
        (intros [Hin|Hin]; [by apply (Htake k j)|done]).
  - destruct (pool s !! k) as [[due|i|i args due|i args|i]|] eqn:Hk; try done.
    inversion Hstep as [Hset]. clear Hstep.
    apply executeTask_settle_spec in Hset as (_ & _ & _ & _ & _ & _ & Hpool & _).
    intros j. rewrite Hpool, elem_of_app, list_elem_of_singleton.
    intros [Hin|Hin]; [by apply (Htake k j)|done].
  - destruct (main s) as [due|res|]; [|done..].
    destruct (due <=? clock s); [|done]. inversion Hstep as [Hpoll].
    apply poll_spec in Hpoll as (_ & _ & _ & _ & _ & Hpool & _).
    intros j. rewrite Hpool. apply Hu.
Qed.

Lemma reach_undead (s : state) (evs : list event) : reach cfg s evs → undead s.
Proof.
  induction 1 as [now s evs Hcall|s evs a s' evs' Hreach IH Hstep].
  - unfold rpmControlledBatch in Hcall.
    destruct (processQueue cfg (blank cfg now)) as [s1 evs1] eqn:Hpq.
    destruct (poll s1) as [s2 evs2] eqn:Hpoll. inversion Hcall; subst.
    apply processQueue_spec in Hpq; [|done].
    destruct Hpq as (adm & timer & _ & Hpool & _ & _ & _ & _ & _ & _ & _ & Htimer & _).
    apply poll_spec in Hpoll as (_ & _ & _ & _ & _ & Hpool2 & _).
    intros _ j. rewrite Hpool2, Hpool. cbn. rewrite elem_of_app. intros [Hin|Hin].
    + by apply list_elem_of_fmap in Hin as (? & ? & _).
    + destruct Htimer as [->|(due' & -> & _)]; [by apply elem_of_nil in Hin|].
      by apply list_elem_of_singleton in Hin.
  - eapply undead_step; [|done..]. by eapply reach_wf.
Qed.

(** *** Letting time pass *)

Lemma foldr_max_ge_init (c : Z) (l : list Z) : c ≤ foldr Z.max c l.
Proof. induction l as [|x l IH]; cbn; lia. Qed.

Lemma foldr_max_ge_elem (c x : Z) (l : list Z) : x ∈ l → x ≤ foldr Z.max c l.
Proof.
  induction l as [|y l IH]; [by intros ?%elem_of_nil|].
  intros [->|Hx]%elem_of_cons; cbn; [lia|]. specialize (IH Hx). lia.
Qed.

Lemma prune_past (now : Z) (ts : list Z) :
  (∀ t, t ∈ ts → t + windowDuration ≤ now) → prune now ts = [].
Proof.
  intros Hall. unfold prune. induction ts as [|t ts IH]; [done|].
  rewrite filter_cons_False.
  - apply IH. intros u Hu. apply Hall. by right.
  - specialize (Hall t ltac:(by left)). lia.
Qed.

(** One tick takes the clock past the horizon: the window empties and
    every timer becomes due. *)
Lemma ripen (s : state) :
  main s ≠ Crashed →
  ∃ d r, step cfg (Tick d) s = Some (r, []) ∧
         pool r = pool s ∧ taskQueue r = taskQueue s ∧ main r = main s ∧
         prune (clock r) (requestTimestamps r) = [] ∧
         (∀ p due, p ∈ pool r → due_time p = Some due → due ≤ clock r) ∧
         (∀ due, main r = Polling due → due ≤ clock r).
Proof.
  intros Halive.
  exists (horizon s + 1 - clock s), (set_clock (clock s + (horizon s + 1 - clock s)) s).
  rewrite (turn_step cfg _ _ Halive).
  pose proof (foldr_max_ge_init (clock s)
    (((λ t, t + windowDuration) <$> requestTimestamps s)
       ++ omap due_time (pool s)
       ++ match main s with Polling due => [due] | _ => [] end)) as Hclock.
  fold (horizon s) in Hclock.
  assert (Hge : ∀ x, x ∈ ((λ t, t + windowDuration) <$> requestTimestamps s)
                         ++ omap due_time (pool s)
                         ++ match main s with Polling due => [due] | _ => [] end
                     → x ≤ horizon s).
  { intros x Hx. by apply foldr_max_ge_elem. }
  split_and!; cbn; try done.
  - destruct (Z.ltb_spec 0 (horizon s + 1 - clock s)); [done|lia].
  - apply prune_past. intros t Ht.
    assert (t + windowDuration ≤ horizon s); [|lia].
    apply Hge, elem_of_app. left. apply list_elem_of_fmap. by exists t.
  - intros p due Hp Hdue. assert (due ≤ horizon s); [|lia].
    apply Hge, elem_of_app. right. apply elem_of_app. left.
    apply list_elem_of_omap. by exists p.
  - intros due Hmain. assert (due ≤ horizon s); [|lia].
    apply Hge, elem_of_app. right. apply elem_of_app. right.
    rewrite Hmain. by left.
Qed.

(** *** Single moves *)

Lemma settles_follow_app (evs1 evs2 : list event) :
  settles_follow f evs1 → settles_follow f evs2 → settles_follow f (evs1 ++ evs2).
Proof. intros H1 H2 i args o t [?|?]%elem_of_app; [by eapply H1|by eapply H2]. Qed.

Lemma settles_follow_nil : settles_follow f [].
Proof. by intros i args o t ?%elem_of_nil. Qed.

Lemma run_cons (a : action) (rest : list action) (s s1 s2 : state)
    (evs1 evs2 : list event) :
  step cfg a s = Some (s1, evs1) → run cfg rest s1 = Some (s2, evs2) →
  run cfg (a :: rest) s = Some (s2, evs1 ++ evs2).
Proof. intros H1 H2. cbn. by rewrite H1, H2. Qed.

Lemma run_app (acts1 acts2 : list action) (s s1 s2 : state)
    (evs1 evs2 : list event) :
  run cfg acts1 s = Some (s1, evs1) → run cfg acts2 s1 = Some (s2, evs2) →
  run cfg (acts1 ++ acts2) s = Some (s2, evs1 ++ evs2).
Proof.
  revert s evs1. induction acts1 as [|a acts1 IH]; intros s evs1 H1 H2; cbn in *.
  - by inversion H1; subst.
  - destruct (step cfg a s) as [[sa ea]|]; [|done].
    destruct (run cfg acts1 sa) as [[sb eb]|] eqn:Hb; [|done].
    inversion H1; subst. rewrite (IH _ _ Hb H2). by rewrite app_assoc.
Qed.

Lemma run_good (acts : list action) (s s' : state) (evs : list event) :
  wf cfg s → attended s → undead s → run cfg acts s = Some (s', evs) →
  wf cfg s' ∧ attended s' ∧ undead s'.
Proof.
  revert s evs.
  induction acts as [|a acts IH]; intros s evs Hwf Hatt Hu Hrun; cbn in Hrun.
  - by inversion Hrun; subst.
  - destruct (step cfg a s) as [[sa ea]|] eqn:Hstep; [|done].
    destruct (run cfg acts sa) as [[sb eb]|] eqn:Hb; [|done].
    inversion Hrun; subst. eapply IH; [| | |done].
    + by eapply wf_step.
    + by eapply attended_step.
    + by eapply undead_step.
Qed.

(** An in-flight call settles the way the oracle says. *)
Lemma move_settle (s : state) (k i : nat) (args : list jsval) :
  main s ≠ Crashed →
  pool s !! k = Some (PRunning i args) →
  ∃ s' evs, step cfg (Settle k (f i)) s = Some (s', evs) ∧
            taskQueue s' = taskQueue s ∧ main s' = main s ∧
            inflight (pool s) ≡ₚ i :: inflight (pool s') ∧
            settles_follow f evs.
Proof.
  intros Halive Hk. setoid_rewrite (turn_step cfg _ _ Halive). cbn. rewrite Hk.
  destruct (executeTask_settle cfg i args (f i) (take_pending k s)) as [s' evs] eqn:Hset.
  exists s', evs. split; [done|].
  apply executeTask_settle_spec in Hset
    as (_ & Hq & _ & _ & _ & Hmain & Hpool & _ & _ & Hevs & _).
  rewrite f_handled in Hmain.
  cbn in *. split_and!; [done|done| |].
  - rewrite Hpool, inflight_app, inflight_timer, app_nil_r.
    by apply (inflight_take_task _ _ (PRunning i args)).
  - intros j args' o t Hin. apply Hevs in Hin as [Heq|[?|[? ?]]]; [|done..].
    by inversion Heq; subst.
Qed.

(** A task that is about to acquire its slot gets it when the window is
    empty. *)
Lemma move_start (s : state) (k : nat) (p : pending) (i : nat) (args : list jsval) :
  pool s !! k = Some p →
  p = PExecute i ∨ (∃ due, p = PWaiting i args due ∧ due ≤ clock s) →
  fnArgs cfg !! i = Some (JArr args) →
  prune (clock s) (requestTimestamps s) = [] →
  main s ≠ Crashed →
  ∃ s' evs, step cfg (Fire k) s = Some (s', evs) ∧
            taskQueue s' = taskQueue s ∧ main s' = main s ∧
            pool s' = delete k (pool s) ++ [PRunning i args] ∧
            settles_follow f evs.
Proof.
  intros Hk Hp Hargs Hempty Halive.
  destruct (executeTask_acquire cfg i args (take_pending k s)) as [s' evs] eqn:Hacq.
  exists s', evs.
  assert (Hstep : step cfg (Fire k) s = Some (s', evs)).
  { rewrite (turn_step cfg _ _ Halive). cbn. rewrite Hk.
    destruct Hp as [->|(due & -> & Hdue)].
    - unfold executeTask. rewrite Hargs.
      destruct (Nat.leb_spec (length (fnArgs cfg)) i) as [Hge|_]; [|by rewrite Hacq].
      apply lookup_lt_Some in Hargs. lia.
    - destruct (Z.leb_spec due (clock s)); [by rewrite Hacq|lia]. }
  split; [done|].
  apply executeTask_acquire_spec in Hacq as (_ & Hq & _ & _ & _ & Hmain & Hcases).
  cbn in *. rewrite Hempty in Hcases.
  destruct Hcases as [(z & [_ Hfull] & _)|(_ & Hpool & -> & _)]; [cbn in Hfull; lia|].
  split_and!; [done..|].
  intros j args' o t Hin. by apply list_elem_of_singleton in Hin.
Qed.

(** A task with malformed arguments is refused on the spot. *)
Lemma move_refuse (s : state) (k i : nat) (v : jsval) :
  pool s !! k = Some (PExecute i) →
  fnArgs cfg !! i = Some v → isArray v = false →
  main s ≠ Crashed →
  ∃ s' evs, step cfg (Fire k) s = Some (s', evs) ∧
            taskQueue s' = taskQueue s ∧ main s' = main s ∧
            pool s' = delete k (pool s) ++ [PProcessQueue (clock s + 50)] ∧
            settles_follow f evs.
Proof.
  intros Hk Hv Hnot Halive. setoid_rewrite (turn_step cfg _ _ Halive). cbn. rewrite Hk.
  destruct (executeTask cfg i (take_pending k s)) as [s' evs] eqn:Hex.
  exists s', evs. split; [done|].
  apply executeTask_spec in Hex
    as [(args & Hargs & _)|[(u & _ & _ & -> & ->)|(u & Hu & [_ Hthrows] & _)]];
    [| | |by eapply lookup_lt_Some].
  - rewrite Hv in Hargs. by inversion Hargs; subst.
  - cbn. split_and!; [done..|].
    intros j args' o t Hin. by apply list_elem_of_singleton in Hin.
  - by rewrite (args_printed _ _ Hu) in Hthrows.
Qed.

(** With nothing in flight and the window empty, [processQueue] admits at
    least one task. *)
Lemma move_admit (s : state) (k : nat) (due : Z) :
  wf cfg s →
  pool s !! k = Some (PProcessQueue due) → due ≤ clock s →
  prune (clock s) (requestTimestamps s) = [] →
  inflight (pool s) = [] → taskQueue s ≠ [] →
  main s ≠ Crashed →
  ∃ s' evs, step cfg (Fire k) s = Some (s', evs) ∧
            (remaining_work s' < remaining_work s)%nat ∧ main s' = main s ∧
            settles_follow f evs.
Proof.
  intros Hwf Hk Hdue Hempty Hinf Hq Halive.
  setoid_rewrite (turn_step cfg _ _ Halive). cbn. rewrite Hk.
  destruct (Z.leb_spec due (clock s)); [|lia].
  destruct (processQueue cfg (take_pending k s)) as [s' evs] eqn:Hpq.
  exists s', evs. split; [done|].
  apply processQueue_spec in Hpq; [|apply Hwf].
  destruct Hpq as (adm & timer & Hq' & Hpool & Hact & -> & _ & _ & Hmain' & _ & _
                   & Htimer & _ & Hexit).
  cbn in *.
  assert (Hzero : activeTaskCount s = 0).
  { rewrite (wf_active _ _ Hwf), Hinf. done. }
  assert (Hadm : adm ≠ []).
  { intros ->. cbn in *. rewrite <- Hq' in Hexit.
    destruct Hexit as [Hne|[?|?]]; [|done|lia].
    destruct Htimer as [->|(due' & -> & _ & Hfull)]; [done|].
    rewrite Hempty in Hfull. cbn in Hfull. lia. }
  split_and!.
  - unfold remaining_work. rewrite Hq', Hpool, !inflight_app, inflight_execute.
    rewrite (inflight_take_timer _ _ _ Hk), Hinf.
    assert (inflight timer = []) as ->.
    { by destruct Htimer as [->|(due' & -> & _)]. }
    rewrite !length_app. cbn. destruct adm; [done|]. cbn. lia.
  - done.
  - intros j args o t (i & [=] & _)%list_elem_of_fmap.
Qed.

(** With nothing left to do, the polling loop returns. *)
Lemma move_return (s : state) (due : Z) :
  wf cfg s →
  main s = Polling due → due ≤ clock s →
  inflight (pool s) = [] → taskQueue s = [] →
  ∃ s', step cfg Poll s = Some (s', [EvReturn (clock s)]) ∧
        main s' = Returned (results s).
Proof.
  intros Hwf Hmain Hdue Hinf Hq. unfold step. cbn. rewrite Hmain.
  destruct (Z.leb_spec due (clock s)); [|lia].
  unfold poll. rewrite (wf_active _ _ Hwf), Hinf, Hq. cbn. by eexists.
Qed.

(** *** Driving the batch to its end *)

Lemma remaining_work_ripe (s r : state) :
  pool r = pool s → taskQueue r = taskQueue s →
  remaining_work r = remaining_work s.
Proof. unfold remaining_work. by intros -> ->. Qed.

(** Any task in flight can be brought to settlement. *)
Lemma finish_task (s : state) (k : nat) (p : pending) (i : nat) :
  wf cfg s → undead s →
  main s ≠ Crashed → pool s !! k = Some p → inflight_task p = Some i →
  ∃ acts s' evs, run cfg acts s = Some (s', evs) ∧
                 (remaining_work s' < remaining_work s)%nat ∧
                 main s' = main s ∧
                 settles_follow f evs.
Proof.
  intros Hwf Hu Halive Hk Hp.
  assert (Hsettle : ∀ s1 args,
            taskQueue s1 = taskQueue s → main s1 = main s →
            pool s1 !! length (delete k (pool s)) = Some (PRunning i args) →
            inflight (pool s1) ≡ₚ inflight (pool s) →
            ∃ s2 evs, step cfg (Settle (length (delete k (pool s))) (f i)) s1
                        = Some (s2, evs) ∧
                      (remaining_work s2 < remaining_work s)%nat ∧
                      main s2 = main s ∧
                      settles_follow f evs).
  { intros s1 args Hq1 Hm1 Hk1 Hperm1.
    destruct (move_settle s1 _ i args ltac:(by rewrite Hm1) Hk1)
      as (s2 & evs & Hstep & Hq2 & Hm2 & Hperm2 & Hf).
    exists s2, evs. split_and!; [done| |congruence|done].
    unfold remaining_work. rewrite Hq2, Hq1.
    apply Permutation_length in Hperm1, Hperm2. cbn in Hperm2. lia. }
  destruct (ripen s Halive) as (d & r & Htick & Hpool & Hq & Hmain & Hempty & Hdue & _).
  assert (Haliver : main r ≠ Crashed) by by rewrite Hmain.
  assert (Hkr : pool r !! k = Some p) by by rewrite Hpool.
  pose proof (inflight_take_task _ _ _ _ Hk Hp) as Hperm.
  destruct p as [due|j|j args due|j args|j]; inversion Hp; subst j; cycle 3.
  { (* no task has died *)
    exfalso. apply (Hu Halive i). by eapply list_elem_of_lookup_2. }
  - (* about to run [executeTask] *)
    pose proof (pending_inflight _ _ _ _ Hk eq_refl) as Hinf.
    pose proof (wf_in_range cfg s i Hwf Hinf) as Hi.
    apply lookup_lt_is_Some in Hi as [v Hv].
    destruct (isArray v) eqn:Harr.
    + destruct v as [| | | | | |args|]; try done.
      destruct (move_start r k _ i args Hkr (or_introl eq_refl) Hv Hempty Haliver)
        as (s1 & evs1 & Hstep1 & Hq1 & Hm1 & Hpool1 & Hf1).
      rewrite Hpool in Hpool1.
      destruct (Hsettle s1 args) as (s2 & evs2 & Hstep2 & Hlt & Hm2 & Hf2).
      * by rewrite Hq1.
      * congruence.
      * rewrite Hpool1. by apply list_lookup_middle.
      * rewrite Hpool1, inflight_app, (inflight_item _ i) by done.
        by rewrite Hperm, <- Permutation_cons_append.
      * exists [Tick d; Fire k; Settle (length (delete k (pool s))) (f i)], s2,
          ([] ++ evs1 ++ evs2 ++ []).
        split_and!; [|done|done|].
        -- eapply run_cons; [done|]. eapply run_cons; [done|].
           eapply run_cons; [done|]. done.
        -- cbn. rewrite app_nil_r. by apply settles_follow_app.
    + destruct (move_refuse r k i v Hkr Hv Harr Haliver)
        as (s1 & evs1 & Hstep1 & Hq1 & Hm1 & Hpool1 & Hf1).
      exists [Tick d; Fire k], s1, ([] ++ evs1 ++ []).
      split_and!.
      * eapply run_cons; [done|]. eapply run_cons; [done|]. done.
      * unfold remaining_work.
        rewrite Hq1, Hq, Hpool1, Hpool, inflight_app, inflight_timer, app_nil_r.
        apply Permutation_length in Hperm. cbn in Hperm. lia.
      * congruence.
      * cbn. by rewrite app_nil_r.
  - (* asleep in [acquireRateLimitSlot] *)
    assert (Hin : PWaiting i args due ∈ pool s) by by eapply list_elem_of_lookup_2.
    pose proof (wf_args _ _ Hwf _ Hin) as Hargs. cbn in Hargs.
    assert (Hripe : due ≤ clock r).
    { apply (Hdue (PWaiting i args due)); [by rewrite Hpool|done]. }
    destruct (move_start r k _ i args Hkr
                (or_intror (ex_intro _ due (conj eq_refl Hripe))) Hargs Hempty Haliver)
      as (s1 & evs1 & Hstep1 & Hq1 & Hm1 & Hpool1 & Hf1).
    rewrite Hpool in Hpool1.
    destruct (Hsettle s1 args) as (s2 & evs2 & Hstep2 & Hlt & Hm2 & Hf2).
    + by rewrite Hq1.
    + congruence.
    + rewrite Hpool1. by apply list_lookup_middle.
    + rewrite Hpool1, inflight_app, (inflight_item _ i) by done.
      by rewrite Hperm, <- Permutation_cons_append.
    + exists [Tick d; Fire k; Settle (length (delete k (pool s))) (f i)], s2,
        ([] ++ evs1 ++ evs2 ++ []).
      split_and!; [|done|done|].
      * eapply run_cons; [done|]. eapply run_cons; [done|].
        eapply run_cons; [done|]. done.
      * cbn. rewrite app_nil_r. by apply settles_follow_app.
  - (* awaiting [asyncFn] *)
    destruct (move_settle s k i args Halive Hk)
      as (s2 & evs & Hstep & Hq2 & Hm2 & Hperm2 & Hf).
    exists [Settle k (f i)], s2, (evs ++ []). split_and!.
    + eapply run_cons; [done|]. done.
    + unfold remaining_work. rewrite Hq2.
      apply Permutation_length in Hperm2. cbn in Hperm2. lia.
    + done.
    + by rewrite app_nil_r.
Qed.

(** From a well-formed state of a live process in which the queue is
    attended, the batch can be driven to its return, with the outcomes
    the oracle gives. *)
Lemma drive_to_return (n : nat) (s : state) :
  (remaining_work s ≤ n)%nat → wf cfg s → attended s → undead s →
  main s ≠ Crashed →
  ∃ acts s' evs, run cfg acts s = Some (s', evs) ∧
                 (∃ res, main s' = Returned res) ∧
                 settles_follow f evs.
Proof.
  revert s. induction n as [n IH] using lt_wf_ind. intros s Hn Hwf Hatt Hu Halive.
  destruct (main s) as [due|res|] eqn:Hmain; [|clear Halive|done].
  2: { exists [], s, []. split_and!; [done|by eexists|apply settles_follow_nil]. }
  rewrite <- Hmain in Halive.
  assert (Hnext : ∀ acts1 s1 evs1,
            run cfg acts1 s = Some (s1, evs1) →
            (remaining_work s1 < remaining_work s)%nat →
            main s1 = Polling due →
            settles_follow f evs1 →
            ∃ acts s' evs, run cfg acts s = Some (s', evs) ∧
                           (∃ res, main s' = Returned res) ∧
                           settles_follow f evs).
  { intros acts1 s1 evs1 Hrun1 Hlt Hm1 Hf1.
    destruct (run_good _ _ _ _ Hwf Hatt Hu Hrun1) as (Hwf1 & Hatt1 & Hu1).
    destruct (IH (remaining_work s1) ltac:(lia) s1 ltac:(lia) Hwf1 Hatt1 Hu1
                 ltac:(by rewrite Hm1))
      as (acts2 & s2 & evs2 & Hrun2 & Hret & Hf2).
    exists (acts1 ++ acts2), s2, (evs1 ++ evs2). split_and!; [|done|].
    - by eapply run_app.
    - by apply settles_follow_app. }
  destruct (inflight (pool s)) as [|i rest] eqn:Hinf.
  - destruct (ripen s Halive)
      as (d & r & Htick & Hpool & Hq & Hmainr & Hempty & Hdue & Hpoll).
    assert (Hwfr : wf cfg r) by by eapply wf_step.
    assert (Haliver : main r ≠ Crashed) by by rewrite Hmainr.
    destruct (taskQueue s) as [|j q] eqn:Hqueue.
    + (* nothing left: the poll returns *)
      rewrite Hmain in Hmainr.
      destruct (move_return r due Hwfr Hmainr (Hpoll _ Hmainr)) as (s' & Hstep & Hret).
      { by rewrite Hpool. }
      { done. }
      exists [Tick d; Poll], s', ([] ++ [EvReturn (clock r)] ++ []).
      split_and!.
      * eapply run_cons; [done|]. eapply run_cons; [done|]. done.
      * by eexists.
      * intros i args o t Hin. cbn in Hin. by apply list_elem_of_singleton in Hin.
    + (* a [processQueue] is pending: it admits *)
      destruct Hatt as [Hne|[pq Hpq]]; [by rewrite Hqueue|by rewrite Hinf in Hne|].
      apply list_elem_of_lookup_1 in Hpq as [k Hk].
      assert (Hkr : pool r !! k = Some (PProcessQueue pq)) by by rewrite Hpool.
      destruct (move_admit r k pq Hwfr Hkr) as (s1 & evs1 & Hstep1 & Hlt & Hm1 & Hf1).
      { apply (Hdue (PProcessQueue pq)); [by eapply list_elem_of_lookup_2|done]. }
      { done. }
      { by rewrite Hpool. }
      { by rewrite Hq. }
      { done. }
      apply (Hnext [Tick d; Fire k] s1 ([] ++ evs1 ++ [])).
      * eapply run_cons; [done|]. eapply run_cons; [done|]. done.
      * rewrite <- (remaining_work_ripe s r Hpool) by (by rewrite Hq, Hqueue).
        done.
      * congruence.
      * cbn. by rewrite app_nil_r.
  - (* a task is in flight: it settles *)
    assert (Hi : i ∈ inflight (pool s)) by (rewrite Hinf; by left).
    apply list_elem_of_omap in Hi as (p & Hp & Htask).
    apply list_elem_of_lookup_1 in Hp as [k Hk].
    destruct (finish_task s k p i Hwf Hu Halive Hk Htask)
      as (acts1 & s1 & evs1 & Hrun1 & Hlt & Hm1 & Hf1).
    apply (Hnext acts1 s1 evs1); [done|done|congruence|done].
Qed.

(** Whatever the calls of [asyncFn] settle with, short of throwing
    [undefined] or [null], every reachable state of a live process has a
    continuation in which the call returns. *)
Lemma batch_completes (s : state) (evs : list event) :
  reach cfg s evs → main s ≠ Crashed →
  ∃ acts s' evs', run cfg acts s = Some (s', evs') ∧
                  (∃ res, main s' = Returned res) ∧
                  settles_follow f evs'.
Proof.
  intros Hreach Halive. apply (drive_to_return (remaining_work s)); [done|..|done].
  - by eapply reach_wf.
  - by eapply reach_attended.
  - by eapply reach_undead.
Qed.

End Progress.

(** ** Failure isolation *)

Lemma catch_throws_nullish (e : jsval) :
  catch_throws (Rejected e) = true ↔ e = JUndefined ∨ e = JNull.
Proof.
  unfold catch_throws, throttle_of. split.
  - destruct e; cbn; try (by left); try (by right);
      repeat case_match; done.
  - by intros [-> | ->].
Qed.

(** Nothing happens in a process that has ended. *)
Lemma crashed_is_final (cfg : config) (s : state) (acts : list action)
    (s' : state) (evs : list event) :
  main s = Crashed → run cfg acts s = Some (s', evs) →
  acts = [] ∧ s' = s ∧ evs = [].
Proof.
  intros Hmain. destruct acts as [|a acts]; cbn; [by intros [= <- <-]|].
  unfold step. by rewrite Hmain.
Qed.

(** A call of [asyncFn] that throws or rejects with a value other than
    [undefined] and [null]: [{ error: e }] is stored at index [i] and
    nowhere else, the queue and the other pending continuations are left
    as they were, a [processQueue] is scheduled and the call itself keeps
    polling; and if no later call throws [undefined] or [null] and no
    arguments die in the log of [executeTask], the batch can then run to
    its return, where the array is full and still holds [{ error: e }]
    at [i]. *)
Lemma handled_failure_is_isolated (cfg : config) (f : nat → outcome) (s : state)
    (evs : list event) (k i : nat) (args : list jsval) (e : jsval)
    (s1 : state) (evs1 : list event) :
  0 < rpm cfg →
  0 < maxConcurrent cfg →
  (∀ j, catch_throws (f j) = false) →
  (∀ j v, fnArgs cfg !! j = Some v → conversion_throws v = false) →
  catch_throws (Rejected e) = false →
  reach cfg s evs →
  pool s !! k = Some (PRunning i args) →
  step cfg (Settle k (Rejected e)) s = Some (s1, evs1) →
  results s1 = <[i := Some (JObj [("error"%string, e)])]> (results s) ∧
  taskQueue s1 = taskQueue s ∧
  pool s1 = delete k (pool s) ++ [PProcessQueue (clock s + 50)] ∧
  main s1 = main s ∧
  ∃ acts s2 evs2 res,
    run cfg acts s1 = Some (s2, evs2) ∧
    settles_follow f evs2 ∧
    main s2 = Returned res ∧
    length res = length (fnArgs cfg) ∧
    res !! i = Some (Some (JObj [("error"%string, e)])).
Proof.
  intros Hrpm Hmax Hf Hprint He Hreach Hk Hstep.
  assert (Hreach1 : reach cfg s1 (evs ++ evs1)) by by eapply reach_step.
  apply step_turn in Hstep as [Halive Hstep].
  assert (Hset : executeTask_settle cfg i args (Rejected e) (take_pending k s)
                 = (s1, evs1)).
  { cbn [turn] in Hstep. rewrite Hk in Hstep. congruence. }
  clear Hstep.
  apply executeTask_settle_spec in Hset
    as (_ & Hq & Hres & _ & _ & Hmain & Hpool & _ & _ & _ & Hev & _).
  rewrite He in Hmain.
  cbn in *. split_and!; [done..|].
  destruct (batch_completes cfg Hrpm Hmax f Hf Hprint s1 _ Hreach1)
    as (acts & s2 & evs2 & Hrun & [res Hret] & Hfollow); [congruence|].
  exists acts, s2, evs2, res.
  pose proof (run_reach cfg acts s1 s2 _ evs2 Hreach1 Hrun) as Hreach2.
  rewrite <- app_assoc in Hreach2.
  destruct (returned_results cfg s2 _ res Hreach2 Hret) as (Hlen & _ & Hall).
  split_and!; [done..|].
  pose proof (reach_wf _ _ _ Hreach2) as Hwf2.
  pose proof (reach_accounted _ _ _ Hreach2) as Hacc2.
  destruct (wf_main _ _ Hwf2 _ Hret) as (-> & _ & _).
  apply (acc_results _ _ _ Hacc2 i), elem_of_writes. left.
  exists args, (Rejected e), (clock s). split; [|done].
  apply elem_of_app. right. apply elem_of_app. by left.
Qed.

(** C4 (the code departs from the specification).  A call of [asyncFn]
    that throws or rejects with [undefined] or [null] is not isolated.
    [{ error }] is stored at the task's index, but then the [catch]
    block reads [error.status]: the [TypeError] this raises leaves
    [executeTask] after the [finally] block, nothing handles it, and
    the process ends.  The tasks still queued or in flight keep their
    holes in [results], nothing runs any more, and the call never
    returns. *)
Theorem nullish_rejection_ends_the_batch (cfg : config) (s : state)
    (evs : list event) (k i : nat) (args : list jsval) (e : jsval)
    (s1 : state) (evs1 : list event) :
  reach cfg s evs →
  pool s !! k = Some (PRunning i args) →
  e = JUndefined ∨ e = JNull →
  step cfg (Settle k (Rejected e)) s = Some (s1, evs1) →
  results s1 = <[i := Some (JObj [("error"%string, e)])]> (results s) ∧
  evs1 = [EvSettle i args (Rejected e) (clock s); EvUnhandled i (clock s)] ∧
  main s1 = Crashed ∧
  taskQueue s1 = taskQueue s ∧
  inflight (pool s) ≡ₚ i :: inflight (pool s1) ∧
  (∀ j, j ∈ taskQueue s1 ++ inflight (pool s1) → results s1 !! j = Some None) ∧
  (∀ a, step cfg a s1 = None) ∧
  (∀ acts s2 evs2,
     run cfg acts s1 = Some (s2, evs2) →
     acts = [] ∧ s2 = s1 ∧ evs2 = [] ∧ ∀ res, main s2 ≠ Returned res).
Proof.
  intros Hreach Hk He Hstep.
  assert (Hreach1 : reach cfg s1 (evs ++ evs1)) by by eapply reach_step.
  pose proof (reach_wf _ _ _ Hreach1) as Hwf1.
  apply step_turn in Hstep as [Halive Hstep].
  cbn [turn] in Hstep. rewrite Hk in Hstep. apply (inj Some) in Hstep.
  rename Hstep into Hset.
  assert (main s1 = Crashed ∧
          evs1 = [EvSettle i args (Rejected e) (clock s); EvUnhandled i (clock s)])
    as [Hmain Hevs].
  { unfold executeTask_settle in Hset.
    by destruct He as [-> | ->]; cbn in Hset; injection Hset as <- <-. }
  apply executeTask_settle_spec in Hset
    as (_ & Hq & Hres & _ & _ & _ & Hpool & _).
  cbn in Hq, Hres, Hpool. split_and!; [done..| | | |].
  - rewrite Hpool, inflight_app, inflight_timer, app_nil_r.
    by apply (inflight_take_task _ _ (PRunning i args)).
  - intros j. apply (wf_unsettled _ _ Hwf1).
  - intros a. unfold step. by rewrite Hmain.
  - intros acts s2 evs2 Hrun.
    destruct (crashed_is_final cfg s1 acts s2 evs2 Hmain Hrun) as (-> & -> & ->).
    split_and!; [done..|]. intros res. by rewrite Hmain.
Qed.

(** The window of the bound is open at its far end, like the filter of
    [getTimeUntilNextSlot]: under [rpm = 1] a start at 0 ms and a start at
    exactly 60000 ms are both possible. *)
Example starts_one_minute_apart :
  start_times <$> (snd <$> execution boundary_cfg 0 boundary_acts)
  = Some [0; 60000].
Proof. vm_compute. reflexivity. Qed.

(** ** Throttling *)

(** A thrown [null] is recorded like any other error; reading its
    [status] then raises inside the [catch] block: the [finally] block
    completes the task, and the exception ends the process. *)
Example thrown_null_is_recorded :
  executeTask_settle crowd_cfg 0 [JStr "a"] (Rejected JNull) (blank crowd_cfg 0)
  = (set_main Crashed
       (completeTask
          (set_results [Some (JObj [("error"%string, JNull)])] (blank crowd_cfg 0))),
     [EvSettle 0 [JStr "a"] (Rejected JNull) 0; EvUnhandled 0 0]).
Proof. reflexivity. Qed.

(** Arguments that are not an array and cannot be printed: the
    exception of the template literal leaves [executeTask] before the
    refusal is stored and before [completeTask]; the task keeps its
    slot, its entry stays a hole, and the process ends. *)
Example unprintable_arguments_end_the_batch :
  execution unprintable_cfg 0 [Fire 0]
  = Some ({| clock := 0; requestTimestamps := []; taskQueue := [];
             results := [None; None]; activeTaskCount := 2;
             processingQueue := false; pool := [PExecute 1; PDead 0];
             main := Crashed |},
          [EvAdmit 0 0; EvAdmit 1 0; EvUnhandled 0 0]) ∧
  ∀ a, execution unprintable_cfg 0 [Fire 0; a] = None.
Proof. split; [vm_compute; reflexivity|]. intros a. reflexivity. Qed.

(** The default cooldown is reached through the inner [catch] alone: a
    429 whose details cannot even be searched gets it. *)
Example default_cooldown_on_exception :
  throttle_of (JObj [("status"%string, JNum 429);
                     ("errorDetails"%string, JStr "quota exceeded")])
  = DefaultCooldown.
Proof. reflexivity. Qed.

Example cooldown_of_retry_info : throttle_of retry_info_error = Cooldown 38000.
Proof. reflexivity. Qed.

Example no_cooldown_for_garbled_delay : throttle_of garbled_error = NoCooldown.
Proof. reflexivity. Qed.

(** A cooldown of 38 seconds raised at 10 ms: the next task starts at
    38110 ms. *)
Example cooldown_run :
  snd <$> execution quota_cfg 0 cooldown_acts
  = Some [EvAdmit 0 0; EvStart 0 [JStr "a"] 0;
          EvSettle 0 [JStr "a"] (Rejected retry_info_error) 10;
          EvThrottle 10 38000; EvAdmit 1 38110; EvStart 1 [JStr "b"] 38110].
Proof. vm_compute. reflexivity. Qed.

(** C5 (the code departs from the specification).  A 429 that carries no
    [RetryInfo], or one whose delay cannot be read, raises no cooldown at
    all, not the default of 30 seconds: in this run the first task fails
    with such an error at 10 ms and the second task records its start at
    60 ms. *)
Theorem throttle_without_retry_info_raises_no_cooldown :
  throttle_of quota_error = NoCooldown ∧
  cooldown_ms (throttle_of quota_error) = None ∧
  cooldown_ms (throttle_of garbled_error) = None ∧
  ∃ s evs,
    execution quota_cfg 0 quota_acts = Some (s, evs) ∧
    evs !! 2%nat = Some (EvSettle 0 [JStr "a"] (Rejected quota_error) 10) ∧
    evs !! 4%nat = Some (EvStart 1 [JStr "b"] 60) ∧
    throttles evs = [] ∧
    60 < 10 + 30000.
Proof.
  split; [reflexivity|]. split; [reflexivity|]. split; [reflexivity|].
  eexists _, _. split; [vm_compute; reflexivity|].
  split_and!; [reflexivity..|lia].
Qed.

(** ** The size of the window *)

(** C6 (as stated, it fails).  The timestamps that count as active can
    outnumber [rpm]: one start, then a throttle signal, leave two of them
    under [rpm = 1]. *)
Lemma active_window_exceeds_rpm :
  ¬ (∀ cfg s evs, 0 < rpm cfg → reach cfg s evs →
                  Z.of_nat (length (active_timestamps s)) ≤ rpm cfg).
Proof.
  intros Hclaim.
  destruct (execution crowd_cfg 0 crowd_acts) as [[s evs]|] eqn:Hexec;
    [|by vm_compute in Hexec].
  specialize (Hclaim crowd_cfg s evs ltac:(by vm_compute)
                (execution_reach _ _ _ _ _ Hexec)).
  vm_compute in Hexec. inversion Hexec; subst. by vm_compute in Hclaim.
Qed.

(** C6 (amended).  For a positive [rpm], in every reachable state the
    active timestamps number at most [rpm] plus [rpm] for every cooldown
    that is still running: the blocking timestamps of a cooldown leave
    the window when it ends.  So the bound is [rpm], as claimed,
    whenever no cooldown is running; and right after a slot is recorded
    the whole window holds at most [rpm] timestamps. *)
Theorem active_window_bound (cfg : config) (s : state) (evs : list event) :
  0 < rpm cfg →
  reach cfg s evs →
  Z.of_nat (length (active_timestamps s))
    ≤ rpm cfg * (1 + Z.of_nat (length (pending_cooldowns (clock s) evs))) ∧
  (pending_cooldowns (clock s) evs = [] →
   Z.of_nat (length (active_timestamps s)) ≤ rpm cfg) ∧
  ∀ i args s0 s1 evs1 t,
    executeTask_acquire cfg i args s0 = (s1, evs1) →
    EvStart i args t ∈ evs1 →
    Z.of_nat (length (requestTimestamps s1)) ≤ rpm cfg.
Proof.
  intros Hrpm Hreach.
  pose proof (active_timestamps_bound cfg s evs Hrpm Hreach) as Hbound.
  split_and!; [done| |].
  - intros Hnone. rewrite Hnone in Hbound. cbn in Hbound. lia.
  - intros i args s0 s1 evs1 t Hacq Hin.
    apply executeTask_acquire_spec in Hacq as (_ & _ & _ & _ & _ & _ & Hcases).
    destruct Hcases as [(z & _ & _ & _ & ->)|(-> & _ & _ & Hroom)];
      [by apply elem_of_nil in Hin|].
    by apply window_after_start, Hroom.
Qed.

(** The bound is reached: under [rpm = 1] a start and the cooldown that
    follows it leave two active timestamps; when the cooldown is over,
    the start alone is left. *)
Lemma active_window_bound_witness :
  ∃ s evs,
    execution crowd_cfg 0 crowd_acts = Some (s, evs) ∧
    length (active_timestamps s) = 2%nat ∧
    pending_cooldowns (clock s) evs = [(10, 38000)] ∧
    (Z.of_nat (length (active_timestamps s))
       ≤ rpm crowd_cfg * (1 + Z.of_nat (length (pending_cooldowns (clock s) evs))) ∧
     (pending_cooldowns (clock s) evs = [] →
      Z.of_nat (length (active_timestamps s)) ≤ rpm crowd_cfg) ∧
     ∀ i args s0 s1 evs1 t,
       executeTask_acquire crowd_cfg i args s0 = (s1, evs1) →
       EvStart i args t ∈ evs1 →
       Z.of_nat (length (requestTimestamps s1)) ≤ rpm crowd_cfg).
Proof.
  eexists _, _. split; [vm_compute; reflexivity|].
  split; [vm_compute; reflexivity|]. split; [vm_compute; reflexivity|].
  apply active_window_bound.
  - vm_compute. reflexivity.
  - apply (execution_reach crowd_cfg 0 crowd_acts). vm_compute. reflexivity.
Defined.

Example cooldown_leaves_the_window :
  (λ r, (length (active_timestamps r.1), pending_cooldowns (clock r.1) r.2))
    <$> execution crowd_cfg 0 (crowd_acts ++ [Tick 38000])
  = Some (1%nat, []).
Proof. vm_compute. reflexivity. Qed.

(** ** Configuration *)



(** ** The encoding of outcomes *)

Lemma executeTask_settle_results (cfg : config) (i : nat) (args : list jsval)
    (o : outcome) (s : state) :
  results (executeTask_settle cfg i args o s).1
  = <[i := Some (stored o)]> (results s).
Proof.
  destruct (executeTask_settle cfg i args o s) as [s' evs] eqn:Hset.
  by apply executeTask_settle_spec in Hset as (_ & _ & Hres & _).
Qed.

(** C10.  A failure is stored as [{ error: e }], a success as the value
    itself; so a call that resolves to [{ error: e }] leaves the very
    array a call that throws [e] leaves, and any resolved object with an
    [error] property is reported by [if (result.error)] exactly as the
    failure with that error is. *)
Theorem outcome_encoding_is_ambiguous (cfg : config) (i : nat) (args : list jsval)
    (e v : jsval) (s : state) :
  results (executeTask_settle cfg i args (Rejected e) s).1
    = <[i := Some (JObj [("error"%string, e)])]> (results s) ∧
  results (executeTask_settle cfg i args (Resolved v) s).1
    = <[i := Some v]> (results s) ∧
  results (executeTask_settle cfg i args (Resolved (JObj [("error"%string, e)])) s).1
    = results (executeTask_settle cfg i args (Rejected e) s).1 ∧
  ∀ fields e',
    assoc "error" fields = Some e' →
    reported_as_failure (stored (Resolved (JObj fields)))
    = reported_as_failure (stored (Rejected e')).
Proof.
  rewrite !executeTask_settle_results. split_and!; [done..|].
  intros fields e' Hfield. unfold reported_as_failure. cbn. by rewrite Hfield.
Qed.

Lemma outcome_encoding_is_ambiguous_witness :
  reported_as_failure
    (stored (Resolved (JObj [("title"%string, JStr "poem");
                             ("author"%string, JStr "poet");
                             ("error"%string, JStr "timed out");
                             ("success"%string, JBool false)])))
  = reported_as_failure (stored (Rejected (JStr "timed out"))).
Proof.
  apply (outcome_encoding_is_ambiguous crowd_cfg 0 [] JNull JNull (blank crowd_cfg 0)).
  reflexivity.
Defined.

(** ** The window stays time-ordered *)

Lemma reach_sorted (cfg : config) (s : state) (evs : list event) :
  reach cfg s evs → Sorted Z.le (requestTimestamps s).
Proof.
  assert (Hpq : ∀ s s' evs, processingQueue s = false →
                  Sorted Z.le (requestTimestamps s) →
                  processQueue cfg s = (s', evs) →
                  Sorted Z.le (requestTimestamps s')).
  { intros s0 s' evs0 Hflag Hs Heq. apply processQueue_spec in Heq; [|done].
    destruct Heq as (adm & timer & _ & _ & _ & _ & _ & _ & _ & _ & Hts & _).
    destruct Hts as [-> | ->]; [done|by apply prune_sorted]. }
  assert (Hacq : ∀ i args s s' evs, Sorted Z.le (requestTimestamps s) →
                   executeTask_acquire cfg i args s = (s', evs) →
                   Sorted Z.le (requestTimestamps s')).
  { intros i args s0 s' evs0 Hs Heq.
    apply executeTask_acquire_spec in Heq as (_ & _ & _ & _ & _ & _ & Hcases).
    destruct Hcases as [(z & _ & -> & _)|(-> & _)];
      [by apply prune_sorted|apply sort_asc_sorted]. }
  assert (Hpoll : ∀ s s' evs, Sorted Z.le (requestTimestamps s) →
                    poll s = (s', evs) → Sorted Z.le (requestTimestamps s')).
  { intros s0 s' evs0 Hs Heq.
    apply poll_spec in Heq as (_ & _ & _ & _ & _ & _ & -> & _). done. }
  induction 1 as [now s evs Hcall|s evs a s' evs' Hreach IH Hstep].
  - unfold rpmControlledBatch in Hcall.
    destruct (processQueue cfg (blank cfg now)) as [s1 evs1] eqn:Hq.
    destruct (poll s1) as [s2 evs2] eqn:Hp. inversion Hcall; subst.
    eapply Hpoll; [|done]. eapply Hpq; [| |done]; [done|constructor].
  - pose proof (reach_wf _ _ _ Hreach) as Hwf.
    apply step_turn in Hstep as [_ Hstep].
  destruct a as [d|k|k o|]; cbn [turn] in Hstep.
    + destruct (0 <? d); [|done]. by inversion Hstep; subst.
    + destruct (pool s !! k) as [[due|i|i args due|i args|i]|] eqn:Hk; try done.
      * destruct (due <=? clock s); [|done].
        apply (Hpq (take_pending k s) s' evs'); [apply Hwf|done|congruence].
      * assert (Hex : executeTask cfg i (take_pending k s) = (s', evs')) by congruence.
        pose proof (pending_inflight _ _ (PExecute i) i Hk eq_refl) as Hinf.
        assert (Hi : (i < length (fnArgs cfg))%nat) by by apply (wf_in_range cfg s).
        apply executeTask_spec in Hex
          as [(args & _ & Hex)|[(v & _ & _ & -> & _)|(v & _ & _ & -> & _)]];
          [|done|done|done].
        by apply (Hacq i args (take_pending k s) s' evs').
      * destruct (due <=? clock s); [|done].
        apply (Hacq i args (take_pending k s) s' evs'); [done|congruence].
    + destruct (pool s !! k) as [[due|i|i args due|i args|i]|] eqn:Hk; try done.
      assert (Hset : executeTask_settle cfg i args o (take_pending k s) = (s', evs'))
        by congruence.
      apply executeTask_settle_spec in Hset
        as (_ & _ & _ & _ & _ & _ & _ & _ & _ & _ & _ & Hts).
      destruct Hts as [[-> _]|(e & ms & _ & _ & -> & _)]; [done|].
      apply sort_asc_sorted.
    + destruct (main s) as [due|res|]; [|done..].
      destruct (due <=? clock s); [|done].
      apply (Hpoll s s' evs'); [done|congruence].
Qed.

(** ** The fixed-bucket variant against the sliding window *)

(** Under the fixed bucket, every task that wakes up resets the counter:
    three starts in one instant under [rpm = 1]. *)
Example fixed_bucket_herd :
  FixedBucket.start_times
    <$> (snd <$> FixedBucket.execution FixedBucket.herd_cfg 0 FixedBucket.herd_acts)
  = Some [0; 60000; 60000; 60000].
Proof. vm_compute. reflexivity. Qed.

(** The fixed bucket prints arguments that are not an array in the same
    way: the task that cannot be printed stays in [executing], the other
    task of the initial batch is still started, and the process ends. *)
Example fixed_bucket_unprintable_arguments :
  (λ r, (FixedBucket.results r.1, FixedBucket.pool r.1, FixedBucket.main r.1, r.2))
    <$> FixedBucket.execution unprintable_cfg 0 []
  = Some ([None; None],
          [FixedBucket.PDead 0; FixedBucket.PRunning 1 [JStr "b"]],
          Crashed,
          [FixedBucket.EvStart 1 [JStr "b"] 0]) ∧
  ∀ a, FixedBucket.execution unprintable_cfg 0 [a] = None.
Proof. split; [vm_compute; reflexivity|]. intros a. reflexivity. Qed.

(** C9.  The fixed-bucket variant lets [2 * rpm] starts into one trailing
    minute: in the run [burst_acts] under [rpm = 2], the starts at
    159000, 160000, 160000 and 160001 ms straddle the bucket boundary at
    160000 ms.  The sliding-window variant never has more than [rpm]
    starts in a trailing minute, for any positive [rpm] and any
    execution. *)
Theorem fixed_bucket_is_weaker :
  (∃ s evs,
     FixedBucket.execution FixedBucket.burst_cfg 0 FixedBucket.burst_acts
       = Some (s, evs) ∧
     starts_in_window 160001 (FixedBucket.start_times evs)
       = [159000; 160000; 160000; 160001] ∧
     Z.of_nat (length (starts_in_window 160001 (FixedBucket.start_times evs)))
       = 2 * rpm FixedBucket.burst_cfg) ∧
  (∀ cfg s evs t,
     0 < rpm cfg → reach cfg s evs →
     Z.of_nat (length (starts_in_window t (start_times evs))) ≤ rpm cfg).
Proof.
  split.
  - eexists _, _. split; [vm_compute; reflexivity|]. split; vm_compute; reflexivity.
  - intros cfg s evs t Hrpm Hreach.
    apply (rated_bound cfg s evs (reach_rated cfg Hrpm s evs Hreach)).
Qed.

Lemma fixed_bucket_is_weaker_witness :
  ∃ s evs,
    execution demo_cfg 0 demo_acts = Some (s, evs) ∧
    0 < rpm demo_cfg ∧
    Z.of_nat (length (starts_in_window 60110 (start_times evs))) ≤ rpm demo_cfg.
Proof.
  destruct (execution demo_cfg 0 demo_acts) as [[s evs]|] eqn:Hexec;
    [|by vm_compute in Hexec].
  pose proof (execution_reach _ _ _ _ _ Hexec) as Hreach.
  assert (Hrpm : 0 < rpm demo_cfg) by (vm_compute; reflexivity).
  exists s, evs. split; [reflexivity|]. split; [exact Hrpm|].
  exact (proj2 fixed_bucket_is_weaker demo_cfg s evs 60110 Hrpm Hreach).
Defined.

(** ** The sample run, checked against the theorems *)

Lemma results_index_aligned_witness :
  ∃ s evs res,
    execution demo_cfg 0 demo_acts = Some (s, evs) ∧
    main s = Returned res ∧
    res = [Some (JNum 1); Some (JObj [("error"%string, JStr "boom")]);
           Some (JNum 3)] ∧
    length res = length (fnArgs demo_cfg) ∧
    NoDup (writes evs).*1 ∧
    (∀ i a, fnArgs demo_cfg !! i = Some a →
       match a with
       | JArr args =>
           ∃ o t t0, EvStart i args t0 ∈ evs ∧ EvSettle i args o t ∈ evs ∧
                     match o with
                     | Resolved v => res !! i = Some (Some v)
                     | Rejected e =>
                         res !! i = Some (Some (JObj [("error"%string, e)]))
                     end
       | _ => res !! i = Some (Some (JObj [("error"%string, bad_args_error)]))
       end) ∧
    (fnArgs demo_cfg = [] →
     ∀ now, ∃ s0, rpmControlledBatch demo_cfg now = (s0, [EvReturn now]) ∧
                  main s0 = Returned []).
Proof.
  destruct (execution demo_cfg 0 demo_acts) as [[s evs]|] eqn:Hexec;
    [|by vm_compute in Hexec].
  pose proof (execution_reach _ _ _ _ _ Hexec) as Hreach.
  vm_compute in Hexec. injection Hexec as <- <-.
  eexists _, _, _. split; [reflexivity|]. split; [reflexivity|].
  split; [reflexivity|].
  exact (results_index_aligned demo_cfg _ _ _ Hreach eq_refl).
Defined.

Lemma sliding_window_rate_bound_witness :
  ∃ s evs,
    execution demo_cfg 0 demo_acts = Some (s, evs) ∧
    0 < rpm demo_cfg ∧
    Z.of_nat (length (starts_in_window 60110 (start_times evs))) ≤ rpm demo_cfg.
Proof.
  destruct (execution demo_cfg 0 demo_acts) as [[s evs]|] eqn:Hexec;
    [|by vm_compute in Hexec].
  pose proof (execution_reach _ _ _ _ _ Hexec) as Hreach.
  assert (Hrpm : 0 < rpm demo_cfg) by (vm_compute; reflexivity).
  exists s, evs. split; [reflexivity|]. split; [exact Hrpm|].
  exact (sliding_window_rate_bound demo_cfg s evs 60110 Hrpm Hreach).
Defined.

Lemma activeTaskCount_bounded_witness :
  ∃ s evs,
    execution demo_cfg 0 demo_prefix = Some (s, evs) ∧
    0 < maxConcurrent demo_cfg ∧
    0 ≤ activeTaskCount s ≤ maxConcurrent demo_cfg ∧
    activeTaskCount s = Z.of_nat (length (inflight (pool s))) ∧
    activeTaskCount s = counter_after 0 evs ∧
    admitted_below (maxConcurrent demo_cfg) 0 evs ∧
    NoDup (writes evs).*1.
Proof.
  destruct (execution demo_cfg 0 demo_prefix) as [[s evs]|] eqn:Hexec;
    [|by vm_compute in Hexec].
  pose proof (execution_reach _ _ _ _ _ Hexec) as Hreach.
  assert (Hmax : 0 < maxConcurrent demo_cfg) by (vm_compute; reflexivity).
  exists s, evs. split; [reflexivity|]. split; [exact Hmax|].
  exact (activeTaskCount_bounded demo_cfg s evs Hmax Hreach).
Defined.

Lemma nullish_rejection_ends_the_batch_witness :
  ∃ s evs s1 evs1,
    execution demo_cfg 0 demo_prefix = Some (s, evs) ∧
    pool s !! 0%nat = Some (PRunning 1 [JStr "b"]) ∧
    step demo_cfg (Settle 0 (Rejected JUndefined)) s = Some (s1, evs1) ∧
    taskQueue s1 = [2%nat] ∧
    results s1 = [Some (JNum 1); Some (JObj [("error"%string, JUndefined)]); None] ∧
    evs1 = [EvSettle 1 [JStr "b"] (Rejected JUndefined) 10; EvUnhandled 1 10] ∧
    main s1 = Crashed ∧
    (∀ a, step demo_cfg a s1 = None) ∧
    (∀ acts s2 evs2,
       run demo_cfg acts s1 = Some (s2, evs2) →
       acts = [] ∧ s2 = s1 ∧ evs2 = [] ∧ ∀ res, main s2 ≠ Returned res).
Proof.
  destruct (execution demo_cfg 0 demo_prefix) as [[s evs]|] eqn:Hexec;
    [|by vm_compute in Hexec].
  pose proof (execution_reach _ _ _ _ _ Hexec) as Hreach.
  vm_compute in Hexec. injection Hexec as <- <-.
  eexists _, _, _, _. split; [reflexivity|]. split; [reflexivity|].
  split; [vm_compute; reflexivity|].
  split; [reflexivity|]. split; [reflexivity|].
  pose proof (nullish_rejection_ends_the_batch demo_cfg _ _ 0 1 [JStr "b"]
                JUndefined _ _ Hreach eq_refl (or_introl eq_refl) eq_refl)
    as (_ & Hevs & Hmain & _ & _ & _ & Hstuck & Hfinal).
  split; [exact Hevs|]. split; [exact Hmain|]. split; [exact Hstuck|exact Hfinal].
Defined.

(** * Further properties of the dispatcher *)

(** ** The life of a task *)

Section Lifecycle.

Variable cfg : config.

Lemma admissions_app (evs1 evs2 : list event) :
  admissions (evs1 ++ evs2) = admissions evs1 ++ admissions evs2.
Proof. apply omap_app. Qed.

Lemma calls_app (evs1 evs2 : list event) :
  calls (evs1 ++ evs2) = calls evs1 ++ calls evs2.
Proof. apply omap_app. Qed.

Lemma admissions_admits (t : Z) (l : list nat) :
  admissions ((λ i, EvAdmit i t) <$> l) = l.
Proof. induction l as [|i l IH]; [done|]. cbn. by f_equal. Qed.

Lemma calls_admits (t : Z) (l : list nat) :
  calls ((λ i, EvAdmit i t) <$> l) = [].
Proof. induction l; [done|]. by cbn. Qed.

Lemma elem_of_calls (evs : list event) (i : nat) :
  i ∈ calls evs ↔ ∃ args t, EvStart i args t ∈ evs.
Proof.
  unfold calls. rewrite list_elem_of_omap. split.
  - intros (ev & Hin & Hev). destruct ev; try done. inversion Hev; subst. eauto.
  - intros (args & t & Hin). by exists (EvStart i args t).
Qed.

Lemma omap_quiet {A B} (f : A → option B) (l : list A) :
  (∀ x, x ∈ l → f x = None) → omap f l = [].
Proof.
  induction l as [|x l IH]; intros Hl; [done|]. cbn.
  rewrite (Hl x) by apply list_elem_of_here. apply IH.
  intros y Hy. apply Hl. by apply list_elem_of_further.
Qed.

(** Two continuations of one task in a pool without duplicates are the
    same continuation. *)
Lemma inflight_unique (pl : list pending) (p q : pending) (i : nat) :
  NoDup (inflight pl) → p ∈ pl → q ∈ pl →
  inflight_task p = Some i → inflight_task q = Some i → p = q.
Proof.
  intros Hnd Hp Hq Hpi Hqi.
  apply list_elem_of_lookup in Hp as [a Ha].
  apply list_elem_of_lookup in Hq as [b Hb].
  destruct (decide (a = b)) as [->|Hne]; [congruence|].
  exfalso.
  pose proof (inflight_take_task pl a p i Ha Hpi) as Hperm.
  rewrite Hperm in Hnd. apply NoDup_cons in Hnd as [Hfresh _].
  apply Hfresh. unfold inflight. apply list_elem_of_omap. exists q. split; [|done].
  apply list_elem_of_lookup.
  destruct (decide (b < a)%nat).
  - exists b. by rewrite list_lookup_delete_lt.
  - exists (pred b). rewrite list_lookup_delete_ge by lia.
    by replace (S (pred b)) with b by lia.
Qed.

Lemma elem_of_delete_other (pl : list pending) (k : nat) (p q : pending) :
  pl !! k = Some p → q ∈ pl → q ≠ p → q ∈ delete k pl.
Proof.
  intros Hk Hq Hne. apply list_elem_of_lookup in Hq as [b Hb].
  assert (b ≠ k) by congruence.
  apply list_elem_of_lookup. destruct (decide (b < k)%nat).
  - exists b. by rewrite list_lookup_delete_lt.
  - exists (pred b). rewrite list_lookup_delete_ge by lia.
    by replace (S (pred b)) with b by lia.
Qed.

(** Appending events that hold no settlement before a call. *)
Lemma never_called_again_app (evs evs' : list event) :
  never_called_again evs →
  never_called_again evs' →
  (∀ i args t, EvStart i args t ∈ evs' →
               ∀ args' o t', EvSettle i args' o t' ∉ evs) →
  never_called_again (evs ++ evs').
Proof.
  intros Hold Hnew Hfresh j k i args o t args' t' Hj Hk.
  apply lookup_app_Some in Hj as [Hj|[Hjl Hj]];
    apply lookup_app_Some in Hk as [Hk|[Hkl Hk]].
  - by eapply Hold.
  - exfalso. eapply Hfresh; by eapply list_elem_of_lookup_2.
  - apply lookup_lt_Some in Hk. lia.
  - pose proof (Hnew _ _ _ _ _ _ _ _ Hj Hk). lia.
Qed.

Lemma never_called_again_quiet (evs : list event) :
  calls evs = [] → never_called_again evs.
Proof.
  intros Hq j k i args o t args' t' _ Hk. exfalso.
  assert (i ∈ calls evs) as Hin.
  { apply elem_of_calls. eexists _, _. by eapply list_elem_of_lookup_2. }
  rewrite Hq in Hin. by apply elem_of_nil in Hin.
Qed.

(** A transition that neither admits nor calls. *)
Lemma lifecycle_quiet (s s' : state) (evs evs' : list event) :
  lifecycle cfg s evs →
  taskQueue s' = taskQueue s →
  admissions evs' = [] →
  calls evs' = [] →
  (∀ i args, PRunning i args ∈ pool s →
             PRunning i args ∈ pool s' ∨ ∃ v, results s' !! i = Some (Some v)) →
  (∀ i v, results s !! i = Some (Some v) → ∃ v', results s' !! i = Some (Some v')) →
  lifecycle cfg s' (evs ++ evs').
Proof.
  intros [Hfifo Honce Hargs Hprog Hfinal] Hq Hadm Hcalls Hpool Hres.
  assert (Hnone : ∀ i args t, EvStart i args t ∉ evs').
  { intros i args t Hin.
    assert (i ∈ calls evs') as Hc by (apply elem_of_calls; eauto).
    rewrite Hcalls in Hc. by apply elem_of_nil in Hc. }
  split.
  - by rewrite admissions_app, Hadm, app_nil_r, Hq.
  - by rewrite calls_app, Hcalls, app_nil_r.
  - intros i args t [Hin|Hin]%elem_of_app; [by eapply Hargs|by apply Hnone in Hin].
  - rewrite calls_app, Hcalls, app_nil_r. intros i Hi.
    destruct (Hprog i Hi) as [[args Hrun]|[v Hv]].
    + destruct (Hpool _ _ Hrun) as [?|?]; [left; by eexists|by right].
    + right. by eapply Hres.
  - apply never_called_again_app; [done|by apply never_called_again_quiet|].
    intros i args t Hin. by apply Hnone in Hin.
Qed.

Lemma lifecycle_blank (now : Z) : lifecycle cfg (blank cfg now) [].
Proof.
  split; cbn; try done.
  - apply NoDup_nil_2.
  - by intros i args t ?%elem_of_nil.
  - by intros i ?%elem_of_nil.
Qed.

Lemma lifecycle_processQueue (s s' : state) (evs evs' : list event) :
  processingQueue s = false →
  lifecycle cfg s evs → processQueue cfg s = (s', evs') →
  lifecycle cfg s' (evs ++ evs').
Proof.
  intros Hflag [Hfifo Honce Hargs Hprog Hfinal] Hpq.
  apply processQueue_spec in Hpq; [|done].
  destruct Hpq as (adm & timer & Hq & Hpool & _ & -> & _ & Hres & _).
  assert (Hnone : ∀ i args t, EvStart i args t ∉ (λ i, EvAdmit i (clock s)) <$> adm).
  { intros i args t Hin. by apply list_elem_of_fmap in Hin as (j & [=] & _). }
  split.
  - by rewrite admissions_app, admissions_admits, <- app_assoc, <- Hq.
  - by rewrite calls_app, calls_admits, app_nil_r.
  - intros i args t [Hin|Hin]%elem_of_app; [by eapply Hargs|by apply Hnone in Hin].
  - rewrite calls_app, calls_admits, app_nil_r. intros i Hi.
    destruct (Hprog i Hi) as [[args Hrun]|[v Hv]].
    + left. exists args. rewrite Hpool. apply elem_of_app. by left.
    + right. exists v. by rewrite Hres.
  - apply never_called_again_app;
      [done|apply never_called_again_quiet, calls_admits|].
    intros i args t Hin. by apply Hnone in Hin.
Qed.

(** [executeTask] at the slot: the continuation [p] of task [i], taken
    from the pool, either goes back to sleep or makes the call. *)
Lemma lifecycle_acquire (s s' : state) (k : nat) (p : pending) (i : nat)
    (args : list jsval) (evs evs' : list event) :
  wf cfg s → accounted cfg s evs → lifecycle cfg s evs →
  pool s !! k = Some p → inflight_task p = Some i →
  (∀ args', p ≠ PRunning i args') →
  fnArgs cfg !! i = Some (JArr args) →
  executeTask_acquire cfg i args (take_pending k s) = (s', evs') →
  lifecycle cfg s' (evs ++ evs').
Proof.
  intros Hwf Hacc Hlc Hk Hp Hnot Hfn Hacq.
  assert (Hkeep : ∀ j a, PRunning j a ∈ pool s → PRunning j a ∈ delete k (pool s)).
  { intros j a Hin. eapply elem_of_delete_other; [done..|].
    intros <-. cbn in Hp. inversion Hp; subst. by eapply Hnot. }
  apply executeTask_acquire_spec in Hacq as (_ & Hq & Hres & _ & _ & _ & Hcases).
  destruct Hcases as [(z & _ & _ & Hpool & ->)|(_ & Hpool & -> & _)].
  - apply (lifecycle_quiet s); try done.
    + intros j a Hin. left. rewrite Hpool. apply elem_of_app. left. by apply Hkeep.
    + intros j v Hv. exists v. by rewrite Hres.
  - destruct Hlc as [Hfifo Honce Hargs Hprog Hfinal].
    assert (Hin : p ∈ pool s) by by eapply list_elem_of_lookup_2.
    assert (Hunset : results s !! i = Some None).
    { apply (wf_unsettled _ _ Hwf), elem_of_app. right.
      unfold inflight. apply list_elem_of_omap. by exists p. }
    assert (Hfresh : i ∉ calls evs).
    { intros Hi. destruct (Hprog i Hi) as [[a Hrun]|[v Hv]]; [|congruence].
      apply (Hnot a). eapply (inflight_unique (pool s)); try done.
      pose proof (wf_nodup _ _ Hwf) as Hnd. by apply NoDup_app in Hnd as (_ & _ & ?). }
    split.
    + rewrite admissions_app. cbn. by rewrite app_nil_r, Hq.
    + rewrite calls_app. cbn. apply NoDup_app. split_and!; [done| |apply NoDup_singleton].
      intros j Hj ->%list_elem_of_singleton. done.
    + intros j a t [Hj|Hj]%elem_of_app; [by eapply Hargs|].
      apply list_elem_of_singleton in Hj. by inversion Hj; subst.
    + rewrite calls_app. cbn. intros j [Hj|Hj]%elem_of_app.
      * destruct (Hprog j Hj) as [[a Hrun]|[v Hv]].
        -- left. exists a. rewrite Hpool. apply elem_of_app. left. by apply Hkeep.
        -- right. exists v. by rewrite Hres.
      * apply list_elem_of_singleton in Hj as ->. left. exists args.
        rewrite Hpool. apply elem_of_app. right. by apply list_elem_of_singleton.
    + apply never_called_again_app; [done| |].
      * intros a b j' a' o t a'' t' Ha. by destruct a as [|[|a]].
      * intros j a t Hj%list_elem_of_singleton a' o t' Hset.
        inversion Hj; subst.
        assert ((i, stored o) ∈ writes evs) as Hw.
        { apply elem_of_writes. left. by eexists _, _, _. }
        apply (acc_results _ _ _ Hacc) in Hw. cbn in Hres. congruence.
Qed.

(** A transition that writes the result of the task whose continuation
    it took from the pool. *)
Lemma lifecycle_complete (s s' : state) (k : nat) (p : pending) (i : nat)
    (v : jsval) (evs evs' : list event) :
  wf cfg s → lifecycle cfg s evs →
  pool s !! k = Some p → inflight_task p = Some i →
  taskQueue s' = taskQueue s →
  results s' = <[i := Some v]> (results s) →
  pool s' = delete k (pool s) ++ [PProcessQueue (clock s + 50)] →
  admissions evs' = [] → calls evs' = [] →
  lifecycle cfg s' (evs ++ evs').
Proof.
  intros Hwf Hlc Hk Hp Hq Hres Hpool Hadm Hcalls.
  assert (Hin : p ∈ pool s) by by eapply list_elem_of_lookup_2.
  assert (Hi : (i < length (results s))%nat).
  { eapply lookup_lt_Some, (wf_unsettled _ _ Hwf), elem_of_app. right.
    unfold inflight. apply list_elem_of_omap. by exists p. }
  apply (lifecycle_quiet s); try done.
  - intros j a Hrun. destruct (decide (j = i)) as [->|Hne].
    + right. exists v. by rewrite Hres, list_lookup_insert_eq.
    + left. rewrite Hpool. apply elem_of_app. left.
      eapply elem_of_delete_other; [done..|]. intros <-. cbn in Hp. congruence.
  - intros j w Hw. rewrite Hres. destruct (decide (i = j)) as [<-|Hne].
    + exists v. by rewrite list_lookup_insert_eq.
    + exists w. by rewrite list_lookup_insert_ne.
Qed.

Lemma lifecycle_poll (s s' : state) (evs evs' : list event) :
  lifecycle cfg s evs → poll s = (s', evs') → lifecycle cfg s' (evs ++ evs').
Proof.
  intros Hlc Hpoll.
  apply poll_spec in Hpoll as (_ & Hq & Hres & _ & _ & Hpool & _ & _ & _ & Hev).
  apply (lifecycle_quiet s); try done.
  - by destruct Hev as [(due & _ & ->)|(_ & -> & _)].
  - by destruct Hev as [(due & _ & ->)|(_ & -> & _)].
  - intros i args Hin. left. by rewrite Hpool.
  - intros i v Hv. exists v. by rewrite Hres.
Qed.

Lemma lifecycle_take_timer (s : state) (k : nat) (due : Z) (evs : list event) :
  pool s !! k = Some (PProcessQueue due) →
  lifecycle cfg s evs → lifecycle cfg (take_pending k s) evs.
Proof.
  intros Hk [Hfifo Honce Hargs Hprog Hfinal]. split; try done.
  intros i Hi. destruct (Hprog i Hi) as [[a Hrun]|?]; [left|by right].
  exists a. cbn. by eapply elem_of_delete_other.
Qed.

Lemma lifecycle_step (a : action) (s s' : state) (evs evs' : list event) :
  wf cfg s → accounted cfg s evs → lifecycle cfg s evs →
  step cfg a s = Some (s', evs') →
  lifecycle cfg s' (evs ++ evs').
Proof.
  intros Hwf Hacc Hlc Hstep. apply step_turn in Hstep as [_ Hstep].
  destruct a as [d|k|k o|]; cbn in Hstep.
  - destruct (0 <? d); [|done]. inversion Hstep; subst.
    apply (lifecycle_quiet s); try done; [by left|by eexists].
  - destruct (pool s !! k) as [[due|i|i args due|i args|i]|] eqn:Hk; try done.
    + destruct (due <=? clock s); [|done]. inversion Hstep as [Hpq]. clear Hstep.
      apply (lifecycle_processQueue (take_pending k s)); [apply Hwf| |done].
      by eapply lifecycle_take_timer.
    + inversion Hstep as [Hex]. clear Hstep.
      pose proof (pending_inflight _ _ (PExecute i) i Hk eq_refl) as Hinf.
      assert (Hi : (i < length (fnArgs cfg))%nat) by by eapply wf_in_range.
      apply executeTask_spec in Hex
        as [(args & Hargs & Hacq)|[(v & Hv & [Hnot _] & -> & ->)|(v & Hv & _ & -> & ->)]];
        [| | |done].
      * by eapply (lifecycle_acquire s _ k (PExecute i) i args).
      * by eapply (lifecycle_complete s _ k (PExecute i) i).
      * apply (lifecycle_quiet s); try done.
        -- intros j a Hin. left. cbn. apply elem_of_app. left.
           by eapply (elem_of_delete_other _ _ (PExecute i)).
        -- intros j w Hw. by exists w.
    + destruct (due <=? clock s); [|done]. inversion Hstep as [Hacq]. clear Hstep.
      eapply (lifecycle_acquire s _ k (PWaiting i args due) i args); try done.
      apply (wf_args _ _ Hwf (PWaiting i args due)). by eapply list_elem_of_lookup_2.
  - destruct (pool s !! k) as [[due|i|i args due|i args|i]|] eqn:Hk; try done.
    inversion Hstep as [Hset]. clear Hstep.
    apply executeTask_settle_spec in Hset
      as (_ & Hq & Hres & _ & _ & _ & Hpool & _ & _ & Hevs & _).
    cbn in *.
    eapply (lifecycle_complete s _ k (PRunning i args) i); try done.
    + apply omap_quiet. intros ev Hev.
      by apply Hevs in Hev as [->|[->|[? ->]]].
    + apply omap_quiet. intros ev Hev.
      by apply Hevs in Hev as [->|[->|[? ->]]].
  - destruct (main s) as [due|res|]; [|done..].
    destruct (due <=? clock s); [|done]. inversion Hstep as [Hpoll].
    by apply (lifecycle_poll s).
Qed.

Lemma reach_lifecycle (s : state) (evs : list event) :
  reach cfg s evs → lifecycle cfg s evs.
Proof.
  induction 1 as [now s evs Hcall|s evs a s' evs' Hreach IH Hstep].
  - unfold rpmControlledBatch in Hcall.
    destruct (processQueue cfg (blank cfg now)) as [s1 evs1] eqn:Hpq.
    destruct (poll s1) as [s2 evs2] eqn:Hpoll. inversion Hcall; subst.
    apply (lifecycle_poll s1); [|done].
    apply (lifecycle_processQueue (blank cfg now) _ []); [done| |done].
    apply lifecycle_blank.
  - eapply lifecycle_step; [| |done..]; [by eapply reach_wf|by eapply reach_accounted].
Qed.

End Lifecycle.

(** ** A cooldown follows the failure that asks for it *)

Section Announced.

Variable cfg : config.

Lemma throttle_announced_app (evs evs' : list event) :
  throttle_announced evs → throttle_announced evs' →
  throttle_announced (evs ++ evs').
Proof.
  intros Hold Hnew j i args e T D Hj HD.
  apply lookup_app_Some in Hj as [Hj|[Hjl Hj]].
  - apply lookup_app_l_Some. by eapply Hold.
  - rewrite lookup_app_r by lia.
    replace (S j - length evs)%nat with (S (j - length evs)) by lia.
    by eapply Hnew.
Qed.

Lemma throttle_announced_quiet (evs : list event) :
  writes evs = [] → throttle_announced evs.
Proof.
  intros Hq j i args e T D Hj _. exfalso.
  assert ((i, stored (Rejected e)) ∈ writes evs) as Hin.
  { apply elem_of_writes. left. eexists _, _, _. split; [|done].
    by eapply list_elem_of_lookup_2. }
  rewrite Hq in Hin. by apply elem_of_nil in Hin.
Qed.

Lemma throttle_announced_settle (i : nat) (args : list jsval) (o : outcome)
    (s s' : state) (evs : list event) :
  executeTask_settle cfg i args o s = (s', evs) → throttle_announced evs.
Proof.
  unfold executeTask_settle. intros Heq j i' args' e T D Hj HD.
  destruct o as [v|e0].
  { inversion Heq; subst. by destruct j as [|[|j]]. }
  destruct (throttle_of e0) eqn:Hth; inversion Heq; subst;
    destruct j as [|[|[|j]]]; try done;
    cbn in Hj; inversion Hj; subst; rewrite Hth in HD; cbn in HD |- *; congruence.
Qed.

Lemma throttle_announced_step (a : action) (s s' : state) (evs evs' : list event) :
  wf cfg s → throttle_announced evs → step cfg a s = Some (s', evs') →
  throttle_announced (evs ++ evs').
Proof.
  intros Hwf Hold Hstep. apply throttle_announced_app; [done|].
  apply step_turn in Hstep as [_ Hstep].
  destruct a as [d|k|k o|]; cbn in Hstep.
  - destruct (0 <? d); [|done]. by inversion Hstep.
  - destruct (pool s !! k) as [[due|i|i args due|i args|i]|] eqn:Hk; try done.
    + destruct (due <=? clock s); [|done]. inversion Hstep as [Hpq]. clear Hstep.
      apply processQueue_spec in Hpq; [|apply Hwf].
      destruct Hpq as (adm & timer & _ & _ & _ & -> & _).
      apply throttle_announced_quiet, writes_admits.
    + inversion Hstep as [Hex]. clear Hstep.
      pose proof (pending_inflight _ _ (PExecute i) i Hk eq_refl) as Hinf.
      assert (Hi : (i < length (fnArgs cfg))%nat) by by eapply wf_in_range.
      apply executeTask_spec in Hex
        as [(args & Hargs & Hacq)|[(v & Hv & [Hnot _] & -> & ->)|(v & Hv & _ & -> & ->)]];
        [| | |done].
      * apply executeTask_acquire_spec in Hacq as (_ & _ & _ & _ & _ & _ & Hcases).
        destruct Hcases as [(z & _ & _ & _ & ->)|(_ & _ & -> & _)];
          by apply throttle_announced_quiet.
      * intros j i' args' e T D Hj. by destruct j as [|j].
      * intros j i' args' e T D Hj. by destruct j as [|j].
    + destruct (due <=? clock s); [|done]. inversion Hstep as [Hacq]. clear Hstep.
      apply executeTask_acquire_spec in Hacq as (_ & _ & _ & _ & _ & _ & Hcases).
      destruct Hcases as [(z & _ & _ & _ & ->)|(_ & _ & -> & _)];
        by apply throttle_announced_quiet.
  - destruct (pool s !! k) as [[due|i|i args due|i args|i]|] eqn:Hk; try done.
    inversion Hstep as [Hset]. by eapply throttle_announced_settle.
  - destruct (main s) as [due|res|]; [|done..].
    destruct (due <=? clock s); [|done]. inversion Hstep as [Hpoll].
    apply poll_spec in Hpoll as (_ & _ & _ & _ & _ & _ & _ & Hw & _).
    by apply throttle_announced_quiet.
Qed.

Lemma reach_throttle_announced (s : state) (evs : list event) :
  reach cfg s evs → throttle_announced evs.
Proof.
  induction 1 as [now s evs Hcall|s evs a s' evs' Hreach IH Hstep].
  - unfold rpmControlledBatch in Hcall.
    destruct (processQueue cfg (blank cfg now)) as [s1 evs1] eqn:Hpq.
    destruct (poll s1) as [s2 evs2] eqn:Hpoll. inversion Hcall; subst.
    apply processQueue_spec in Hpq; [|done].
    destruct Hpq as (adm & timer & _ & _ & _ & -> & _).
    apply poll_spec in Hpoll as (_ & _ & _ & _ & _ & _ & _ & Hw & _).
    apply throttle_announced_quiet. by rewrite writes_app, writes_admits, Hw.
  - eapply throttle_announced_step; [|done..]. by eapply reach_wf.
Qed.

End Announced.

(** X1.  When a call fails at time [T] with an error from which the
    [catch] block reads a cooldown of [D] milliseconds (the delay of a
    [RetryInfo], or the default of 30 s when reading it raises), no call
    of [asyncFn] is made after that failure before [T + D]. *)
Theorem no_call_during_cooldown (cfg : config) (s : state) (evs : list event)
    (j k i i' : nat) (args args' : list jsval) (e : jsval) (T D t : Z) :
  0 < rpm cfg →
  reach cfg s evs →
  evs !! j = Some (EvSettle i args (Rejected e) T) →
  cooldown_ms (throttle_of e) = Some D →
  evs !! k = Some (EvStart i' args' t) →
  (j < k)%nat →
  T + D ≤ t.
Proof.
  intros Hrpm Hreach Hj HD Hk Hjk.
  pose proof (reach_throttle_announced cfg s evs Hreach _ _ _ _ _ _ Hj HD) as Hth.
  assert (k ≠ S j) by congruence.
  eapply (cooldown_blocks_starts cfg Hrpm s evs Hreach (S j) k); [done..|lia].
Qed.

Lemma no_call_during_cooldown_witness :
  ∃ s evs,
    execution quota_cfg 0 cooldown_acts = Some (s, evs) ∧
    evs !! 2%nat = Some (EvSettle 0 [JStr "a"] (Rejected retry_info_error) 10) ∧
    evs !! 5%nat = Some (EvStart 1 [JStr "b"] 38110) ∧
    10 + 38000 ≤ 38110.
Proof.
  destruct (execution quota_cfg 0 cooldown_acts) as [[s evs]|] eqn:Hexec;
    [|by vm_compute in Hexec].
  pose proof (execution_reach _ _ _ _ _ Hexec) as Hreach.
  vm_compute in Hexec. injection Hexec as <- <-.
  assert (Hrpm : 0 < rpm quota_cfg) by (vm_compute; reflexivity).
  eexists _, _. split; [reflexivity|]. split; [reflexivity|]. split; [reflexivity|].
  exact (no_call_during_cooldown quota_cfg _ _ 2 5 0 1 [JStr "a"] [JStr "b"]
           retry_info_error 10 38000 38110 Hrpm Hreach eq_refl eq_refl eq_refl
           ltac:(lia)).
Defined.

(** X2.  The queue is served first in, first out: at every moment the
    indices admitted so far, in the order of their admission, followed by
    the indices still queued, are [0, 1, ..., fnArgs.length - 1]. *)
Theorem tasks_are_admitted_in_order (cfg : config) (s : state) (evs : list event) :
  reach cfg s evs →
  admissions evs ++ taskQueue s = seq 0 (length (fnArgs cfg)).
Proof. intros Hreach. apply (lc_fifo cfg s evs), reach_lifecycle, Hreach. Qed.

Lemma tasks_are_admitted_in_order_witness :
  ∃ s evs,
    execution demo_cfg 0 demo_prefix = Some (s, evs) ∧
    admissions evs = [0; 1]%nat ∧ taskQueue s = [2%nat] ∧
    admissions evs ++ taskQueue s = seq 0 (length (fnArgs demo_cfg)).
Proof.
  destruct (execution demo_cfg 0 demo_prefix) as [[s evs]|] eqn:Hexec;
    [|by vm_compute in Hexec].
  pose proof (execution_reach _ _ _ _ _ Hexec) as Hreach.
  vm_compute in Hexec. injection Hexec as <- <-.
  eexists _, _. split; [reflexivity|]. split; [reflexivity|]. split; [reflexivity|].
  exact (tasks_are_admitted_in_order demo_cfg _ _ Hreach).
Defined.

(** X3.  [asyncFn] is called at most once for a task, and only with the
    argument array [fnArgs[i]] of that task (never for an entry that is
    not an array); once the call made for a task has settled, whether it
    resolved, failed or was throttled, no further call is made for that
    task: nothing is retried.  The calls made so far are therefore no
    more than the tasks of the batch. *)
Theorem asyncFn_is_called_at_most_once_per_task (cfg : config) (s : state)
    (evs : list event) :
  reach cfg s evs →
  NoDup (calls evs) ∧
  (∀ i args t, EvStart i args t ∈ evs → fnArgs cfg !! i = Some (JArr args)) ∧
  (∀ j k i args o t args' t',
     evs !! j = Some (EvSettle i args o t) →
     evs !! k = Some (EvStart i args' t') →
     (k < j)%nat) ∧
  (length (calls evs) ≤ length (fnArgs cfg))%nat.
Proof.
  intros Hreach.
  destruct (reach_lifecycle cfg s evs Hreach) as [_ Honce Hargs _ Hfinal].
  split_and!; [done..|].
  replace (length (fnArgs cfg)) with (length (seq 0 (length (fnArgs cfg))))
    by by rewrite length_seq.
  apply submseteq_length, NoDup_submseteq; [done|].
  intros i (args & t & Hin)%elem_of_calls. apply elem_of_seq.
  apply Hargs, lookup_lt_Some in Hin. lia.
Qed.

Lemma asyncFn_is_called_at_most_once_per_task_witness :
  ∃ s evs,
    execution demo_cfg 0 demo_acts = Some (s, evs) ∧
    calls evs = [0; 1; 2]%nat ∧
    NoDup (calls evs) ∧
    (∀ i args t, EvStart i args t ∈ evs → fnArgs demo_cfg !! i = Some (JArr args)) ∧
    (∀ j k i args o t args' t',
       evs !! j = Some (EvSettle i args o t) →
       evs !! k = Some (EvStart i args' t') →
       (k < j)%nat) ∧
    (length (calls evs) ≤ length (fnArgs demo_cfg))%nat.
Proof.
  destruct (execution demo_cfg 0 demo_acts) as [[s evs]|] eqn:Hexec;
    [|by vm_compute in Hexec].
  pose proof (execution_reach _ _ _ _ _ Hexec) as Hreach.
  vm_compute in Hexec. injection Hexec as <- <-.
  eexists _, _. split; [reflexivity|]. split; [reflexivity|].
  exact (asyncFn_is_called_at_most_once_per_task demo_cfg _ _ Hreach).
Defined.

(** ** No room for any task *)

Section NoRoom.

Variable cfg : config.
Hypothesis no_room : maxConcurrent cfg ≤ 0.
Hypothesis some_tasks : fnArgs cfg ≠ [].

Lemma processQueue_no_room (s : state) :
  activeTaskCount s = 0 → processingQueue s = false →
  processQueue cfg s = (s, []).
Proof.
  intros Hact Hflag. unfold processQueue. rewrite Hflag.
  destruct (length (taskQueue s)) as [|n]; cbn.
  - destruct s; cbn in *. by subst.
  - rewrite Hact. destruct (Z.ltb_spec 0 (maxConcurrent cfg)) as [?|_]; [lia|].
    cbn. destruct s; cbn in *. by subst.
Qed.

Lemma poll_no_room (s : state) :
  activeTaskCount s = 0 → taskQueue s = seq 0 (length (fnArgs cfg)) →
  poll s = (set_main (Polling (clock s + 100)) s, []).
Proof.
  intros Hact Hq. unfold poll. rewrite Hact, Hq, length_seq.
  destruct (fnArgs cfg) as [|a l]; [done|]. cbn [length].
  by destruct (Z.ltb_spec 0 (Z.of_nat (S (length l)))) as [_|?]; [|lia].
Qed.

Lemma idle_step (a : action) (s s' : state) (evs evs' : list event) :
  idle cfg s evs → step cfg a s = Some (s', evs') → idle cfg s' (evs ++ evs').
Proof.
  intros [Hq Hact Hflag Hpool Hres -> Hmain] Hstep.
  apply step_turn in Hstep as [_ Hstep].
  destruct a as [d|k|k o|]; cbn [turn] in Hstep.
  - destruct (0 <? d); [|done]. inversion Hstep; subst. by split.
  - destruct (pool s !! k) as [p|] eqn:Hk; [|done].
    destruct (Hpool p) as [due ->]; [by eapply list_elem_of_lookup_2|].
    destruct (due <=? clock s); [|done].
    rewrite processQueue_no_room in Hstep by done.
    inversion Hstep; subst. split; try done.
    intros p Hp. cbn in Hp. apply Hpool. by eapply elem_of_delete_pool.
  - destruct (pool s !! k) as [p|] eqn:Hk; [|done].
    destruct (Hpool p) as [due ->]; [by eapply list_elem_of_lookup_2|]. done.
  - destruct Hmain as [due Hmain]. rewrite Hmain in Hstep.
    destruct (due <=? clock s); [|done].
    rewrite poll_no_room in Hstep by done.
    inversion Hstep; subst. split; try done. by eexists.
Qed.

Lemma reach_idle (s : state) (evs : list event) : reach cfg s evs → idle cfg s evs.
Proof.
  induction 1 as [now s evs Hcall|s evs a s' evs' Hreach IH Hstep].
  - unfold rpmControlledBatch in Hcall.
    rewrite processQueue_no_room in Hcall by done.
    rewrite poll_no_room in Hcall by done.
    inversion Hcall; subst. split; try done.
    + by intros p ?%elem_of_nil.
    + by eexists.
  - by eapply idle_step.
Qed.

End NoRoom.

(** X4.  A [maxConcurrent] below zero is used as it is, and then the
    loop of [processQueue] never finds room: whatever happens, no task of
    a batch that is not empty is ever admitted or called, no entry of
    [results] is written, and the call keeps polling: it never
    returns. *)
Theorem no_room_never_returns (cfg : config) (s : state) (evs : list event) :
  maxConcurrent cfg ≤ 0 →
  fnArgs cfg ≠ [] →
  reach cfg s evs →
  evs = [] ∧
  taskQueue s = seq 0 (length (fnArgs cfg)) ∧
  results s = replicate (length (fnArgs cfg)) None ∧
  ∃ due, main s = Polling due.
Proof.
  intros Hmax Hargs Hreach.
  by destruct (reach_idle cfg Hmax Hargs s evs Hreach) as [? ? ? ? ? ? ?].
Qed.

Lemma no_room_never_returns_witness :
  ∃ s evs,
    execution (configure no_room_options [JArr [JStr "a"]]) 0 no_room_acts
      = Some (s, evs) ∧
    clock s = 100200 ∧
    evs = [] ∧
    taskQueue s = seq 0 1 ∧
    results s = replicate 1 None ∧
    ∃ due, main s = Polling due.
Proof.
  destruct (execution (configure no_room_options [JArr [JStr "a"]]) 0 no_room_acts)
    as [[s evs]|] eqn:Hexec; [|by vm_compute in Hexec].
  pose proof (execution_reach _ _ _ _ _ Hexec) as Hreach.
  vm_compute in Hexec. injection Hexec as <- <-.
  eexists _, _. split; [reflexivity|]. split; [reflexivity|].
  exact (no_room_never_returns (configure no_room_options [JArr [JStr "a"]]) _ _
           ltac:(vm_compute; discriminate) ltac:(discriminate) Hreach).
Defined.

(** ** The advised wait *)

Lemma prune_all (now : Z) (ts : list Z) :
  (∀ t, t ∈ ts → now - t < windowDuration) → prune now ts = ts.
Proof.
  unfold prune. induction ts as [|t ts IH]; intros Hall; [done|].
  rewrite filter_cons. case_decide as Hd.
  - f_equal. apply IH. intros u Hu. apply Hall. by apply list_elem_of_further.
  - exfalso. apply Hd, Hall, list_elem_of_here.
Qed.

(** X5.  The window is kept in time order, so that its first timestamp
    is the oldest; the positive wait [getTimeUntilNextSlot] advises is
    therefore exact up to its margin of 100 ms: once it has elapsed at
    least one timestamp has left the window, and at no instant more than
    100 ms earlier has any. *)
Theorem advised_wait_is_earliest_release (cfg : config) (s : state)
    (evs : list event) (ts : list Z) (z : Z) :
  reach cfg s evs →
  getTimeUntilNextSlot (rpm cfg) (clock s) (requestTimestamps s) = (ts, Some z) →
  0 < z →
  Sorted Z.le (requestTimestamps s) ∧
  (length (prune (clock s + z) ts) < length ts)%nat ∧
  (∀ z', 0 ≤ z' → z' + 100 < z → prune (clock s + z') ts = ts).
Proof.
  intros Hreach Hget Hz.
  pose proof (reach_sorted cfg s evs Hreach) as Hsorted.
  split; [done|].
  pose proof (getTimeUntilNextSlot_pruned _ _ _ _ _ Hget) as ->.
  apply (prune_sorted (clock s)) in Hsorted.
  unfold getTimeUntilNextSlot in Hget.
  destruct (_ <? _); [injection Hget as Hw; lia|].
  destruct (prune (clock s) (requestTimestamps s)) as [|oldest rest] eqn:Hp; [done|].
  injection Hget as Hw.
  pose proof (sorted_head_le _ _ Hsorted) as Hmin.
  unfold windowDuration in *. split.
  - unfold prune. rewrite filter_cons. unfold windowDuration. case_decide; [lia|].
    cbn. apply Nat.lt_succ_r, length_filter.
  - intros z' Hz' Hearly. apply prune_all. intros t Ht%Hmin.
    unfold windowDuration. lia.
Qed.

Lemma advised_wait_is_earliest_release_witness :
  ∃ s evs,
    execution demo_cfg 0 demo_prefix = Some (s, evs) ∧
    clock s = 10 ∧
    getTimeUntilNextSlot (rpm demo_cfg) 10 (requestTimestamps s)
      = ([0; 0], Some 60090) ∧
    Sorted Z.le (requestTimestamps s) ∧
    (length (prune (10 + 60090)%Z [0%Z; 0%Z]) < length [0%Z; 0%Z])%nat ∧
    (∀ z', 0 ≤ z' → z' + 100 < 60090 → prune (10 + z') [0; 0] = [0; 0]).
Proof.
  destruct (execution demo_cfg 0 demo_prefix) as [[s evs]|] eqn:Hexec;
    [|by vm_compute in Hexec].
  pose proof (execution_reach _ _ _ _ _ Hexec) as Hreach.
  vm_compute in Hexec. injection Hexec as <- <-.
  eexists _, _. split; [reflexivity|]. split; [reflexivity|].
  split; [vm_compute; reflexivity|].
  exact (advised_wait_is_earliest_release demo_cfg _ _ [0; 0] 60090 Hreach
           ltac:(vm_compute; reflexivity) ltac:(lia)).
Defined.

(** ** The rate bound for any [rpm] *)

Section AnyRpm.

Variable cfg : config.

(** A call is made only when the window has room, or when it is empty. *)
Lemma start_room (i : nat) (args : list jsval) (s s' : state) (evs : list event) :
  executeTask_acquire cfg i args s = (s', evs) →
  evs ≠ [] →
  Z.of_nat (length (prune (clock s) (requestTimestamps s))) < Z.max 1 (rpm cfg).
Proof.
  unfold executeTask_acquire, acquireRateLimitSlot, getTimeUntilNextSlot.
  destruct (Z.ltb_spec (Z.of_nat (length (prune (clock s) (requestTimestamps s))))
              (rpm cfg)) as [Hlt|Hge]; [intros _ _; lia|].
  destruct (prune (clock s) (requestTimestamps s)) as [|oldest rest] eqn:Hp;
    [intros _ _; cbn; lia|].
  assert (oldest ∈ prune (clock s) (requestTimestamps s)) as Hin
    by (rewrite Hp; apply list_elem_of_here).
  apply elem_of_prune in Hin as [Hin _]. unfold windowDuration in *.
  cbn [positive_wait].
  destruct (Z.ltb_spec 0 (0 `max` (oldest + 60 * 1000 - clock s + 100)))
    as [_|?]; [|lia].
  by intros [= <- <-].
Qed.

Lemma effective_processQueue (s s' : state) (evs evs' : list event) :
  processingQueue s = false →
  rated (effective_rpm cfg) s evs → processQueue cfg s = (s', evs') →
  rated (effective_rpm cfg) s' (evs ++ evs').
Proof.
  intros Hflag Hr Hpq. apply processQueue_spec in Hpq; [|done].
  destruct Hpq as (adm & timer & _ & _ & _ & -> & Hclock & _ & _ & _ & Hts & _).
  apply (rated_transfer _ s); [done|lia|apply start_times_admits|].
  rewrite Hclock. destruct Hts as [-> | ->]; [apply prune_submseteq|done].
Qed.

Lemma effective_acquire (s s' : state) (i : nat) (args : list jsval)
    (evs evs' : list event) :
  rated (effective_rpm cfg) s evs → executeTask_acquire cfg i args s = (s', evs') →
  rated (effective_rpm cfg) s' (evs ++ evs').
Proof.
  intros Hr Hacq. pose proof (start_room _ _ _ _ _ Hacq) as Hroom.
  apply executeTask_acquire_spec in Hacq as (Hclock & _ & _ & _ & _ & _ & Hcases).
  destruct Hcases as [(z & _ & Hts & _ & ->)|(Hts & _ & -> & _)].
  - apply (rated_transfer _ s); [done|lia|done|]. by rewrite Hclock, Hts.
  - apply rated_start; [done..|]. by apply Hroom.
Qed.

Lemma effective_settle (s s' : state) (i : nat) (args : list jsval) (o : outcome)
    (evs evs' : list event) :
  rated (effective_rpm cfg) s evs → executeTask_settle cfg i args o s = (s', evs') →
  rated (effective_rpm cfg) s' (evs ++ evs').
Proof.
  intros Hr Hset.
  apply executeTask_settle_spec in Hset
    as (Hclock & _ & _ & _ & _ & _ & _ & _ & Hst & _ & _ & Hts).
  apply (rated_transfer _ s); [done|lia|done|]. rewrite Hclock.
  destruct Hts as [[-> _]|(e & ms & _ & _ & -> & _)]; [apply prune_submseteq|].
  rewrite push_blocking_spec. etrans; [apply prune_submseteq|].
  by apply submseteq_inserts_r.
Qed.

Lemma effective_take (s : state) (k : nat) (evs : list event) :
  rated (effective_rpm cfg) s evs → rated (effective_rpm cfg) (take_pending k s) evs.
Proof. intros [Hwin Hbound]. by split. Qed.

Lemma effective_poll (s s' : state) (evs evs' : list event) :
  rated (effective_rpm cfg) s evs → poll s = (s', evs') →
  rated (effective_rpm cfg) s' (evs ++ evs').
Proof.
  intros Hr Hpoll.
  apply poll_spec in Hpoll as (Hclock & _ & _ & _ & _ & _ & Hts & _ & Hst & _).
  apply (rated_transfer _ s); [done|lia|done|]. rewrite Hts. apply prune_submseteq.
Qed.

Lemma effective_step (a : action) (s s' : state) (evs evs' : list event) :
  wf cfg s → rated (effective_rpm cfg) s evs → step cfg a s = Some (s', evs') →
  rated (effective_rpm cfg) s' (evs ++ evs').
Proof.
  intros Hwf Hr Hstep. apply step_turn in Hstep as [_ Hstep].
  destruct a as [d|k|k o|]; cbn [turn] in Hstep.
  - destruct (Z.ltb_spec 0 d); [|done]. inversion Hstep; subst.
    apply (rated_transfer _ s); cbn; [done|lia|done|apply prune_submseteq].
  - destruct (pool s !! k) as [[due|i|i args due|i args|i]|] eqn:Hk; try done.
    + destruct (due <=? clock s); [|done]. inversion Hstep as [Hpq]. clear Hstep.
      apply (effective_processQueue (take_pending k s));
        [apply Hwf|by apply effective_take|done].
    + inversion Hstep as [Hex]. clear Hstep.
      pose proof (pending_inflight _ _ (PExecute i) i Hk eq_refl) as Hinf.
      assert (Hi : (i < length (fnArgs cfg))%nat) by by eapply wf_in_range.
      apply executeTask_spec in Hex
        as [(args & Hargs & Hacq)|[(v & Hv & [Hnot _] & -> & ->)|(v & Hv & _ & -> & ->)]];
        [| | |done].
      * apply (effective_acquire (take_pending k s) _ i args);
          [by apply effective_take|done].
      * apply (rated_transfer _ s); cbn; [done|lia|done|apply prune_submseteq].
      * apply (rated_transfer _ s); cbn; [done|lia|done|apply prune_submseteq].
    + destruct (due <=? clock s); [|done]. inversion Hstep as [Hacq]. clear Hstep.
      apply (effective_acquire (take_pending k s) _ i args);
        [by apply effective_take|done].
  - destruct (pool s !! k) as [[due|i|i args due|i args|i]|] eqn:Hk; try done.
    inversion Hstep as [Hset]. clear Hstep.
    apply (effective_settle (take_pending k s) _ i args o);
      [by apply effective_take|done].
  - destruct (main s) as [due|res|]; [|done..].
    destruct (due <=? clock s); [|done]. inversion Hstep as [Hpoll].
    by apply (effective_poll s).
Qed.

Lemma reach_effective (s : state) (evs : list event) :
  reach cfg s evs → rated (effective_rpm cfg) s evs.
Proof.
  induction 1 as [now s evs Hcall|s evs a s' evs' Hreach IH Hstep].
  - unfold rpmControlledBatch in Hcall.
    destruct (processQueue cfg (blank cfg now)) as [s1 evs1] eqn:Hpq.
    destruct (poll s1) as [s2 evs2] eqn:Hpoll. inversion Hcall; subst.
    apply (effective_poll s1); [|done].
    apply (effective_processQueue (blank cfg now) _ []); [done| |done].
    split; cbn; [done|]. intros t. cbn. lia.
  - eapply effective_step; [|done..]. by eapply reach_wf.
Qed.

End AnyRpm.

(** X6.  The rate bound needs no assumption on [rpm]: a [rpm] below one
    is not refused and does not switch the limit off, it acts as a limit
    of one.  For every [rpm] and every instant [t], the calls of
    [asyncFn] made in the trailing window [(t - 60000, t]] number at
    most [max(1, rpm)]. *)
Theorem rate_bound_for_any_rpm (cfg : config) (s : state) (evs : list event)
    (t : Z) :
  reach cfg s evs →
  Z.of_nat (length (starts_in_window t (start_times evs))) ≤ Z.max 1 (rpm cfg).
Proof.
  intros Hreach.
  pose proof (reach_effective cfg s evs Hreach) as [_ Hbound].
  apply Hbound.
Qed.

Lemma rate_bound_for_any_rpm_witness :
  ∃ s evs,
    execution negative_rpm_cfg 0 negative_rpm_acts = Some (s, evs) ∧
    rpm negative_rpm_cfg = -1 ∧
    start_times evs = [0; 60100] ∧
    Z.of_nat (length (starts_in_window 60100 (start_times evs)))
      ≤ Z.max 1 (rpm negative_rpm_cfg).
Proof.
  destruct (execution negative_rpm_cfg 0 negative_rpm_acts) as [[s evs]|] eqn:Hexec;
    [|by vm_compute in Hexec].
  pose proof (execution_reach _ _ _ _ _ Hexec) as Hreach.
  vm_compute in Hexec. injection Hexec as <- <-.
  eexists _, _. split; [reflexivity|]. split; [reflexivity|]. split; [reflexivity|].
  exact (rate_bound_for_any_rpm negative_rpm_cfg _ _ 60100 Hreach).
Defined.

(** * The batch generator *)

(** ** Where throttle signals come from *)

Section Caused.

Variable cfg : config.

Lemma throttle_caused_app (evs evs' : list event) :
  throttle_caused evs → throttle_caused evs' → throttle_caused (evs ++ evs').
Proof.
  intros Hold Hnew k T D Hk.
  apply lookup_app_Some in Hk as [Hk|[Hkl Hk]].
  - destruct (Hold _ _ _ Hk) as (j & i & args & e & -> & Hj & HD).
    exists j, i, args, e. split_and!; [done| |done]. by apply lookup_app_l_Some.
  - destruct (Hnew _ _ _ Hk) as (j & i & args & e & Hkj & Hj & HD).
    exists (length evs + j)%nat, i, args, e. split_and!; [lia| |done].
    rewrite lookup_app_r by lia. by replace (length evs + j - length evs)%nat with j by lia.
Qed.

Lemma throttle_caused_quiet (evs : list event) :
  throttles evs = [] → throttle_caused evs.
Proof.
  intros Hq k T D Hk. exfalso.
  assert ((T, D) ∈ throttles evs) as Hin.
  { unfold throttles. apply list_elem_of_omap. exists (EvThrottle T D).
    split; [by eapply list_elem_of_lookup_2|done]. }
  rewrite Hq in Hin. by apply elem_of_nil in Hin.
Qed.

Lemma throttle_caused_settle (i : nat) (args : list jsval) (o : outcome)
    (s s' : state) (evs : list event) :
  executeTask_settle cfg i args o s = (s', evs) → throttle_caused evs.
Proof.
  unfold executeTask_settle. intros Heq k T D Hk.
  destruct o as [v|e].
  { inversion Heq; subst. by destruct k as [|[|k]]. }
  destruct (throttle_of e) eqn:Hth; inversion Heq; subst;
    destruct k as [|[|[|k]]]; try done;
    cbn in Hk; inversion Hk; subst;
    exists 0%nat, i, args, e; rewrite Hth; by split_and!.
Qed.

Lemma throttle_caused_step (a : action) (s s' : state) (evs evs' : list event) :
  wf cfg s → throttle_caused evs → step cfg a s = Some (s', evs') →
  throttle_caused (evs ++ evs').
Proof.
  intros Hwf Hold Hstep. apply throttle_caused_app; [done|].
  apply step_turn in Hstep as [_ Hstep].
  destruct a as [d|k|k o|]; cbn [turn] in Hstep.
  - destruct (0 <? d); [|done]. by inversion Hstep.
  - destruct (pool s !! k) as [[due|i|i args due|i args|i]|] eqn:Hk; try done.
    + destruct (due <=? clock s); [|done]. inversion Hstep as [Hpq]. clear Hstep.
      apply processQueue_spec in Hpq; [|apply Hwf].
      destruct Hpq as (adm & timer & _ & _ & _ & -> & _).
      apply throttle_caused_quiet, throttles_admits.
    + inversion Hstep as [Hex]. clear Hstep.
      pose proof (pending_inflight _ _ (PExecute i) i Hk eq_refl) as Hinf.
      assert (Hi : (i < length (fnArgs cfg))%nat) by by eapply wf_in_range.
      apply executeTask_spec in Hex
        as [(args & Hargs & Hacq)|[(v & Hv & [Hnot _] & -> & ->)|(v & Hv & _ & -> & ->)]];
        [| | |done].
      * apply executeTask_acquire_spec in Hacq as (_ & _ & _ & _ & _ & _ & Hcases).
        destruct Hcases as [(z & _ & _ & _ & ->)|(_ & _ & -> & _)];
          by apply throttle_caused_quiet.
      * by apply throttle_caused_quiet.
      * by apply throttle_caused_quiet.
    + destruct (due <=? clock s); [|done]. inversion Hstep as [Hacq]. clear Hstep.
      apply executeTask_acquire_spec in Hacq as (_ & _ & _ & _ & _ & _ & Hcases).
      destruct Hcases as [(z & _ & _ & _ & ->)|(_ & _ & -> & _)];
        by apply throttle_caused_quiet.
  - destruct (pool s !! k) as [[due|i|i args due|i args|i]|] eqn:Hk; try done.
    inversion Hstep as [Hset]. by eapply throttle_caused_settle.
  - destruct (main s) as [due|res|]; [|done..].
    destruct (due <=? clock s); [|done]. inversion Hstep as [Hpoll].
    apply poll_spec in Hpoll as (_ & _ & _ & _ & _ & _ & _ & _ & _ & Hev).
    by destruct Hev as [(? & _ & ->)|(_ & -> & _)]; apply throttle_caused_quiet.
Qed.

Lemma reach_throttle_caused (s : state) (evs : list event) :
  reach cfg s evs → throttle_caused evs.
Proof.
  induction 1 as [now s evs Hcall|s evs a s' evs' Hreach IH Hstep].
  - unfold rpmControlledBatch in Hcall.
    destruct (processQueue cfg (blank cfg now)) as [s1 evs1] eqn:Hpq.
    destruct (poll s1) as [s2 evs2] eqn:Hpoll. inversion Hcall; subst.
    apply processQueue_spec in Hpq; [|done].
    destruct Hpq as (adm & timer & _ & _ & _ & -> & _).
    apply poll_spec in Hpoll as (_ & _ & _ & _ & _ & _ & _ & _ & _ & Hev).
    apply throttle_caused_quiet. rewrite throttles_app, throttles_admits.
    by destruct Hev as [(? & _ & ->)|(_ & -> & _)].
  - eapply throttle_caused_step; [|done..]. by eapply reach_wf.
Qed.

End Caused.

(** ** One poem *)

Section GeneratorFacts.

Variable promptTemplate : string.
Variable callGeminiApi : jsval → string → outcome.
Variable writeSuggestion : string → jsval → option jsval.

Lemma catch_rejects_with_TypeError (poem error e : jsval) :
  generateNameForPoem_catch poem error = Rejected e → e = TypeError.
Proof.
  unfold generateNameForPoem_catch.
  destruct (get_prop poem "title"); [|by intros [= <-]].
  destruct (get_prop poem "author"); [|by intros [= <-]].
  destruct (to_string _); [|by intros [= <-]].
  destruct (to_string _); [|by intros [= <-]].
  destruct (get_prop error "message"); [done|by intros [= <-]].
Qed.

Lemma generate_rejects_with_TypeError (args : list jsval) (e : jsval) :
  generateNameForPoem promptTemplate callGeminiApi writeSuggestion args = Rejected e →
  e = TypeError.
Proof.
  unfold generateNameForPoem. destruct (generateNameForPoem_try _ _ _ _ _); [done|].
  apply catch_rejects_with_TypeError.
Qed.

End GeneratorFacts.

(** X7.  [generateNameForPoem] reports a failure instead of throwing it.
    It rejects only with a [TypeError] of its own (a poem or an error
    that is [undefined] or [null], a title that cannot be converted),
    from which [executeTask] reads no cooldown.  The object it resolves
    with has [success: true] only when [callGeminiApi] resolved and the
    file was written; and for a poem with a title, an author and an array
    of paragraphs that convert to strings, whatever error [callGeminiApi]
    throws, a 429 included, the outcome is the resolved object that
    carries the message of the error and [success: false]. *)
Theorem generateNameForPoem_reports_failures (promptTemplate : string)
    (callGeminiApi : jsval → string → outcome)
    (writeSuggestion : string → jsval → option jsval) (args : list jsval) :
  (∀ e, generateNameForPoem promptTemplate callGeminiApi writeSuggestion args
        = Rejected e →
        e = TypeError ∧ throttle_of e = NotThrottle ∧
        cooldown_ms (throttle_of e) = None) ∧
  (∀ v, generateNameForPoem promptTemplate callGeminiApi writeSuggestion args
        = Resolved v →
        get_prop v "success" = Some (JBool true) →
        ∃ prompt fileName result,
          callGeminiApi (default JUndefined (args !! 0%nat)) prompt = Resolved result ∧
          writeSuggestion fileName result = None ∧
          get_prop v "result" = Some result) ∧
  (∀ modelName poem title author poemText t a e message,
     args = [modelName; poem] →
     get_prop poem "title" = Some title →
     get_prop poem "author" = Some author →
     (∃ paragraphs, get_prop poem "paragraphs" = Some paragraphs ∧
                    js_join paragraphs newline = Some poemText) →
     to_string title = Some t → to_string author = Some a →
     callGeminiApi modelName (String.append promptTemplate poemText) = Rejected e →
     get_prop e "message" = Some message →
     generateNameForPoem promptTemplate callGeminiApi writeSuggestion args
     = Resolved (JObj [("title"%string, title); ("author"%string, author);
                       ("error"%string, message); ("success"%string, JBool false)])).
Proof.
  split_and!.
  - intros e He. apply generate_rejects_with_TypeError in He as ->. done.
  - intros v Hv Hsuccess. unfold generateNameForPoem in Hv.
    destruct (generateNameForPoem_try _ _ _ _ _) as [returned|error] eqn:Htry; cycle 1.
    { unfold generateNameForPoem_catch in Hv.
      destruct (get_prop _ "title"); [|done].
      destruct (get_prop _ "author"); [|done].
      destruct (to_string _); [|done].
      destruct (to_string _); [|done].
      destruct (get_prop error "message"); [|done].
      injection Hv as <-. done. }
    injection Hv as <-. unfold generateNameForPoem_try in Htry.
    destruct (get_prop _ "title") as [title|]; [|done].
    destruct (get_prop _ "author") as [author|]; [|done].
    destruct (get_prop _ "paragraphs") as [paragraphs|]; [|done].
    destruct (js_join _ _) as [poemText|]; [|done].
    destruct (to_string title) as [t|]; [|done].
    destruct (to_string author) as [a|]; [|done].
    destruct (callGeminiApi _ _) as [result|e] eqn:Hcall; [|done].
    destruct (writeSuggestion _ _) eqn:Hwrite; [done|].
    injection Htry as <-. by eexists _, _, _.
  - intros modelName poem title author poemText t a e message -> Htitle Hauthor
      (paragraphs & Hpar & Hjoin) Ht Ha Hcall Hmsg.
    unfold generateNameForPoem, generateNameForPoem_try. cbn [lookup list_lookup default].
    cbn. rewrite Htitle, Hauthor, Hpar, Hjoin, Ht, Ha, Hcall.
    unfold generateNameForPoem_catch. by rewrite Htitle, Hauthor, Ht, Ha, Hmsg.
Qed.

Lemma generateNameForPoem_reports_failures_witness :
  sample_generator [JStr "gemini"; sample_poem "床前明月光"]
  = Resolved (JObj [("title"%string, JStr "无题"); ("author"%string, JStr "佚名");
                    ("error"%string, JUndefined); ("success"%string, JBool false)]).
Proof.
  pose proof (generateNameForPoem_reports_failures "prompt: " sample_api sample_disk
                [JStr "gemini"; sample_poem "床前明月光"]) as (_ & _ & H).
  apply (H (JStr "gemini") (sample_poem "床前明月光") (JStr "无题") (JStr "佚名")
           (String.append "床前明月光" (String.append newline "一行"))
           "无题"%string "佚名"%string retry_info_error JUndefined);
    try reflexivity.
  eexists. split; reflexivity.
Defined.

(** X8.  Run through [generateNameForPoem], the dispatcher never cools
    down: no settlement raises a throttle signal, because every failure
    of [callGeminiApi], a 429 included, reaches [executeTask] as a
    resolved value and the only rejections left are [TypeError]s.  The
    window then holds real starts only, and for a positive [rpm] its
    active timestamps never outnumber [rpm]. *)
Theorem generator_batch_is_never_throttled (cfg : config) (promptTemplate : string)
    (callGeminiApi : jsval → string → outcome)
    (writeSuggestion : string → jsval → option jsval)
    (s : state) (evs : list event) :
  reach cfg s evs →
  settled_by (generateNameForPoem promptTemplate callGeminiApi writeSuggestion) evs →
  throttles evs = [] ∧
  (∀ i args e t, EvSettle i args (Rejected e) t ∈ evs → e = TypeError) ∧
  (0 < rpm cfg → Z.of_nat (length (active_timestamps s)) ≤ rpm cfg).
Proof.
  intros Hreach Hgen.
  assert (Hrej : ∀ i args e t, EvSettle i args (Rejected e) t ∈ evs → e = TypeError).
  { intros i args e t Hin. apply Hgen in Hin. symmetry in Hin.
    by apply generate_rejects_with_TypeError in Hin. }
  assert (Hnone : throttles evs = []).
  { unfold throttles. apply omap_quiet. intros ev Hev.
    destruct ev as [| | | |T D| |]; try done. exfalso.
    apply list_elem_of_lookup in Hev as [k Hk].
    destruct (reach_throttle_caused cfg s evs Hreach k T D Hk)
      as (j & i & args & e & _ & Hj & HD).
    apply list_elem_of_lookup_2, Hrej in Hj. by subst e. }
  split_and!; [done..|].
  intros Hrpm. pose proof (reach_crowded cfg Hrpm s evs Hreach) as Hc.
  unfold crowded in Hc. rewrite Hnone in Hc. cbn in Hc. lia.
Qed.

Lemma generator_batch_is_never_throttled_witness :
  ∃ s evs,
    execution generator_cfg 0 generator_acts = Some (s, evs) ∧
    throttles evs = [] ∧
    (∀ i args e t, EvSettle i args (Rejected e) t ∈ evs → e = TypeError) ∧
    (0 < rpm generator_cfg →
     Z.of_nat (length (active_timestamps s)) ≤ rpm generator_cfg).
Proof.
  destruct (execution generator_cfg 0 generator_acts) as [[s evs]|] eqn:Hexec;
    [|by vm_compute in Hexec].
  pose proof (execution_reach _ _ _ _ _ Hexec) as Hreach.
  vm_compute in Hexec. injection Hexec as <- <-.
  eexists _, _. split; [reflexivity|].
  apply (generator_batch_is_never_throttled generator_cfg "prompt: " sample_api
           sample_disk _ _ Hreach).
  intros i args o t Hin.
  repeat (apply elem_of_cons in Hin as [Hin|Hin];
          [try discriminate Hin; injection Hin as -> -> -> ->; vm_compute; reflexivity|]).
  by apply elem_of_nil in Hin.
Defined.

(** ** Counting the outcomes *)

Lemma successCount_bounds (res : list (option jsval)) :
  0 ≤ successCount res ≤ Z.of_nat (length res).
Proof.
  unfold successCount. split; [lia|]. apply Nat2Z.inj_le, length_filter.
Qed.

Lemma rejection_counts_as_failure (e : jsval) :
  counts_as_success (Some (stored (Rejected e))) = false.
Proof. done. Qed.

Lemma bad_args_count_as_failure :
  counts_as_success (Some (JObj [("error"%string, bad_args_error)])) = false.
Proof. done. Qed.

(** X9.  The summary of the batch: [successCount] and [failCount] add up
    to the size of the batch; an entry is counted as a success only if
    the call of [asyncFn] made with the arguments at its index resolved,
    with the value stored there; and a task whose call threw or rejected,
    or whose arguments were not an array, is always counted as a
    failure. *)
Theorem summary_counts_resolved_calls (cfg : config) (s : state)
    (evs : list event) (res : list (option jsval)) :
  reach cfg s evs →
  main s = Returned res →
  successCount res + failCount res = Z.of_nat (length (fnArgs cfg)) ∧
  0 ≤ successCount res ∧ 0 ≤ failCount res ∧
  (∀ i r, res !! i = Some r → counts_as_success r = true →
     ∃ args v t, fnArgs cfg !! i = Some (JArr args) ∧
                 EvSettle i args (Resolved v) t ∈ evs ∧ r = Some v) ∧
  (∀ i args e t, EvSettle i args (Rejected e) t ∈ evs →
     ∃ r, res !! i = Some r ∧ counts_as_success r = false) ∧
  (∀ i a, fnArgs cfg !! i = Some a → isArray a = false →
     ∃ r, res !! i = Some r ∧ counts_as_success r = false).
Proof.
  intros Hreach Hret.
  destruct (returned_results cfg s evs res Hreach Hret) as (Hlen & Hnd & Hall).
  pose proof (successCount_bounds res) as Hb.
  pose proof (reach_wf _ _ _ Hreach) as Hwf.
  pose proof (reach_accounted _ _ _ Hreach) as Hacc.
  destruct (wf_main _ _ Hwf _ Hret) as (-> & _ & _).
  unfold failCount. rewrite <- Hlen. split_and!; [lia..| | |].
  - intros i r Hr Hsucc.
    assert (Hi : (i < length (fnArgs cfg))%nat).
    { rewrite <- Hlen. by eapply lookup_lt_Some. }
    apply lookup_lt_is_Some in Hi as [a Ha].
    specialize (Hall i a Ha).
    destruct a as [| | | | | |args|];
      try (rewrite Hall in Hr; injection Hr as <-; done).
    destruct Hall as (o & t & t0 & _ & Hset & Hres).
    destruct o as [v|e]; rewrite Hres in Hr; injection Hr as <-; [|done].
    by exists args, v, t.
  - intros i args e t Hin.
    assert ((i, stored (Rejected e)) ∈ writes evs) as Hw.
    { apply elem_of_writes. left. by eexists _, _, _. }
    apply (acc_results _ _ _ Hacc) in Hw. by eexists.
  - intros i a Ha Hnot. specialize (Hall i a Ha).
    destruct a; try done; by eexists.
Qed.

Lemma summary_counts_resolved_calls_witness :
  ∃ s evs res,
    execution generator_cfg 0 generator_acts = Some (s, evs) ∧
    main s = Returned res ∧
    successCount res = 1 ∧ failCount res = 1 ∧
    successCount res + failCount res = Z.of_nat (length (fnArgs generator_cfg)).
Proof.
  destruct (execution generator_cfg 0 generator_acts) as [[s evs]|] eqn:Hexec;
    [|by vm_compute in Hexec].
  pose proof (execution_reach _ _ _ _ _ Hexec) as Hreach.
  vm_compute in Hexec. injection Hexec as <- <-.
  eexists _, _, _. split; [reflexivity|]. split; [reflexivity|].
  split; [reflexivity|]. split; [reflexivity|].
  exact (proj1 (summary_counts_resolved_calls generator_cfg _ _ _ Hreach eq_refl)).
Defined.

(** ** The selection of poems *)

Lemma lookup_js_slice {A} (l : list A) (start stop : option Z) (i : nat) :
  js_slice l start stop !! i
  = if decide (Z.of_nat i < relative_index (Z.of_nat (length l)) stop
                            - relative_index (Z.of_nat (length l)) start)
    then l !! (Z.to_nat (relative_index (Z.of_nat (length l)) start) + i)%nat
    else None.
Proof.
  unfold js_slice. case_decide as Hi.
  - rewrite lookup_take_lt by lia. by rewrite lookup_drop.
  - apply lookup_take_ge. lia.
Qed.

Lemma relative_index_range (len : Z) (x : option Z) :
  0 ≤ len → 0 ≤ relative_index len x ≤ len.
Proof.
  intros Hlen. destruct x as [r|]; cbn; [|lia].
  destruct (Z.ltb_spec r 0); lia.
Qed.

(** X10.  The poems selected by [START_INDEX] and [END_INDEX] are always
    one contiguous run of the poems read.  For indices [a] and [b] that
    are not negative they are the poems at [a], [a + 1], ... below [b];
    a negative [END_INDEX] stands for the end, and with it a negative
    [START_INDEX] is not refused but counts from the end; a missing or
    zero start with a negative end selects everything; and an
    [END_INDEX] that is not a number selects nothing. *)
Theorem selectedPoems_is_a_range (c : batchProcess) (poems : list jsval) :
  (∃ before after, poems = before ++ selectedPoems c poems ++ after) ∧
  (∀ a b, bp_startIndex c = Some a → bp_endIndex c = Some b → 0 ≤ a → 0 ≤ b →
     ∀ i, selectedPoems c poems !! i
          = if decide (a + Z.of_nat i < b) then poems !! (Z.to_nat a + i)%nat
            else None) ∧
  (∀ a b, bp_startIndex c = Some a → bp_endIndex c = Some b → a < 0 → b < 0 →
     selectedPoems c poems = drop (Z.to_nat (Z.of_nat (length poems) + a)) poems) ∧
  (bp_startIndex c = None ∨ bp_startIndex c = Some 0 →
   (∃ b, bp_endIndex c = Some b ∧ b < 0) →
   selectedPoems c poems = poems) ∧
  (bp_endIndex c = None → selectedPoems c poems = []).
Proof.
  pose proof (relative_index_range (Z.of_nat (length poems))) as Hrange.
  split_and!.
  - unfold selectedPoems, js_slice.
    set (k := Z.to_nat (relative_index _ (Some (startIndex c)))).
    set (n := Z.to_nat _).
    exists (take k poems), (drop n (drop k poems)).
    by rewrite take_drop, take_drop.
  - intros a b Ha Hb Ha0 Hb0 i. unfold selectedPoems.
    rewrite lookup_js_slice. unfold startIndex, endIndex. rewrite Ha, Hb.
    assert (or_default (Some a) 0 = a) as -> by by destruct a.
    destruct (Z.ltb_spec b 0) as [?|_]; [lia|]. cbn [relative_index].
    destruct (Z.ltb_spec a 0) as [?|_]; [lia|].
    destruct (Z.ltb_spec (b `min` Z.of_nat (length poems)) 0) as [?|_]; [lia|].
    repeat case_decide; try done; try lia;
      first [ f_equal; lia
            | symmetry; apply lookup_ge_None; lia
            | apply lookup_ge_None; lia ].
  - intros a b Ha Hb Ha0 Hb0. unfold selectedPoems, js_slice, startIndex, endIndex.
    rewrite Ha, Hb.
    assert (or_default (Some a) 0 = a) as -> by by destruct a.
    destruct (Z.ltb_spec b 0) as [_|?]; [|lia]. cbn [relative_index].
    destruct (Z.ltb_spec a 0) as [_|?]; [|lia].
    destruct (Z.ltb_spec (Z.of_nat (length poems)) 0) as [?|_]; [lia|].
    replace (Z.to_nat ((Z.of_nat (length poems) + a) `max` 0))
      with (Z.to_nat (Z.of_nat (length poems) + a)) by lia.
    apply take_ge. rewrite length_drop. lia.
  - intros Ha (b & Hb & Hb0). unfold selectedPoems, js_slice, startIndex, endIndex.
    rewrite Hb. assert (or_default (bp_startIndex c) 0 = 0) as ->
      by by destruct Ha as [-> | ->].
    destruct (Z.ltb_spec b 0) as [_|?]; [|lia]. cbn [relative_index].
    destruct (Z.ltb_spec 0 0) as [?|_]; [lia|].
    destruct (Z.ltb_spec (Z.of_nat (length poems)) 0) as [?|_]; [lia|].
    replace (Z.to_nat (0 `min` Z.of_nat (length poems))) with 0%nat by lia.
    cbn [drop]. apply take_ge. lia.
  - intros Hb. unfold selectedPoems, js_slice, endIndex. rewrite Hb.
    specialize (Hrange (Some (startIndex c)) ltac:(lia)).
    change (relative_index (Z.of_nat (length poems)) None) with 0.
    by replace (Z.to_nat ((0 - _) `max` 0)) with 0%nat by lia.
Qed.

Lemma selectedPoems_is_a_range_witness :
  selectedPoems
    (batch_config {| BATCH_RPM := None; BATCH_MAX_CONCURRENT := None;
                     START_INDEX := Some "1"%string; END_INDEX := Some "3"%string |})
    [JStr "a"; JStr "b"; JStr "c"; JStr "d"] !! 1%nat
  = Some (JStr "c") ∧
  selectedPoems
    (batch_config {| BATCH_RPM := None; BATCH_MAX_CONCURRENT := None;
                     START_INDEX := None; END_INDEX := Some "soon"%string |})
    [JStr "a"; JStr "b"; JStr "c"; JStr "d"]
  = [].
Proof.
  split.
  - pose proof (selectedPoems_is_a_range
                  (batch_config {| BATCH_RPM := None; BATCH_MAX_CONCURRENT := None;
                                   START_INDEX := Some "1"%string;
                                   END_INDEX := Some "3"%string |})
                  [JStr "a"; JStr "b"; JStr "c"; JStr "d"]) as (_ & H & _).
    rewrite (H 1 3 eq_refl eq_refl ltac:(lia) ltac:(lia) 1%nat). reflexivity.
  - pose proof (selectedPoems_is_a_range
                  (batch_config {| BATCH_RPM := None; BATCH_MAX_CONCURRENT := None;
                                   START_INDEX := None;
                                   END_INDEX := Some "soon"%string |})
                  [JStr "a"; JStr "b"; JStr "c"; JStr "d"]) as (_ & _ & _ & _ & H).
    apply H. reflexivity.
Defined.

(** ** File names *)

Lemma sanitize_clean (c : ascii) :
  forbidden_in_file_name (if forbidden_in_file_name c then "_"%char else c) = false.
Proof. destruct (forbidden_in_file_name c) eqn:Hc; done. Qed.

(** X11.  The name of an output file is made safe character by
    character: it is as long as the name it is made from, none of the
    nine characters the regular expression replaces is left in it (so
    that it holds no path separator), a name without these characters is
    kept as it is, and a second pass changes nothing. *)
Theorem sanitize_makes_a_file_name (name : string) :
  String.length (sanitize name) = String.length name ∧
  forallb (λ c, negb (forbidden_in_file_name c))
          (list_ascii_of_string (sanitize name)) = true ∧
  (forallb (λ c, negb (forbidden_in_file_name c)) (list_ascii_of_string name) = true →
   sanitize name = name) ∧
  sanitize (sanitize name) = sanitize name ∧
  ∀ title author,
    forallb (λ c, negb (forbidden_in_file_name c))
            (list_ascii_of_string (outputFileName title author)) = true.
Proof.
  assert (Hclean : ∀ s, forallb (λ c, negb (forbidden_in_file_name c))
                          (list_ascii_of_string (sanitize s)) = true).
  { induction s as [|c s IH]; [done|].
    cbn [sanitize list_ascii_of_string forallb]. by rewrite sanitize_clean, IH. }
  assert (Hid : ∀ s, forallb (λ c, negb (forbidden_in_file_name c))
                       (list_ascii_of_string s) = true → sanitize s = s).
  { induction s as [|c s IH]; [done|].
    cbn [sanitize list_ascii_of_string forallb].
    intros [Hc Hs]%andb_prop. apply negb_true_iff in Hc. rewrite Hc.
    f_equal. by apply IH. }
  split_and!.
  - induction name as [|c s IH]; [done|]. cbn. by rewrite IH.
  - apply Hclean.
  - apply Hid.
  - apply Hid, Hclean.
  - intros title author. apply Hclean.
Qed.

Lemma sanitize_makes_a_file_name_witness :
  sanitize "a_b.json" = "a_b.json"%string.
Proof.
  pose proof (sanitize_makes_a_file_name "a_b.json") as (_ & _ & H & _).
  apply H. reflexivity.
Defined.

(** ** Retry delays *)

Lemma append_nil (s : string) : String.append EmptyString s = s.
Proof. reflexivity. Qed.

Lemma append_cons (c : ascii) (s t : string) :
  String.append (String c s) t = String c (String.append s t).
Proof. reflexivity. Qed.

Local Ltac read_digit :=
  cbn [NilEmpty.string_of_uint Pos.of_uint_acc Pos.of_uint];
  rewrite append_cons; cbn [parse_digits];
  match goal with
  | |- context [digit_val 10 ?c] =>
      let v := eval vm_compute in (digit_val 10 c) in
      change (digit_val 10 c) with v
  end;
  cbv iota.

(** Reading the digits of a number gives the number back. *)
Lemma parse_digits_acc (d : Decimal.uint) (p : positive) (rest : string) :
  ends_number rest →
  parse_digits 10 (String.append (NilEmpty.string_of_uint d) rest) (Z.pos p) true
  = Some (Z.pos (Pos.of_uint_acc d p)).
Proof.
  intros Hrest. revert p.
  induction d as [|d IH|d IH|d IH|d IH|d IH|d IH|d IH|d IH|d IH|d IH]; intros p;
    try (read_digit; rewrite <- IH; f_equal; lia).
  cbn [NilEmpty.string_of_uint Pos.of_uint_acc]. rewrite append_nil.
  destruct rest as [|c rest]; [done|]. destruct Hrest as (Hc & _).
  cbn [parse_digits]. by rewrite Hc.
Qed.

Lemma parse_digits_uint (d : Decimal.uint) (seen : bool) (rest : string) :
  ends_number rest →
  d ≠ Decimal.Nil ∨ seen = true →
  parse_digits 10 (String.append (NilEmpty.string_of_uint d) rest) 0 seen
  = Some (Z.of_N (Pos.of_uint d)).
Proof.
  intros Hrest. revert seen.
  induction d as [|d IH|d IH|d IH|d IH|d IH|d IH|d IH|d IH|d IH|d IH];
    intros seen Hseen;
    try (read_digit; rewrite Z.mul_0_l, Z.add_0_l;
         first [ apply IH; by right | by rewrite parse_digits_acc ]).
  destruct Hseen as [?| ->]; [done|].
  cbn [NilEmpty.string_of_uint Pos.of_uint]. rewrite append_nil.
  destruct rest as [|c rest]; [done|]. destruct Hrest as (Hc & _).
  cbn [parse_digits]. by rewrite Hc.
Qed.

(** A string that begins with a decimal digit has no leading white
    space. *)
Lemma skip_spaces_digit (c : ascii) (r : string) :
  (48 ≤ nat_of_ascii c ≤ 57)%nat → skip_spaces (String c r) = String c r.
Proof.
  intros Hc. unfold skip_spaces. cbn [String.length skip_spaces_within].
  assert (white_space (String c r) = None) as ->; [|done].
  unfold white_space, is_space. cbv zeta.
  repeat match goal with
         | |- context [(?a <=? ?b)%nat] => destruct (Nat.leb_spec a b); try lia
         | |- context [(?a =? ?b)%nat] => destruct (Nat.eqb_spec a b); try lia
         end; done.
Qed.

Local Ltac no_prefix :=
  unfold parseInt; rewrite skip_spaces_digit by (vm_compute; lia);
  cbv iota; cbn -[parse_digits Z.mul].

(** In front of a number written in decimal [parseInt] finds no white
    space, no sign and no hexadecimal prefix. *)
Lemma parseInt_digits (d : Decimal.uint) (rest : string) :
  d ≠ Decimal.Nil → ends_number rest →
  parseInt (String.append (NilEmpty.string_of_uint d) rest)
  = parse_digits 10 (String.append (NilEmpty.string_of_uint d) rest) 0 false.
Proof.
  intros Hd Hrest.
  assert (Hwrap : ∀ x : option Z, match x with Some m => Some (1 * m) | None => None end = x).
  { intros [m|]; [|done]. f_equal. lia. }
  destruct d as [|d|d|d|d|d|d|d|d|d|d]; [done|..];
    cbn [NilEmpty.string_of_uint]; rewrite append_cons;
    try (no_prefix; apply Hwrap).
  destruct d as [|d|d|d|d|d|d|d|d|d|d];
    cbn [NilEmpty.string_of_uint]; rewrite ?append_cons, ?append_nil;
    try (no_prefix; apply Hwrap).
  destruct rest as [|c rest]; [no_prefix; apply Hwrap|].
  destruct Hrest as (_ & Hx & HX).
  unfold parseInt. rewrite skip_spaces_digit by (vm_compute; lia). cbv iota.
  destruct c as [[] [] [] [] [] [] [] []]; try done; apply Hwrap.
Qed.

(** [parseInt] reads back a number written in decimal, whatever follows
    it. *)
Lemma parseInt_decimal (n : Z) (rest : string) :
  0 ≤ n → ends_number rest → parseInt (String.append (decimal n) rest) = Some n.
Proof.
  intros Hn Hrest. unfold decimal, Z.to_int.
  destruct n as [|p|p]; [| |lia].
  - cbn [NilZero.string_of_int NilZero.string_of_uint].
    change "0"%string with (NilEmpty.string_of_uint (Decimal.D0 Decimal.Nil)).
    rewrite parseInt_digits by done. by rewrite parse_digits_uint by (done || by left).
  - cbn [NilZero.string_of_int].
    pose proof (DecimalPos.Unsigned.of_to p) as Hof.
    assert (Hnn : Pos.to_uint p ≠ Decimal.Nil).
    { intros Hnil. rewrite Hnil in Hof. done. }
    assert (NilZero.string_of_uint (Pos.to_uint p)
            = NilEmpty.string_of_uint (Pos.to_uint p)) as ->
      by by destruct (Pos.to_uint p).
    rewrite parseInt_digits by done.
    rewrite parse_digits_uint by (done || by left). by rewrite Hof.
Qed.

Lemma str_replace_digits (d : Decimal.uint) (rest : string) :
  str_replace "s" "" (String.append (NilEmpty.string_of_uint d) rest)
  = String.append (NilEmpty.string_of_uint d) (str_replace "s" "" rest).
Proof.
  induction d as [|d IH|d IH|d IH|d IH|d IH|d IH|d IH|d IH|d IH|d IH];
    cbn [NilEmpty.string_of_uint]; rewrite ?append_cons, ?append_nil; [done|..];
    cbn [str_replace String.prefix]; by rewrite IH.
Qed.

Lemma decimal_digits (n : Z) :
  0 ≤ n → ∃ d, d ≠ Decimal.Nil ∧ decimal n = NilEmpty.string_of_uint d.
Proof.
  intros Hn. unfold decimal, Z.to_int. destruct n as [|p|p]; [| |lia].
  - by exists (Decimal.D0 Decimal.Nil).
  - exists (Pos.to_uint p).
    assert (Hnn : Pos.to_uint p ≠ Decimal.Nil).
    { intros Hnil. pose proof (DecimalPos.Unsigned.of_to p) as Hof.
      rewrite Hnil in Hof. done. }
    split; [done|]. cbn [NilZero.string_of_int]. by destruct (Pos.to_uint p).
Qed.

(** What the [catch] block reads from a [RetryInfo] whose delay is not
    empty. *)
Lemma throttle_of_retry_error (delay : string) :
  delay ≠ EmptyString →
  throttle_of (retry_error delay)
  = match parseInt (str_replace "s" "" delay) with
    | Some n => if 0 <? n * 1000 then Cooldown (n * 1000) else NoCooldown
    | None => NoCooldown
    end.
Proof.
  intros Hne. unfold throttle_of, retry_error.
  cbn -[parseInt str_replace Z.mul].
  destruct delay as [|c delay]; [done|]. cbn -[parseInt str_replace Z.mul].
  destruct (parseInt _) as [n|]; [|done]. by destruct (0 <? n * 1000).
Qed.

(** X12.  A retry delay is read in whole seconds.  From a 429 whose
    [RetryInfo] advises ["<n>s"], [executeTask] reads a cooldown of
    [n * 1000] ms for every [n] above zero whose milliseconds are still
    a safe integer; a fraction ([<n>.<fraction>]) is dropped by
    [parseInt], so that a delay below one second, like a delay of zero,
    raises no cooldown at all. *)
Theorem retry_delay_is_read_in_whole_seconds (n : Z) (fraction : string) :
  0 ≤ n →
  n * 1000 ≤ MAX_SAFE_INTEGER →
  throttle_of (retry_error (String.append (decimal n) "s"))
  = (if 0 <? n then Cooldown (n * 1000) else NoCooldown) ∧
  throttle_of (retry_error (String.append (decimal n) (String "." fraction)))
  = (if 0 <? n then Cooldown (n * 1000) else NoCooldown).
Proof.
  intros Hn _.
  destruct (decimal_digits n Hn) as (d & Hd & Hdec).
  assert (Hne : ∀ rest, String.append (decimal n) rest ≠ EmptyString).
  { intros rest. rewrite Hdec. by destruct d. }
  assert (Hsign : (0 <? n * 1000) = (0 <? n)).
  { destruct (Z.ltb_spec 0 n), (Z.ltb_spec 0 (n * 1000)); lia. }
  split; rewrite throttle_of_retry_error by done; rewrite Hdec, str_replace_digits, <- Hdec.
  - change (str_replace "s" "" "s") with EmptyString.
    rewrite parseInt_decimal by done. by rewrite Hsign.
  - cbn [str_replace String.prefix].
    rewrite parseInt_decimal by done. by rewrite Hsign.
Qed.

Lemma retry_delay_is_read_in_whole_seconds_witness :
  38 * 1000 ≤ MAX_SAFE_INTEGER ∧
  throttle_of (retry_error "38s") = Cooldown 38000 ∧
  throttle_of (retry_error "0.5s") = NoCooldown.
Proof.
  assert (H38 : 38 * 1000 ≤ MAX_SAFE_INTEGER) by (vm_compute; discriminate).
  assert (H0 : 0 * 1000 ≤ MAX_SAFE_INTEGER) by (vm_compute; discriminate).
  split; [exact H38|]. split.
  - exact (proj1 (retry_delay_is_read_in_whole_seconds 38 "" ltac:(lia) H38)).
  - exact (proj2 (retry_delay_is_read_in_whole_seconds 0 "5s" ltac:(lia) H0)).
Defined.

(** * The folder processor *)

Lemma processItem_cases (item v : jsval) :
  processItem item = Some v → v = JNull ∨ ∃ c s, v = JStr (String c s).
Proof.
  unfold processItem. destruct (_ || _); [intros [= <-]; by left|].
  destruct (get_prop item "title") as [t|]; [|done].
  destruct (get_prop item "content") as [content|]; [|done].
  destruct (get_prop item "paragraphs") as [paragraphs|]; [|done].
  cbv zeta.
  destruct (if isArray content then _ else _) as [text|]; [|done].
  destruct (_ && _); [|intros [= <-]; by left].
  destruct (to_string _) as [ts|]; [|done].
  intros [= <-]. right.
  change "《"%string with (String "227" (String "128" (String "138" EmptyString))).
  rewrite append_cons. by eexists _, _.
Qed.

Lemma filter_none {A} (P : A → Prop) `{!∀ x, Decision (P x)} (l : list A) :
  (∀ x, x ∈ l → ¬ P x) → filter P l = [].
Proof.
  induction l as [|x l IH]; intros Hl; [done|].
  rewrite filter_cons. case_decide as Hx.
  - exfalso. by apply (Hl x), Hx; apply list_elem_of_here.
  - apply IH. intros y Hy. apply Hl. by apply list_elem_of_further.
Qed.

Lemma join_lines_nonempty (c : ascii) (s : string) (lines : list jsval) (text : string) :
  join_with to_string newline (JStr (String c s) :: lines) = Some text →
  text ≠ EmptyString.
Proof.
  cbn. destruct lines as [|l lines]; [by intros [= <-]|].
  destruct (join_with to_string newline (l :: lines)) as [r|]; [|done].
  intros [= <-]. by rewrite append_cons.
Qed.

(** X13.  [processJsonContent] gives the empty string for whatever is not
    an array; for an array it gives the empty string exactly when no
    item yields a line, and this is when [processFolder] skips the file;
    an item whose [content] is an empty array yields no line, whatever
    its [paragraphs] hold: [content], when it is an array, is the only
    field looked at. *)
Theorem processJsonContent_is_empty_when_nothing_is_valid :
  (∀ v, isArray v = false → processJsonContent v = Some EmptyString) ∧
  (∀ items text,
     processJsonContent (JArr items) = Some text →
     (text = EmptyString ↔ ∀ item, item ∈ items → processItem item = Some JNull)) ∧
  (∀ fields,
     assoc "content" fields = Some (JArr []) → processItem (JObj fields) = Some JNull).
Proof.
  split_and!.
  - by intros [].
  - intros items text. unfold processJsonContent.
    destruct (mapM processItem items) as [processedLines|] eqn:Hmap; [|done].
    apply mapM_Some in Hmap. intros Hjoin. split.
    + intros ->. intros item Hin.
      apply list_elem_of_lookup in Hin as [i Hi].
      destruct (Forall2_lookup_l _ _ _ _ _ Hmap Hi) as (v & Hv & Hitem).
      rewrite Hitem. f_equal.
      destruct (processItem_cases _ _ Hitem) as [->|(c & s & ->)]; [done|].
      exfalso.
      assert (JStr (String c s) ∈ filter (λ v, truthy v = true) processedLines) as Hf.
      { apply list_elem_of_filter. split; [done|]. by eapply list_elem_of_lookup_2. }
      destruct (filter _ processedLines) as [|l lines] eqn:Hfl; [by apply elem_of_nil in Hf|].
      assert (l ∈ filter (λ v, truthy v = true) processedLines) as Hl
        by (rewrite Hfl; apply list_elem_of_here).
      apply list_elem_of_filter in Hl as [Htruthy Hl].
      apply list_elem_of_lookup in Hl as [j Hj].
      destruct (Forall2_lookup_r _ _ _ _ _ Hmap Hj) as (item' & _ & Hitem').
      destruct (processItem_cases _ _ Hitem') as [->|(c' & s' & ->)]; [done|].
      by eapply join_lines_nonempty.
    + intros Hall.
      assert (filter (λ v, truthy v = true) processedLines = []) as Hnil.
      { apply filter_none. intros v Hv.
        apply list_elem_of_lookup in Hv as [j Hj].
        destruct (Forall2_lookup_r _ _ _ _ _ Hmap Hj) as (item & Hi & Hitem).
        rewrite (Hall item) in Hitem by by eapply list_elem_of_lookup_2.
        injection Hitem as <-. done. }
      rewrite Hnil in Hjoin. by injection Hjoin as <-.
  - intros fields Hc. unfold processItem. cbn [truthy typeof_object negb orb get_prop].
    rewrite Hc. cbn. by destruct (truthy _).
Qed.

Lemma processJsonContent_is_empty_when_nothing_is_valid_witness :
  processItem (JObj [("title"%string, JStr "静夜思");
                     ("content"%string, JArr []);
                     ("paragraphs"%string, JArr [JStr "床前明月光"])])
  = Some JNull.
Proof.
  pose proof processJsonContent_is_empty_when_nothing_is_valid as (_ & _ & H).
  apply H. reflexivity.
Defined.

Section FolderFacts.

Variable promptTemplate : string.
Variable readJson : string → option jsval.
Variable callGeminiApi : string → outcome.
Variable writeFileSync : string → jsval → bool.

Lemma processFiles_one (file : string) (rest : list string) :
  omap failed_file (processFiles promptTemplate readJson callGeminiApi writeFileSync [file])
    ≠ [] →
  processFiles promptTemplate readJson callGeminiApi writeFileSync (file :: rest)
  = processFiles promptTemplate readJson callGeminiApi writeFileSync [file].
Proof.
  cbn [processFiles].
  destruct (readJson file) as [jsonContent|]; [|done].
  destruct (processJsonContent jsonContent) as [processedContent|]; [|done].
  destruct (String.eqb processedContent EmptyString); [done|].
  destruct (callGeminiApi _) as [result|e]; [|done].
  by destruct (writeFileSync file result).
Qed.

Lemma processFiles_app (before : list string) (file : string) (rest : list string) :
  processFiles promptTemplate readJson callGeminiApi writeFileSync (file :: rest)
  = processFiles promptTemplate readJson callGeminiApi writeFileSync [file] →
  processFiles promptTemplate readJson callGeminiApi writeFileSync (before ++ file :: rest)
  = processFiles promptTemplate readJson callGeminiApi writeFileSync (before ++ [file]).
Proof.
  intros Hone. induction before as [|f before IH]; [done|].
  cbn [app processFiles]. rewrite IH. done.
Qed.

Lemma processFiles_failures (files : list string) :
  (length (omap failed_file
             (processFiles promptTemplate readJson callGeminiApi writeFileSync files))
   ≤ 1)%nat.
Proof.
  induction files as [|file rest IH]; [cbn; lia|].
  cbn [processFiles].
  destruct (readJson file) as [jsonContent|]; [|cbn; lia].
  destruct (processJsonContent jsonContent) as [processedContent|]; [|cbn; lia].
  destruct (String.eqb processedContent EmptyString); [done|].
  destruct (callGeminiApi _) as [result|e]; [|cbn; lia].
  destruct (writeFileSync file result); [done|cbn; lia].
Qed.

End FolderFacts.

(** X14.  [processFolder] handles the files one after the other and its
    only [try] block is around the loop: when a file fails (it cannot be
    parsed, a conversion raises, [callGeminiApi] rejects or the result
    cannot be written) what comes after it in the folder is never
    looked at, so that at most one failure is ever met; and only an
    entry whose name ends in [.json] is read. *)
Theorem processFolder_stops_at_the_first_failure (promptTemplate : string)
    (readJson : string → option jsval) (callGeminiApi : string → outcome)
    (writeFileSync : string → jsval → bool) :
  (∀ before file after,
     omap failed_file
       (processFiles promptTemplate readJson callGeminiApi writeFileSync [file]) ≠ [] →
     processFiles promptTemplate readJson callGeminiApi writeFileSync
       (before ++ file :: after)
     = processFiles promptTemplate readJson callGeminiApi writeFileSync
         (before ++ [file])) ∧
  (∀ files,
     (length (omap failed_file
                (processFiles promptTemplate readJson callGeminiApi writeFileSync files))
      ≤ 1)%nat) ∧
  (∀ entries ev file,
     ev ∈ processFolder promptTemplate readJson callGeminiApi writeFileSync entries →
     (ev = FSkipped file ∨ (∃ p, ev = FCalled file p) ∨ (∃ r, ev = FSaved file r) ∨
      ev = FFailed file) →
     file ∈ entries ∧ ends_with_json file = true).
Proof.
  split_and!.
  - intros before file after Hfail. by apply processFiles_app, processFiles_one.
  - apply processFiles_failures.
  - intros entries ev file. unfold processFolder.
    assert (Hall : ∀ files ev file,
              ev ∈ processFiles promptTemplate readJson callGeminiApi writeFileSync files →
              (ev = FSkipped file ∨ (∃ p, ev = FCalled file p) ∨
               (∃ r, ev = FSaved file r) ∨ ev = FFailed file) →
              file ∈ files).
    { clear. induction files as [|f rest IH]; intros ev file Hin Hev.
      { by apply elem_of_nil in Hin. }
      cbn [processFiles] in Hin.
      destruct (readJson f) as [jsonContent|]; cycle 1.
      { apply list_elem_of_singleton in Hin. subst ev.
        destruct Hev as [?|[[? ?]|[[? ?]|[= <-]]]]; try done. apply list_elem_of_here. }
      destruct (processJsonContent jsonContent) as [processedContent|]; cycle 1.
      { apply list_elem_of_singleton in Hin. subst ev.
        destruct Hev as [?|[[? ?]|[[? ?]|[= <-]]]]; try done. apply list_elem_of_here. }
      destruct (String.eqb processedContent EmptyString).
      { apply elem_of_cons in Hin as [->|Hin].
        - destruct Hev as [[= <-]|[[? ?]|[[? ?]|?]]]; try done. apply list_elem_of_here.
        - apply list_elem_of_further. by eapply IH. }
      apply elem_of_cons in Hin as [->|Hin].
      { destruct Hev as [?|[[? [= <-]]|[[? ?]|?]]]; try done. apply list_elem_of_here. }
      destruct (callGeminiApi _) as [result|e]; cycle 1.
      { apply list_elem_of_singleton in Hin. subst ev.
        destruct Hev as [?|[[? ?]|[[? ?]|[= <-]]]]; try done. apply list_elem_of_here. }
      destruct (writeFileSync f result); cycle 1.
      { apply list_elem_of_singleton in Hin. subst ev.
        destruct Hev as [?|[[? ?]|[[? ?]|[= <-]]]]; try done. apply list_elem_of_here. }
      apply elem_of_cons in Hin as [->|Hin].
      - destruct Hev as [?|[[? ?]|[[? [= <-]]|?]]]; try done. apply list_elem_of_here.
      - apply list_elem_of_further. by eapply IH. }
    intros Hin Hev. pose proof (Hall _ _ _ Hin Hev) as Hfile.
    apply list_elem_of_filter in Hfile as [? ?]. done.
Qed.

Lemma processFolder_stops_at_the_first_failure_witness :
  processFiles "T:" sample_folder sample_folder_api (λ _ _, true)
    (["a.json"%string; "b.json"%string]
       ++ "c.json"%string :: ["d.json"%string; "a.json"%string])
  = processFiles "T:" sample_folder sample_folder_api (λ _ _, true)
      (["a.json"%string; "b.json"%string] ++ ["c.json"%string]).
Proof.
  apply (processFolder_stops_at_the_first_failure "T:" sample_folder sample_folder_api
           (λ _ _, true)).
  vm_compute. discriminate.
Defined.

(** * Pinyin scores *)

Lemma round_div_range (a b hi : Z) :
  0 < b → 0 ≤ a ≤ hi * b → 0 ≤ round_div a b ≤ hi.
Proof.
  intros Hb Ha. unfold round_div. split.
  - apply Z.div_pos; lia.
  - apply Z.lt_succ_r, Z.div_lt_upper_bound; lia.
Qed.

Lemma table_get_sym_cases {A} (table : list (string * A)) (key : string) :
  (∃ a, table_get table key = Own a) ∨
  (table_get table key = Inherited ∧ inherited key = true) ∨
  table_get table key = Missing.
Proof.
  unfold table_get. destruct (own_entry table key); [left; by eexists|].
  destruct (inherited key); [right; by left|by right; right].
Qed.

(** X15.  [getInitialScore] does not depend on the order of its
    arguments; it is 100 exactly for two equal initials and at most 90
    for two different ones; a number it gives lies between 0 and 100; and
    it gives [NaN] only when one of the initials names a member of
    [Object.prototype], which the lookup in [initialGroupMap] finds. *)
Theorem getInitialScore_is_a_similarity (sm1 sm2 : string) :
  getInitialScore sm1 sm2 = getInitialScore sm2 sm1 ∧
  (getInitialScore sm1 sm2 = Some 100 ↔ sm1 = sm2) ∧
  (∀ n, getInitialScore sm1 sm2 = Some n →
        0 ≤ n ≤ 100 ∧ (sm1 ≠ sm2 → n ≤ 90)) ∧
  (getInitialScore sm1 sm2 = None → inherited sm1 = true ∨ inherited sm2 = true).
Proof.
  assert (Hcases : ∀ n, getInitialScore sm1 sm2 = Some n →
                        (sm1 = sm2 ∧ n = 100) ∨ (sm1 ≠ sm2 ∧ 0 ≤ n ≤ 90)).
  { intros n. unfold getInitialScore.
    destruct (String.eqb_spec sm1 sm2) as [->|Hne]; [intros [= <-]; by left|].
    intros Hn. right. split; [done|].
    destruct (_ || _); [injection Hn as <-; lia|].
    destruct (table_get initialGroupMap sm1) as [g1| |],
             (table_get initialGroupMap sm2) as [g2| |];
      try done; try (injection Hn as <-; lia).
    cbv zeta in Hn. destruct (g1 =? g2); injection Hn as <-; [lia|].
    pose proof (round_div_range (Z.max 0 (80 * 7 - Z.abs (g1 - g2) * 80)) 7 80) as Hr.
    lia. }
  split_and!.
  - unfold getInitialScore.
    destruct (String.eqb_spec sm1 sm2) as [->|Hne].
    { by rewrite String.eqb_refl. }
    destruct (String.eqb_spec sm2 sm1) as [->|_]; [done|].
    rewrite (orb_comm (String.eqb sm2 EmptyString)).
    destruct (_ || _); [done|].
    destruct (table_get initialGroupMap sm1) as [g1| |],
             (table_get initialGroupMap sm2) as [g2| |]; try done.
    cbv zeta. rewrite (Z.eqb_sym g2 g1).
    by replace (Z.abs (g2 - g1)) with (Z.abs (g1 - g2)) by lia.
  - split.
    + intros Hn. destruct (Hcases _ Hn) as [[? _]|[_ ?]]; [done|lia].
    + intros ->. unfold getInitialScore. by rewrite String.eqb_refl.
  - intros n Hn. destruct (Hcases _ Hn) as [[? ->]|[? ?]]; split; (done || lia).
  - unfold getInitialScore.
    destruct (String.eqb sm1 sm2); [done|]. destruct (_ || _); [done|].
    destruct (table_get_sym_cases initialGroupMap sm1) as [[g1 H1]|[[H1 ?]|H1]];
      destruct (table_get_sym_cases initialGroupMap sm2) as [[g2 H2]|[[H2 ?]|H2]];
      rewrite ?H1, ?H2;
      try done; try (intros _; by left); try (intros _; by right).
    cbv zeta. by destruct (g1 =? g2).
Qed.

Lemma vowelSimilarity_cases (a b : option string) (n : Z) :
  vowelSimilarity a b = Some n →
  vowelSimilarity b a = Some n ∧
  ((a = b ∧ n = 100) ∨ (a ≠ b ∧ (n = 30 ∨ n = 20 ∨ n = 70))).
Proof.
  destruct a as [x|], b as [y|]; try done. unfold vowelSimilarity.
  cbn [vowelSimilarityMap own_entry].
  destruct (String.eqb_spec x "i") as [->|?];
    [|destruct (String.eqb_spec x "v") as [->|?];
      [|destruct (String.eqb_spec x "u") as [->|?]; [|done]]];
    cbv iota; cbn [own_entry];
    (destruct (String.eqb_spec y "i") as [->|?];
     [|destruct (String.eqb_spec y "v") as [->|?];
       [|destruct (String.eqb_spec y "u") as [->|?]; [|done]]]);
    intros [= <-]; (split; [reflexivity|]); (by left) || (right; split; [done|lia]).
Qed.

Lemma vowelSimilarity_sym (a b : option string) :
  vowelSimilarity a b = vowelSimilarity b a.
Proof.
  destruct (vowelSimilarity a b) as [n|] eqn:Hab.
  { by apply vowelSimilarity_cases in Hab as [-> _]. }
  destruct (vowelSimilarity b a) as [n|] eqn:Hba; [|done].
  apply vowelSimilarity_cases in Hba as [Hba _]. congruence.
Qed.

Lemma own_entry_key {A} (table : list (string * A)) (key : string) (a : A) :
  own_entry table key = Some a → (key, a) ∈ table.
Proof.
  induction table as [|[k x] rest IH]; [done|]. cbn [own_entry].
  destruct (String.eqb_spec key k) as [->|_].
  - intros [= ->]. apply list_elem_of_here.
  - intros Hrest. by apply list_elem_of_further, IH.
Qed.

(** No two finals of [finalStructure] have the same parts. *)
Lemma finalStructure_injective (ym1 ym2 : string) (p : final_parts) :
  (ym1, p) ∈ finalStructure → (ym2, p) ∈ finalStructure → ym1 = ym2.
Proof.
  intros H1 H2.
  assert (Hall : Forall (λ x, Forall (λ y, x.2 = y.2 → x.1 = y.1) finalStructure)
                        finalStructure).
  { apply (bool_decide_unpack _). by vm_compute. }
  rewrite Forall_forall in Hall. specialize (Hall _ H1).
  rewrite Forall_forall in Hall. by apply (Hall _ H2).
Qed.

(** X16.  [getFinalScore] does not depend on the order of its arguments
    and lies between 0 and 100; for a final that [finalStructure] holds
    it is 100 exactly against the same final, and at most 85 against a
    final with another main vowel, since no two finals of the table have
    the same medial, main vowel and ending. *)
Theorem getFinalScore_is_a_similarity (ym1 ym2 : string) :
  getFinalScore ym1 ym2 = getFinalScore ym2 ym1 ∧
  0 ≤ getFinalScore ym1 ym2 ≤ 100 ∧
  (∀ parts1, own_entry finalStructure ym1 = Some parts1 →
     (getFinalScore ym1 ym2 = 100 ↔ ym1 = ym2) ∧
     (∀ parts2, own_entry finalStructure ym2 = Some parts2 →
        main_vowel parts1 ≠ main_vowel parts2 → getFinalScore ym1 ym2 ≤ 85)).
Proof.
  assert (Hsim : ∀ a b, 0 ≤ match vowelSimilarity a b with
                            | Some similarity => similarity / 2
                            | None => 0
                            end ≤ 35 ∨ a = b).
  { intros a b. destruct (vowelSimilarity a b) as [n|] eqn:Hn; [|left; lia].
    apply vowelSimilarity_cases in Hn as [_ [[? _]|[_ [->|[->| ->]]]]];
      [by right|left..]; by vm_compute. }
  split; [|split].
  - unfold getFinalScore.
    destruct (String.eqb_spec ym1 ym2) as [->|Hne].
    { by rewrite String.eqb_refl. }
    destruct (String.eqb_spec ym2 ym1) as [->|_]; [done|].
    destruct (table_get finalStructure ym1) as [p1| |],
             (table_get finalStructure ym2) as [p2| |]; try done;
      rewrite (vowelSimilarity_sym (field main_vowel _) (field main_vowel _));
      repeat case_decide; congruence.
  - unfold getFinalScore. destruct (String.eqb ym1 ym2); [lia|].
    destruct (table_get finalStructure ym1) as [p1| |],
             (table_get finalStructure ym2) as [p2| |]; try lia;
      match goal with
      | |- context [vowelSimilarity ?a ?b] => destruct (Hsim a b)
      end; repeat case_decide; try lia; congruence.
  - intros parts1 H1. split.
    + split; [|intros ->; unfold getFinalScore; by rewrite String.eqb_refl].
      unfold getFinalScore, table_get. rewrite H1.
      destruct (String.eqb_spec ym1 ym2) as [->|Hne]; [done|].
      destruct (own_entry finalStructure ym2) as [parts2|] eqn:H2; cycle 1.
      { destruct (inherited ym2); [|done]. cbn [field].
        repeat case_decide; done. }
      cbn [field]. intros Hscore. exfalso. apply Hne.
      assert (parts1 = parts2) as ->.
      { destruct (Hsim (Some (main_vowel parts1)) (Some (main_vowel parts2)));
          repeat case_decide; try lia;
          destruct parts1, parts2; cbn in *; congruence. }
      eapply finalStructure_injective; by apply own_entry_key.
    + intros parts2 H2 Hmain. unfold getFinalScore, table_get. rewrite H1, H2.
      destruct (String.eqb ym1 ym2) eqn:Heq.
      { apply String.eqb_eq in Heq as ->. congruence. }
      cbn [field].
      destruct (Hsim (Some (main_vowel parts1)) (Some (main_vowel parts2)));
        repeat case_decide; try lia; congruence.
Qed.


Lemma valid_tone_cases (tone : jsval) (n : Z) :
  valid_tone tone = Some n → tone = JNum n ∧ (n = 1 ∨ n = 2 ∨ n = 3 ∨ n = 4).
Proof.
  destruct tone as [| | |m| | | |]; try done. cbn.
  destruct (Z.leb_spec 1 m), (Z.leb_spec m 4); try done.
  intros [= <-]. split; [done|lia].
Qed.

(** X17.  The tone scores.  [getToneScore] is symmetric, lies between 0
    and 100 and is 100 only for equal tones.  [evaluateToneFluency2] and
    [evaluateToneFluency3] throw unless every tone is one of the numbers
    1, 2, 3, 4; otherwise the first gives 50, 70 or 90 and is 50 exactly
    for two equal tones, the second gives 40, 60, 70, 85 or 100 and is 40
    exactly for three equal tones; both give the same score to a name
    read backwards; and [evaluateToneFluency] scores two tones when its
    third argument is [undefined]. *)
Theorem tone_scores (a b c : jsval) (t1 t2 : Z) :
  (getToneScore t1 t2 = getToneScore t2 t1 ∧
   0 ≤ getToneScore t1 t2 ≤ 100 ∧
   (getToneScore t1 t2 = 100 ↔ t1 = t2)) ∧
  (evaluateToneFluency2 a b = None ↔ valid_tone a = None ∨ valid_tone b = None) ∧
  (evaluateToneFluency3 a b c = None
   ↔ valid_tone a = None ∨ valid_tone b = None ∨ valid_tone c = None) ∧
  evaluateToneFluency2 a b = evaluateToneFluency2 b a ∧
  evaluateToneFluency3 a b c = evaluateToneFluency3 c b a ∧
  (∀ n, evaluateToneFluency2 a b = Some n →
        (n = 50 ∨ n = 70 ∨ n = 90) ∧ (n = 50 ↔ a = b)) ∧
  (∀ n, evaluateToneFluency3 a b c = Some n →
        (n = 40 ∨ n = 60 ∨ n = 70 ∨ n = 85 ∨ n = 100) ∧
        (n = 40 ↔ a = b ∧ b = c)) ∧
  evaluateToneFluency a b JUndefined = evaluateToneFluency2 a b.
Proof.
  split_and!; try done.
  - unfold getToneScore. by replace (Z.abs (t2 - t1)) with (Z.abs (t1 - t2)) by lia.
  - unfold getToneScore. destruct (_ =? _); lia.
  - unfold getToneScore. destruct (_ =? _); lia.
  - unfold getToneScore. destruct (Z.eqb_spec (Z.abs (t1 - t2)) 0); lia.
  - unfold evaluateToneFluency2.
    destruct (valid_tone a) as [x|], (valid_tone b) as [y|]; try tauto.
    destruct (x =? y); [|destruct (negb _)]; split; try done; intros [?|?]; done.
  - unfold evaluateToneFluency3.
    destruct (valid_tone a) as [x|], (valid_tone b) as [y|], (valid_tone c) as [z|];
      try tauto.
    destruct (_ && _); [|destruct (existsb _ _); [|destruct (existsb _ _);
      [|cbv zeta; destruct (_ =? 1)]]]; (split; [done|intros [?|[?|?]]; done]).
  - unfold evaluateToneFluency2.
    destruct (valid_tone a) as [x|] eqn:Ha, (valid_tone b) as [y|] eqn:Hb; try done.
    apply valid_tone_cases in Ha as [_ Hx], Hb as [_ Hy].
    destruct Hx as [->|[->|[->| ->]]], Hy as [->|[->|[->| ->]]]; reflexivity.
  - unfold evaluateToneFluency3.
    destruct (valid_tone a) as [x|] eqn:Ha, (valid_tone b) as [y|] eqn:Hb,
             (valid_tone c) as [z|] eqn:Hc; try done.
    apply valid_tone_cases in Ha as [_ Hx], Hb as [_ Hy], Hc as [_ Hz].
    destruct Hx as [->|[->|[->| ->]]], Hy as [->|[->|[->| ->]]],
             Hz as [->|[->|[->| ->]]]; reflexivity.
  - intros n. unfold evaluateToneFluency2.
    destruct (valid_tone a) as [x|] eqn:Ha, (valid_tone b) as [y|] eqn:Hb; try done.
    apply valid_tone_cases in Ha as [-> Hx], Hb as [-> Hy].
    destruct Hx as [->|[->|[->| ->]]], Hy as [->|[->|[->| ->]]];
      vm_compute; intros [= <-]; (split; [lia|]); split; (done || lia).
  - intros n. unfold evaluateToneFluency3.
    destruct (valid_tone a) as [x|] eqn:Ha, (valid_tone b) as [y|] eqn:Hb,
             (valid_tone c) as [z|] eqn:Hc; try done.
    apply valid_tone_cases in Ha as [-> Hx], Hb as [-> Hy], Hc as [-> Hz].
    destruct Hx as [->|[->|[->| ->]]], Hy as [->|[->|[->| ->]]],
             Hz as [->|[->|[->| ->]]];
      vm_compute; intros [= <-]; (split; [lia|]); split;
      (done || lia || (intros [[=] [=]]) || (intros [[=] _]) || (intros [_ [=]])).
Qed.

(** * The fixed-bucket variant without room *)

(** X18.  The fixed-bucket [rpmControlledBatch] launches
    [Math.min(maxConcurrent, taskQueue.length)] tasks and then waits for
    [executing] to empty: with a [maxConcurrent] below zero it launches
    nothing and returns at once, with the queue untouched and an array
    that holds no result at all, where the sliding-window version polls
    forever. *)
Theorem fixed_bucket_without_room_returns_holes (cfg : config) (now : Z) :
  maxConcurrent cfg ≤ 0 →
  ∃ s,
    FixedBucket.rpmControlledBatch cfg now = (s, [FixedBucket.EvReturn now]) ∧
    FixedBucket.main s = Returned (replicate (length (fnArgs cfg)) None) ∧
    FixedBucket.taskQueue s = seq 0 (length (fnArgs cfg)) ∧
    FixedBucket.pool s = [].
Proof.
  intros Hmax. unfold FixedBucket.rpmControlledBatch.
  cbn [FixedBucket.taskQueue].
  replace (Z.to_nat (Z.min (maxConcurrent cfg) (Z.of_nat (length (seq 0 (length (fnArgs cfg)))))))
    with 0%nat by lia.
  cbn [FixedBucket.launch]. unfold FixedBucket.poll. cbn [FixedBucket.executing].
  rewrite size_empty. cbn. by eexists.
Qed.

Lemma fixed_bucket_without_room_returns_holes_witness :
  ∃ s,
    FixedBucket.rpmControlledBatch (configure no_room_options [JArr [JStr "a"]]) 0
      = (s, [FixedBucket.EvReturn 0]) ∧
    FixedBucket.main s = Returned [None] ∧
    FixedBucket.taskQueue s = [0%nat] ∧
    FixedBucket.pool s = [].
Proof.
  apply (fixed_bucket_without_room_returns_holes
           (configure no_room_options [JArr [JStr "a"]]) 0).
  vm_compute. discriminate.
Defined.

(** * [callGeminiApi] *)

Section GeminiFacts.

Variable JSON_parse : string → option jsval.
Variable JSON_stringify : jsval → string.
Variable substring_200 : string → string.
Variable first_character : string → string.

Lemma Error_is_plain (message : string) : throttle_of (Error message) = NotThrottle.
Proof. done. Qed.

Lemma TypeError_is_plain : throttle_of TypeError = NotThrottle.
Proof. done. Qed.

Lemma rethrow_cases (error : jsval) :
  rethrow error = Rejected error ∨ rethrow error = Rejected TypeError.
Proof. unfold rethrow. destruct (get_prop error "message"); [by left|by right]. Qed.

Lemma rethrow_Error (message : string) :
  rethrow (Error message) = Rejected (Error message).
Proof. done. Qed.

Lemma rethrow_TypeError : rethrow TypeError = Rejected TypeError.
Proof. done. Qed.

(** What the checks throw is an [Error] or a [TypeError]. *)
Lemma response_text_error (result error : jsval) :
  response_text JSON_stringify first_character result = inr error →
  error = TypeError ∨ ∃ message, error = Error message.
Proof.
  unfold response_text.
  destruct (get_prop result "response") as [response|]; [|intros [= <-]; by left].
  destruct (negb (truthy response)).
  { destruct (truthy (and_then _ _)); [|intros [= <-]; right; by eexists].
    destruct (to_string _); intros [= <-]; [right; by eexists|by left]. }
  cbv zeta. destruct (_ || _).
  { destruct (truthy (and_then _ _)); [|intros [= <-]; right; by eexists].
    destruct (to_string _); intros [= <-]; [right; by eexists|by left]. }
  destruct (first_element _ _) as [candidate|]; [|intros [= <-]; by left].
  destruct (get_prop candidate "content") as [content|]; [|intros [= <-]; by left].
  destruct (if _ || _ || _ then _ else _) as [[text|]|]; [done| |intros [= <-]; by left].
  destruct (_ && _); [|intros [= <-]; right; by eexists].
  destruct (to_string _); intros [= <-]; [right; by eexists|by left].
Qed.

Lemma parse_response_error (responseText error : jsval) :
  parse_response JSON_parse substring_200 responseText = Rejected error →
  error = TypeError ∨ ∃ message, error = Error message.
Proof.
  unfold parse_response.
  destruct (to_string responseText) as [s|]; [|intros [= <-]; by left].
  destruct (JSON_parse s); [done|].
  destruct responseText; intros [= <-]; (by left) || (right; by eexists).
Qed.

End GeminiFacts.

(** X19.  What [callGeminiApi] throws.  Without an API key it throws
    before any request is made.  An error of the request itself is
    thrown again as it is (a [TypeError] takes its place when it is
    [undefined] or [null]); every other error is one raised by the
    checks of the response or by the parsing, an [Error] with a message
    or a [TypeError], and carries no [status]: run by the dispatcher,
    only an error of the request can ask for a cooldown. *)
Theorem callGeminiApi_errors_are_plain (JSON_parse : string → option jsval)
    (JSON_stringify : jsval → string) (substring_200 first_character : string → string)
    (apiKey : option string) (request : outcome) (error : jsval) :
  callGeminiApi JSON_parse JSON_stringify substring_200 first_character apiKey request
  = Rejected error →
  (request = Rejected error ∨ error = TypeError ∨ ∃ message, error = Error message) ∧
  (request ≠ Rejected error →
   throttle_of error = NotThrottle ∧ cooldown_ms (throttle_of error) = None) ∧
  (apiKey = None ∨ apiKey = Some EmptyString → error = Error "GEMINI_API_KEY 未设置。").
Proof.
  intros Hcall.
  assert (Hkinds : request = Rejected error ∨ error = TypeError
                   ∨ ∃ message, error = Error message).
  { unfold callGeminiApi in Hcall.
    destruct (match apiKey with Some _ => _ | None => _ end);
      [injection Hcall as <-; right; right; by eexists|].
    destruct request as [result|e].
    - destruct (response_text _ _ result) as [text|e] eqn:Htext.
      + destruct (parse_response _ _ text) as [v|e] eqn:Hparse; [done|].
        apply parse_response_error in Hparse as [->|[m ->]].
        * rewrite rethrow_TypeError in Hcall. injection Hcall as <-. right. by left.
        * rewrite rethrow_Error in Hcall. injection Hcall as <-. right. right. by eexists.
      + apply response_text_error in Htext as [->|[m ->]].
        * rewrite rethrow_TypeError in Hcall. injection Hcall as <-. right. by left.
        * rewrite rethrow_Error in Hcall. injection Hcall as <-. right. right. by eexists.
    - destruct (rethrow_cases e) as [He|He]; rewrite He in Hcall;
        injection Hcall as <-; [by left|right; by left]. }
  split_and!; [done| |].
  - intros Hne. destruct Hkinds as [?|[->|[m ->]]]; done.
  - intros Hkey. unfold callGeminiApi in Hcall.
    destruct Hkey as [-> | ->]; by injection Hcall as <-.
Qed.

Lemma callGeminiApi_errors_are_plain_witness :
  throttle_of (Error "Gemini API 响应中没有有效的候选内容。") = NotThrottle ∧
  cooldown_ms (throttle_of (Error "Gemini API 响应中没有有效的候选内容。")) = None.
Proof.
  pose proof (callGeminiApi_errors_are_plain sample_parse (λ _, "?"%string)
                (λ s, s) (λ s, s) (Some "key"%string)
                (Resolved (JObj [("response"%string,
                                  JObj [("candidates"%string, JArr [])])]))
                (Error "Gemini API 响应中没有有效的候选内容。") eq_refl)
    as (_ & H & _).
  apply H. discriminate.
Defined.

(** X20.  What [callGeminiApi] returns.  It resolves only when the API
    key is set, the request resolved, and the first part of the first
    candidate of the response holds a text that is not empty; the value
    is what [JSON.parse] makes of that text, nothing else is ever
    returned. *)
Theorem callGeminiApi_returns_the_parsed_text (JSON_parse : string → option jsval)
    (JSON_stringify : jsval → string) (substring_200 first_character : string → string)
    (apiKey : option string) (request : outcome) (jsonResult : jsval) :
  callGeminiApi JSON_parse JSON_stringify substring_200 first_character apiKey request
  = Resolved jsonResult →
  (∃ key, apiKey = Some key ∧ key ≠ EmptyString) ∧
  ∃ result response candidates candidate content parts part text s,
    request = Resolved result ∧
    get_prop result "response" = Some response ∧
    get_prop response "candidates" = Some candidates ∧
    truthy candidates = true ∧ length_is_zero candidates = false ∧
    first_element first_character candidates = Some candidate ∧
    get_prop candidate "content" = Some content ∧
    get_prop content "parts" = Some parts ∧
    truthy parts = true ∧ length_is_zero parts = false ∧
    first_element first_character parts = Some part ∧
    get_prop part "text" = Some text ∧ truthy text = true ∧
    to_string text = Some s ∧ JSON_parse s = Some jsonResult.
Proof.
  unfold callGeminiApi. intros Hcall. split.
  { destruct apiKey as [key|]; [|done]. exists key. split; [done|].
    intros ->. done. }
  destruct (match apiKey with Some _ => _ | None => _ end); [done|].
  destruct request as [result|e]; cycle 1.
  { by destruct (rethrow_cases e) as [He|He]; rewrite He in Hcall. }
  destruct (response_text _ _ result) as [text|e] eqn:Htext; cycle 1.
  { by destruct (rethrow_cases e) as [He|He]; rewrite He in Hcall. }
  destruct (parse_response _ _ text) as [v|e] eqn:Hparse; cycle 1.
  { by destruct (rethrow_cases e) as [He|He]; rewrite He in Hcall. }
  injection Hcall as ->.
  unfold parse_response in Hparse.
  destruct (to_string text) as [s|] eqn:Hs; [|done].
  destruct (JSON_parse s) as [v|] eqn:Hv; [|by destruct text].
  injection Hparse as ->.
  unfold response_text in Htext.
  destruct (get_prop result "response") as [response|] eqn:Hresponse; [|done].
  destruct (truthy response) eqn:Htr; cbn [negb] in Htext; cycle 1.
  { destruct (truthy (and_then _ _)); [|done]. by destruct (to_string _). }
  cbv zeta in Htext.
  destruct (get_prop response "candidates") as [candidates|] eqn:Hcands;
    [|by destruct response].
  cbn [default from_option id] in Htext.
  destruct (truthy candidates) eqn:Htc; cbn [negb orb] in Htext; cycle 1.
  { destruct (truthy (and_then _ _)); [|done]. by destruct (to_string _). }
  destruct (length_is_zero candidates) eqn:Hlc.
  { destruct (truthy (and_then _ _)); [|done]. by destruct (to_string _). }
  destruct (first_element _ candidates) as [candidate|] eqn:Hcand; [|done].
  destruct (get_prop candidate "content") as [content|] eqn:Hcontent; [|done].
  destruct (truthy content) eqn:Htcontent; cbn [negb orb] in Htext; cycle 1.
  { destruct (_ && _); [|done]. by destruct (to_string _). }
  unfold and_then in Htext. rewrite Htcontent in Htext.
  destruct (get_prop content "parts") as [parts|] eqn:Hparts; [|by destruct content].
  cbn [default from_option id] in Htext.
  destruct (truthy parts) eqn:Htparts; cbn [negb orb] in Htext; cycle 1.
  { destruct (_ && _); [|done]. by destruct (to_string _). }
  destruct (length_is_zero parts) eqn:Hlparts.
  { destruct (_ && _); [|done]. by destruct (to_string _). }
  destruct (first_element _ parts) as [part|] eqn:Hpart; [|done].
  destruct (get_prop part "text") as [text'|] eqn:Htext'; [|done].
  destruct (truthy text') eqn:Httext; cycle 1.
  { destruct (_ && _); [|done]. by destruct (to_string _). }
  injection Htext as ->.
  by exists result, response, candidates, candidate, content, parts, part, text, s.
Qed.

Lemma callGeminiApi_returns_the_parsed_text_witness :
  ∃ text s, to_string text = Some s ∧ sample_parse s = Some (JArr []).
Proof.
  destruct (callGeminiApi_returns_the_parsed_text sample_parse (λ _, "?"%string)
              (λ s, s) (λ s, s) (Some "key"%string)
              (Resolved (response_with_text "[]")) (JArr []) eq_refl)
    as (_ & result & response & candidates & candidate & content & parts & part
        & text & s & _ & _ & _ & _ & _ & _ & _ & _ & _ & _ & _ & _ & _ & Hs & Hv).
  by exists text, s.
Defined.

(** * The report of [exampleRpmControlled] *)

Lemma report_from_thrown (index : nat) (results : list (option jsval)) :
  (report_from index results).2 = true
  ↔ ∃ i v, results !! i = Some (Some v) ∧ (v = JUndefined ∨ v = JNull).
Proof.
  revert index. induction results as [|[result|] rest IH]; intros index; cbn.
  - split; [done|]. by intros (i & v & ? & _).
  - destruct (get_prop result "error") as [error|] eqn:Herr.
    + destruct (report_from (S index) rest) as [lines thrown] eqn:Hrest. cbn.
      specialize (IH (S index)). rewrite Hrest in IH. cbn in IH. rewrite IH.
      split.
      * intros (i & v & Hi & Hv). by exists (S i), v.
      * intros (i & v & Hi & Hv). destruct i as [|i].
        -- cbn in Hi. injection Hi as ->. by destruct Hv as [-> | ->].
        -- by exists i, v.
    + cbn. split; [intros _|done]. exists 0%nat, result. split; [done|].
      destruct result; try done; [by left|by right].
  - rewrite IH. split.
    + intros (i & v & Hi & Hv). by exists (S i), v.
    + intros (i & v & Hi & Hv). destruct i as [|i]; [done|]. by exists i, v.
Qed.

Lemma report_from_length (index : nat) (results : list (option jsval)) :
  (∀ i r, results !! i = Some r → ∃ v, r = Some v) →
  (report_from index results).2 = false →
  length (report_from index results).1 = length results.
Proof.
  revert index. induction results as [|r rest IH]; intros index Hfull Hquiet; [done|].
  destruct (Hfull 0%nat r eq_refl) as [v ->]. cbn in *.
  destruct (get_prop v "error"); [|done].
  destruct (report_from (S index) rest) as [lines thrown] eqn:Hrest. cbn in *.
  f_equal. specialize (IH (S index) (λ i r', Hfull (S i) r')).
  rewrite Hrest in IH. by apply IH.
Qed.

(** X21.  The report of [exampleRpmControlled] reads [result.error] of
    every entry of the returned array: it is cut short by a [TypeError]
    exactly when some call of [asyncFn] resolved with [undefined] or
    [null] (a function that returns nothing is enough); a task whose
    call threw, or whose arguments were not an array, never cuts it
    short; and when it is not cut short it has one line for every
    task. *)
Theorem report_is_cut_short_by_a_call_without_value (cfg : config) (s : state)
    (evs : list event) (res : list (option jsval)) :
  reach cfg s evs →
  main s = Returned res →
  ((report res).2 = true
   ↔ ∃ i args v t, EvSettle i args (Resolved v) t ∈ evs ∧ (v = JUndefined ∨ v = JNull)) ∧
  ((report res).2 = false → length (report res).1 = length (fnArgs cfg)).
Proof.
  intros Hreach Hret.
  destruct (returned_results cfg s evs res Hreach Hret) as (Hlen & Hnd & Hall).
  pose proof (reach_wf _ _ _ Hreach) as Hwf.
  pose proof (reach_accounted _ _ _ Hreach) as Hacc.
  destruct (wf_main _ _ Hwf _ Hret) as (-> & _ & _).
  split.
  - unfold report. rewrite report_from_thrown. split.
    + intros (i & v & Hi & Hv).
      assert (Hlt : (i < length (fnArgs cfg))%nat).
      { rewrite <- Hlen. by eapply lookup_lt_Some. }
      apply lookup_lt_is_Some in Hlt as [a Ha]. specialize (Hall i a Ha).
      destruct a as [| | | | | |args|];
        try (rewrite Hall in Hi; injection Hi as <-; by destruct Hv).
      destruct Hall as (o & t & t0 & _ & Hset & Hres).
      destruct o as [w|e]; rewrite Hres in Hi; injection Hi as <-;
        [|by destruct Hv].
      by exists i, args, w, t.
    + intros (i & args & v & t & Hin & Hv). exists i, v. split; [|done].
      apply (acc_results _ _ _ Hacc), elem_of_writes. left. by eexists _, _, _.
  - intros Hquiet. rewrite <- Hlen.
    assert (Hfull : ∀ i r, results s !! i = Some r → ∃ v, r = Some v).
    { intros i r Hi.
      assert (Hlt : (i < length (fnArgs cfg))%nat).
      { rewrite <- Hlen. by eapply lookup_lt_Some. }
      apply lookup_lt_is_Some in Hlt as [a Ha]. specialize (Hall i a Ha).
      destruct a as [| | | | | |args|];
        try (rewrite Hall in Hi; injection Hi as <-; by eexists).
      destruct Hall as (o & t & t0 & _ & _ & Hres).
      destruct o; rewrite Hres in Hi; injection Hi as <-; by eexists. }
    by apply report_from_length.
Qed.

Lemma report_is_cut_short_by_a_call_without_value_witness :
  ∃ s evs res,
    execution crowd_cfg 0 silent_acts = Some (s, evs) ∧
    main s = Returned res ∧
    report res = ([], true) ∧
    ((report res).2 = true
     ↔ ∃ i args v t, EvSettle i args (Resolved v) t ∈ evs ∧ (v = JUndefined ∨ v = JNull)).
Proof.
  destruct (execution crowd_cfg 0 silent_acts) as [[s evs]|] eqn:Hexec;
    [|by vm_compute in Hexec].
  pose proof (execution_reach _ _ _ _ _ Hexec) as Hreach.
  vm_compute in Hexec. injection Hexec as <- <-.
  eexists _, _, _. split; [reflexivity|]. split; [reflexivity|].
  split; [reflexivity|].
  exact (proj1 (report_is_cut_short_by_a_call_without_value crowd_cfg _ _ _ Hreach
                  eq_refl)).
Defined.

(** ** The fixed bucket: what a run keeps true *)

Section BucketInvariant.
Import FixedBucket.
Variable cfg : config.

Lemma bucket_settled_app_l evs evs' i v :
  bucket_settled cfg evs i v → bucket_settled cfg (evs ++ evs') i v.
Proof.
  intros [(args & o & t & Hin & H)|(t & Hin & H)]; [left|right].
  - exists args, o, t. split; [|done]. apply elem_of_app. by left.
  - exists t. split; [|done]. apply elem_of_app. by left.
Qed.

Lemma bucket_wf_events extra s evs evs' :
  bucket_wf cfg extra s evs → bucket_wf cfg extra s (evs ++ evs').
Proof.
  intros [H1 H2 H3 H4 H5 H6]. split; try done.
  intros i v Hi. apply bucket_settled_app_l. by apply H6.
Qed.

Lemma bucket_wf_move extra extra' s s' evs :
  bucket_wf cfg extra s evs →
  results s' = results s →
  extra' ++ taskQueue s' ++ bucket_inflight (pool s')
    ≡ₚ extra ++ taskQueue s ++ bucket_inflight (pool s) →
  executing s' = list_to_set (extra' ++ bucket_inflight (pool s')) →
  (∀ p, p ∈ pool s' → bucket_args_ok cfg p) →
  bucket_wf cfg extra' s' evs.
Proof.
  intros [H1 H2 H3 H4 H5 H6] Hres Hperm Hexec Hargs. split.
  - by rewrite Hres.
  - by rewrite Hperm.
  - done.
  - intros i. rewrite Hperm, Hres. apply H4.
  - done.
  - intros i v. rewrite Hres. apply H6.
Qed.

Lemma bucket_wf_range i s evs :
  bucket_wf cfg [i] s evs → (i < length (fnArgs cfg))%nat.
Proof.
  intros Hwf. rewrite <- (bw_length _ _ _ _ Hwf).
  apply (lookup_lt_Some _ _ None). apply (bw_open _ _ _ _ Hwf).
  cbn. apply elem_of_cons. by left.
Qed.

Lemma bucket_wf_shift next q s evs :
  bucket_wf cfg [] s evs →
  taskQueue s = next :: q →
  bucket_wf cfg [next] (set_tasks q ({[next]} ∪ executing s) s) evs.
Proof.
  intros Hwf Hq. apply (bucket_wf_move [] _ s); [done|done| | |].
  - cbn. by rewrite Hq.
  - cbn. by rewrite (bw_executing _ _ _ _ Hwf).
  - cbn. apply (bw_args _ _ _ _ Hwf).
Qed.

Lemma bucket_wf_start i p s s' evs :
  bucket_wf cfg [i] s evs →
  bucket_task p = i →
  bucket_args_ok cfg p →
  taskQueue s' = taskQueue s → results s' = results s →
  executing s' = executing s → pool s' = pool s ++ [p] →
  bucket_wf cfg [] s' evs.
Proof.
  intros Hwf Hi Hargs Hq Hres Hexec Hp. apply (bucket_wf_move [i] _ s); [done|done| | |].
  - rewrite Hq, Hp. unfold bucket_inflight. rewrite fmap_app. cbn. rewrite Hi.
    rewrite app_assoc. by rewrite <- Permutation_cons_append.
  - rewrite Hexec, (bw_executing _ _ _ _ Hwf), Hp. unfold bucket_inflight.
    rewrite fmap_app. cbn. rewrite Hi. set_solver.
  - intros p'. rewrite Hp. intros [Hin|Hin%list_elem_of_singleton]%elem_of_app.
    + by apply (bw_args _ _ _ _ Hwf).
    + by subst p'.
Qed.

Lemma bucket_wf_release i v s s' evs :
  bucket_wf cfg [i] s evs →
  bucket_settled cfg evs i v →
  results s' = <[i := Some v]> (results s) →
  executing s' = executing s ∖ {[i]} →
  taskQueue s' = taskQueue s → pool s' = pool s →
  bucket_wf cfg [] s' evs.
Proof.
  intros Hwf Hv Hres Hexec Hq Hp.
  pose proof (bucket_wf_range _ _ _ Hwf) as Hrange.
  destruct Hwf as [H1 H2 H3 H4 H5 H6].
  cbn in H2. apply NoDup_cons in H2 as [Hi H2]. split.
  - by rewrite Hres, length_insert.
  - cbn. by rewrite Hq, Hp.
  - rewrite Hexec, H3, Hp. cbn. apply set_eq. intros x.
    rewrite elem_of_difference, elem_of_union, elem_of_singleton,
      !elem_of_list_to_set.
    split; [by intros [[->|?] ?]|]. intros Hx. split; [by right|].
    intros ->. apply Hi. apply elem_of_app. by right.
  - intros j. cbn. rewrite Hq, Hp, Hres. destruct (decide (i = j)) as [<-|Hne].
    + rewrite list_lookup_insert_eq by lia. split; [done|]. congruence.
    + rewrite list_lookup_insert_ne by done. rewrite <- H4. cbn.
      rewrite elem_of_cons. split; [by right|]. by intros [->|?].
  - intros p. rewrite Hp. apply H5.
  - intros j w. rewrite Hres. destruct (decide (i = j)) as [<-|Hne].
    + rewrite list_lookup_insert_eq by lia. congruence.
    + rewrite list_lookup_insert_ne by done. apply H6.
Qed.

Lemma bucket_wf_take k p s evs :
  bucket_wf cfg [] s evs →
  pool s !! k = Some p →
  bucket_wf cfg [bucket_task p] (take_pending k s) evs.
Proof.
  intros Hwf Hk.
  assert (bucket_inflight (pool s)
            ≡ₚ bucket_task p :: bucket_inflight (delete k (pool s))) as Hperm.
  { unfold bucket_inflight. by rewrite (delete_Permutation _ _ _ Hk) at 1. }
  apply (bucket_wf_move [] _ s); [done|done| | |].
  - cbn. rewrite Hperm. by rewrite Permutation_middle.
  - cbn. rewrite (bw_executing _ _ _ _ Hwf). cbn. apply set_eq. intros x.
    rewrite elem_of_union, elem_of_singleton, !elem_of_list_to_set, Hperm.
    by rewrite elem_of_cons.
  - cbn. intros p' Hin. apply (bw_args _ _ _ _ Hwf).
    rewrite (delete_Permutation _ _ _ Hk). by apply elem_of_cons; right.
Qed.

Lemma length_take_pending k p s :
  pool s !! k = Some p → length (pool s) = S (length (pool (take_pending k s))).
Proof.
  intros Hk. cbn. by rewrite (delete_Permutation _ _ _ Hk) at 1.
Qed.


Lemma bad_args_settled i t evs :
  (i < length (fnArgs cfg))%nat →
  (∀ args, fnArgs cfg !! i ≠ Some (JArr args)) →
  bucket_settled cfg (evs ++ [EvBadArgs i t]) i (JObj [("error"%string, bad_args_error)]).
Proof.
  intros _ Hbad. right. exists t. split; [|done].
  apply elem_of_app. right. apply list_elem_of_singleton. done.
Qed.

(** [executeTask] from its entry to its first suspension: the task, or
    the first later one whose arguments are an array, takes the slot. *)
Lemma executeTask_wf fuel : ∀ i s evs0 s' evs,
  bucket_wf cfg [i] s evs0 →
  (length (taskQueue s) < fuel)%nat →
  executeTask cfg fuel i s = (s', evs) →
  bucket_wf cfg [] s' (evs0 ++ evs) ∧ (main s' = main s ∨ main s' = Crashed) ∧
  (length (pool s') ≤ S (length (pool s)))%nat ∧
  (taskQueue s' ≠ [] → length (pool s') = S (length (pool s))).
Proof.
  induction fuel as [|fuel IH]; intros i s evs0 s' evs Hwf Hfuel; [lia|].
  pose proof (bucket_wf_range _ _ _ Hwf) as Hrange.
  cbn [executeTask].
  destruct (Nat.leb_spec (length (fnArgs cfg)) i) as [Hle|_]; [lia|].
  destruct (fnArgs cfg !! i) as [a|] eqn:Hargs;
    [|by apply lookup_lt_is_Some_2 in Hrange as [? ?]; congruence].
  assert (∀ p s1,
    bucket_task p = i → bucket_args_ok cfg p →
    taskQueue s1 = taskQueue s → results s1 = results s →
    executing s1 = executing s → pool s1 = pool s ++ [p] →
    main s1 = main s ∨ main s1 = Crashed →
    bucket_wf cfg [] s1 (evs0 ++ evs) ∧ (main s1 = main s ∨ main s1 = Crashed) ∧
    (length (pool s1) ≤ S (length (pool s)))%nat ∧
    (taskQueue s1 ≠ [] → length (pool s1) = S (length (pool s)))) as Hstart.
  { intros p s1 Hp Hpa Hq Hres Hexec Hpool Hmain.
    split; [|split; [done|]].
    - apply bucket_wf_events. by apply (bucket_wf_start i p s).
    - rewrite Hpool, length_app. cbn. lia. }
  destruct a as [| | | | | |args|fields].
  7: {
    destruct (windowDuration <=? clock s - windowStartTime s);
      [|destruct (rpm cfg <=? requestsInWindow s)]; unfold invoke; intros [= <- <-].
    - apply (Hstart (PRunning i args)); try done. by left.
    - apply (Hstart (PWaiting i args
                       (clock s + (windowDuration - (clock s - windowStartTime s)))));
        try done. by left.
    - apply (Hstart (PRunning i args)); try done. by left. }
  all:
    match goal with
    | |- context [conversion_throws ?v] => destruct (conversion_throws v) eqn:Hconv
    end;
    [ intros [= <- <-]; apply (Hstart (PDead i)); try done;
      first [by eexists; split_and! | by right] |].
  all:
    cbn [taskQueue set_tasks set_results executing];
    (assert (bucket_wf cfg []
               (set_tasks (taskQueue s) (executing s ∖ {[i]})
                  (set_results
                     (<[i:=Some (JObj [("error"%string, bad_args_error)])]> (results s)) s))
               (evs0 ++ [EvBadArgs i (clock s)])) as Hrel
       by (apply (bucket_wf_release i (JObj [("error"%string, bad_args_error)]) s);
           [by apply bucket_wf_events
           |apply bad_args_settled; [done|congruence]|done..]));
    destruct (taskQueue s) as [|next q] eqn:Hq;
    [ by intros [= <- <-]; split; [|cbn; split_and!; [left|lia|]]
    | match goal with
      | |- context [executeTask cfg ?f ?n ?s3] =>
          destruct (executeTask cfg f n s3) as [s4 evs4] eqn:Hrec
      end;
      intros [= <- <-];
      apply (IH _ _ (evs0 ++ [EvBadArgs i (clock s)])) in Hrec
        as (Hwf4 & Hmain4 & Hle4 & Hfull4);
      [ cbn in Hmain4, Hle4, Hfull4; by rewrite <- app_assoc in Hwf4
      | by apply bucket_wf_shift
      | cbn in Hfuel |- *; lia ] ].
Qed.

Lemma executeTask_wake_wf k i args due s evs0 s' evs :
  bucket_wf cfg [] s evs0 →
  pool s !! k = Some (PWaiting i args due) →
  executeTask_wake i args (take_pending k s) = (s', evs) →
  bucket_wf cfg [] s' (evs0 ++ evs) ∧ main s' = main s ∧
  taskQueue s' = taskQueue s ∧ length (pool s') = length (pool s).
Proof.
  intros Hwf Hk. unfold executeTask_wake, invoke. intros [= <- <-].
  pose proof (bucket_wf_take _ _ _ _ Hwf Hk) as Htake.
  split; [|split_and!; [done|done|]].
  - apply bucket_wf_events.
    apply (bucket_wf_start i (PRunning i args) (take_pending k s)); try done.
    exact (bw_args _ _ _ _ Hwf _ (list_elem_of_lookup_2 _ _ _ Hk)).
  - rewrite (length_take_pending _ _ _ Hk). cbn. rewrite length_app. cbn. lia.
Qed.

Lemma executeTask_settle_wf k i args o s evs0 s' evs :
  bucket_wf cfg [] s evs0 →
  pool s !! k = Some (PRunning i args) →
  executeTask_settle cfg i args o (take_pending k s) = (s', evs) →
  bucket_wf cfg [] s' (evs0 ++ evs) ∧ (main s' = main s ∨ main s' = Crashed) ∧
  (length (pool s') ≤ length (pool s))%nat ∧
  (taskQueue s' ≠ [] →
   taskQueue s ≠ [] ∧ length (pool s') = length (pool s)).
Proof.
  intros Hwf Hk. unfold executeTask_settle.
  pose proof (bucket_wf_take _ _ _ _ Hwf Hk) as Htake.
  pose proof (length_take_pending _ _ _ Hk) as Hlen.
  set (s0 := take_pending k s) in *.
  cbn [taskQueue set_tasks set_results executing].
  assert (bucket_wf cfg []
            (set_tasks (taskQueue s0) (executing s0 ∖ {[i]})
               (set_results (<[i:=Some (stored o)]> (results s0)) s0))
            (evs0 ++ [EvSettle i args o (clock s0)])) as Hrel.
  { apply (bucket_wf_release i (stored o) s0); try done.
    - by apply bucket_wf_events.
    - left. exists args, o, (clock s0). split_and!; [|  |by destruct o].
      + apply elem_of_app. right. by apply list_elem_of_singleton.
      + exact (bw_args _ _ _ _ Hwf _ (list_elem_of_lookup_2 _ _ _ Hk)). }
  destruct (taskQueue s0) as [|next q] eqn:Hq.
  - intros [= <- <-]. split; [done|]. cbn in Hlen |- *. split_and!; [by left|lia|done].
  - match goal with
    | |- context [executeTask cfg ?f ?n ?s3] =>
        destruct (executeTask cfg f n s3) as [s4 evs4] eqn:Hrec
    end.
    intros [= <- <-].
    apply (executeTask_wf _ _ _ (evs0 ++ [EvSettle i args o (clock s0)])) in Hrec
      as (Hwf4 & Hmain4 & Hle4 & Hfull4).
    + cbn in Hmain4, Hle4, Hfull4, Hlen. rewrite <- app_assoc in Hwf4.
      split_and!; [done|done|lia|]. intros Hne. split; [by cbn in Hq; rewrite Hq|].
      rewrite Hfull4 by done. lia.
    + by apply bucket_wf_shift.
    + cbn. lia.
Qed.

Lemma launch_empty n s :
  taskQueue s = [] → launch cfg n s = (s, []).
Proof.
  intros Hq. induction n as [|n IH]; [done|]. cbn [launch]. by rewrite Hq.
Qed.

Lemma launch_wf n : ∀ s evs0 s' evs,
  bucket_wf cfg [] s evs0 →
  launch cfg n s = (s', evs) →
  bucket_wf cfg [] s' (evs0 ++ evs) ∧ (main s' = main s ∨ main s' = Crashed) ∧
  (length (pool s') ≤ length (pool s) + n)%nat ∧
  (taskQueue s' ≠ [] → length (pool s') = (length (pool s) + n)%nat).
Proof.
  induction n as [|n IH]; intros s evs0 s' evs Hwf.
  - intros [= <- <-]. rewrite app_nil_r. split_and!; [done|by left|lia|lia].
  - destruct (taskQueue s) as [|i q] eqn:Hq.
    { rewrite launch_empty by done. intros [= <- <-]. rewrite app_nil_r.
      split_and!; [done|by left|lia|done]. }
    cbn [launch]. rewrite Hq.
    destruct (executeTask cfg (S (length q)) i _) as [s1 evs1] eqn:Hexec.
    destruct (launch cfg n s1) as [s2 evs2] eqn:Hlaunch. intros [= <- <-].
    apply (executeTask_wf _ _ _ evs0) in Hexec as (Hwf1 & Hmain1 & Hle1 & Hfull1);
      [|by apply bucket_wf_shift|cbn; lia].
    cbn in Hmain1, Hle1, Hfull1.
    destruct (taskQueue s1) as [|j q1] eqn:Hq1.
    + rewrite launch_empty in Hlaunch by done. injection Hlaunch as <- <-.
      rewrite app_nil_r. split_and!; [done|done|lia|]. by rewrite Hq1.
    + pose proof (IH _ _ _ _ Hwf1 Hlaunch) as (Hwf2 & Hmain2 & Hle2 & Hfull2).
      rewrite app_assoc. split_and!; [done| |lia|].
      { destruct Hmain2 as [Hmain2|Hmain2]; [|by right]. by rewrite Hmain2. }
      intros Hne. rewrite Hfull2, Hfull1 by done. lia.
Qed.

Lemma bucket_idle s evs :
  bucket_wf cfg [] s evs → size (executing s) = length (pool s).
Proof.
  intros Hwf. rewrite (bw_executing _ _ _ _ Hwf). cbn.
  rewrite size_list_to_set; [by unfold bucket_inflight; rewrite length_fmap|].
  pose proof (bw_nodup _ _ _ _ Hwf) as Hnd. cbn in Hnd.
  by apply NoDup_app in Hnd as (_ & _ & Hnd).
Qed.

Lemma bucket_wf_main m s evs :
  bucket_wf cfg [] s evs → bucket_wf cfg [] (set_main m s) evs.
Proof.
  intros Hwf.
  by apply (bucket_wf_move [] _ s); [..|apply (bw_args _ _ _ _ Hwf)];
    [|done|done|apply (bw_executing _ _ _ _ Hwf)].
Qed.

Lemma poll_inv s evs0 s' evs :
  bucket_inv cfg s evs0 →
  poll s = (s', evs) →
  bucket_inv cfg s' (evs0 ++ evs).
Proof.
  intros Hinv. pose proof Hinv as [Hwf Hle Hfull Hret]. unfold poll.
  rewrite (bucket_idle _ _ Hwf).
  assert (∀ s1 evs1,
    (if (0 <? length (pool s))%nat
     then (set_main (Polling (clock s + 100)) s, @nil event)
     else (set_main (Returned (results s)) s, [EvReturn (clock s)])) = (s1, evs1) →
    bucket_inv cfg s1 (evs0 ++ evs1)) as Hlive.
  { intros s1 evs1.
    destruct (Nat.ltb_spec 0 (length (pool s))) as [Hpos|Hzero]; intros [= <- <-].
    - split; [|done|done|done]. by apply bucket_wf_events, bucket_wf_main.
    - split; [|done|done|].
      + by apply bucket_wf_events, bucket_wf_main.
      + cbn. intros res [= <-]. split; [done|]. apply nil_length_inv. lia. }
  destruct (main s); [by apply Hlive..|]. intros [= <- <-]. by rewrite app_nil_r.
Qed.

Lemma step_inv a s evs0 s' evs :
  bucket_inv cfg s evs0 →
  step cfg a s = Some (s', evs) →
  bucket_inv cfg s' (evs0 ++ evs).
Proof.
  intros Hinv Hstep. pose proof Hinv as [Hwf Hle Hfull Hret].
  assert (turn cfg a s = Some (s', evs)) as Hturn
    by (unfold step in Hstep; by destruct (main s)).
  clear Hstep. revert Hturn.
  destruct a as [d|k|k o|]; cbn [turn].
  - destruct (0 <? d); [|done]. intros [= <- <-]. split; [|done|done|done].
    apply bucket_wf_events.
    by apply (bucket_wf_move [] _ s); [..|apply (bw_args _ _ _ _ Hwf)];
      [|done|done|apply (bw_executing _ _ _ _ Hwf)].
  - destruct (pool s !! k) as [[i args due| |]|] eqn:Hk; [|done..].
    destruct (due <=? clock s); [|done]. intros Hstep%(inj Some).
    apply (executeTask_wake_wf _ _ _ _ _ evs0 _ _ Hwf Hk) in Hstep
      as (Hwf' & Hmain & Hq & Hlen).
    split; [done|lia|by rewrite Hq, Hlen|].
    intros res. rewrite Hmain. intros Hres. apply Hret in Hres as [_ Hnil].
    by rewrite Hnil in Hk.
  - destruct (pool s !! k) as [[|i args|]|] eqn:Hk; [done| |done..].
    intros Hstep%(inj Some).
    apply (executeTask_settle_wf _ _ _ _ _ evs0 _ _ Hwf Hk) in Hstep
      as (Hwf' & Hmain & Hle' & Hfull').
    split; [done|lia| |].
    + intros Hne. destruct (Hfull' Hne) as [Hne0 ->]. by apply Hfull.
    + intros res Hres. destruct Hmain as [Hmain|Hmain]; [|congruence].
      rewrite Hmain in Hres. apply Hret in Hres as [_ Hnil].
      by rewrite Hnil in Hk.
  - destruct (main s) as [due| |]; [|done..]. destruct (due <=? clock s); [|done].
    intros Hpoll%(inj Some). by apply (poll_inv s).
Qed.

Lemma run_inv acts : ∀ s evs0 s' evs,
  bucket_inv cfg s evs0 →
  run cfg acts s = Some (s', evs) →
  bucket_inv cfg s' (evs0 ++ evs).
Proof.
  induction acts as [|a acts IH]; intros s evs0 s' evs Hinv; cbn [run].
  - intros [= <- <-]. by rewrite app_nil_r.
  - destruct (step cfg a s) as [[s1 evs1]|] eqn:Hstep; [|done].
    destruct (run cfg acts s1) as [[s2 evs2]|] eqn:Hrun; [|done].
    intros [= <- <-]. rewrite app_assoc. eapply IH; [|done].
    by eapply step_inv.
Qed.

Lemma rpmControlledBatch_inv now s evs :
  rpmControlledBatch cfg now = (s, evs) → bucket_inv cfg s evs.
Proof.
  unfold rpmControlledBatch. cbn [taskQueue].
  set (s0 := Build_state _ _ _ _ _ _ _ _).
  destruct (launch cfg _ s0) as [s1 evs1] eqn:Hlaunch.
  destruct (poll s1) as [s2 evs2] eqn:Hpoll. intros [= <- <-].
  apply (poll_inv s1); [|done].
  apply (launch_wf _ _ []) in Hlaunch as (Hwf & Hmain & Hle & Hfull).
  - cbn in Hle, Hfull. rewrite length_seq in *.
    split; [done|done|done|]. by destruct Hmain as [-> | ->].
  - split; cbn.
    + by rewrite length_replicate.
    + rewrite app_nil_r. apply NoDup_seq.
    + done.
    + intros i. rewrite app_nil_r, elem_of_seq, lookup_replicate. naive_solver lia.
    + intros p Hp. by apply elem_of_nil in Hp.
    + intros i v Hi. by apply lookup_replicate in Hi as [? _].
Qed.

Lemma execution_inv now acts s evs :
  execution cfg now acts = Some (s, evs) → bucket_inv cfg s evs.
Proof.
  unfold execution.
  destruct (rpmControlledBatch cfg now) as [s0 evs0] eqn:Hcall.
  destruct (run cfg acts s0) as [[s1 evs1]|] eqn:Hrun; [|done].
  intros [= <- <-]. eapply run_inv; [|done]. by eapply rpmControlledBatch_inv.
Qed.

End BucketInvariant.

(** X22.  The fixed-bucket dispatcher called with a positive
    [maxConcurrent] returns an array with one entry for every task and
    no hole: the entry of a task is what its call settled with, wrapped
    in an [error] object on rejection, or the refusal of arguments that
    are not an array. *)
Theorem fixed_bucket_fills_every_entry (cfg : config) (now : Z)
    (acts : list FixedBucket.action) (s : FixedBucket.state)
    (evs : list FixedBucket.event) (res : list (option jsval)) :
  0 < maxConcurrent cfg →
  FixedBucket.execution cfg now acts = Some (s, evs) →
  FixedBucket.main s = Returned res →
  length res = length (fnArgs cfg) ∧
  ∀ i, (i < length (fnArgs cfg))%nat →
    ∃ v, res !! i = Some (Some v) ∧ bucket_settled cfg evs i v.
Proof.
  intros Hmax Hexec Hmain.
  destruct (execution_inv _ _ _ _ _ Hexec) as [Hwf Hle Hfull Hret].
  destruct (Hret _ Hmain) as [-> Hpool].
  pose proof (bw_length _ _ _ _ Hwf) as Hlen. split; [done|].
  assert (FixedBucket.taskQueue s = []) as Hq.
  { destruct (FixedBucket.taskQueue s) as [|j q] eqn:Hq; [done|]. exfalso.
    assert (j < length (fnArgs cfg))%nat as Hj.
    { rewrite <- Hlen. apply (lookup_lt_Some _ _ None).
      apply (bw_open _ _ _ _ Hwf). rewrite Hq. cbn. apply elem_of_cons. by left. }
    rewrite Hpool in Hfull. cbn in Hfull. unfold initialBatchSize in Hfull.
    specialize (Hfull ltac:(done)). lia. }
  intros i Hi. rewrite <- Hlen in Hi.
  apply lookup_lt_is_Some_2 in Hi as [[v|] Hv].
  - exists v. split; [done|]. by apply (bw_settled _ _ _ _ Hwf).
  - apply (bw_open _ _ _ _ Hwf) in Hv. rewrite Hq, Hpool in Hv. cbn in Hv.
    by apply elem_of_nil in Hv.
Qed.

Lemma fixed_bucket_fills_every_entry_witness :
  ∃ s evs res,
    0 < maxConcurrent bucket_cfg ∧
    FixedBucket.execution bucket_cfg 0 bucket_acts = Some (s, evs) ∧
    FixedBucket.main s = Returned res ∧
    res = [Some (JStr "A"); Some (JObj [("error"%string, bad_args_error)]);
           Some (JObj [("error"%string, JStr "no")])] ∧
    length res = length (fnArgs bucket_cfg) ∧
    ∀ i, (i < length (fnArgs bucket_cfg))%nat →
      ∃ v, res !! i = Some (Some v) ∧ bucket_settled bucket_cfg evs i v.
Proof.
  eexists _, _, _.
  assert (0 < maxConcurrent bucket_cfg) as Hmax by done.
  split; [done|]. split; [vm_compute; reflexivity|]. split; [reflexivity|].
  split; [reflexivity|].
  eapply (fixed_bucket_fills_every_entry bucket_cfg 0 bucket_acts);
    [done|vm_compute; reflexivity|reflexivity].
Defined.



(** ** The options of a call *)





